(** * The temporal signal pipeline of the driving world model

    A shallow embedding of [src/temporal_smoothing.py],
    [src/segment_world_state.py] and [src/build_state_and_planner.py]:
    majority-vote smoothing, GO re-injection, run segmentation, the state
    classifier, segment linking and the planner table, together with the
    three stage drivers ([main]) over an abstract table store; and, of the
    code around them, the parser of the model's answers
    ([src/vlm_infer.py]) and the segment lookup of the overlay
    ([src/overlay_world_state.py]).

    Conventions.
    - A Python [str] is the list of its Unicode code points ([list N]).
    - A cell of a row dictionary is a [value]: a string, an integer or [None].
    - A row dictionary is an insertion-ordered association list.
    - Row objects that the code mutates or copies live in a [heap]; a row
      list is a list of references into it.
    - Code that may raise returns a [result]. *)

From Stdlib Require Import ZArith NArith List Lia Ascii String DecimalString DecimalZ Sorted Permutation.
From stdpp Require Import list strings gmap.

Open Scope string_scope.
Open Scope list_scope.

(* ================================================================== *)
(** * Part I: the embedding                                            *)
(* ================================================================== *)

(** ** Python strings *)

Abbreviation pystr := (list N).

(** A source literal, as code points. *)
Definition lit (s : string) : pystr := map N_of_ascii (list_ascii_of_string s).

(** [str.isspace] on one code point, as [str.strip()] uses it: the ASCII
    table 0x09-0x0D, 0x1C-0x20 and the Unicode white space above it. *)
Definition isspace (c : N) : bool :=
  ((9 <=? c) && (c <=? 13) || (28 <=? c) && (c <=? 32)
   || (c =? 133) || (c =? 160) || (c =? 5760)
   || (8192 <=? c) && (c <=? 8202)
   || (c =? 8232) || (c =? 8233) || (c =? 8239) || (c =? 8287)
   || (c =? 12288))%N.

Fixpoint lstrip (s : pystr) : pystr :=
  match s with
  | [] => []
  | c :: t => if isspace c then lstrip t else s
  end.

Definition rstrip (s : pystr) : pystr := rev (lstrip (rev s)).

(** [s.strip()]: white space removed at both ends. *)
Definition strip (s : pystr) : pystr := rstrip (lstrip s).

(** [a == b] on strings. *)
Definition str_eqb (a b : pystr) : bool := bool_decide (a = b).
Infix "==" := str_eqb (at level 70, no associativity).

(** ** Values, exceptions, results *)

Inductive value : Type :=
  | VStr (s : pystr)
  | VInt (z : Z)
  | VNone.

#[global] Instance value_eq_dec : EqDecision value.
Proof. solve_decision. Defined.

(** Truth value of an object: non-empty string, non-zero integer. *)
Definition truthy (v : value) : bool :=
  match v with
  | VStr [] => false
  | VStr _ => true
  | VInt z => negb (z =? 0)%Z
  | VNone => false
  end.

Inductive exn : Type :=
  | KeyError | AttributeError | TypeError | ValueError | IndexError
  | RuntimeError | FileNotFoundError
  | InvalidRef (* not a Python exception: a reference to no object, which
                  no Python program can hold *).

Inductive result (A : Type) : Type :=
  | Ok (a : A)
  | Raise (e : exn).
Arguments Ok {A} a.
Arguments Raise {A} e.

#[global] Instance result_ret : MRet result := fun A a => Ok a.
#[global] Instance result_bind : MBind result := fun A B f m =>
  match m with
  | Ok a => f a
  | Raise e => Raise e
  end.

(** [v.strip()] on an arbitrary object: only strings have the method. *)
Definition py_strip (v : value) : result pystr :=
  match v with
  | VStr s => Ok (strip s)
  | _ => Raise AttributeError
  end.

(** ** Dictionaries (insertion ordered) *)

Abbreviation dict := (list (pystr * value)).

Fixpoint dict_get (d : dict) (k : pystr) : option value :=
  match d with
  | [] => None
  | (k', v) :: t => if k' == k then Some v else dict_get t k
  end.

(** [d[k] = v]: overwrite in place, or append a new key. *)
Fixpoint dict_set (d : dict) (k : pystr) (v : value) : dict :=
  match d with
  | [] => [(k, v)]
  | (k', v') :: t => if k' == k then (k', v) :: t else (k', v') :: dict_set t k v
  end.

(** [d[k]] *)
Definition getitem (d : dict) (k : pystr) : result value :=
  match dict_get d k with
  | Some v => Ok v
  | None => Raise KeyError
  end.

(** [d.get(k, dflt)] *)
Definition get_or (d : dict) (k : pystr) (dflt : value) : value :=
  match dict_get d k with
  | Some v => v
  | None => dflt
  end.

(** [d.update(e)] *)
Definition dict_update (d e : dict) : dict :=
  fold_left (fun acc kv => dict_set acc (fst kv) (snd kv)) e d.

(** [list(d.keys())] *)
Definition dict_keys (d : dict) : list pystr := map fst d.

(** ** StateClassifier: [map_world_to_state] *)

Definition map_world_to_state (a y l : pystr) : pystr :=
  let a := strip a in
  let y := strip y in
  let l := strip l in
  if y == lit "ped" then
    if a == lit "stop" then lit "STOP_PED" else lit "YIELD_PED"
  else if y == lit "lead" then
    if l == lit "stopped" then
      if a == lit "stop" then lit "STOP_LEAD" else lit "FOLLOW_QUEUE"
    else
      if a == lit "go" then lit "GO_FOLLOW" else lit "FOLLOW_QUEUE"
  else if (a == lit "go") && (y == lit "none") then
    if (l == lit "none") || (l == lit "") then lit "GO_FREE" else lit "GO"
  else if (a == lit "wait") && (y == lit "none") then lit "NEGOTIATE"
  else lit "UNKNOWN".

(** The call [map_world_to_state(a, y, l)] on dynamically typed cells: the
    first [.strip()] on a non-string raises. *)
Definition call_map_world_to_state (a y l : value) : result pystr :=
  match a, y, l with
  | VStr a, VStr y, VStr l => Ok (map_world_to_state a y l)
  | _, _, _ => Raise AttributeError
  end.

(** ** PlannerSynthesizer: [map_state_to_planner] *)

(** The dictionary literal that every branch returns. *)
Definition planner_record (cmd reason target until : string) : dict :=
  [ (lit "planner_cmd", VStr (lit cmd));
    (lit "reason", VStr (lit reason));
    (lit "target", VStr (lit target));
    (lit "until", VStr (lit until)) ].

Definition map_state_to_planner (state : pystr) : dict :=
  let state := strip state in
  if state == lit "FOLLOW_QUEUE" then
    planner_record "FOLLOW" "traffic_queue" "lead" "lead_moves"
  else if state == lit "GO_FOLLOW" then
    planner_record "GO" "lead_moving" "lead" "constraint_reappears"
  else if (state == lit "GO_FREE") || (state == lit "GO") then
    planner_record "GO" "corridor_clear" "" "constraint_reappears"
  else if state == lit "YIELD_PED" then
    planner_record "WAIT" "pedestrian_in_path" "ped" "ped_clears"
  else if state == lit "STOP_PED" then
    planner_record "STOP" "pedestrian_blocking" "ped" "ped_clears"
  else if state == lit "STOP_LEAD" then
    planner_record "STOP" "lead_vehicle_stopped" "lead" "lead_moves"
  else if state == lit "NEGOTIATE" then
    planner_record "WAIT" "negotiating_gap" "" "scene_resolves"
  else
    planner_record "WAIT" "unknown_state" "" "state_resolved".

(** ** The classifier and the planner table as the specification words them *)

(** First matching rule wins; [dflt] when none matches. *)
Fixpoint first_match {A} (rules : list (bool * A)) (dflt : A) : A :=
  match rules with
  | [] => dflt
  | (g, r) :: rest => if g then r else first_match rest dflt
  end.

(** The priority-ordered rules of the classifier, on the strings as given. *)
Definition classify_rules (affordance yield_to lead_state : pystr) : pystr :=
  first_match
    [ (yield_to == lit "ped",
       if affordance == lit "stop" then lit "STOP_PED" else lit "YIELD_PED");
      ((yield_to == lit "lead") && (lead_state == lit "stopped"),
       if affordance == lit "stop" then lit "STOP_LEAD" else lit "FOLLOW_QUEUE");
      (yield_to == lit "lead",
       if affordance == lit "go" then lit "GO_FOLLOW" else lit "FOLLOW_QUEUE");
      ((affordance == lit "go") && (yield_to == lit "none"),
       if (lead_state == lit "none") || (lead_state == lit "")
       then lit "GO_FREE" else lit "GO");
      ((affordance == lit "wait") && (yield_to == lit "none"), lit "NEGOTIATE") ]
    (lit "UNKNOWN").

(** The nine symbolic states. *)
Definition all_states : list pystr :=
  map lit [ "STOP_PED"; "YIELD_PED"; "STOP_LEAD"; "FOLLOW_QUEUE"; "GO_FOLLOW";
            "GO_FREE"; "GO"; "NEGOTIATE"; "UNKNOWN" ].

(** The fixed planner table, one row per named state. *)
Definition planner_table : list (pystr * dict) :=
  [ (lit "FOLLOW_QUEUE", planner_record "FOLLOW" "traffic_queue" "lead" "lead_moves");
    (lit "GO_FOLLOW", planner_record "GO" "lead_moving" "lead" "constraint_reappears");
    (lit "GO_FREE", planner_record "GO" "corridor_clear" "" "constraint_reappears");
    (lit "GO", planner_record "GO" "corridor_clear" "" "constraint_reappears");
    (lit "YIELD_PED", planner_record "WAIT" "pedestrian_in_path" "ped" "ped_clears");
    (lit "STOP_PED", planner_record "STOP" "pedestrian_blocking" "ped" "ped_clears");
    (lit "STOP_LEAD", planner_record "STOP" "lead_vehicle_stopped" "lead" "lead_moves");
    (lit "NEGOTIATE", planner_record "WAIT" "negotiating_gap" "" "scene_resolves") ].

(** Table lookup on the state as given; the last row of the table (anything
    else, including UNKNOWN) is the default. *)
Definition planner_lookup (state : pystr) : dict :=
  first_match (map (fun row => (state == fst row, snd row)) planner_table)
    (planner_record "WAIT" "unknown_state" "" "state_resolved").

(** ** SignalSmoother: [majority_vote] *)

(** [collections.Counter]: the counts in first-occurrence order of the
    elements, as the underlying dictionary keeps them. *)
Fixpoint counter_incr (x : value) (c : list (value * nat)) : list (value * nat) :=
  match c with
  | [] => [(x, 1)]
  | (y, n) :: t =>
      if bool_decide (y = x) then (y, S n) :: t else (y, n) :: counter_incr x t
  end.

Definition Counter (l : list value) : list (value * nat) :=
  fold_left (fun c x => counter_incr x c) l [].

(** [max(items, key=count)]: the running best is replaced only by a strictly
    larger count, so the first maximal item is kept. *)
Definition max_by_count (items : list (value * nat)) : option (value * nat) :=
  fold_left
    (fun best it =>
       match best with
       | None => Some it
       | Some b => if (snd b <? snd it)%nat then Some it else Some b
       end)
    items None.

(** [counts.most_common(1)]: for one item [heapq.nlargest] is [max]. *)
Definition most_common_1 (c : list (value * nat)) : list (value * nat) :=
  match max_by_count c with
  | Some it => [it]
  | None => []
  end.

Definition majority_vote (values : list value) : result value :=
  let non_empty := List.filter truthy values in
  match non_empty with
  | [] => Ok (VStr (lit ""))
  | _ :: _ =>
      let counts := Counter non_empty in
      match most_common_1 counts with
      | it :: _ => Ok (fst it)
      | [] => Raise IndexError
      end
  end.

(** ** The object store *)

Abbreviation loc := nat.
Abbreviation heap := (list dict).

(** Computations that read and write row objects and may raise. *)
Definition M (A : Type) : Type := heap -> result (A * heap).

#[global] Instance M_ret : MRet M := fun A a h => Ok (a, h).
#[global] Instance M_bind : MBind M := fun A B f m h =>
  match m h with
  | Ok (a, h') => f a h'
  | Raise e => Raise e
  end.

Definition lift {A} (r : result A) : M A := fun h =>
  match r with
  | Ok a => Ok (a, h)
  | Raise e => Raise e
  end.

Definition deref (r : loc) : M dict := fun h =>
  match h !! r with
  | Some d => Ok (d, h)
  | None => Raise InvalidRef
  end.

(** [dict(d)] and dictionary displays: a new object. *)
Definition alloc (d : dict) : M loc := fun h => Ok (length h, h ++ [d]).

(** [r[k] = v] on the object [r] refers to. *)
Definition setitem (r : loc) (k : pystr) (v : value) : M unit := fun h =>
  match h !! r with
  | Some d => Ok (tt, <[r := dict_set d k v]> h)
  | None => Raise InvalidRef
  end.

(** [r[k]] on the object [r] refers to. *)
Definition getitem_at (r : loc) (k : pystr) : M value :=
  d ← deref r; lift (getitem d k).

(** ** Sequences *)

(** [range(n)] *)
Definition range (n : nat) : list Z := map Z.of_nat (seq 0 n).

(** One bound of a slice, normalised as [list.__getitem__] does: negative
    bounds count from the end, and both are clipped to the list. *)
Definition slice_bound (n i : Z) : Z :=
  if (i <? 0)%Z then Z.max 0 (i + n) else Z.min i n.

(** [l[start:stop]] *)
Definition py_slice {A} (l : list A) (start stop : Z) : list A :=
  let n := Z.of_nat (length l) in
  let s := slice_bound n start in
  let e := slice_bound n stop in
  take (Z.to_nat (e - s)) (drop (Z.to_nat s) l).

(** [l[i]] for [0 <= i]. *)
Definition py_index {A} (l : list A) (i : Z) : result A :=
  match l !! Z.to_nat i with
  | Some x => Ok x
  | None => Raise IndexError
  end.

(** ** SignalSmoother: [smooth_sequence] *)

(** [x or y], with [y] evaluated only when [x] is false. *)
Definition py_or (x : value) (y : M value) : M value :=
  if truthy x then mret x else y.

(** The body of the loop over [i]. *)
Definition smooth_row (rows : list loc) (n half : Z) (i : Z) : M loc :=
  let start := Z.max 0 (i - half) in
  let end_ := Z.min (n - 1) (i + half) in
  let window_rows := py_slice rows start (end_ + 1) in
  aff_vals ← mapM (fun r => getitem_at r (lit "affordance")) window_rows;
  y_vals ← mapM (fun r => getitem_at r (lit "yield_to")) window_rows;
  lead_vals ← mapM (fun r => getitem_at r (lit "lead_state")) window_rows;
  aff_s ← lift (majority_vote aff_vals);
  y_s ← lift (majority_vote y_vals);
  lead_s ← lift (majority_vote lead_vals);
  r_i ← lift (py_index rows i);
  d ← deref r_i;
  row ← alloc d;
  v ← py_or aff_s (getitem_at row (lit "affordance"));
  setitem row (lit "affordance_smoothed") v;;
  v ← py_or y_s (getitem_at row (lit "yield_to"));
  setitem row (lit "yield_to_smoothed") v;;
  v ← py_or lead_s (getitem_at row (lit "lead_state"));
  setitem row (lit "lead_state_smoothed") v;;
  mret row.

Definition smooth_sequence (rows : list loc) (window : Z) : M (list loc) :=
  let n := length rows in
  let half := (window / 2)%Z in
  mapM (smooth_row rows (Z.of_nat n) half) (range n).

(** ** Built-in conversions and ordering *)

(** [str(z)] for an integer: its decimal text. *)
Definition str_of_int (z : Z) : pystr :=
  lit (DecimalString.NilZero.string_of_int (Z.to_int z)).

(** What [csv] writes for a cell: strings as they are, integers in decimal,
    [None] as the empty string. *)
Definition render (v : value) : value :=
  match v with
  | VStr s => VStr s
  | VInt z => VStr (str_of_int z)
  | VNone => VStr (lit "")
  end.

(** [s < t] on strings: lexicographic on code points. *)
Fixpoint str_ltb (s t : pystr) : bool :=
  match s, t with
  | _, [] => false
  | [], _ :: _ => true
  | c :: s', d :: t' => (c <? d)%N || ((c =? d)%N && str_ltb s' t')
  end.

(** [a < b] as [sorted] evaluates it; integers and strings do not compare. *)
Definition value_lt (a b : value) : result bool :=
  match a, b with
  | VInt x, VInt y => Ok (x <? y)%Z
  | VStr s, VStr t => Ok (str_ltb s t)
  | _, _ => Raise TypeError
  end.

(** [sorted] is stable and compares with [<] only: an element goes in front
    of the first later element that is not smaller than it. *)
Fixpoint sort_insert {A} (x : value * A) (l : list (value * A)) : result (list (value * A)) :=
  match l with
  | [] => Ok [x]
  | y :: t =>
      b ← value_lt (fst y) (fst x);
      if b : bool then t' ← sort_insert x t; mret (y :: t') else mret (x :: y :: t)
  end.

Fixpoint sort_keyed {A} (l : list (value * A)) : result (list (value * A)) :=
  match l with
  | [] => Ok []
  | x :: t => t' ← sort_keyed t; sort_insert x t'
  end.

(** [sorted(l, key=key)]: the keys are computed first, then compared. *)
Definition sorted_by {A} (key : A -> result value) (l : list A) : result (list A) :=
  keys ← mapM key l;
  s ← sort_keyed (zip keys l);
  mret (map snd s).

(** [by_key.setdefault(k, []).append(x)]: groups in first-occurrence order
    of their key, members in input order. *)
Fixpoint group_add {A} (k : value) (x : A) (g : list (value * list A)) : list (value * list A) :=
  match g with
  | [] => [(k, [x])]
  | (k', xs) :: t =>
      if bool_decide (k' = k) then (k', xs ++ [x]) :: t else (k', xs) :: group_add k x t
  end.

Fixpoint group_loop {A} (key : A -> result value) (l : list A) (g : list (value * list A))
  : result (list (value * list A)) :=
  match l with
  | [] => Ok g
  | x :: t => k ← key x; group_loop key t (group_add k x g)
  end.

Definition group_by {A} (key : A -> result value) (l : list A) : result (list (value * list A)) :=
  group_loop key l [].

(** ** Segmenter, phase view: [segment_clip] and [infer_phase] *)

Definition phase_key (r : dict) : result (value * value * value) :=
  a ← getitem r (lit "affordance_smoothed");
  y ← getitem r (lit "yield_to_smoothed");
  l ← getitem r (lit "lead_state_smoothed");
  mret (a, y, l).

(** The dictionary display appended for a closed run. *)
Definition phase_segment (current_start current_end : value) (current_key : value * value * value) : dict :=
  [ (lit "start", current_start);
    (lit "end", current_end);
    (lit "affordance", current_key.1.1);
    (lit "yield_to", current_key.1.2);
    (lit "lead_state", current_key.2) ].

(** [v + 1] *)
Definition py_succ (v : value) : result value :=
  match v with
  | VInt z => Ok (VInt (z + 1))
  | _ => Raise TypeError
  end.

(** The loop over [rows[1:]]. *)
Fixpoint segment_clip_loop (rows : list dict) (current_start current_end : value)
    (current_key : value * value * value) (segments : list dict) : result (list dict) :=
  match rows with
  | [] => Ok (segments ++ [phase_segment current_start current_end current_key])
  | r :: rest =>
      k ← phase_key r;
      fi ← getitem r (lit "frame_index");
      same ← (if bool_decide (k = current_key)
              then e1 ← py_succ current_end; mret (bool_decide (fi = e1))
              else mret false);
      if same : bool
      then segment_clip_loop rest current_start fi current_key segments
      else segment_clip_loop rest fi fi k
             (segments ++ [phase_segment current_start current_end current_key])
  end.

Definition segment_clip (rows : list dict) : result (list dict) :=
  match rows with
  | [] => Ok []
  | r0 :: rest =>
      current_start ← getitem r0 (lit "frame_index");
      current_end ← getitem r0 (lit "frame_index");
      current_key ← phase_key r0;
      segment_clip_loop rest current_start current_end current_key []
  end.

Definition infer_phase (seg : dict) : result pystr :=
  a ← getitem seg (lit "affordance");
  y ← getitem seg (lit "yield_to");
  l ← getitem seg (lit "lead_state");
  let eq s (v : value) := bool_decide (v = VStr (lit s)) in
  if eq "stop" a then
    if eq "ped" y then mret (lit "STOP for pedestrian")
    else if eq "lead" y then mret (lit "STOP behind vehicle")
    else mret (lit "STOP")
  else if eq "wait" a then
    if eq "ped" y then mret (lit "YIELD to pedestrian")
    else if eq "lead" y then mret (lit "FOLLOW / queue")
    else mret (lit "WAIT")
  else if eq "go" a then
    if eq "lead" y && eq "moving" l then mret (lit "FOLLOW moving lead")
    else mret (lit "GO")
  else mret (lit "UNKNOWN").

(** [enumerate(l)] *)
Definition enumerate {A} (l : list A) : list (Z * A) := zip (range (length l)) l.

(** The row that [segment_world_state.main] writes for one segment. *)
Definition phase_row (clip : value) (seg_id : Z) (seg : dict) : result dict :=
  phase ← infer_phase seg;
  s ← getitem seg (lit "start");
  e ← getitem seg (lit "end");
  a ← getitem seg (lit "affordance");
  y ← getitem seg (lit "yield_to");
  l ← getitem seg (lit "lead_state");
  mret [ (lit "clip", clip); (lit "segment_id", VInt seg_id);
         (lit "start", s); (lit "end", e);
         (lit "affordance", a); (lit "yield_to", y); (lit "lead_state", l);
         (lit "phase", VStr phase) ].

(** The body of the loop over clips in [segment_world_state.main], up to the
    rows handed to the writer. *)
Definition phase_rows_of_clip (clip : value) (clip_rows : list dict) : result (list dict) :=
  clip_rows ← sorted_by (fun r => getitem r (lit "frame_index")) clip_rows;
  segments ← segment_clip clip_rows;
  mapM (fun p => phase_row clip (fst p) (snd p)) (enumerate segments).

(** ** The table store *)

(** A CSV file under [data/predictions]: its header and the row dictionaries
    that [csv.DictReader] yields for it. *)
Record table : Type := { fieldnames : list pystr; records : list dict }.

Abbreviation fs := (gmap string table).

(** Driver code: reads and writes tables; a raised exception leaves the
    files as they are at that point. *)
Definition IO (A : Type) : Type := fs -> result A * fs.

#[global] Instance IO_ret : MRet IO := fun A a s => (Ok a, s).
#[global] Instance IO_bind : MBind IO := fun A B f m s =>
  match m s with
  | (Ok a, s') => f a s'
  | (Raise e, s') => (Raise e, s')
  end.

Definition liftIO {A} (r : result A) : IO A := fun s => (r, s).

Definition raise {A} (e : exn) : IO A := fun s => (Raise e, s).

(** [path.exists()] *)
Definition path_exists (path : string) : IO bool := fun s =>
  (Ok (bool_decide (is_Some (s !! path))), s).

(** [list(csv.DictReader(f))] *)
Definition read_rows (path : string) : IO (list dict) := fun s =>
  match s !! path with
  | Some t => (Ok (records t), s)
  | None => (Raise FileNotFoundError, s)
  end.

(** [open(path, "w")] followed by [writer.writeheader()]. *)
Definition open_write (path : string) (fields : list pystr) : IO unit := fun s =>
  (Ok tt, <[path := {| fieldnames := fields; records := [] |}]> s).

(** The check and projection of [csv.DictWriter.writerow]: keys outside the
    header raise, missing keys are written empty. *)
Definition writer_row (fields : list pystr) (r : dict) : result dict :=
  if forallb (fun k => existsb (str_eqb k) fields) (dict_keys r)
  then Ok (map (fun k => (k, render (get_or r k (VStr (lit ""))))) fields)
  else Raise ValueError.

(** The row reaches the open file. *)
Definition append_record (path : string) (row : dict) : IO unit := fun s =>
  match s !! path with
  | Some t => (Ok tt, <[path := {| fieldnames := fieldnames t;
                                   records := records t ++ [row] |}]> s)
  | None => (Raise FileNotFoundError, s)
  end.

(** [writer.writerow(r)] on the file opened at [path]. *)
Definition writerow (path : string) (fields : list pystr) (r : dict) : IO unit :=
  row ← liftIO (writer_row fields r);
  append_record path row.

Fixpoint writerows (path : string) (fields : list pystr) (rows : list dict) : IO unit :=
  match rows with
  | [] => mret tt
  | r :: rest => writerow path fields r;; writerows path fields rest
  end.

Section WithInt.

(** [int(s)] on a string is left abstract: [None] stands for [ValueError]. *)
Variable int_of_str : pystr -> option Z.

(** [int(v)] *)
Definition py_int (v : value) : result Z :=
  match v with
  | VInt z => Ok z
  | VStr s => match int_of_str s with Some z => Ok z | None => Raise ValueError end
  | VNone => Raise TypeError
  end.

(** ** GoReinjector: [reinject_go_short] *)

(** The body of the loop over [smoothed_rows]. *)
Definition reinject_row (raw_map : gmap (pystr * Z) dict) (row : loc) : M loc :=
  d ← deref row;
  clip ← lift (getitem d (lit "clip") ≫= py_strip);
  fi ← lift (getitem d (lit "frame_index") ≫= py_int);
  let key := (clip, fi) in
  a_sm ← lift (py_strip (get_or d (lit "affordance_smoothed")
                           (get_or d (lit "affordance") (VStr (lit "")))));
  y_sm ← lift (py_strip (get_or d (lit "yield_to_smoothed")
                           (get_or d (lit "yield_to") (VStr (lit "")))));
  l_sm ← lift (py_strip (get_or d (lit "lead_state_smoothed")
                           (get_or d (lit "lead_state") (VStr (lit "")))));
  final ← lift
    match raw_map !! key with
    | Some raw =>
        a_raw ← getitem raw (lit "affordance");
        y_raw ← getitem raw (lit "yield_to");
        l_raw ← getitem raw (lit "lead_state");
        if bool_decide (a_raw = VStr (lit "go"))
           && negb (a_sm == lit "go")
           && negb (y_sm == lit "ped")
           && negb (bool_decide (y_raw = VStr (lit "ped")))
        then mret (a_raw, y_raw, l_raw)
        else mret (VStr a_sm, VStr y_sm, VStr l_sm)
    | None => mret (VStr a_sm, VStr y_sm, VStr l_sm)
    end;
  let '(a_final, y_final, l_final) := final in
  setitem row (lit "affordance_final") a_final;;
  setitem row (lit "yield_to_final") y_final;;
  setitem row (lit "lead_state_final") l_final;;
  mret row.

Definition reinject_go_short (raw_map : gmap (pystr * Z) dict) (smoothed_rows : list loc)
  : M (list loc) :=
  mapM (reinject_row raw_map) smoothed_rows.

(** ** Segmenter, state view: [segment_states] *)

(** The dictionary display appended for a closed run of one state. *)
Definition state_segment (clip : value) (seg_id : Z) (current_start current_end : Z)
    (current_state : pystr) (current_aff current_y current_l : value) : dict :=
  [ (lit "clip", clip);
    (lit "segment_id", VInt seg_id);
    (lit "start_frame", VInt current_start);
    (lit "end_frame", VInt current_end);
    (lit "state", VStr current_state);
    (lit "affordance", current_aff);
    (lit "yield_to", current_y);
    (lit "lead_state", current_l) ].

(** The open run: [current_state], [current_start], [current_end] and the
    canonical triple, which the code sets together. [None] is the initial
    [current_state is None]. *)
Record open_run : Type := {
  current_state : pystr;
  current_start : Z;
  current_end : Z;
  current_aff : value;
  current_y : value;
  current_l : value
}.

Definition close_run (clip : value) (seg_id : Z) (c : open_run) : dict :=
  state_segment clip seg_id (current_start c) (current_end c) (current_state c)
    (current_aff c) (current_y c) (current_l c).

(** The loop over one clip's sorted rows, then "close last". *)
Fixpoint segment_states_loop (clip : value) (clip_rows : list dict)
    (cur : option open_run) (seg_id : Z) (segments : list dict) : result (list dict) :=
  match clip_rows with
  | [] =>
      match cur with
      | Some c => Ok (segments ++ [close_run clip seg_id c])
      | None => Ok segments
      end
  | r :: rest =>
      fi ← getitem r (lit "frame_index") ≫= py_int;
      a ← getitem r (lit "affordance_final");
      y ← getitem r (lit "yield_to_final");
      l ← getitem r (lit "lead_state_final");
      s ← call_map_world_to_state a y l;
      let fresh := {| current_state := s; current_start := fi; current_end := fi;
                      current_aff := a; current_y := y; current_l := l |} in
      match cur with
      | None => segment_states_loop clip rest (Some fresh) seg_id segments
      | Some c =>
          if (s == current_state c) && (fi =? current_end c + 1)%Z
          then segment_states_loop clip rest
                 (Some {| current_state := current_state c;
                          current_start := current_start c;
                          current_end := fi;
                          current_aff := current_aff c;
                          current_y := current_y c;
                          current_l := current_l c |})
                 seg_id segments
          else segment_states_loop clip rest (Some fresh) (seg_id + 1)
                 (segments ++ [close_run clip seg_id c])
      end
  end.

(** The body of the loop over clips: sort, then segment from [seg_id = 0]. *)
Definition segment_states_clip (clip : value) (clip_rows : list dict) : result (list dict) :=
  clip_rows ← sorted_by (fun r => getitem r (lit "frame_index")) clip_rows;
  segment_states_loop clip clip_rows None 0 [].

Definition segment_states (rows : list dict) : result (list dict) :=
  by_clip ← group_by (fun r => getitem r (lit "clip")) rows;
  per_clip ← mapM (fun g => segment_states_clip (fst g) (snd g)) by_clip;
  mret (concat per_clip).

(** ** SegmentLinker: [add_prev_next] *)

(** The body of the loop over [enumerate(clip_segs)]. *)
Definition link_segment (clip_segs : list dict) (n : Z) (i : Z) (seg : dict) : result dict :=
  prev_state ← (if (0 <? i)%Z
                then s ← py_index clip_segs (i - 1); getitem s (lit "state")
                else mret (VStr (lit "")));
  next_state ← (if (i <? n - 1)%Z
                then s ← py_index clip_segs (i + 1); getitem s (lit "state")
                else mret (VStr (lit "")));
  mret (dict_set (dict_set seg (lit "prev_state") prev_state) (lit "next_state") next_state).

Definition add_prev_next (segments : list dict) : result (list dict) :=
  by_clip ← group_by (fun seg => getitem seg (lit "clip")) segments;
  per_clip ← mapM (fun g =>
      clip_segs ← sorted_by (fun s => getitem s (lit "segment_id")) (snd g);
      let n := Z.of_nat (length clip_segs) in
      mapM (fun p => link_segment clip_segs n (fst p) (snd p)) (enumerate clip_segs))
    by_clip;
  mret (concat per_clip).

(** ** The stage drivers *)

(** [r["frame_index"] = int(r["frame_index"])] *)
Definition normalize_frame_index (r : dict) : result dict :=
  z ← getitem r (lit "frame_index") ≫= py_int;
  mret (dict_set r (lit "frame_index") (VInt z)).

(** A computation on a snapshot of the store. *)
Definition reading {A} (f : heap -> result A) : M A := fun h =>
  match f h with
  | Ok a => Ok (a, h)
  | Raise e => Raise e
  end.

Definition field_at (k : pystr) (h : heap) (r : loc) : result value :=
  match h !! r with
  | Some d => getitem d k
  | None => Raise InvalidRef
  end.

(** *** [temporal_smoothing.main] *)

Definition INPUT_FILENAME : string := "world_state_claude.csv".
Definition OUTPUT_FILENAME : string := "world_state_claude_smoothed.csv".

(** The loop over [by_clip.items()]: sort each clip, smooth it with
    [window=3], extend [all_smoothed]. *)
Fixpoint smooth_clips (by_clip : list (value * list loc)) (all_smoothed : list loc)
  : M (list loc) :=
  match by_clip with
  | [] => mret all_smoothed
  | (clip, clip_rows) :: rest =>
      clip_rows_sorted ← reading (fun h => sorted_by (field_at (lit "frame_index") h) clip_rows);
      smoothed_rows ← smooth_sequence clip_rows_sorted 3;
      smooth_clips rest (all_smoothed ++ smoothed_rows)
  end.

(** Everything between reading the input and opening the output: the
    header and the rows to write. *)
Definition smoothing_rows (rows : list dict) : result (list pystr * list dict) :=
  rows ← mapM normalize_frame_index rows;
  let h : heap := rows in
  let refs := seq 0 (length rows) in
  by_clip ← group_by (field_at (lit "clip") h) refs;
  '(all_smoothed, h') ← smooth_clips by_clip [] h;
  out ← mapM (fun r => match h' !! r with Some d => Ok d | None => Raise InvalidRef end)
          all_smoothed;
  r0 ← py_index rows 0;
  let base_fields := dict_keys r0 in
  let extra_fields := [lit "affordance_smoothed"; lit "yield_to_smoothed";
                       lit "lead_state_smoothed"] in
  mret (base_fields ++ extra_fields, out).

Definition smoothing_main : IO unit :=
  ex ← path_exists INPUT_FILENAME;
  if negb ex then raise FileNotFoundError else
  rows ← read_rows INPUT_FILENAME;
  match rows with
  | [] => raise RuntimeError
  | _ :: _ =>
      '(fields, all_smoothed) ← liftIO (smoothing_rows rows);
      open_write OUTPUT_FILENAME fields;;
      writerows OUTPUT_FILENAME fields all_smoothed
  end.

(** *** [segment_world_state.main] *)

Definition SEGMENTS_FILENAME : string := "world_state_segments.csv".

Definition load_smoothed_rows (path : string) : IO (list dict) :=
  rows ← read_rows path;
  liftIO (mapM normalize_frame_index rows).

Definition segment_fieldnames : list pystr :=
  map lit ["clip"; "segment_id"; "start"; "end"; "affordance"; "yield_to";
           "lead_state"; "phase"].

(** The loop over [by_clip.items()], inside the open output file. *)
Fixpoint write_clip_segments (by_clip : list (value * list dict)) : IO unit :=
  match by_clip with
  | [] => mret tt
  | (clip, clip_rows) :: rest =>
      out ← liftIO (phase_rows_of_clip clip clip_rows);
      writerows SEGMENTS_FILENAME segment_fieldnames out;;
      write_clip_segments rest
  end.

Definition segment_main : IO unit :=
  ex ← path_exists OUTPUT_FILENAME;
  if negb ex then raise FileNotFoundError else
  rows ← load_smoothed_rows OUTPUT_FILENAME;
  by_clip ← liftIO (group_by (fun r => getitem r (lit "clip")) rows);
  open_write SEGMENTS_FILENAME segment_fieldnames;;
  write_clip_segments by_clip.

(** *** [build_state_and_planner.main] *)

Definition FINAL_FILENAME : string := "world_state_final.csv".
Definition MACHINE_FILENAME : string := "world_state_machine.csv".
Definition PLANNER_FILENAME : string := "planner_commands.csv".

Fixpoint load_raw_loop (rows : list dict) (raw : gmap (pystr * Z) dict)
  : result (gmap (pystr * Z) dict) :=
  match rows with
  | [] => Ok raw
  | row :: rest =>
      clip ← getitem row (lit "clip") ≫= py_strip;
      fi ← getitem row (lit "frame_index") ≫= py_int;
      let key := (clip, fi) in
      a ← getitem row (lit "affordance") ≫= py_strip;
      y ← getitem row (lit "yield_to") ≫= py_strip;
      l ← getitem row (lit "lead_state") ≫= py_strip;
      load_raw_loop rest
        (<[key := [ (lit "affordance", VStr a); (lit "yield_to", VStr y);
                    (lit "lead_state", VStr l) ]]> raw)
  end.

Definition load_raw_world (path : string) : IO (gmap (pystr * Z) dict) :=
  rows ← read_rows path;
  liftIO (load_raw_loop rows ∅).

Definition load_smoothed_world (path : string) : IO (list dict) :=
  rows ← read_rows path;
  liftIO (mapM normalize_frame_index rows).

(** [write_csv]: every row is projected on the header with [r.get(k, "")],
    so no row is refused. *)
Definition write_csv (path : string) (fields : list pystr) (rows : list dict) : IO unit :=
  fun s =>
    (Ok tt,
     <[path := {| fieldnames := fields;
                  records := map (fun r => map (fun k => (k, render (get_or r k (VStr (lit ""))))) fields)
                               rows |}]> s).

(** [reinject_go_short] run on the freshly loaded row objects, and the
    rows read back. *)
Definition run_reinject (raw_map : gmap (pystr * Z) dict) (smoothed_rows : list dict)
  : result (list dict) :=
  let h : heap := smoothed_rows in
  '(final_rows, h') ← reinject_go_short raw_map (seq 0 (length smoothed_rows)) h;
  mapM (fun r => match h' !! r with Some d => Ok d | None => Raise InvalidRef end) final_rows.

(** The body of the loop building [planner_rows]. *)
Definition planner_row (seg : dict) : result dict :=
  st ← getitem seg (lit "state");
  match st with
  | VStr st =>
      let planner_info := map_state_to_planner st in
      mret (dict_update seg planner_info)
  | _ => Raise AttributeError
  end.

Definition machine_fields : list pystr :=
  map lit ["clip"; "segment_id"; "start_frame"; "end_frame"; "state";
           "prev_state"; "next_state"; "affordance"; "yield_to"; "lead_state"].

Definition planner_fields : list pystr :=
  map lit ["clip"; "segment_id"; "start_frame"; "end_frame"; "state";
           "prev_state"; "next_state"; "planner_cmd"; "reason"; "target"; "until"].

Definition build_main : IO unit :=
  ex ← path_exists INPUT_FILENAME;
  if negb ex then raise FileNotFoundError else
  ex ← path_exists OUTPUT_FILENAME;
  if negb ex then raise FileNotFoundError else
  raw_map ← load_raw_world INPUT_FILENAME;
  smoothed_rows ← load_smoothed_world OUTPUT_FILENAME;
  final_rows ← liftIO (run_reinject raw_map smoothed_rows);
  match final_rows with
  | r0 :: _ => write_csv FINAL_FILENAME (dict_keys r0) final_rows
  | [] => mret tt
  end;;
  segs ← liftIO (segment_states final_rows);
  segs ← liftIO (add_prev_next segs);
  match segs with
  | _ :: _ => write_csv MACHINE_FILENAME machine_fields segs
  | [] => mret tt
  end;;
  planner_rows ← liftIO (mapM planner_row segs);
  match planner_rows with
  | _ :: _ => write_csv PLANNER_FILENAME planner_fields planner_rows
  | [] => mret tt
  end.

End WithInt.

(** ** Predicates used in the statements *)

(** A string that does not start with white space. *)
Definition no_lead (s : pystr) : Prop :=
  match s with
  | [] => True
  | c :: _ => isspace c = false
  end.

(** A string with no white space at either end: [strip] leaves it alone. *)
Definition trimmed (s : pystr) : Prop := strip s = s.

(** Number of occurrences of [u] in [l]. *)
Definition count (u : value) (l : list value) : nat := count_occ value_eq_dec l u.

(** The first occurrence of [v] in [l] comes before every occurrence of [u]. *)
Definition occurs_before (v u : value) (l : list value) : Prop :=
  exists l1 l2, l = l1 ++ v :: l2 /\ ~ In u l1.

(** What a counter built from the list [l] satisfies. *)
Record counter_inv (c : list (value * nat)) (l : list value) : Prop := {
  ci_nodup : NoDup (map fst c);
  ci_count : forall x n, In (x, n) c -> n = count x l /\ (0 < n)%nat;
  ci_keys : forall x, In x l -> In x (map fst c);
  ci_order : forall c1 x n c2 y,
      c = c1 ++ (x, n) :: c2 -> In y (map fst c2) -> occurs_before x y l
}.

(** The row has the key. *)
Definition has_key (d : dict) (k : pystr) : Prop := dict_get d k <> None.

(** The value under a key ([None] when the key is absent). *)
Definition attr (k : string) (d : dict) : value := get_or d (lit k) VNone.

(** A raw label row: the three attributes are present. *)
Definition raw_row (d : dict) : Prop :=
  has_key d (lit "affordance") /\ has_key d (lit "yield_to") /\ has_key d (lit "lead_state").

(** The references [rows] point, in the store [h], to the rows [ds]. *)
Definition rows_at (h : heap) (rows : list loc) (ds : list dict) : Prop :=
  Forall2 (fun r d => h !! r = Some d) rows ds.

(** The rows at positions [max(0, i-1) .. min(n-1, i+1)] of a clip. *)
Definition window3 {A} (l : list A) (i : nat) : list A :=
  let lo := (i - 1)%nat in
  let hi := Nat.min (length l - 1) (i + 1) in
  firstn (hi + 1 - lo) (skipn lo l).

(** [v] is what smoothing must produce from the window values [w] of one
    attribute: a most frequent non-empty value of the window (the first to
    occur among the most frequent), or, when the window has none, the row's
    own value [own]. *)
Definition smoothed_ok (w : list value) (own v : value) : Prop :=
  ((exists x, In x w /\ truthy x = true) ->
     truthy v = true /\ In v w
     /\ (forall u, truthy u = true -> (count u w <= count v w)%nat)
     /\ (forall u, truthy u = true -> u <> v -> count u w = count v w ->
           occurs_before v u w))
  /\ ((forall x, In x w -> truthy x = false) -> v = own).

(** The value [smooth_row] stores for one attribute, as a function of the
    window rows and the row itself. *)
Definition smoothed_value (k : string) (window : list dict) (d : dict) : value :=
  match majority_vote (map (attr k) window) with
  | Ok v => if truthy v then v else attr k d
  | Raise _ => VNone
  end.

(** The row [smooth_row] appends for position [i], as a function of the
    clip's rows. *)
Definition smooth_dict (ds : list dict) (i : nat) (d : dict) : dict :=
  let w := window3 ds i in
  dict_set
    (dict_set
       (dict_set d (lit "affordance_smoothed") (smoothed_value "affordance" w d))
       (lit "yield_to_smoothed") (smoothed_value "yield_to" w d))
    (lit "lead_state_smoothed") (smoothed_value "lead_state" w d).

(** The value read back through a reference of the window. *)
Definition read_attr (h : heap) (k : string) (r : loc) : value :=
  match h !! r with
  | Some d => attr k d
  | None => VNone
  end.

(** The rows [smooth_sequence] produces for a clip, as a function of the
    clip's rows alone. *)
Definition smooth_all (ds : list dict) : list dict := imap (smooth_dict ds) ds.

(** ** Views of a frame row *)

Definition triple : Type := value * value * value.

Definition raw_triple (raw : dict) : triple :=
  (attr "affordance" raw, attr "yield_to" raw, attr "lead_state" raw).

Definition smoothed_triple (d : dict) : triple :=
  (attr "affordance_smoothed" d, attr "yield_to_smoothed" d, attr "lead_state_smoothed" d).

Definition final_triple (d : dict) : triple :=
  (attr "affordance_final" d, attr "yield_to_final" d, attr "lead_state_final" d).

(** A smoothed frame row as the pipeline hands it to the re-injector: a clip
    name, an integer frame index and the three smoothed labels, which are
    strings without surrounding white space. *)
Definition smoothed_frame (d : dict) : Prop :=
  (exists c, dict_get d (lit "clip") = Some (VStr c) /\ trimmed c)
  /\ (exists z, dict_get d (lit "frame_index") = Some (VInt z))
  /\ (exists a, dict_get d (lit "affordance_smoothed") = Some (VStr a) /\ trimmed a)
  /\ (exists y, dict_get d (lit "yield_to_smoothed") = Some (VStr y) /\ trimmed y)
  /\ (exists l, dict_get d (lit "lead_state_smoothed") = Some (VStr l) /\ trimmed l).

(** Every record of the raw map carries the three labels. *)
Definition raw_map_ok (raw_map : gmap (pystr * Z) dict) : Prop :=
  forall k raw, raw_map !! k = Some raw -> raw_row raw.

(** The re-injection condition of the specification, on the raw record and
    the smoothed triple of a frame. *)
Definition go_burst (raw : dict) (sm : triple) : Prop :=
  attr "affordance" raw = VStr (lit "go")
  /\ sm.1.1 <> VStr (lit "go")
  /\ sm.1.2 <> VStr (lit "ped")
  /\ attr "yield_to" raw <> VStr (lit "ped").

(** ** What [reinject_row] computes, as functions of the row *)

Definition str_of (v : value) : pystr :=
  match v with
  | VStr s => s
  | _ => []
  end.

(** [row.get(k_smoothed, row.get(k, ""))] *)
Definition read_smoothed (k_smoothed k : string) (d : dict) : value :=
  get_or d (lit k_smoothed) (get_or d (lit k) (VStr (lit ""))).

Definition go_reinjects (raw : dict) (a_sm y_sm : pystr) : bool :=
  bool_decide (attr "affordance" raw = VStr (lit "go"))
  && negb (a_sm == lit "go")
  && negb (y_sm == lit "ped")
  && negb (bool_decide (attr "yield_to" raw = VStr (lit "ped"))).

Definition final_of (ro : option dict) (a_sm y_sm l_sm : pystr) : triple :=
  match ro with
  | Some raw =>
      if go_reinjects raw a_sm y_sm then raw_triple raw
      else (VStr a_sm, VStr y_sm, VStr l_sm)
  | None => (VStr a_sm, VStr y_sm, VStr l_sm)
  end.

Definition set_final (d : dict) (t : triple) : dict :=
  dict_set
    (dict_set (dict_set d (lit "affordance_final") t.1.1) (lit "yield_to_final") t.1.2)
    (lit "lead_state_final") t.2.

(** The fields [reinject_row] reads can be read: a string clip, a frame
    index [int] accepts, string labels. *)
Definition readable (int_of_str : pystr -> option Z) (d : dict) : Prop :=
  (exists c, dict_get d (lit "clip") = Some (VStr c))
  /\ (exists z, getitem d (lit "frame_index") ≫= py_int int_of_str = Ok z)
  /\ (exists a, read_smoothed "affordance_smoothed" "affordance" d = VStr a)
  /\ (exists y, read_smoothed "yield_to_smoothed" "yield_to" d = VStr y)
  /\ (exists l, read_smoothed "lead_state_smoothed" "lead_state" d = VStr l).

(** The key under which the raw record of the row is looked up. *)
Definition frame_key (int_of_str : pystr -> option Z) (d : dict) : pystr * Z :=
  (strip (str_of (attr "clip" d)),
   match getitem d (lit "frame_index") ≫= py_int int_of_str with
   | Ok z => z
   | Raise _ => 0%Z
   end).

(** The row after [reinject_row]. *)
Definition reinjected (int_of_str : pystr -> option Z) (raw_map : gmap (pystr * Z) dict)
    (d : dict) : dict :=
  set_final d
    (final_of (raw_map !! frame_key int_of_str d)
       (strip (str_of (read_smoothed "affordance_smoothed" "affordance" d)))
       (strip (str_of (read_smoothed "yield_to_smoothed" "yield_to" d)))
       (strip (str_of (read_smoothed "lead_state_smoothed" "lead_state" d)))).

(** The three keys the re-injector writes. *)
Definition final_keys : list pystr :=
  [lit "affordance_final"; lit "yield_to_final"; lit "lead_state_final"].

(** The three keys the smoother writes. *)
Definition smoothed_keys : list pystr :=
  [lit "affordance_smoothed"; lit "yield_to_smoothed"; lit "lead_state_smoothed"].

(** [f] is [d] with the fields [keys] added or overwritten: it has them, and
    agrees with [d] on every other key. *)
Definition extends_by (keys : list pystr) (d f : dict) : Prop :=
  (forall k, In k keys -> has_key f k)
  /\ (forall k, ~ In k keys -> dict_get f k = dict_get d k).

(** ** Runs *)

Section Runs.
Context {A : Type} (linked : A -> A -> bool).

(** Grouping from the left: [cur] is the open run, [rest] what follows; the
    next element joins the open run when it is linked to its last element. *)
Fixpoint group_runs (cur rest : list A) : list (list A) :=
  match rest with
  | [] => [cur]
  | r :: rest' =>
      match last cur with
      | Some p =>
          if linked p r then group_runs (cur ++ [r]) rest'
          else cur :: group_runs [r] rest'
      | None => group_runs [r] rest'
      end
  end.

Definition runs_of (l : list A) : list (list A) :=
  match l with
  | [] => []
  | x :: t => group_runs [x] t
  end.

(** Every element of the run is linked to the next one. *)
Fixpoint chain (l : list A) : Prop :=
  match l with
  | x :: ((y :: _) as t) => linked x y = true /\ chain t
  | _ => True
  end.

(** No run could have been continued by the element that follows it. *)
Fixpoint maximal (runs : list (list A)) : Prop :=
  match runs with
  | r1 :: ((r2 :: _) as t) =>
      (forall x y, last r1 = Some x -> head r2 = Some y -> linked x y = false)
      /\ maximal t
  | _ => True
  end.

(** [runs] cuts [l] into its maximal runs: two neighbours of [l] are in the
    same run exactly when they are linked. *)
Definition segmentation (runs : list (list A)) (l : list A) : Prop :=
  concat runs = l
  /\ Forall (fun r => r <> []) runs
  /\ Forall chain runs
  /\ maximal runs.
End Runs.

(** The number of the run that holds position [i] of the cut sequence. *)
Fixpoint run_index {A} (runs : list (list A)) (i : nat) : nat :=
  match runs with
  | [] => 0
  | r :: rs => if (i <? length r)%nat then 0 else S (run_index rs (i - length r))
  end.

(** The integer frame index of a row. *)
Definition frame_index_of (d : dict) : Z :=
  match attr "frame_index" d with
  | VInt z => z
  | _ => 0%Z
  end.

(** A row the phase segmenter can read: the smoothed triple and an integer
    frame index. *)
Definition phase_frame (d : dict) : Prop :=
  has_key d (lit "affordance_smoothed")
  /\ has_key d (lit "yield_to_smoothed")
  /\ has_key d (lit "lead_state_smoothed")
  /\ exists z, dict_get d (lit "frame_index") = Some (VInt z).

(** Same smoothed triple, and the frame index is the next one. *)
Definition phase_linked (p r : dict) : bool :=
  bool_decide (smoothed_triple p = smoothed_triple r)
  && bool_decide (frame_index_of r = frame_index_of p + 1)%Z.

(** The segment emitted for a run of the phase view. *)
Definition phase_segment_of (run : list dict) : dict :=
  match head run, last run with
  | Some x, Some y =>
      phase_segment (attr "frame_index" x) (attr "frame_index" y) (smoothed_triple x)
  | _, _ => []
  end.

(** A row the state segmenter can read: string final labels and an integer
    frame index. *)
Definition final_frame (d : dict) : Prop :=
  (exists a, dict_get d (lit "affordance_final") = Some (VStr a))
  /\ (exists y, dict_get d (lit "yield_to_final") = Some (VStr y))
  /\ (exists l, dict_get d (lit "lead_state_final") = Some (VStr l))
  /\ exists z, dict_get d (lit "frame_index") = Some (VInt z).

(** The classified state of a row's final triple. *)
Definition state_of (d : dict) : pystr :=
  map_world_to_state (str_of (attr "affordance_final" d))
    (str_of (attr "yield_to_final" d)) (str_of (attr "lead_state_final" d)).

(** Same classified state, and the frame index is the next one. *)
Definition state_linked (p r : dict) : bool :=
  (state_of p == state_of r)
  && bool_decide (frame_index_of r = frame_index_of p + 1)%Z.

(** The segment emitted for the run number [seg_id] of the state view. *)
Definition state_segment_of (clip : value) (seg_id : Z) (run : list dict) : dict :=
  match head run, last run with
  | Some x, Some y =>
      state_segment clip seg_id (frame_index_of x) (frame_index_of y) (state_of x)
        (attr "affordance_final" x) (attr "yield_to_final" x) (attr "lead_state_final" x)
  | _, _ => []
  end.

(** ** Sorting and spans *)

(** The integer a sort key stands for. *)
Definition int_of (v : value) : Z :=
  match v with
  | VInt z => z
  | _ => 0%Z
  end.

(** The frame indices [a, a+1, ..., b] of an inclusive span (none when
    [b < a]). *)
Definition zrange (span : Z * Z) : list Z :=
  map (fun i => (span.1 + Z.of_nat i)%Z) (seq 0 (Z.to_nat (span.2 - span.1 + 1))).

(** The cells of the emitted segments under the keys [start] and [end] are
    the integer bounds [spans]. *)
Definition spans_of (start_key end_key : string) (segs : list dict) (spans : list (Z * Z)) : Prop :=
  map (fun s => (attr start_key s, attr end_key s)) segs
  = map (fun p : Z * Z => (VInt p.1, VInt p.2)) spans.

(** A sort item whose key is an integer, and the order of two such items. *)
Definition int_key {A} (p : value * A) : Prop := exists z, p.1 = VInt z.
Definition key_le {A} (p q : value * A) : Prop := (int_of p.1 <= int_of q.1)%Z.

(** The inclusive frame span of a run: the indices of its first and last
    rows. *)
Definition span_of_run (run : list dict) : Z * Z :=
  match head run, last run with
  | Some x, Some y => (frame_index_of x, frame_index_of y)
  | _, _ => (0%Z, (-1)%Z)
  end.

(** ** A sample clip

    Three frames of one clip, a lone "go" between two "wait" frames, as in
    the specification's example; used to run the statements on data. *)

(** A reading of [int] on strings that accepts nothing; the sample rows carry
    integer frame indices. *)
Definition no_int : pystr -> option Z := fun _ => None.

Definition label_row (clip : string) (fi : Z) (a y l : string) : dict :=
  [ (lit "clip", VStr (lit clip)); (lit "frame_index", VInt fi);
    (lit "affordance", VStr (lit a)); (lit "yield_to", VStr (lit y));
    (lit "lead_state", VStr (lit l)) ].

Definition sample_raw_rows : list dict :=
  [ label_row "clip1" 10 "wait" "none" "none";
    label_row "clip1" 11 "go" "none" "none";
    label_row "clip1" 12 "wait" "none" "none" ].

(** The smoothed rows of the sample clip. *)
Definition sample_smoothed_rows : list dict := smooth_all sample_raw_rows.

(** The raw record of frame 11. *)
Definition sample_raw_map : gmap (pystr * Z) dict :=
  {[ (lit "clip1", 11%Z) :=
       [ (lit "affordance", VStr (lit "go")); (lit "yield_to", VStr (lit "none"));
         (lit "lead_state", VStr (lit "none")) ] ]}.

(** The final rows of the sample clip. *)
Definition sample_final_rows : list dict :=
  map (reinjected no_int sample_raw_map) sample_smoothed_rows.

(** Two rows with the same labels at frames 5 and 7. *)
Definition gap_rows : list dict :=
  map (reinjected no_int ∅)
    (smooth_all [ label_row "clip1" 5 "wait" "none" "none" ])
  ++ map (reinjected no_int ∅)
       (smooth_all [ label_row "clip1" 7 "wait" "none" "none" ]).

(** A table store whose raw and smoothed tables have a header and no rows. *)
Definition empty_tables : fs :=
  {[ INPUT_FILENAME := {| fieldnames := []; records := [] |};
     OUTPUT_FILENAME := {| fieldnames := []; records := [] |} ]}.

(** ** Groups *)

(** The elements of [l] whose key is [k], in order. *)
Definition members {A} (kf : A -> value) (k : value) (l : list A) : list A :=
  List.filter (fun x => bool_decide (kf x = k)) l.

(** What the groups built from the elements [seen] satisfy: one group per
    key, holding the elements of that key in the order seen. *)
Record groups_inv {A} (kf : A -> value) (g : list (value * list A)) (seen : list A) : Prop := {
  gi_nodup : NoDup (map fst g);
  gi_members : forall k xs, In (k, xs) g -> xs <> [] /\ xs = members kf k seen;
  gi_keys : forall x, In x seen -> In (kf x) (map fst g)
}.

(** * Part I, continued: the consumers of the tables *)

(** ** Overlay: [load_segments] and [find_segment] *)

(** [a <= b]; integers and strings do not compare. *)
Definition value_le (a b : value) : result bool :=
  match a, b with
  | VInt x, VInt y => Ok (x <=? y)%Z
  | VStr s, VStr t => Ok (negb (str_ltb t s))
  | _, _ => Raise TypeError
  end.

(** [segments.get(clip, [])] on the dictionary [load_segments] builds. *)
Fixpoint segments_get (segments : list (value * list dict)) (clip : value) : list dict :=
  match segments with
  | [] => []
  | (k, segs) :: rest => if bool_decide (k = clip) then segs else segments_get rest clip
  end.

(** The loop of [find_segment]: the chained comparison reads [seg["end"]]
    only when the first comparison holds. *)
Fixpoint find_segment_loop (segs : list dict) (frame_index : Z) : result (value * value) :=
  match segs with
  | [] => Ok (VInt (-1), VStr (lit "UNKNOWN"))
  | seg :: rest =>
      start ← getitem seg (lit "start");
      lo ← value_le start (VInt frame_index);
      inside ← (if lo : bool
                then e ← getitem seg (lit "end"); value_le (VInt frame_index) e
                else mret false);
      if inside : bool
      then sid ← getitem seg (lit "segment_id");
           ph ← getitem seg (lit "phase");
           mret (sid, ph)
      else find_segment_loop rest frame_index
  end.

Definition find_segment (clip : pystr) (frame_index : Z) (segments : list (value * list dict))
  : result (value * value) :=
  find_segment_loop (segments_get segments (VStr clip)) frame_index.

Section Overlay.

Variable int_of_str : pystr -> option Z.

(** The clip and the dictionary display [load_segments] appends for one
    row of the segment table. *)
Definition segment_entry (row : dict) : result (value * dict) :=
  clip ← getitem row (lit "clip");
  sid ← getitem row (lit "segment_id") ≫= py_int int_of_str;
  st ← getitem row (lit "start") ≫= py_int int_of_str;
  en ← getitem row (lit "end") ≫= py_int int_of_str;
  ph ← getitem row (lit "phase");
  mret (clip, [ (lit "segment_id", VInt sid); (lit "start", VInt st);
                (lit "end", VInt en); (lit "phase", ph) ]).

Fixpoint load_segments_loop (rows : list dict) (by_clip : list (value * list dict))
  : result (list (value * list dict)) :=
  match rows with
  | [] => Ok by_clip
  | row :: rest =>
      e ← segment_entry row;
      load_segments_loop rest (group_add e.1 e.2 by_clip)
  end.

(** The rows of the table to the dictionary returned: grouped by clip, each
    clip's list then sorted in place by [start]. *)
Definition load_segments_rows (rows : list dict) : result (list (value * list dict)) :=
  by_clip ← load_segments_loop rows [];
  mapM (fun g : value * list dict =>
          s ← sorted_by (fun seg => getitem seg (lit "start")) g.2;
          mret (g.1, s))
       by_clip.

Definition load_segments (path : string) : IO (list (value * list dict)) :=
  rows ← read_rows path;
  liftIO (load_segments_rows rows).

End Overlay.

(** ** The producer of the raw labels: [vlm_infer.parse_world_state] *)

(** The line boundaries of [str.splitlines]. *)
Definition is_linebreak (c : N) : bool :=
  ((c =? 10) || (c =? 13) || (c =? 11) || (c =? 12) || (c =? 28) || (c =? 29)
   || (c =? 30) || (c =? 133) || (c =? 8232) || (c =? 8233))%N.

(** [s.splitlines()], with the line being read kept in reverse in [cur]: a
    boundary closes the line, "\r\n" is one boundary, and a last line
    without boundary is kept when it is not empty. *)
Fixpoint splitlines_from (s : pystr) (cur : pystr) : list pystr :=
  match s with
  | [] => match cur with [] => [] | _ :: _ => [rev cur] end
  | c :: t =>
      if is_linebreak c
      then rev cur ::
           match t with
           | d :: t' => if (c =? 13)%N && (d =? 10)%N
                        then splitlines_from t' []
                        else splitlines_from t []
           | [] => splitlines_from t []
           end
      else splitlines_from t (c :: cur)
  end.

Definition splitlines (s : pystr) : list pystr := splitlines_from s [].

(** [s.split(sep)] for a one-character separator. *)
Fixpoint split_from (sep : N) (s : pystr) (cur : pystr) : list pystr :=
  match s with
  | [] => [rev cur]
  | c :: t => if (c =? sep)%N then rev cur :: split_from sep t []
              else split_from sep t (c :: cur)
  end.

Definition split (sep : N) (s : pystr) : list pystr := split_from sep s [].

(** [s.split(sep, 1)]: the text before the first separator and, when there
    is one, the text after it. *)
Fixpoint split_once (sep : N) (s : pystr) : pystr * option pystr :=
  match s with
  | [] => ([], None)
  | c :: t =>
      if (c =? sep)%N then ([], Some t)
      else let p := split_once sep t in (c :: p.1, p.2)
  end.

(** [s.startswith(p)] *)
Fixpoint startswith (s p : pystr) : bool :=
  match p, s with
  | [], _ => true
  | _ :: _, [] => false
  | a :: p', c :: s' => (c =? a)%N && startswith s' p'
  end.

(** A string is true when it is not empty. *)
Definition nonempty (s : pystr) : bool :=
  match s with [] => false | _ :: _ => true end.

(** [[x.strip() for x in l if x.strip()]] *)
Definition stripped_nonblank (l : list pystr) : list pystr :=
  List.filter nonempty (map strip l).

(** The body of the loop over [parts]. *)
Definition assign_part (out : dict) (part : pystr) : dict :=
  if existsb (N.eqb 61) part
  then let p := split_once 61 part in
       dict_set out (strip p.1)
         (VStr (strip (match p.2 with Some v => v | None => [] end)))
  else out.

(** [if out[k] not in valid: out[k] = ""] *)
Definition clamp (valid : list string) (k : string) (out : dict) : result dict :=
  v ← getitem out (lit k);
  if existsb (fun s => bool_decide (v = VStr (lit s))) valid
  then mret out
  else mret (dict_set out (lit k) (VStr (lit ""))).

Definition valid_aff : list string := ["go"; "wait"; "stop"].
Definition valid_yield : list string := ["none"; "lead"; "ped"].
Definition valid_lead : list string := ["none"; "moving"; "stopped"].

Section Parser.

(** [str.lower] is left abstract. *)
Variable lower : pystr -> pystr.

Definition parse_world_state (text : pystr) : result dict :=
  let out : dict :=
    [ (lit "affordance", VStr (lit "")); (lit "yield_to", VStr (lit ""));
      (lit "lead_state", VStr (lit "")); (lit "explanation", VStr (lit ""));
      (lit "raw", VStr (strip text)) ] in
  let lines := stripped_nonblank (splitlines (strip text)) in
  match lines with
  | [] => Ok out
  | first :: more =>
      out ← match more with
            | l1 :: _ =>
                if startswith (lower l1) (lit "explanation:")
                then match (split_once 58 l1).2 with
                     | Some rest => Ok (dict_set out (lit "explanation") (VStr (strip rest)))
                     | None => Raise IndexError
                     end
                else Ok (dict_set out (lit "explanation") (VStr l1))
            | [] => Ok out
            end;
      let parts := stripped_nonblank (split 59 first) in
      let out := fold_left assign_part parts out in
      out ← clamp valid_aff "affordance" out;
      out ← clamp valid_yield "yield_to" out;
      clamp valid_lead "lead_state" out
  end.

End Parser.

(** ** Further predicates used in the statements *)

(** A record as [load_raw_world] stores it: exactly the three labels, each
    a string without surrounding white space. *)
Definition stored_raw (raw : dict) : Prop :=
  exists a y l,
    raw = [ (lit "affordance", VStr a); (lit "yield_to", VStr y);
            (lit "lead_state", VStr l) ]
    /\ trimmed a /\ trimmed y /\ trimmed l.

(** The key and the record [load_raw_world] derives from one row of the raw
    table, when the row can be read. *)
Definition raw_entry (int_of_str : pystr -> option Z) (row : dict)
  : result ((pystr * Z) * dict) :=
  clip ← getitem row (lit "clip") ≫= py_strip;
  fi ← getitem row (lit "frame_index") ≫= py_int int_of_str;
  a ← getitem row (lit "affordance") ≫= py_strip;
  y ← getitem row (lit "yield_to") ≫= py_strip;
  l ← getitem row (lit "lead_state") ≫= py_strip;
  mret ((clip, fi),
        [ (lit "affordance", VStr a); (lit "yield_to", VStr y);
          (lit "lead_state", VStr l) ]).

(** ** Linked segments *)

(** A segment of clip [c] as the state segmenter emits it: the clip, an
    integer segment id and a state. *)
Definition clip_segment (c : value) (s : dict) : Prop :=
  dict_get s (lit "clip") = Some c
  /\ (exists z, dict_get s (lit "segment_id") = Some (VInt z))
  /\ has_key s (lit "state").

(** The segments are in non-decreasing order of their ids. *)
Definition ids_sorted (segs : list dict) : Prop :=
  StronglySorted
    (fun a b => (int_of (attr "segment_id" a) <= int_of (attr "segment_id" b))%Z) segs.

(** The state of the segment at position [i] of a clip, the empty string
    outside the clip. *)
Definition state_at (clip_segs : list dict) (i : option nat) : value :=
  match i with
  | Some j => match clip_segs !! j with
              | Some s => attr "state" s
              | None => VStr (lit "")
              end
  | None => VStr (lit "")
  end.

(** Segment number [i] of a clip with the states of its two neighbours. *)
Definition linked_segment (clip_segs : list dict) (i : nat) (seg : dict) : dict :=
  dict_set
    (dict_set seg (lit "prev_state")
       (state_at clip_segs (match i with O => None | S j => Some j end)))
    (lit "next_state") (state_at clip_segs (Some (S i))).

Definition linked_clip (clip_segs : list dict) : list dict :=
  imap (linked_segment clip_segs) clip_segs.

(** ** Well-formed inputs of the builder *)

(** Every record of the raw map is as [load_raw_world] stores it. *)
Definition raw_map_stored (raw_map : gmap (pystr * Z) dict) : Prop :=
  forall k raw, raw_map !! k = Some raw -> stored_raw raw.

(** The segment carries its state as a string. *)
Definition state_str (s : dict) : Prop :=
  exists st, dict_get s (lit "state") = Some (VStr st).

(** The three tables [build_state_and_planner.main] writes. *)
Definition build_outputs : list string :=
  [FINAL_FILENAME; MACHINE_FILENAME; PLANNER_FILENAME].

(** ** Smoothing *)

(** The attributes [smooth_sequence] votes on, each with the field that
    receives its smoothed value. *)
Definition smoothed_attrs : list (string * string) :=
  [ ("affordance", "affordance_smoothed");
    ("yield_to", "yield_to_smoothed");
    ("lead_state", "lead_state_smoothed") ].

(** ** Overlay *)

(** An entry of the dictionary [load_segments] returns: integer bounds, a
    segment id and a phase. *)
Definition overlay_segment (e : dict) : Prop :=
  (exists s, dict_get e (lit "start") = Some (VInt s))
  /\ (exists t, dict_get e (lit "end") = Some (VInt t))
  /\ has_key e (lit "segment_id")
  /\ has_key e (lit "phase").

(** The frame index lies in the inclusive span of the entry. *)
Definition covers (e : dict) (z : Z) : Prop :=
  (int_of (attr "start" e) <= z <= int_of (attr "end" e))%Z.

(** [int] on the decimal strings that [str] produces for integers: the
    reading of the standard library's decimal notation. *)
Definition decimal_int (s : pystr) : option Z :=
  match DecimalString.NilZero.int_of_string (string_of_list_ascii (map ascii_of_N s)) with
  | Some d => Some (Z.of_int d)
  | None => None
  end.

(** The row [segment_world_state.main] writes for a run of a clip, given
    its number, up to the labels and the phase text. *)
Definition phase_row_of (clip : value) (i : Z) (run : list dict) (row : dict) : Prop :=
  exists a y l ph,
    row = [ (lit "clip", clip); (lit "segment_id", VInt i);
            (lit "start", VInt (span_of_run run).1);
            (lit "end", VInt (span_of_run run).2);
            (lit "affordance", a); (lit "yield_to", y); (lit "lead_state", l);
            (lit "phase", VStr ph) ].

(** The entry [load_segments] keeps of a row of the segment table. *)
Definition overlay_entry (i s e : Z) (ph : value) : dict :=
  [ (lit "segment_id", VInt i); (lit "start", VInt s); (lit "end", VInt e);
    (lit "phase", ph) ].

(** The entry kept of the row written for segment number [i]. *)
Definition entry_of_row (i : Z) (row : dict) : dict :=
  overlay_entry i (int_of (attr "start" row)) (int_of (attr "end" row)) (attr "phase" row).

(** ** Further sample data *)

(** A segment whose labels are a "go" with a pedestrian to yield to. *)
Definition go_ped_segment : dict :=
  [ (lit "affordance", VStr (lit "go")); (lit "yield_to", VStr (lit "ped"));
    (lit "lead_state", VStr (lit "none")) ].

(** The smoothed row of a one-frame clip with a pedestrian. *)
Definition ped_smoothed_rows : list dict :=
  smooth_all [ label_row "clip1" 20 "go" "ped" "none" ].

(** A row of a table as [csv.DictReader] yields it: every cell a string. *)
Definition csv_row (clip fi a y l : string) : dict :=
  [ (lit "clip", VStr (lit clip)); (lit "frame_index", VStr (lit fi));
    (lit "affordance", VStr (lit a)); (lit "yield_to", VStr (lit y));
    (lit "lead_state", VStr (lit l)) ].

(** A raw table with two rows for frame 11 of one clip. *)
Definition csv_raw_rows : list dict :=
  [ csv_row "clip1" "10" " wait" "none" "none";
    csv_row "clip1" "11" "stop" "none" "none";
    csv_row "clip1" "11" "go" "none " "none" ].

(** A row of the raw table that has lost its "clip" column. *)
Definition clipless_row : dict :=
  [ (lit "frame_index", VStr (lit "12")); (lit "affordance", VStr (lit "go"));
    (lit "yield_to", VStr (lit "none")); (lit "lead_state", VStr (lit "none")) ].

(** The segments of two clips, as [segment_states] emits them. *)
Definition two_clips : list (value * list dict) :=
  [ (VStr (lit "clip1"),
     [ state_segment (VStr (lit "clip1")) 0 10 10 (lit "NEGOTIATE")
         (VStr (lit "wait")) (VStr (lit "none")) (VStr (lit "none"));
       state_segment (VStr (lit "clip1")) 1 11 12 (lit "GO_FREE")
         (VStr (lit "go")) (VStr (lit "none")) (VStr (lit "none")) ]);
    (VStr (lit "clip2"),
     [ state_segment (VStr (lit "clip2")) 0 0 3 (lit "STOP_PED")
         (VStr (lit "stop")) (VStr (lit "ped")) (VStr (lit "none")) ]) ].

(** The smoothed table of the sample clip as it is read from disk. *)
Definition csv_smoothed_row (clip fi a y l : string) : dict :=
  [ (lit "clip", VStr (lit clip)); (lit "frame_index", VStr (lit fi));
    (lit "affordance_smoothed", VStr (lit a)); (lit "yield_to_smoothed", VStr (lit y));
    (lit "lead_state_smoothed", VStr (lit l)) ].

Definition sample_tables : fs :=
  {[ INPUT_FILENAME :=
       {| fieldnames := dict_keys (csv_row "" "" "" "" ""); records := csv_raw_rows |};
     OUTPUT_FILENAME :=
       {| fieldnames := dict_keys (csv_smoothed_row "" "" "" "" "");
          records := [ csv_smoothed_row "clip1" "10" "wait" "none" "none";
                       csv_smoothed_row "clip1" "11" "wait" "none" "none";
                       csv_smoothed_row "clip1" "12" "go" "none" "none" ] |} ]}.

(** A segment dictionary for the overlay, with two entries for one clip. *)
Definition sample_segments : list (value * list dict) :=
  [ (VStr (lit "clip1"),
     [ overlay_entry 0 0 3 (VStr (lit "WAIT")); overlay_entry 1 4 9 (VStr (lit "GO")) ]) ].

(** ** The segment table *)

(** The segment table with the given records under its header. *)
Definition segments_table (recs : list dict) : table :=
  {| fieldnames := segment_fieldnames; records := recs |}.

(** The records written for one clip's rows: the rows of its segments as the
    writer renders them. *)
Definition clip_records (g : value * list dict) (recs : list dict) : Prop :=
  exists out,
    phase_rows_of_clip g.1 g.2 = Ok out
    /\ mapM (writer_row segment_fieldnames) out = Ok recs.

(** ** Loading the smoothed table *)

(** [r'] is [r] with its frame index converted: same columns in the same
    order, the frame index an integer, every other cell as it was. *)
Definition frame_index_converted (int_of_str : pystr -> option Z) (r r' : dict) : Prop :=
  dict_keys r' = dict_keys r
  /\ (exists z, getitem r (lit "frame_index") ≫= py_int int_of_str = Ok z
                /\ dict_get r' (lit "frame_index") = Some (VInt z))
  /\ forall k, k <> lit "frame_index" -> dict_get r' k = dict_get r k.

(** A smoothed table of two clips; the row of the second clip has lost its
    "yield_to_smoothed" column. *)
Definition broken_csv_rows : list dict :=
  [ csv_smoothed_row "clip1" "0" "go" "none" "none";
    [ (lit "clip", VStr (lit "clip2")); (lit "frame_index", VStr (lit "0"));
      (lit "affordance_smoothed", VStr (lit "go"));
      (lit "lead_state_smoothed", VStr (lit "none")) ] ].

Definition broken_row_a : dict :=
  [ (lit "clip", VStr (lit "clip1")); (lit "frame_index", VInt 0);
    (lit "affordance_smoothed", VStr (lit "go"));
    (lit "yield_to_smoothed", VStr (lit "none"));
    (lit "lead_state_smoothed", VStr (lit "none")) ].

Definition broken_row_b : dict :=
  [ (lit "clip", VStr (lit "clip2")); (lit "frame_index", VInt 0);
    (lit "affordance_smoothed", VStr (lit "go"));
    (lit "lead_state_smoothed", VStr (lit "none")) ].

Definition broken_tables : fs :=
  {[ OUTPUT_FILENAME :=
       {| fieldnames := dict_keys (csv_smoothed_row "" "" "" "" "");
          records := broken_csv_rows |} ]}.

(** A smoothed table with a frame index that is no number. *)
Definition bad_index_tables : fs :=
  {[ OUTPUT_FILENAME :=
       {| fieldnames := dict_keys (csv_smoothed_row "" "" "" "" "");
          records := [ csv_smoothed_row "clip1" "0" "go" "none" "none";
                       csv_smoothed_row "clip1" "one" "go" "none" "none" ] |} ]}.

(** ** The smoothed table *)

(** The three columns the smoothing stage adds. *)
Definition extra_fields : list pystr :=
  [lit "affordance_smoothed"; lit "yield_to_smoothed"; lit "lead_state_smoothed"].

(** A row of the raw table after its frame index was converted: a clip,
    an integer frame index and the three labels. *)
Definition raw_frame (d : dict) : Prop :=
  has_key d (lit "clip")
  /\ (exists z, dict_get d (lit "frame_index") = Some (VInt z))
  /\ raw_row d.

(** The rows are in non-decreasing order of their frame index. *)
Definition frames_sorted (ds : list dict) : Prop :=
  StronglySorted (fun a b => (frame_index_of a <= frame_index_of b)%Z) ds.

(** What the writer makes of a row under a header. *)
Definition rendered (fields : list pystr) (r : dict) : dict :=
  map (fun k => (k, render (get_or r k (VStr (lit ""))))) fields.

(** ** The rows of the state machine and planner tables *)

(** A dictionary display of [segment_states]. *)
Definition is_state_segment (s : dict) : Prop :=
  exists clip id a b st va vy vl, s = state_segment clip id a b st va vy vl.

(** The columns of a linked segment, in the order the code sets them. *)
Definition linked_keys : list pystr :=
  map lit ["clip"; "segment_id"; "start_frame"; "end_frame"; "state";
           "affordance"; "yield_to"; "lead_state"; "prev_state"; "next_state"].

(** The columns of a planner row, in the order the code sets them. *)
Definition planner_keys : list pystr :=
  linked_keys ++ map lit ["planner_cmd"; "reason"; "target"; "until"].

(** ** The parser of the model's answers *)

(** The value is the empty string or one of the listed labels. *)
Definition label_in (valid : list string) (v : value) : Prop :=
  v = VStr (lit "") \/ exists s, In s valid /\ v = VStr (lit s).

(** The first line of an answer in the format the prompt asks for. *)
Definition label_line (a y l : string) : pystr :=
  lit ("affordance=" ++ a ++ "; yield_to=" ++ y ++ "; lead_state=" ++ l ++ ";").

(** The three label fields hold strings. *)
Definition labels_are_strings (out : dict) : Prop :=
  forall k, In k ["affordance"; "yield_to"; "lead_state"] ->
    exists s, dict_get out (lit k) = Some (VStr s).

(** Lower case of the letters A-Z, other code points unchanged. *)
Definition ascii_lower (s : pystr) : pystr :=
  map (fun c => if ((65 <=? c) && (c <=? 90))%N then (c + 32)%N else c) s.

(** A line that [strip] and [splitlines] leave whole: it starts and ends
    with a character that is no white space and holds no line boundary. *)
Definition whole_line (s : pystr) : bool :=
  match s, rev s with
  | c :: _, d :: _ => negb (isspace c) && negb (isspace d) && forallb (fun x => negb (is_linebreak x)) s
  | _, _ => false
  end.

(** ** The whole pipeline *)

(** A row of the raw table as the inference stage writes it, once its
    frame index is converted: a clip name, an integer frame index and the
    three labels, clip and labels without surrounding white space. *)
Definition producer_row (d : dict) : Prop :=
  (exists c, dict_get d (lit "clip") = Some (VStr c) /\ trimmed c)
  /\ (exists z, dict_get d (lit "frame_index") = Some (VInt z))
  /\ forall k, In k ["affordance"; "yield_to"; "lead_state"] ->
       exists v, dict_get d (lit k) = Some (VStr v) /\ trimmed v.

(** The five tables the three stages write. *)
Definition pipeline_outputs : list string :=
  [OUTPUT_FILENAME; SEGMENTS_FILENAME; FINAL_FILENAME; MACHINE_FILENAME; PLANNER_FILENAME].

(** A raw table as the inference stage writes it, for one clip. *)
Definition producer_tables : fs :=
  {[ INPUT_FILENAME :=
       {| fieldnames := dict_keys (csv_row "" "" "" "" "");
          records := [ csv_row "clip1" "0" "wait" "none" "none";
                       csv_row "clip1" "1" "go" "none" "none";
                       csv_row "clip1" "2" "wait" "none" "none" ] |} ]}.

(* ================================================================== *)
(** * Part II: properties                                              *)
(* ================================================================== *)

(** ** White space stripping *)

Lemma lstrip_no_lead s : no_lead (lstrip s).
Proof.
  induction s as [|c t IH]; simpl; [exact I|].
  destruct (isspace c) eqn:E; [exact IH | exact E].
Qed.

Lemma lstrip_fix s : no_lead s -> lstrip s = s.
Proof. destruct s as [|c t]; simpl; [reflexivity|]. intros ->. reflexivity. Qed.

Lemma lstrip_suffix s : exists w, s = w ++ lstrip s.
Proof.
  induction s as [|c t [w Hw]]; simpl.
  - exists []. reflexivity.
  - destruct (isspace c).
    + exists (c :: w). simpl. congruence.
    + exists []. reflexivity.
Qed.

Lemma rstrip_prefix s : exists w, s = rstrip s ++ w.
Proof.
  unfold rstrip. destruct (lstrip_suffix (rev s)) as [w Hw].
  exists (rev w). rewrite <- rev_app_distr, <- Hw, rev_involutive. reflexivity.
Qed.

Lemma rstrip_keeps_no_lead s : no_lead s -> no_lead (rstrip s).
Proof.
  intros H. destruct (rstrip_prefix s) as [w Hw].
  destruct (rstrip s) as [|c t]; [exact I|].
  rewrite Hw in H. exact H.
Qed.

Lemma rstrip_idem s : rstrip (rstrip s) = rstrip s.
Proof.
  unfold rstrip. rewrite rev_involutive.
  rewrite (lstrip_fix (lstrip (rev s))); [reflexivity | apply lstrip_no_lead].
Qed.

Lemma strip_idem s : strip (strip s) = strip s.
Proof.
  unfold strip.
  rewrite (lstrip_fix (rstrip (lstrip s))).
  - apply rstrip_idem.
  - apply rstrip_keeps_no_lead, lstrip_no_lead.
Qed.

Lemma strip_trimmed s : trimmed (strip s).
Proof. apply strip_idem. Qed.

Lemma str_eqb_eq a b : (a == b) = true <-> a = b.
Proof. unfold str_eqb. apply bool_decide_eq_true. Qed.

Lemma str_eqb_neq a b : (a == b) = false <-> a <> b.
Proof. unfold str_eqb. apply bool_decide_eq_false. Qed.

Lemma str_eqb_refl a : (a == a) = true.
Proof. apply str_eqb_eq. reflexivity. Qed.

(** ** StateClassifier and PlannerSynthesizer *)

Lemma all_states_trimmed s : In s all_states -> trimmed s.
Proof.
  unfold all_states. cbn [map In].
  intros H. repeat (destruct H as [<- | H]; [vm_compute; reflexivity|]).
  destruct H.
Qed.

Lemma map_world_to_state_in_states a y l : In (map_world_to_state a y l) all_states.
Proof.
  unfold map_world_to_state, all_states. cbn [map In].
  repeat match goal with
         | |- context [ ?x == ?y ] => destruct (x == y)
         end; cbn [andb orb]; tauto.
Qed.

Lemma map_world_to_state_rules a y l :
  map_world_to_state a y l = classify_rules (strip a) (strip y) (strip l).
Proof.
  unfold map_world_to_state, classify_rules, first_match.
  repeat match goal with
         | |- context [ ?x == ?y ] => destruct (x == y)
         end; reflexivity.
Qed.

Lemma map_state_to_planner_lookup s :
  map_state_to_planner s = planner_lookup (strip s).
Proof.
  unfold map_state_to_planner, planner_lookup, planner_table.
  cbn [map first_match fst snd].
  repeat match goal with
         | |- context [ ?x == ?y ] => destruct (x == y)
         end; reflexivity.
Qed.

(** C1, as stated, fails: a padded affordance is classified after stripping,
    while the rules read on the strings as given fall through to UNKNOWN. *)
Lemma classify_rules_padded_counterexample :
  map_world_to_state (lit " go ") (lit "none") (lit "none") = lit "GO_FREE"
  /\ classify_rules (lit " go ") (lit "none") (lit "none") = lit "UNKNOWN"
  /\ map_world_to_state (lit " go ") (lit "none") (lit "none")
     <> classify_rules (lit " go ") (lit "none") (lit "none").
Proof. vm_compute. repeat split; congruence. Qed.

(** C1 (amended): for every string triple, [map_world_to_state] returns the
    state that the priority-ordered rules give on the three strings with
    their surrounding white space removed, and the result is always one of
    the nine states (UNKNOWN being the catch-all): the function is total. *)
Theorem classify_follows_rules_after_strip :
  forall a y l : pystr,
    map_world_to_state a y l = classify_rules (strip a) (strip y) (strip l)
    /\ In (map_world_to_state a y l) all_states.
Proof.
  intros a y l. split.
  - apply map_world_to_state_rules.
  - apply map_world_to_state_in_states.
Qed.

(** C2, as stated, fails: a padded state name gets the row of the name it
    strips to, not the default row. *)
Lemma planner_lookup_padded_counterexample :
  map_state_to_planner (lit " GO")
    = planner_record "GO" "corridor_clear" "" "constraint_reappears"
  /\ planner_lookup (lit " GO")
    = planner_record "WAIT" "unknown_state" "" "state_resolved"
  /\ map_state_to_planner (lit " GO") <> planner_lookup (lit " GO").
Proof. vm_compute. repeat split; congruence. Qed.

(** C2 (amended): for every state string, [map_state_to_planner] returns the
    row of the fixed table for the state with its surrounding white space
    removed (the default row when that is none of the eight named states,
    UNKNOWN included); and for every state the classifier can produce, on
    any string triple, it returns the table row of exactly that state, always
    a record of the four planner fields. *)
Theorem planner_follows_table_after_strip :
  (forall s : pystr, map_state_to_planner s = planner_lookup (strip s))
  /\ (forall a y l : pystr,
        map_state_to_planner (map_world_to_state a y l)
          = planner_lookup (map_world_to_state a y l))
  /\ (forall s : pystr, exists cmd reason target until,
        map_state_to_planner s = planner_record cmd reason target until).
Proof.
  split; [apply map_state_to_planner_lookup|]. split.
  - intros a y l. rewrite map_state_to_planner_lookup.
    rewrite (all_states_trimmed _ (map_world_to_state_in_states a y l)).
    reflexivity.
  - intros s. unfold map_state_to_planner.
    repeat match goal with
           | |- context [ ?x == ?y ] => destruct (x == y)
           end; cbn [orb]; eauto.
Qed.

(** C10: both lookups are insensitive to surrounding white space, so a
    padded triple classifies and plans as the stripped one does. *)
Theorem lookups_ignore_surrounding_whitespace :
  (forall a y l : pystr,
      map_world_to_state a y l = map_world_to_state (strip a) (strip y) (strip l))
  /\ (forall s : pystr, map_state_to_planner s = map_state_to_planner (strip s))
  /\ map_world_to_state (lit " go ") (lit "none") (lit "none")
     = map_world_to_state (lit "go") (lit "none") (lit "none")
  /\ map_state_to_planner (map_world_to_state (lit " go ") (lit "none") (lit "none"))
     = map_state_to_planner (map_world_to_state (lit "go") (lit "none") (lit "none")).
Proof.
  split; [|split; [|split]].
  - intros a y l. unfold map_world_to_state. rewrite !strip_idem. reflexivity.
  - intros s. unfold map_state_to_planner. rewrite strip_idem. reflexivity.
  - vm_compute. reflexivity.
  - vm_compute. reflexivity.
Qed.

(** ** [collections.Counter] and [majority_vote] *)

Lemma count_app u l1 l2 : count u (l1 ++ l2) = (count u l1 + count u l2)%nat.
Proof. unfold count. apply count_occ_app. Qed.

Lemma count_single_eq u : count u [u] = 1%nat.
Proof. unfold count. simpl. destruct (value_eq_dec u u); congruence. Qed.

Lemma count_single_neq u x : x <> u -> count u [x] = 0%nat.
Proof. unfold count. simpl. intros H. destruct (value_eq_dec x u); congruence. Qed.

Lemma count_cons u x l :
  count u (x :: l) = ((if value_eq_dec x u then 1 else 0) + count u l)%nat.
Proof. unfold count. simpl. destruct (value_eq_dec x u); reflexivity. Qed.

Lemma count_pos_in u l : (0 < count u l)%nat <-> In u l.
Proof. unfold count. symmetry. apply count_occ_In. Qed.

Lemma count_zero_not_in u l : ~ In u l -> count u l = 0%nat.
Proof. unfold count. apply count_occ_not_In. Qed.

(** [counter_incr] without recursion: a new key goes last ... *)
Lemma counter_incr_new x c :
  ~ In x (map fst c) -> counter_incr x c = c ++ [(x, 1%nat)].
Proof.
  induction c as [|[y n] t IH]; simpl; intros H; [reflexivity|].
  rewrite bool_decide_eq_false_2 by tauto.
  rewrite IH by tauto. reflexivity.
Qed.

(** ... and a known key is bumped where it stands. *)
Lemma counter_incr_old x n c1 c2 :
  ~ In x (map fst c1) ->
  counter_incr x (c1 ++ (x, n) :: c2) = c1 ++ (x, S n) :: c2.
Proof.
  induction c1 as [|[y m] t IH]; simpl; intros H.
  - rewrite bool_decide_eq_true_2 by reflexivity. reflexivity.
  - rewrite bool_decide_eq_false_2 by tauto.
    rewrite IH by tauto. reflexivity.
Qed.

Lemma first_key_split x (c : list (value * nat)) :
  In x (map fst c) ->
  exists c1 n c2, c = c1 ++ (x, n) :: c2 /\ ~ In x (map fst c1).
Proof.
  induction c as [|[y m] t IH]; simpl; [tauto|].
  intros H. destruct (value_eq_dec y x) as [->|Hne].
  - exists [], m, t. split; [reflexivity | simpl; tauto].
  - destruct IH as (c1 & n & c2 & -> & Hn); [tauto|].
    exists ((y, m) :: c1), n, c2. split; [reflexivity|]. simpl. tauto.
Qed.

Lemma occurs_before_snoc x y l z : occurs_before x y l -> occurs_before x y (l ++ [z]).
Proof.
  intros (l1 & l2 & -> & H). exists l1, (l2 ++ [z]).
  rewrite <- app_assoc. split; [reflexivity | exact H].
Qed.

Lemma occurs_before_fresh x y l : In x l -> ~ In y l -> occurs_before x y (l ++ [y]).
Proof.
  intros Hx Hy. apply in_split in Hx as (l1 & l2 & ->).
  exists l1, (l2 ++ [y]). rewrite <- app_assoc. split; [reflexivity|].
  intros H. apply Hy. apply in_or_app. left. exact H.
Qed.

Lemma keys_split (c d1 : list (value * nat)) (y : value) (m : nat) (d2 : list (value * nat)) :
  map fst c = map fst (d1 ++ (y, m) :: d2) ->
  exists d1' m' d2', c = d1' ++ (y, m') :: d2' /\ map fst d2' = map fst d2.
Proof.
  revert c. induction d1 as [|q d1 IH]; intros c H.
  - destruct c as [|[y' m'] c']; [discriminate H|].
    simpl in H. inversion H; subst. exists [], m', c'. auto.
  - destruct c as [|p c']; [discriminate H|].
    simpl in H. inversion H as [[Hp Hrest]].
    destruct (IH c' Hrest) as (d1' & m' & d2' & -> & Hk).
    exists (p :: d1'), m', d2'. auto.
Qed.

Lemma counter_incr_inv x c l :
  counter_inv c l -> counter_inv (counter_incr x c) (l ++ [x]).
Proof.
  intros [Hnd Hcnt Hkeys Hord].
  destruct (in_dec value_eq_dec x (map fst c)) as [Hin|Hnin].
  - (* a known key *)
    destruct (first_key_split x c Hin) as (c1 & n & c2 & -> & Hn1).
    rewrite counter_incr_old by exact Hn1.
    assert (Hfst : map fst (c1 ++ (x, S n) :: c2) = map fst (c1 ++ (x, n) :: c2))
      by (rewrite !map_app; reflexivity).
    split.
    + rewrite Hfst. exact Hnd.
    + intros y m Hy. rewrite count_app.
      apply in_app_or in Hy as [Hy | [Hy | Hy]].
      * assert (y <> x).
        { intros ->. apply Hn1. apply (in_map fst) in Hy. exact Hy. }
        rewrite count_single_neq by congruence.
        destruct (Hcnt y m) as [-> ?]; [apply in_or_app; auto|]. lia.
      * inversion Hy; subst. rewrite count_single_eq.
        destruct (Hcnt y n) as [-> ?]; [apply in_or_app; simpl; auto|]. lia.
      * assert (y <> x).
        { intros ->. rewrite map_app in Hnd. apply NoDup_app in Hnd as (_ & _ & Hnd).
          simpl in Hnd. apply NoDup_cons in Hnd as [Hnd _].
          apply Hnd, list_elem_of_In. apply (in_map fst) in Hy. exact Hy. }
        rewrite count_single_neq by congruence.
        destruct (Hcnt y m) as [-> ?]; [apply in_or_app; simpl; auto|]. lia.
    + intros y Hy. rewrite Hfst. apply in_app_or in Hy as [Hy | [<- | []]].
      * apply Hkeys, Hy.
      * exact Hin.
    + intros d1 y m d2 z Heq Hz.
      apply occurs_before_snoc.
      (* the keys of the bumped counter stand where they stood *)
      destruct (keys_split (c1 ++ (x, n) :: c2) d1 y m d2) as (d1' & m' & d2' & E & Hk).
      { rewrite <- Heq. symmetry. exact Hfst. }
      eapply Hord; [exact E | rewrite Hk; exact Hz].
  - (* a new key *)
    rewrite counter_incr_new by exact Hnin.
    assert (Hx : ~ In x l) by (intros H; apply Hnin, Hkeys, H).
    split.
    + rewrite map_app. simpl. apply NoDup_app. split; [exact Hnd|]. split.
      * intros y Hy Hy'. apply list_elem_of_In in Hy, Hy'. simpl in Hy'. destruct Hy' as [<-|[]].
        apply Hnin. exact Hy.
      * apply NoDup_singleton.
    + intros y m Hy. rewrite count_app.
      apply in_app_or in Hy as [Hy | [Hy | []]].
      * assert (y <> x).
        { intros ->. apply Hnin. apply (in_map fst) in Hy. exact Hy. }
        rewrite count_single_neq by congruence.
        destruct (Hcnt y m Hy) as [-> ?]. lia.
      * inversion Hy; subst. rewrite count_single_eq, count_zero_not_in by exact Hx. lia.
    + intros y Hy. rewrite map_app. apply in_or_app.
      apply in_app_or in Hy as [Hy | [<- | []]]; [left; apply Hkeys, Hy | right; simpl; auto].
    + intros d1 y m d2 z Heq Hz.
      (* split on whether (y, m) is the new last entry *)
      destruct d2 as [|q d2 _] using rev_ind; [destruct Hz|].
      rewrite app_comm_cons, app_assoc in Heq.
      apply app_inj_tail in Heq as [Heq <-].
      rewrite map_app in Hz. apply in_app_or in Hz as [Hz | [<- | []]].
      * apply occurs_before_snoc. eapply Hord; [exact Heq | exact Hz].
      * simpl. apply occurs_before_fresh; [|exact Hx].
        apply count_pos_in.
        destruct (Hcnt y m) as [<- ?]; [rewrite Heq; apply in_or_app; simpl; auto | assumption].
Qed.

Lemma counter_fold_inv l : forall c l0,
  counter_inv c l0 -> counter_inv (fold_left (fun c x => counter_incr x c) l c) (l0 ++ l).
Proof.
  induction l as [|x t IH]; intros c l0 H; simpl.
  - rewrite app_nil_r. exact H.
  - replace (l0 ++ x :: t) with ((l0 ++ [x]) ++ t) by (rewrite <- app_assoc; reflexivity).
    apply IH, counter_incr_inv, H.
Qed.

Lemma Counter_inv l : counter_inv (Counter l) l.
Proof.
  apply (counter_fold_inv l [] []). split; simpl.
  - apply NoDup_nil_2.
  - intros ? ? [].
  - intros ? [].
  - intros [|? ?] ? ? ? ? H; discriminate H.
Qed.

(** [max] keeps the first maximal item: everything before it is strictly
    smaller, nothing after it is larger. *)
Lemma max_fold_spec (items : list (value * nat)) : forall b r,
  fold_left
    (fun best it =>
       match best with
       | None => Some it
       | Some b => if (snd b <? snd it)%nat then Some it else Some b
       end)
    items (Some b) = Some r ->
  (r = b /\ forall p, In p items -> (snd p <= snd b)%nat)
  \/ (exists i1 i2, items = i1 ++ r :: i2
        /\ (snd b < snd r)%nat
        /\ (forall p, In p i1 -> (snd p < snd r)%nat)
        /\ (forall p, In p i2 -> (snd p <= snd r)%nat)).
Proof.
  induction items as [|it rest IH]; intros b r H; simpl in H.
  - inversion H; subst. left. split; [reflexivity | intros ? []].
  - destruct (snd b <? snd it)%nat eqn:E.
    + apply Nat.ltb_lt in E.
      destruct (IH _ _ H) as [[-> Hle] | (i1 & i2 & -> & Hlt & H1 & H2)].
      * right. exists [], rest. simpl. repeat split; auto. intros ? [].
      * right. exists (it :: i1), i2. simpl. repeat split; auto; try lia.
        intros p [<- | Hp]; auto.
    + apply Nat.ltb_ge in E.
      destruct (IH _ _ H) as [[-> Hle] | (i1 & i2 & -> & Hlt & H1 & H2)].
      * left. split; [reflexivity|]. intros p [<- | Hp]; auto.
      * right. exists (it :: i1), i2. simpl. repeat split; auto.
        intros p [<- | Hp]; auto. lia.
Qed.

Lemma max_by_count_spec c r :
  max_by_count c = Some r ->
  exists c1 c2, c = c1 ++ r :: c2
    /\ (forall p, In p c1 -> (snd p < snd r)%nat)
    /\ (forall p, In p c2 -> (snd p <= snd r)%nat).
Proof.
  unfold max_by_count. destruct c as [|it rest]; simpl; [discriminate|].
  intros H. destruct (max_fold_spec _ _ _ H) as [[-> Hle] | (i1 & i2 & -> & Hlt & H1 & H2)].
  - exists [], rest. simpl. repeat split; auto. intros ? [].
  - exists (it :: i1), i2. simpl. repeat split; auto.
    intros p [<- | Hp]; auto.
Qed.

Lemma max_fold_some (items : list (value * nat)) : forall b, exists r,
  fold_left
    (fun best it =>
       match best with
       | None => Some it
       | Some b => if (snd b <? snd it)%nat then Some it else Some b
       end)
    items (Some b) = Some r.
Proof.
  induction items as [|it rest IH]; intros b; simpl; [eauto|].
  destruct (snd b <? snd it)%nat; apply IH.
Qed.

Lemma max_by_count_some c : c <> [] -> exists r, max_by_count c = Some r.
Proof.
  destruct c as [|it rest]; [congruence|]. intros _. apply max_fold_some.
Qed.

Lemma filter_split {A} (f : A -> bool) l a x b :
  List.filter f l = a ++ x :: b ->
  exists a' b', l = a' ++ x :: b' /\ List.filter f a' = a /\ List.filter f b' = b.
Proof.
  revert a. induction l as [|y t IH]; intros a H; simpl in H.
  - destruct a; discriminate H.
  - destruct (f y) eqn:E.
    + destruct a as [|a0 a]; simpl in H; inversion H; subst.
      * exists [], t. auto.
      * destruct (IH a) as (a' & b' & -> & Ha & Hb); [assumption|].
        exists (a0 :: a'), b'. simpl. rewrite E, Ha. auto.
    + destruct (IH a H) as (a' & b' & -> & Ha & Hb).
      exists (y :: a'), b'. simpl. rewrite E. auto.
Qed.

Lemma count_filter_truthy u l : truthy u = true -> count u (List.filter truthy l) = count u l.
Proof.
  intros Hu. unfold count. induction l as [|x t IH]; simpl; [reflexivity|].
  destruct (truthy x) eqn:E; simpl.
  - destruct (value_eq_dec x u); rewrite IH; reflexivity.
  - destruct (value_eq_dec x u) as [->|]; [congruence | exact IH].
Qed.

(** With no non-empty value to vote for, the vote is the empty string. *)
Lemma majority_vote_all_empty values :
  (forall x, In x values -> truthy x = false) ->
  majority_vote values = Ok (VStr (lit "")).
Proof.
  intros H. unfold majority_vote.
  destruct (List.filter truthy values) as [|x t] eqn:E; [reflexivity|].
  assert (Hx : In x (List.filter truthy values)) by (rewrite E; simpl; auto).
  apply filter_In in Hx as [Hx Ht]. rewrite (H x Hx) in Ht. discriminate.
Qed.

(** The vote among the non-empty values: a most frequent one, and among
    the most frequent ones the first to occur. *)
Lemma majority_vote_spec values :
  (exists x, In x values /\ truthy x = true) ->
  exists v, majority_vote values = Ok v
    /\ truthy v = true
    /\ In v values
    /\ (forall u, truthy u = true -> (count u values <= count v values)%nat)
    /\ (forall u, truthy u = true -> u <> v -> count u values = count v values ->
          occurs_before v u values).
Proof.
  intros (x & Hx & Htx).
  remember (List.filter truthy values) as ne eqn:Ene.
  assert (Hxne : In x ne) by (subst ne; apply filter_In; auto).
  assert (Hbody : majority_vote values =
            match most_common_1 (Counter ne) with
            | it :: _ => Ok (fst it)
            | [] => Raise IndexError
            end).
  { unfold majority_vote. rewrite <- Ene. destruct ne; [destruct Hxne | reflexivity]. }
  rewrite Hbody. clear Hbody.
  pose proof (Counter_inv ne) as [Hnd Hcnt Hkeys Hord].
  assert (Hc : Counter ne <> []).
  { intros E. apply Hkeys in Hxne. rewrite E in Hxne. destruct Hxne. }
  destruct (max_by_count_some _ Hc) as [[v n] Hmax].
  unfold most_common_1. rewrite Hmax. simpl.
  destruct (max_by_count_spec _ _ Hmax) as (c1 & c2 & Ec & H1 & H2). simpl in H1, H2.
  assert (Hvc : In (v, n) (Counter ne)) by (rewrite Ec; apply in_or_app; simpl; auto).
  destruct (Hcnt v n Hvc) as [Hn Hpos].
  assert (Hvne : In v ne) by (apply count_pos_in; lia).
  rewrite Ene in Hvne. apply filter_In in Hvne as [Hv Htv].
  exists v. split; [reflexivity|]. split; [exact Htv|]. split; [exact Hv|].
  rewrite Ene, (count_filter_truthy v values Htv) in Hn.
  assert (Hkey : forall u, truthy u = true -> In u values ->
                   exists m, In (u, m) (Counter ne) /\ m = count u values).
  { intros u Hu Hin.
    assert (Hk : In u (map fst (Counter ne))) by (apply Hkeys; subst ne; apply filter_In; auto).
    apply in_map_iff in Hk as ([u' m] & Eu & Hk). simpl in Eu. subst u'.
    exists m. split; [exact Hk|].
    destruct (Hcnt u m Hk) as [-> _]. subst ne. apply count_filter_truthy, Hu. }
  split.
  - intros u Hu.
    destruct (in_dec value_eq_dec u values) as [Hin | Hnin].
    + destruct (Hkey u Hu Hin) as (m & Hm & Em).
      rewrite Ec in Hm. apply in_app_or in Hm as [Hm | [Hm | Hm]].
      * apply H1 in Hm. simpl in Hm. lia.
      * inversion Hm; subst. lia.
      * apply H2 in Hm. simpl in Hm. lia.
    + rewrite (count_zero_not_in u values Hnin). lia.
  - intros u Hu Hne Heq.
    assert (Hin : In u values) by (apply count_pos_in; lia).
    destruct (Hkey u Hu Hin) as (m & Hm & Em).
    rewrite Ec in Hm. apply in_app_or in Hm as [Hm | [Hm | Hm]].
    + apply H1 in Hm. simpl in Hm. lia.
    + inversion Hm; subst. congruence.
    + assert (Hb : occurs_before v u ne).
      { eapply Hord; [exact Ec|]. apply (in_map fst) in Hm. exact Hm. }
      destruct Hb as (l1 & l2 & El & Hnot).
      rewrite Ene in El.
      destruct (filter_split truthy values l1 v l2 El) as (a' & b' & Ev & Ha & Hb).
      exists a', b'. split; [exact Ev|].
      intros Hua. apply Hnot. rewrite <- Ha. apply filter_In. auto.
Qed.

(** [majority_vote] never raises. *)
Lemma majority_vote_total values : exists v, majority_vote values = Ok v.
Proof.
  destruct (existsb truthy values) eqn:E.
  - apply existsb_exists in E.
    destruct (majority_vote_spec values E) as (v & Hv & _). eauto.
  - exists (VStr (lit "")). apply majority_vote_all_empty.
    intros x Hx. destruct (truthy x) eqn:Ex; [|reflexivity].
    assert (existsb truthy values = true) by (apply existsb_exists; eauto).
    congruence.
Qed.

(** C6: among the non-empty values of a window that share the highest
    frequency, [majority_vote] returns the one that occurs first scanning
    the window from the left. *)
Theorem majority_vote_ties_first_occurrence :
  forall (values : list value) (v u : value),
    majority_vote values = Ok v ->
    In u values -> truthy u = true ->
    (forall w, truthy w = true -> (count w values <= count u values)%nat) ->
    truthy v = true
    /\ In v values
    /\ count v values = count u values
    /\ (u <> v -> occurs_before v u values).
Proof.
  intros values v u Hmv Hu Htu Hmax.
  destruct (majority_vote_spec values) as (v' & Hv' & Htv & Hin & Hle & Hfirst); [eauto|].
  rewrite Hmv in Hv'. inversion Hv'; subst v'.
  assert (Heq : count v values = count u values).
  { apply Nat.le_antisymm; [apply Hmax, Htv | apply Hle, Htu]. }
  repeat split; auto.
Qed.

(** ** Dictionaries *)

Lemma dict_get_set_eq d k v : dict_get (dict_set d k v) k = Some v.
Proof.
  induction d as [|[k' v'] t IH]; simpl.
  - rewrite str_eqb_refl. reflexivity.
  - destruct (k' == k) eqn:E; simpl; rewrite E; [reflexivity | exact IH].
Qed.

Lemma dict_get_set_ne d k k' v : k <> k' -> dict_get (dict_set d k v) k' = dict_get d k'.
Proof.
  intros Hne. induction d as [|[k0 v0] t IH]; simpl.
  - rewrite (proj2 (str_eqb_neq k k')) by exact Hne. reflexivity.
  - destruct (k0 == k) eqn:E; simpl.
    + apply str_eqb_eq in E. subst k0.
      rewrite (proj2 (str_eqb_neq k k')) by exact Hne. reflexivity.
    + destruct (k0 == k'); [reflexivity | exact IH].
Qed.

Lemma getitem_has_key d k : has_key d k -> getitem d k = Ok (get_or d k VNone).
Proof.
  unfold has_key, getitem, get_or. destruct (dict_get d k); [reflexivity | congruence].
Qed.

Lemma has_key_set d k k' v : has_key d k' -> has_key (dict_set d k v) k'.
Proof.
  unfold has_key. destruct (decide (k = k')) as [->|Hne].
  - rewrite dict_get_set_eq. congruence.
  - rewrite dict_get_set_ne by exact Hne. auto.
Qed.

Lemma get_or_set_ne d k k' v dflt : k <> k' -> get_or (dict_set d k v) k' dflt = get_or d k' dflt.
Proof. intros H. unfold get_or. rewrite dict_get_set_ne by exact H. reflexivity. Qed.

(** ** The object store *)

Lemma bind_ok {A B} (m : M A) (f : A -> M B) h a h' :
  m h = Ok (a, h') -> (m ≫= f) h = f a h'.
Proof. intros H. unfold mbind, M_bind. rewrite H. reflexivity. Qed.

Lemma lift_ok {A} (r : result A) a (h : heap) : r = Ok a -> lift r h = Ok (a, h).
Proof. intros ->. reflexivity. Qed.

Lemma deref_ok (h : heap) r d : h !! r = Some d -> deref r h = Ok (d, h).
Proof. unfold deref. intros ->. reflexivity. Qed.

Lemma getitem_at_ok (h : heap) r d k :
  h !! r = Some d -> has_key d k -> getitem_at r k h = Ok (get_or d k VNone, h).
Proof.
  intros Hr Hk. unfold getitem_at.
  rewrite (bind_ok _ _ _ _ _ (deref_ok _ _ _ Hr)).
  apply lift_ok, getitem_has_key, Hk.
Qed.

(** A loop of reads returns the values read and leaves the store alone. *)
Lemma mapM_reads {A B} (f : A -> M B) (g : A -> B) (h : heap) l :
  (forall x, In x l -> f x h = Ok (g x, h)) ->
  mapM f l h = Ok (map g l, h).
Proof.
  induction l as [|x t IH]; intros H; simpl; [reflexivity|].
  rewrite (bind_ok _ _ _ _ _ (H x (or_introl eq_refl))).
  rewrite (bind_ok _ _ _ _ _ (IH (fun y Hy => H y (or_intror Hy)))).
  reflexivity.
Qed.

Lemma setitem_ok (h : heap) r d k v :
  h !! r = Some d -> setitem r k v h = Ok (tt, <[r := dict_set d k v]> h).
Proof. unfold setitem. intros ->. reflexivity. Qed.

Lemma heap_lookup_last (h : heap) d : (h ++ [d]) !! length h = Some d.
Proof. rewrite lookup_app_r by lia. rewrite Nat.sub_diag. reflexivity. Qed.

Lemma heap_insert_last (h : heap) d d' : <[length h := d']> (h ++ [d]) = h ++ [d'].
Proof.
  rewrite <- (Nat.add_0_r (length h)). rewrite insert_app_r. reflexivity.
Qed.

Lemma alloc_ok (h : heap) d : alloc d h = Ok (length h, h ++ [d]).
Proof. reflexivity. Qed.

(** ** SignalSmoother *)

Lemma py_slice_window3 {A} (l : list A) (i : nat) :
  (i < length l)%nat ->
  py_slice l (Z.max 0 (Z.of_nat i - 1))
    (Z.min (Z.of_nat (length l) - 1) (Z.of_nat i + 1) + 1) = window3 l i.
Proof.
  intros Hi. unfold py_slice, window3, slice_bound.
  destruct (Z.ltb_spec (Z.max 0 (Z.of_nat i - 1)) 0); [lia|].
  destruct (Z.ltb_spec (Z.min (Z.of_nat (length l) - 1) (Z.of_nat i + 1) + 1) 0); [lia|].
  replace (Z.to_nat (Z.min (Z.max 0 (Z.of_nat i - 1)) (Z.of_nat (length l))))
    with (i - 1)%nat by lia.
  replace (Z.to_nat
             (Z.min (Z.min (Z.of_nat (length l) - 1) (Z.of_nat i + 1) + 1) (Z.of_nat (length l))
              - Z.min (Z.max 0 (Z.of_nat i - 1)) (Z.of_nat (length l))))
    with (Nat.min (length l - 1) (i + 1) + 1 - (i - 1))%nat by lia.
  reflexivity.
Qed.

Lemma window3_Forall2 {A B} (P : A -> B -> Prop) l k i :
  Forall2 P l k -> Forall2 P (window3 l i) (window3 k i).
Proof.
  intros H. unfold window3. rewrite (Forall2_length _ _ _ H).
  apply Forall2_take, Forall2_drop, H.
Qed.

Lemma window3_In {A} (l : list A) i x : In x (window3 l i) -> In x l.
Proof.
  unfold window3. intros H.
  rewrite <- (firstn_skipn (i - 1) l). apply in_or_app. right.
  rewrite <- (firstn_skipn (Nat.min (length l - 1) (i + 1) + 1 - (i - 1)) (skipn (i - 1) l)).
  apply in_or_app. left. exact H.
Qed.

Lemma rows_at_in h rows ds r :
  rows_at h rows ds -> In r rows -> exists d, h !! r = Some d /\ In d ds.
Proof.
  induction 1 as [|r' d' rows' ds' Hr _ IH]; simpl; [tauto|].
  intros [<- | Hin]; [eauto|].
  destruct (IH Hin) as (d & ? & ?). eauto.
Qed.

Lemma rows_at_read h k rows ds :
  rows_at h rows ds -> map (read_attr h k) rows = map (attr k) ds.
Proof.
  induction 1 as [|r d rows' ds' Hr _ IH]; simpl; [reflexivity|].
  unfold read_attr at 1. rewrite Hr, IH. reflexivity.
Qed.

Lemma rows_at_extend h h' rows ds : rows_at h rows ds -> rows_at (h ++ h') rows ds.
Proof.
  induction 1 as [|r d rows' ds' Hr _ IH]; constructor; [|exact IH].
  apply lookup_app_l_Some, Hr.
Qed.

Lemma raw_row_key d k :
  raw_row d -> In k ["affordance"; "yield_to"; "lead_state"] -> has_key d (lit k).
Proof.
  intros (Ha & Hy & Hl) [<- | [<- | [<- | []]]]; assumption.
Qed.

(** Reading one attribute over the window. *)
Lemma window_reads h rows ds i k :
  rows_at h rows ds -> Forall raw_row ds ->
  In k ["affordance"; "yield_to"; "lead_state"] ->
  mapM (fun r => getitem_at r (lit k)) (window3 rows i) h
  = Ok (map (attr k) (window3 ds i), h).
Proof.
  intros Hrows Hraw Hk.
  rewrite <- (rows_at_read h k (window3 rows i) (window3 ds i))
    by (apply window3_Forall2, Hrows).
  apply mapM_reads. intros r Hr.
  destruct (rows_at_in _ _ _ _ Hrows (window3_In _ _ _ Hr)) as (d & Hd & Hin).
  unfold read_attr. rewrite Hd.
  apply getitem_at_ok; [exact Hd|].
  apply raw_row_key; [|exact Hk].
  rewrite Forall_forall in Hraw. apply Hraw, list_elem_of_In, Hin.
Qed.

(** The value stored for one attribute, read on the new row [d']. *)
Lemma py_or_ok (h : heap) k w d d' v r :
  majority_vote (map (attr k) w) = Ok v ->
  h !! r = Some d' -> has_key d' (lit k) -> attr k d' = attr k d ->
  py_or v (getitem_at r (lit k)) h = Ok (smoothed_value k w d, h).
Proof.
  intros Hv Hr Hk Hd. unfold py_or, smoothed_value. rewrite Hv.
  destruct (truthy v); [reflexivity|].
  rewrite (getitem_at_ok _ _ _ _ Hr Hk). unfold attr in Hd. rewrite Hd. reflexivity.
Qed.

Lemma smooth_row_ok rows ds (h : heap) i d :
  rows_at h rows ds -> Forall raw_row ds -> ds !! i = Some d ->
  smooth_row rows (Z.of_nat (length rows)) 1 (Z.of_nat i) h
  = Ok (length h, h ++ [smooth_dict ds i d]).
Proof.
  intros Hrows Hraw Hd.
  assert (Hlen : length rows = length ds) by (eapply Forall2_length, Hrows).
  assert (Hi : (i < length rows)%nat) by (rewrite Hlen; eapply lookup_lt_Some, Hd).
  assert (Hrawd : raw_row d).
  { rewrite Forall_forall in Hraw. apply Hraw. eapply list_elem_of_lookup_2, Hd. }
  destruct (lookup_lt_is_Some_2 rows i Hi) as [r Hr].
  assert (Hrd : h !! r = Some d).
  { eapply Forall2_lookup_lr in Hrows; [exact Hrows | exact Hr | exact Hd]. }
  destruct (majority_vote_total (map (attr "affordance") (window3 ds i))) as [va Hva].
  destruct (majority_vote_total (map (attr "yield_to") (window3 ds i))) as [vy Hvy].
  destruct (majority_vote_total (map (attr "lead_state") (window3 ds i))) as [vl Hvl].
  unfold smooth_row. cbv zeta.
  rewrite (py_slice_window3 rows i Hi).
  rewrite (bind_ok _ _ _ _ _ (window_reads h rows ds i "affordance" Hrows Hraw
                                ltac:(simpl; auto))).
  rewrite (bind_ok _ _ _ _ _ (window_reads h rows ds i "yield_to" Hrows Hraw
                                ltac:(simpl; auto))).
  rewrite (bind_ok _ _ _ _ _ (window_reads h rows ds i "lead_state" Hrows Hraw
                                ltac:(simpl; auto))).
  rewrite (bind_ok _ _ _ _ _ (lift_ok _ _ _ Hva)).
  rewrite (bind_ok _ _ _ _ _ (lift_ok _ _ _ Hvy)).
  rewrite (bind_ok _ _ _ _ _ (lift_ok _ _ _ Hvl)).
  assert (Hidx : py_index rows (Z.of_nat i) = Ok r).
  { unfold py_index. rewrite Nat2Z.id, Hr. reflexivity. }
  rewrite (bind_ok _ _ _ _ _ (lift_ok _ _ _ Hidx)).
  rewrite (bind_ok _ _ _ _ _ (deref_ok _ _ _ Hrd)).
  rewrite (bind_ok _ _ _ _ _ (alloc_ok h d)).
  (* affordance *)
  rewrite (bind_ok _ _ _ _ _
             (py_or_ok (h ++ [d]) "affordance" (window3 ds i) d d va (length h) Hva
                (heap_lookup_last h d) (raw_row_key d "affordance" Hrawd ltac:(simpl; auto)) eq_refl)).
  rewrite (bind_ok _ _ _ _ _ (setitem_ok _ _ _ _ _ (heap_lookup_last h d))).
  rewrite heap_insert_last.
  set (d1 := dict_set d (lit "affordance_smoothed") (smoothed_value "affordance" (window3 ds i) d)).
  (* yield_to *)
  assert (Hy1 : attr "yield_to" d1 = attr "yield_to" d).
  { unfold attr, d1. apply get_or_set_ne. vm_compute. congruence. }
  rewrite (bind_ok _ _ _ _ _
             (py_or_ok (h ++ [d1]) "yield_to" (window3 ds i) d d1 vy (length h) Hvy
                (heap_lookup_last h d1)
                (has_key_set _ _ _ _ (raw_row_key d "yield_to" Hrawd ltac:(simpl; auto))) Hy1)).
  rewrite (bind_ok _ _ _ _ _ (setitem_ok _ _ _ _ _ (heap_lookup_last h d1))).
  rewrite heap_insert_last.
  set (d2 := dict_set d1 (lit "yield_to_smoothed") (smoothed_value "yield_to" (window3 ds i) d)).
  (* lead_state *)
  assert (Hl2 : attr "lead_state" d2 = attr "lead_state" d).
  { unfold attr, d2, d1. rewrite !get_or_set_ne; [reflexivity | |]; vm_compute; congruence. }
  rewrite (bind_ok _ _ _ _ _
             (py_or_ok (h ++ [d2]) "lead_state" (window3 ds i) d d2 vl (length h) Hvl
                (heap_lookup_last h d2)
                (has_key_set _ _ _ _ (has_key_set _ _ _ _
                   (raw_row_key d "lead_state" Hrawd ltac:(simpl; auto)))) Hl2)).
  rewrite (bind_ok _ _ _ _ _ (setitem_ok _ _ _ _ _ (heap_lookup_last h d2))).
  rewrite heap_insert_last.
  reflexivity.
Qed.

Lemma smooth_loop rows ds (h : heap) :
  rows_at h rows ds -> Forall raw_row ds ->
  forall rest pre acc, ds = pre ++ rest ->
    mapM (smooth_row rows (Z.of_nat (length rows)) 1)
      (map Z.of_nat (seq (length pre) (length rest))) (h ++ acc)
    = Ok (seq (length (h ++ acc)) (length rest),
          (h ++ acc) ++ imap (fun i => smooth_dict ds (length pre + i)) rest).
Proof.
  intros Hrows Hraw. induction rest as [|x rest IH]; intros pre acc Hds.
  - simpl. rewrite app_nil_r. reflexivity.
  - cbn [length seq map mapM].
    assert (Hx : ds !! length pre = Some x).
    { rewrite Hds. rewrite lookup_app_r by lia. rewrite Nat.sub_diag. reflexivity. }
    rewrite (bind_ok _ _ _ _ _
               (smooth_row_ok rows ds (h ++ acc) (length pre) x
                  (rows_at_extend _ _ _ _ Hrows) Hraw Hx)).
    specialize (IH (pre ++ [x]) (acc ++ [smooth_dict ds (length pre) x])).
    rewrite length_app in IH. simpl in IH. rewrite Nat.add_1_r in IH.
    rewrite app_assoc in IH.
    rewrite (bind_ok _ _ _ _ _ (IH ltac:(rewrite <- app_assoc; exact Hds))).
    cbn [mret M_ret]. unfold mret, M_ret.
    rewrite (length_app (h ++ acc) [_]). simpl length. rewrite Nat.add_1_r.
    rewrite imap_cons, Nat.add_0_r. rewrite <- (app_assoc (h ++ acc)). simpl.
    do 4 f_equal. apply imap_ext. intros i y _. simpl.
    f_equal. lia.
Qed.

(** [smooth_sequence] with [window=3] on a clip: the copies are appended to
    the store in input order, and nothing else changes. *)
Lemma smooth_sequence_ok rows ds (h : heap) :
  rows_at h rows ds -> Forall raw_row ds ->
  smooth_sequence rows 3 h
  = Ok (seq (length h) (length rows), h ++ smooth_all ds).
Proof.
  intros Hrows Hraw.
  assert (Hlen : length rows = length ds) by (eapply Forall2_length, Hrows).
  unfold smooth_sequence, range. change (3 / 2)%Z with 1%Z.
  pose proof (smooth_loop rows ds h Hrows Hraw ds [] [] eq_refl) as H.
  simpl in H. rewrite app_nil_r in H. rewrite <- Hlen in H. exact H.
Qed.

Lemma smooth_all_length ds : length (smooth_all ds) = length ds.
Proof. unfold smooth_all. apply length_imap. Qed.

Lemma smooth_all_lookup ds i d :
  ds !! i = Some d -> smooth_all ds !! i = Some (smooth_dict ds i d).
Proof. intros H. unfold smooth_all. rewrite list_lookup_imap, H. reflexivity. Qed.

Lemma rows_at_fresh (h : heap) os : rows_at (h ++ os) (seq (length h) (length os)) os.
Proof.
  unfold rows_at. apply Forall2_same_length_lookup. split.
  - rewrite length_seq. reflexivity.
  - intros i r o Hr Ho. apply lookup_seq in Hr as [-> Hlt].
    rewrite lookup_app_r by lia.
    replace (length h + i - length h)%nat with i by lia. exact Ho.
Qed.

Lemma smoothed_value_ok k w d :
  smoothed_ok (map (attr k) w) (attr k d) (smoothed_value k w d).
Proof.
  unfold smoothed_ok, smoothed_value. split.
  - intros Hex.
    destruct (majority_vote_spec _ Hex) as (v & -> & Htv & Hin & Hle & Hfirst).
    rewrite Htv. auto.
  - intros Hall. rewrite (majority_vote_all_empty _ Hall). reflexivity.
Qed.

(** The window of position [i] holds exactly the rows at positions
    [max(0, i-1) .. min(n-1, i+1)]. *)
Lemma window3_lookup {A} (l : list A) i j :
  (i < length l)%nat ->
  window3 l i !! j
  = if decide (i - 1 + j <= Nat.min (length l - 1) (i + 1))%nat
    then l !! (i - 1 + j)%nat else None.
Proof.
  intros Hi. unfold window3. case_decide as Hj.
  - rewrite lookup_take_lt by lia. apply lookup_drop.
  - apply lookup_take_ge. lia.
Qed.

(** C5: with [window=3], [smooth_sequence] returns one row per input row,
    in input order; row [i] is input row [i] extended with the three
    smoothed fields, each the most frequent non-empty value of its attribute
    over the rows [max(0, i-1) .. min(n-1, i+1)], or the row's own value when
    every value in that window is empty; and the rows produced depend on the
    clip's input rows only, whatever else the store holds. *)
Theorem smooth_sequence_window3_spec :
  forall (rows : list loc) (h : heap) (ds : list dict),
    rows_at h rows ds -> Forall raw_row ds ->
    exists out h' os,
      smooth_sequence rows 3 h = Ok (out, h')
      /\ rows_at h' out os
      /\ length os = length ds
      /\ (forall i d o, ds !! i = Some d -> os !! i = Some o ->
            exists a y l,
              o = dict_set
                    (dict_set (dict_set d (lit "affordance_smoothed") a)
                       (lit "yield_to_smoothed") y)
                    (lit "lead_state_smoothed") l
              /\ smoothed_ok (map (attr "affordance") (window3 ds i)) (attr "affordance" d) a
              /\ smoothed_ok (map (attr "yield_to") (window3 ds i)) (attr "yield_to" d) y
              /\ smoothed_ok (map (attr "lead_state") (window3 ds i)) (attr "lead_state" d) l)
      /\ (forall rows2 h2, rows_at h2 rows2 ds ->
            exists out2 h2',
              smooth_sequence rows2 3 h2 = Ok (out2, h2') /\ rows_at h2' out2 os).
Proof.
  intros rows h ds Hrows Hraw.
  assert (Hlen : length rows = length ds) by (eapply Forall2_length, Hrows).
  exists (seq (length h) (length rows)), (h ++ smooth_all ds), (smooth_all ds).
  split; [apply smooth_sequence_ok; assumption|]. split.
  { rewrite Hlen, <- (smooth_all_length ds). apply rows_at_fresh. }
  split; [apply smooth_all_length|]. split.
  - intros i d o Hd Ho. rewrite (smooth_all_lookup _ _ _ Hd) in Ho.
    inversion Ho; subst o.
    exists (smoothed_value "affordance" (window3 ds i) d),
           (smoothed_value "yield_to" (window3 ds i) d),
           (smoothed_value "lead_state" (window3 ds i) d).
    split; [reflexivity|].
    split; [apply smoothed_value_ok|]. split; apply smoothed_value_ok.
  - intros rows2 h2 Hrows2.
    exists (seq (length h2) (length rows2)), (h2 ++ smooth_all ds).
    split; [apply smooth_sequence_ok; assumption|].
    rewrite (Forall2_length _ _ _ Hrows2), <- (smooth_all_length ds).
    apply rows_at_fresh.
Qed.

(** ** Reading a successful run backwards *)

Lemma bind_inv {A B} (m : M A) (f : A -> M B) h b h2 :
  (m ≫= f) h = Ok (b, h2) -> exists a h1, m h = Ok (a, h1) /\ f a h1 = Ok (b, h2).
Proof.
  unfold mbind, M_bind. destruct (m h) as [[a h1]|e]; [eauto | discriminate].
Qed.

Lemma lift_inv {A} (r : result A) (h h1 : heap) a :
  lift r h = Ok (a, h1) -> r = Ok a /\ h1 = h.
Proof. unfold lift. destruct r; intros H; inversion H; auto. Qed.

Lemma deref_inv (h h1 : heap) r d :
  deref r h = Ok (d, h1) -> h !! r = Some d /\ h1 = h.
Proof. unfold deref. destruct (h !! r); intros H; inversion H; auto. Qed.

Lemma getitem_at_inv (h h1 : heap) r k v : getitem_at r k h = Ok (v, h1) -> h1 = h.
Proof.
  unfold getitem_at. intros H.
  apply bind_inv in H as (d & h0 & Hd & H).
  apply deref_inv in Hd as [_ ->]. apply lift_inv in H as [_ ->]. reflexivity.
Qed.

Lemma mapM_getitem_at_inv k l : forall (h h1 : heap) vs,
  mapM (fun r => getitem_at r k) l h = Ok (vs, h1) -> h1 = h.
Proof.
  induction l as [|r t IH]; intros h h1 vs H; cbn [mapM] in H.
  - inversion H. reflexivity.
  - apply bind_inv in H as (v & h2 & Hv & H).
    apply getitem_at_inv in Hv as ->.
    apply bind_inv in H as (vs' & h3 & Hvs & H).
    apply IH in Hvs as ->. inversion H. reflexivity.
Qed.

Lemma py_or_inv (h h1 : heap) v r k a :
  py_or v (getitem_at r k) h = Ok (a, h1) -> h1 = h.
Proof.
  unfold py_or. destruct (truthy v).
  - intros H. inversion H. reflexivity.
  - apply getitem_at_inv.
Qed.

Lemma setitem_inv (h h1 : heap) r k v u :
  setitem r k v h = Ok (u, h1) ->
  exists d, h !! r = Some d /\ h1 = <[r := dict_set d k v]> h.
Proof.
  unfold setitem. destruct (h !! r) as [d|]; intros H; inversion H. eauto.
Qed.

(** Three writes under the three keys of a stage extend the row by them. *)
Lemma extends_by_three d k1 k2 k3 v1 v2 v3 :
  extends_by [k1; k2; k3] d (dict_set (dict_set (dict_set d k1 v1) k2 v2) k3 v3).
Proof.
  split.
  - intros k Hk. unfold has_key.
    destruct (decide (k3 = k)) as [->|H3]; [rewrite dict_get_set_eq; congruence|].
    rewrite dict_get_set_ne by exact H3.
    destruct (decide (k2 = k)) as [->|H2]; [rewrite dict_get_set_eq; congruence|].
    rewrite dict_get_set_ne by exact H2.
    destruct (decide (k1 = k)) as [->|H1]; [rewrite dict_get_set_eq; congruence|].
    simpl in Hk. exfalso. destruct Hk as [?|[?|[?|[]]]]; congruence.
  - intros k Hk. simpl in Hk.
    rewrite !dict_get_set_ne by (intros ->; tauto). reflexivity.
Qed.

(** One turn of the smoothing loop allocates one object, a copy of the row
    at position [i] extended by the smoothed fields, and writes nowhere
    else. *)
Lemma smooth_row_inv rows n half i (h h' : heap) row :
  smooth_row rows n half i h = Ok (row, h') ->
  exists r d o,
    py_index rows i = Ok r /\ h !! r = Some d
    /\ row = length h /\ h' = h ++ [o] /\ extends_by smoothed_keys d o.
Proof.
  unfold smooth_row. cbv zeta. intros H.
  apply bind_inv in H as (av & h1 & H1 & H). apply mapM_getitem_at_inv in H1 as ->.
  apply bind_inv in H as (yv & h1 & H1 & H). apply mapM_getitem_at_inv in H1 as ->.
  apply bind_inv in H as (lv & h1 & H1 & H). apply mapM_getitem_at_inv in H1 as ->.
  apply bind_inv in H as (a_s & h1 & H1 & H). apply lift_inv in H1 as [_ ->].
  apply bind_inv in H as (y_s & h1 & H1 & H). apply lift_inv in H1 as [_ ->].
  apply bind_inv in H as (l_s & h1 & H1 & H). apply lift_inv in H1 as [_ ->].
  apply bind_inv in H as (r & h1 & H1 & H). apply lift_inv in H1 as [Hidx ->].
  apply bind_inv in H as (d & h1 & H1 & H). apply deref_inv in H1 as [Hd ->].
  apply bind_inv in H as (row' & h1 & H1 & H).
  unfold alloc in H1. inversion H1; subst row' h1. clear H1.
  apply bind_inv in H as (v1 & h1 & H1 & H). apply py_or_inv in H1 as ->.
  apply bind_inv in H as (u1 & h1 & H1 & H).
  apply setitem_inv in H1 as (d1 & Hd1 & ->).
  rewrite heap_lookup_last in Hd1. inversion Hd1; subst d1. clear Hd1.
  rewrite heap_insert_last in H.
  apply bind_inv in H as (v2 & h1 & H1 & H). apply py_or_inv in H1 as ->.
  apply bind_inv in H as (u2 & h1 & H1 & H).
  apply setitem_inv in H1 as (d1 & Hd1 & ->).
  rewrite heap_lookup_last in Hd1. inversion Hd1; subst d1. clear Hd1.
  rewrite heap_insert_last in H.
  apply bind_inv in H as (v3 & h1 & H1 & H). apply py_or_inv in H1 as ->.
  apply bind_inv in H as (u3 & h1 & H1 & H).
  apply setitem_inv in H1 as (d1 & Hd1 & ->).
  rewrite heap_lookup_last in Hd1. inversion Hd1; subst d1. clear Hd1.
  rewrite heap_insert_last in H.
  inversion H; subst row h'. clear H.
  eexists r, d, _. split; [exact Hidx|]. split; [exact Hd|].
  split; [reflexivity|]. split; [reflexivity|].
  apply (extends_by_three d).
Qed.

Lemma py_index_In {A} (l : list A) i x : py_index l i = Ok x -> In x l.
Proof.
  unfold py_index. destruct (l !! Z.to_nat i) eqn:E; intros H; inversion H; subst.
  apply list_elem_of_In. eapply list_elem_of_lookup_2, E.
Qed.

Lemma smooth_loop_inv rows n half (h : heap) :
  (forall r, In r rows -> is_Some (h !! r)) ->
  forall idx acc out h',
    mapM (smooth_row rows n half) idx (h ++ acc) = Ok (out, h') ->
    exists os,
      h' = (h ++ acc) ++ os
      /\ out = seq (length (h ++ acc)) (length idx)
      /\ Forall2 (fun i o => exists r d,
                    py_index rows i = Ok r /\ h !! r = Some d
                    /\ extends_by smoothed_keys d o) idx os.
Proof.
  intros Hvalid. induction idx as [|i idx IH]; intros acc out h' H; cbn [mapM] in H.
  - inversion H. exists []. rewrite app_nil_r. repeat split. constructor.
  - apply bind_inv in H as (row & h1 & Hrow & H).
    apply smooth_row_inv in Hrow as (r & d & o & Hidx & Hd & -> & -> & Hext).
    apply bind_inv in H as (out' & h2 & Hrest & H).
    rewrite <- app_assoc in Hrest.
    apply IH in Hrest as (os & -> & -> & Hall).
    inversion H; subst out h'. clear H.
    exists (o :: os). split; [|split].
    + rewrite <- !app_assoc. reflexivity.
    + simpl. rewrite !length_app. simpl. rewrite Nat.add_assoc, Nat.add_1_r. reflexivity.
    + constructor; [|exact Hall].
      exists r, d. split; [exact Hidx|]. split; [|exact Hext].
      destruct (Hvalid r (py_index_In _ _ _ Hidx)) as [d0 Hd0].
      rewrite (lookup_app_l_Some _ _ _ _ Hd0) in Hd. congruence.
Qed.

(** The effect of [smooth_sequence], for any window: the objects of the
    store are left as they were; the result is a list of new objects, one
    per input row and in input order, each a copy of its input row extended
    by the smoothed fields. *)
Lemma smooth_sequence_frame rows window (h : heap) out h' :
  (forall r, In r rows -> is_Some (h !! r)) ->
  smooth_sequence rows window h = Ok (out, h') ->
  exists os,
    h' = h ++ os
    /\ out = seq (length h) (length rows)
    /\ forall i r, rows !! i = Some r ->
         exists d o, h !! r = Some d /\ os !! i = Some o /\ extends_by smoothed_keys d o.
Proof.
  intros Hvalid H. unfold smooth_sequence, range in H.
  pose proof (smooth_loop_inv rows (Z.of_nat (length rows)) (window / 2)%Z h Hvalid
                (map Z.of_nat (seq 0 (length rows))) [] out h') as Hinv.
  rewrite app_nil_r in Hinv. destruct (Hinv H) as (os & -> & -> & Hall).
  exists os. split; [reflexivity|]. split.
  { rewrite length_map, length_seq. reflexivity. }
  intros i r Hr.
  assert (Hi : (i < length rows)%nat) by (eapply lookup_lt_Some, Hr).
  assert (Hidx : map Z.of_nat (seq 0 (length rows)) !! i = Some (Z.of_nat i)).
  { rewrite list_lookup_fmap, lookup_seq_lt by exact Hi. reflexivity. }
  destruct (Forall2_lookup_l _ _ _ _ _ Hall Hidx) as (o & Ho & r' & d & Hidx' & Hd & Hext).
  unfold py_index in Hidx'. rewrite Nat2Z.id, Hr in Hidx'. inversion Hidx'; subst r'.
  eauto.
Qed.

(** ** GoReinjector *)

Section Reinjector.

Variable int_of_str : pystr -> option Z.

(** Writing the three final fields of the object at [r]. *)
Lemma set_final_ok (h : heap) r d (t : triple) :
  h !! r = Some d ->
  (setitem r (lit "affordance_final") t.1.1;;
   setitem r (lit "yield_to_final") t.1.2;;
   setitem r (lit "lead_state_final") t.2;;
   mret r) h
  = Ok (r, <[r := set_final d t]> h).
Proof.
  intros Hr. assert (Hlt : (r < length h)%nat) by (eapply lookup_lt_Some, Hr).
  rewrite (bind_ok _ _ _ _ _ (setitem_ok _ _ _ _ _ Hr)).
  rewrite (bind_ok _ _ _ _ _
             (setitem_ok _ r _ _ _ (list_lookup_insert_eq _ _ _ Hlt))).
  rewrite list_insert_insert_eq.
  rewrite (bind_ok _ _ _ _ _
             (setitem_ok _ r _ _ _ (list_lookup_insert_eq _ _ _ Hlt))).
  rewrite list_insert_insert_eq.
  reflexivity.
Qed.

(** The decision on the raw record never raises on a well-formed raw map. *)
Lemma final_choice_ok (ro : option dict) a_sm y_sm l_sm :
  (forall raw, ro = Some raw -> raw_row raw) ->
  match ro with
  | Some raw =>
      a_raw ← getitem raw (lit "affordance");
      y_raw ← getitem raw (lit "yield_to");
      l_raw ← getitem raw (lit "lead_state");
      if bool_decide (a_raw = VStr (lit "go"))
         && negb (a_sm == lit "go")
         && negb (y_sm == lit "ped")
         && negb (bool_decide (y_raw = VStr (lit "ped")))
      then mret (a_raw, y_raw, l_raw)
      else mret (VStr a_sm, VStr y_sm, VStr l_sm)
  | None => mret (VStr a_sm, VStr y_sm, VStr l_sm)
  end = Ok (final_of ro a_sm y_sm l_sm).
Proof.
  intros Hraw. destruct ro as [raw|]; [|reflexivity].
  destruct (Hraw raw eq_refl) as (Ha & Hy & Hl).
  rewrite (getitem_has_key _ _ Ha), (getitem_has_key _ _ Hy), (getitem_has_key _ _ Hl).
  cbn [mbind result_bind]. unfold final_of, go_reinjects, raw_triple, attr.
  destruct (_ && _); reflexivity.
Qed.

Lemma reinject_row_ok raw_map (h : heap) r d :
  raw_map_ok raw_map -> h !! r = Some d -> readable int_of_str d ->
  reinject_row int_of_str raw_map r h
  = Ok (r, <[r := reinjected int_of_str raw_map d]> h).
Proof.
  intros Hraw Hr ((c & Hc) & (z & Hz) & (a & Ha) & (y & Hy) & (l & Hl)).
  unfold reinject_row.
  rewrite (bind_ok _ _ _ _ _ (deref_ok _ _ _ Hr)).
  assert (Hclip : getitem d (lit "clip") ≫= py_strip = Ok (strip c)).
  { unfold getitem. rewrite Hc. reflexivity. }
  rewrite (bind_ok _ _ _ _ _ (lift_ok _ _ _ Hclip)).
  rewrite (bind_ok _ _ _ _ _ (lift_ok _ _ _ Hz)).
  fold (read_smoothed "affordance_smoothed" "affordance" d).
  fold (read_smoothed "yield_to_smoothed" "yield_to" d).
  fold (read_smoothed "lead_state_smoothed" "lead_state" d).
  rewrite Ha, Hy, Hl. cbn [py_strip].
  rewrite (bind_ok _ _ _ _ _ (lift_ok _ _ _ eq_refl)).
  rewrite (bind_ok _ _ _ _ _ (lift_ok _ _ _ eq_refl)).
  rewrite (bind_ok _ _ _ _ _ (lift_ok _ _ _ eq_refl)).
  rewrite (bind_ok _ _ _ _ _
             (lift_ok _ _ _ (final_choice_ok (raw_map !! (strip c, z)) (strip a) (strip y)
                               (strip l) (fun raw H => Hraw _ _ H)))).
  assert (Hkey : frame_key int_of_str d = (strip c, z)).
  { unfold frame_key, attr, get_or. rewrite Hc, Hz. reflexivity. }
  unfold reinjected. rewrite Hkey, Ha, Hy, Hl. cbn [str_of].
  destruct (final_of _ _ _ _) as [[fa fy] fl] eqn:E.
  apply (set_final_ok h r d (fa, fy, fl) Hr).
Qed.

Lemma dict_set_same d k v : dict_get d k = Some v -> dict_set d k v = d.
Proof.
  induction d as [|[k' v'] t IH]; simpl; [discriminate|].
  destruct (k' == k) eqn:E.
  - intros H. inversion H. reflexivity.
  - intros H. rewrite IH by exact H. reflexivity.
Qed.

Lemma dict_get_set_final d t k :
  ~ In k final_keys -> dict_get (set_final d t) k = dict_get d k.
Proof.
  unfold final_keys, set_final. simpl. intros H.
  rewrite !dict_get_set_ne by tauto. reflexivity.
Qed.

Lemma set_final_idem d t : set_final (set_final d t) t = set_final d t.
Proof.
  unfold set_final at 1.
  assert (H1 : dict_get (set_final d t) (lit "affordance_final") = Some t.1.1).
  { unfold set_final. rewrite !dict_get_set_ne by (vm_compute; congruence).
    apply dict_get_set_eq. }
  assert (H2 : dict_get (set_final d t) (lit "yield_to_final") = Some t.1.2).
  { unfold set_final. rewrite dict_get_set_ne by (vm_compute; congruence).
    apply dict_get_set_eq. }
  assert (H3 : dict_get (set_final d t) (lit "lead_state_final") = Some t.2).
  { unfold set_final. apply dict_get_set_eq. }
  rewrite (dict_set_same _ _ _ H1), (dict_set_same _ _ _ H2), (dict_set_same _ _ _ H3).
  reflexivity.
Qed.

Lemma final_triple_set_final d t : final_triple (set_final d t) = t.
Proof.
  unfold final_triple, attr, get_or, set_final.
  rewrite dict_get_set_eq.
  rewrite (dict_get_set_ne _ (lit "lead_state_final") (lit "yield_to_final"))
    by (vm_compute; congruence).
  rewrite dict_get_set_eq.
  rewrite !(dict_get_set_ne _ _ (lit "affordance_final")) by (vm_compute; congruence).
  rewrite dict_get_set_eq. destruct t as [[? ?] ?]. reflexivity.
Qed.

(** The fields the re-injector reads are not those it writes. *)
Lemma read_smoothed_set_final ks k d t :
  ~ In (lit ks) final_keys -> ~ In (lit k) final_keys ->
  read_smoothed ks k (set_final d t) = read_smoothed ks k d.
Proof.
  intros H1 H2. unfold read_smoothed, get_or.
  rewrite !dict_get_set_final by assumption. reflexivity.
Qed.

Lemma reinjected_reads raw_map d :
  let d' := reinjected int_of_str raw_map d in
  dict_get d' (lit "clip") = dict_get d (lit "clip")
  /\ getitem d' (lit "frame_index") = getitem d (lit "frame_index")
  /\ read_smoothed "affordance_smoothed" "affordance" d'
     = read_smoothed "affordance_smoothed" "affordance" d
  /\ read_smoothed "yield_to_smoothed" "yield_to" d'
     = read_smoothed "yield_to_smoothed" "yield_to" d
  /\ read_smoothed "lead_state_smoothed" "lead_state" d'
     = read_smoothed "lead_state_smoothed" "lead_state" d.
Proof.
  cbv zeta. unfold reinjected, getitem.
  rewrite !dict_get_set_final
    by (unfold final_keys; simpl; intros H; repeat destruct H as [H|H]; try discriminate H; exact H).
  repeat split; apply read_smoothed_set_final;
    unfold final_keys; simpl; intros H; repeat destruct H as [H|H];
    try discriminate H; exact H.
Qed.

Lemma reinjected_readable raw_map d :
  readable int_of_str d -> readable int_of_str (reinjected int_of_str raw_map d).
Proof.
  destruct (reinjected_reads raw_map d) as (Hc & Hz & Ha & Hy & Hl).
  unfold readable. rewrite Hc, Hz, Ha, Hy, Hl. auto.
Qed.

Lemma reinjected_idem raw_map d :
  reinjected int_of_str raw_map (reinjected int_of_str raw_map d)
  = reinjected int_of_str raw_map d.
Proof.
  destruct (reinjected_reads raw_map d) as (Hc & Hz & Ha & Hy & Hl).
  unfold reinjected at 1. unfold frame_key, attr, get_or.
  rewrite Hc, Hz, Ha, Hy, Hl.
  unfold reinjected. apply set_final_idem.
Qed.

(** The loop of [reinject_go_short]: every listed object is rewritten in
    place, whether or not it is listed more than once; no other object is
    touched, and the same references are returned. *)
Lemma reinject_loop raw_map :
  raw_map_ok raw_map ->
  forall rows (hc : heap),
    (forall r, In r rows -> exists d, hc !! r = Some d /\ readable int_of_str d) ->
    exists h',
      mapM (reinject_row int_of_str raw_map) rows hc = Ok (rows, h')
      /\ length h' = length hc
      /\ (forall r, In r rows -> h' !! r = reinjected int_of_str raw_map <$> hc !! r)
      /\ (forall r, ~ In r rows -> h' !! r = hc !! r).
Proof.
  intros Hraw. induction rows as [|r rest IH]; intros hc Hrows.
  - exists hc. simpl. repeat split; auto. intros r [].
  - destruct (Hrows r (or_introl eq_refl)) as (d & Hd & Hread).
    assert (Hlt : (r < length hc)%nat) by (eapply lookup_lt_Some, Hd).
    set (hc1 := <[r := reinjected int_of_str raw_map d]> hc).
    destruct (IH hc1) as (h' & Hrun & Hlen & Hin & Hout).
    { intros x Hx. destruct (decide (x = r)) as [->|Hne].
      - exists (reinjected int_of_str raw_map d). split.
        + apply list_lookup_insert_eq, Hlt.
        + apply reinjected_readable, Hread.
      - unfold hc1. rewrite list_lookup_insert_ne by congruence.
        apply Hrows. right. exact Hx. }
    exists h'. split; [|split; [|split]].
    + cbn [mapM].
      rewrite (bind_ok _ _ _ _ _ (reinject_row_ok raw_map hc r d Hraw Hd Hread)).
      fold hc1. rewrite (bind_ok _ _ _ _ _ Hrun). reflexivity.
    + rewrite Hlen. apply length_insert.
    + intros x Hx.
      destruct (in_dec Nat.eq_dec x rest) as [Hxr | Hxr].
      * rewrite (Hin x Hxr). destruct (decide (x = r)) as [->|Hne].
        -- unfold hc1. rewrite list_lookup_insert_eq by exact Hlt.
           rewrite Hd. simpl. rewrite reinjected_idem. reflexivity.
        -- unfold hc1. rewrite list_lookup_insert_ne by congruence. reflexivity.
      * assert (x = r) as -> by (destruct Hx; [congruence | contradiction]).
        rewrite (Hout r Hxr). unfold hc1.
        rewrite list_lookup_insert_eq by exact Hlt. rewrite Hd. reflexivity.
    + intros x Hx. simpl in Hx.
      rewrite (Hout x) by tauto.
      unfold hc1. apply list_lookup_insert_ne. intros ->. tauto.
Qed.

Lemma smoothed_frame_readable d : smoothed_frame d -> readable int_of_str d.
Proof.
  intros ((c & Hc & _) & (z & Hz) & (a & Ha & _) & (y & Hy & _) & (l & Hl & _)).
  unfold readable, read_smoothed, get_or, getitem.
  rewrite Hc, Hz, Ha, Hy, Hl. simpl. eauto 10.
Qed.

Lemma go_reinjects_burst raw a y l :
  go_reinjects raw a y = true <-> go_burst raw (VStr a, VStr y, VStr l).
Proof.
  unfold go_reinjects, go_burst. simpl.
  rewrite !andb_true_iff, !negb_true_iff, !bool_decide_eq_true, bool_decide_eq_false.
  rewrite !str_eqb_neq.
  split.
  - intros (((H1 & H2) & H3) & H4). repeat split; congruence.
  - intros (H1 & H2 & H3 & H4). repeat split; congruence.
Qed.

Lemma rows_at_map (h h' : heap) (f : dict -> dict) rows ds :
  rows_at h rows ds ->
  (forall r, In r rows -> h' !! r = f <$> h !! r) ->
  rows_at h' rows (map f ds).
Proof.
  induction 1 as [|r d rows' ds' Hr _ IH]; intros H; simpl; constructor.
  - rewrite (H r (or_introl eq_refl)), Hr. reflexivity.
  - apply IH. intros x Hx. apply H. right. exact Hx.
Qed.

(** What the re-injector leaves in the final fields of a smoothed frame. *)
Lemma reinjected_final raw_map d c z a y l :
  dict_get d (lit "clip") = Some (VStr c) -> trimmed c ->
  dict_get d (lit "frame_index") = Some (VInt z) ->
  dict_get d (lit "affordance_smoothed") = Some (VStr a) -> trimmed a ->
  dict_get d (lit "yield_to_smoothed") = Some (VStr y) -> trimmed y ->
  dict_get d (lit "lead_state_smoothed") = Some (VStr l) -> trimmed l ->
  smoothed_triple d = (VStr a, VStr y, VStr l)
  /\ final_triple (reinjected int_of_str raw_map d) = final_of (raw_map !! (c, z)) a y l.
Proof.
  intros Hc Tc Hz Ha Ta Hy Ty Hl Tl. split.
  - unfold smoothed_triple, attr, get_or. rewrite Ha, Hy, Hl. reflexivity.
  - unfold reinjected. rewrite final_triple_set_final.
    unfold frame_key, read_smoothed, attr, get_or, getitem.
    rewrite Hc, Hz, Ha, Hy, Hl. simpl. rewrite Tc, Ta, Ty, Tl. reflexivity.
Qed.

(** C3: on smoothed frames, [reinject_go_short] raises nothing, and the
    final triple of a frame is the raw triple exactly when a raw record
    exists for its (clip, frame_index) with raw affordance "go", smoothed
    affordance other than "go", and neither the smoothed nor the raw
    yield_to equal to "ped"; in every other case, a lookup miss included,
    it is the smoothed triple. In particular a frame with yield_to "ped" in
    either view keeps its smoothed triple. *)
Theorem reinject_go_short_spec :
  forall (raw_map : gmap (pystr * Z) dict) (rows : list loc) (h : heap) (ds : list dict),
    rows_at h rows ds -> Forall smoothed_frame ds -> raw_map_ok raw_map ->
    exists h' fs,
      reinject_go_short int_of_str raw_map rows h = Ok (rows, h')
      /\ rows_at h' rows fs
      /\ length fs = length ds
      /\ forall i d f c z,
           ds !! i = Some d -> fs !! i = Some f ->
           attr "clip" d = VStr c -> attr "frame_index" d = VInt z ->
           let sm := smoothed_triple d in
           (forall raw, raw_map !! (c, z) = Some raw -> go_burst raw sm ->
              final_triple f = raw_triple raw)
           /\ (forall raw, raw_map !! (c, z) = Some raw -> ~ go_burst raw sm ->
                 final_triple f = sm)
           /\ (raw_map !! (c, z) = None -> final_triple f = sm)
           /\ (final_triple f <> sm ->
                 exists raw, raw_map !! (c, z) = Some raw /\ go_burst raw sm)
           /\ (sm.1.2 = VStr (lit "ped") -> final_triple f = sm)
           /\ (forall raw, raw_map !! (c, z) = Some raw ->
                 attr "yield_to" raw = VStr (lit "ped") -> final_triple f = sm).
Proof.
  intros raw_map rows h ds Hrows Hds Hraw.
  destruct (reinject_loop raw_map Hraw rows h) as (h' & Hrun & Hlen & Hin & Hout).
  { intros r Hr. destruct (rows_at_in _ _ _ _ Hrows Hr) as (d & Hd & Hdin).
    exists d. split; [exact Hd|]. apply smoothed_frame_readable.
    rewrite Forall_forall in Hds. apply Hds, list_elem_of_In, Hdin. }
  exists h', (map (reinjected int_of_str raw_map) ds).
  split; [exact Hrun|]. split; [|split; [apply length_map|]].
  { apply (rows_at_map h h' _ rows ds Hrows Hin). }
  intros i d f c z Hd Hf Hc Hz sm.
  rewrite list_lookup_fmap, Hd in Hf. inversion Hf; subst f. clear Hf.
  assert (Hsf : smoothed_frame d).
  { rewrite Forall_forall in Hds. eapply Hds, list_elem_of_lookup_2, Hd. }
  destruct Hsf as ((c' & Hc' & Tc) & (z' & Hz') & (a & Ha & Ta) & (y & Hy & Ty) & (l & Hl & Tl)).
  assert (c' = c) as -> by (unfold attr, get_or in Hc; rewrite Hc' in Hc; congruence).
  assert (z' = z) as -> by (unfold attr, get_or in Hz; rewrite Hz' in Hz; congruence).
  destruct (reinjected_final raw_map d c z a y l Hc' Tc Hz' Ha Ta Hy Ty Hl Tl) as [Hsm Hfin].
  subst sm. rewrite Hsm, Hfin. clear Hfin.
  assert (Hnone : raw_map !! (c, z) = None ->
            final_of (raw_map !! (c, z)) a y l = (VStr a, VStr y, VStr l)).
  { intros ->. reflexivity. }
  assert (Hyes : forall raw, raw_map !! (c, z) = Some raw ->
            go_burst raw (VStr a, VStr y, VStr l) ->
            final_of (raw_map !! (c, z)) a y l = raw_triple raw).
  { intros raw -> Hb. unfold final_of.
    rewrite (proj2 (go_reinjects_burst raw a y l) Hb). reflexivity. }
  assert (Hno : forall raw, raw_map !! (c, z) = Some raw ->
            ~ go_burst raw (VStr a, VStr y, VStr l) ->
            final_of (raw_map !! (c, z)) a y l = (VStr a, VStr y, VStr l)).
  { intros raw -> Hb. unfold final_of.
    destruct (go_reinjects raw a y) eqn:E; [|reflexivity].
    exfalso. apply Hb, (go_reinjects_burst raw a y l), E. }
  split; [exact Hyes|]. split; [exact Hno|]. split; [exact Hnone|].
  split; [|split].
  - intros Hne. destruct (raw_map !! (c, z)) as [raw|] eqn:E.
    + exists raw. split; [reflexivity|].
      destruct (go_reinjects raw a y) eqn:G.
      * apply (go_reinjects_burst raw a y l), G.
      * exfalso. apply Hne. apply (Hno raw eq_refl).
        intros Hb. apply (go_reinjects_burst raw a y l) in Hb. congruence.
    + exfalso. apply Hne, Hnone. reflexivity.
  - simpl. intros Hped. destruct (raw_map !! (c, z)) as [raw|] eqn:E.
    + apply (Hno raw eq_refl). intros (_ & _ & H & _). apply H, Hped.
    + apply Hnone. reflexivity.
  - intros raw Hr Hped. apply (Hno raw Hr). intros (_ & _ & _ & H). apply H, Hped.
Qed.

(** One turn of the re-injection loop writes the three final fields of the
    object it is given, in place, and returns that same reference. *)
Lemma reinject_row_inv raw_map r r' (h h' : heap) :
  reinject_row int_of_str raw_map r h = Ok (r', h') ->
  r' = r /\ exists d t, h !! r = Some d /\ h' = <[r := set_final d t]> h.
Proof.
  unfold reinject_row. intros H.
  apply bind_inv in H as (d & h1 & H1 & H). apply deref_inv in H1 as [Hd ->].
  apply bind_inv in H as (c & h1 & H1 & H). apply lift_inv in H1 as [_ ->].
  apply bind_inv in H as (z & h1 & H1 & H). apply lift_inv in H1 as [_ ->].
  apply bind_inv in H as (a & h1 & H1 & H). apply lift_inv in H1 as [_ ->].
  apply bind_inv in H as (y & h1 & H1 & H). apply lift_inv in H1 as [_ ->].
  apply bind_inv in H as (l & h1 & H1 & H). apply lift_inv in H1 as [_ ->].
  apply bind_inv in H as ([[fa fy] fl] & h1 & H1 & H). apply lift_inv in H1 as [_ ->].
  assert (Hlt : (r < length h)%nat) by (eapply lookup_lt_Some, Hd).
  pose proof (set_final_ok h r d (fa, fy, fl) Hd) as Hset. cbn [fst snd] in Hset.
  rewrite Hset in H.
  inversion H; subst r' h'. split; [reflexivity|]. eauto.
Qed.

Lemma extends_by_set_final d t : extends_by final_keys d (set_final d t).
Proof. apply (extends_by_three d). Qed.

Lemma extends_by_trans keys d e f :
  extends_by keys d e -> extends_by keys e f -> extends_by keys d f.
Proof.
  intros [_ H1] [H2 H3]. split; [exact H2|].
  intros k Hk. rewrite (H3 k Hk). apply H1, Hk.
Qed.

(** The effect of [reinject_go_short]: the references it returns are the
    ones it was given; the objects they refer to have been extended in place
    by the final fields; no other object and no other field has changed. *)
Lemma reinject_go_short_frame raw_map : forall rows (h : heap) out h',
  reinject_go_short int_of_str raw_map rows h = Ok (out, h') ->
  out = rows
  /\ length h' = length h
  /\ (forall r, ~ In r rows -> h' !! r = h !! r)
  /\ (forall r, In r rows ->
        exists d f, h !! r = Some d /\ h' !! r = Some f /\ extends_by final_keys d f).
Proof.
  unfold reinject_go_short.
  induction rows as [|r rest IH]; intros h out h' H; cbn [mapM] in H.
  - inversion H; subst. repeat split; auto. intros r [].
  - apply bind_inv in H as (r' & h1 & Hrow & H).
    apply reinject_row_inv in Hrow as (-> & d & t & Hd & ->).
    apply bind_inv in H as (out' & h2 & Hrest & H).
    apply IH in Hrest as (-> & Hlen & Hout & Hin).
    inversion H; subst out h'. clear H.
    assert (Hlt : (r < length h)%nat) by (eapply lookup_lt_Some, Hd).
    split; [reflexivity|]. split; [rewrite Hlen; apply length_insert|]. split.
    + intros x Hx. simpl in Hx. rewrite (Hout x) by tauto.
      apply list_lookup_insert_ne. intros ->. tauto.
    + intros x Hx.
      destruct (in_dec Nat.eq_dec x rest) as [Hxr | Hxr].
      * destruct (Hin x Hxr) as (d1 & f & Hd1 & Hf & Hext).
        destruct (decide (x = r)) as [->|Hne].
        -- rewrite list_lookup_insert_eq in Hd1 by exact Hlt. inversion Hd1; subst d1.
           exists d, f. split; [exact Hd|]. split; [exact Hf|].
           eapply extends_by_trans; [apply extends_by_set_final | exact Hext].
        -- rewrite list_lookup_insert_ne in Hd1 by congruence. eauto.
      * assert (x = r) as -> by (destruct Hx; [congruence | contradiction]).
        exists d, (set_final d t). split; [exact Hd|]. split.
        -- rewrite (Hout r Hxr). apply list_lookup_insert_eq, Hlt.
        -- apply extends_by_set_final.
Qed.

(** C9 (amended): [smooth_sequence] accretes its fields onto copies: when it
    returns, every object of the store is as it was, and the rows returned
    are new objects, one per input row, each the input row extended by the
    *_smoothed fields. [reinject_go_short] accretes in place: it returns the
    references it was given, and the objects they refer to now carry the
    *_final fields, every other field and every other object being as it
    was. *)
Theorem accretion_on_copies_and_in_place :
  (forall (rows : list loc) (window : Z) (h : heap) out h',
      (forall r, In r rows -> is_Some (h !! r)) ->
      smooth_sequence rows window h = Ok (out, h') ->
      exists os,
        h' = h ++ os
        /\ out = seq (length h) (length rows)
        /\ forall i r, rows !! i = Some r ->
             exists d o, h !! r = Some d /\ os !! i = Some o
                         /\ extends_by smoothed_keys d o)
  /\ (forall (raw_map : gmap (pystr * Z) dict) (rows : list loc) (h : heap) out h',
        reinject_go_short int_of_str raw_map rows h = Ok (out, h') ->
        out = rows
        /\ length h' = length h
        /\ (forall r, ~ In r rows -> h' !! r = h !! r)
        /\ (forall r, In r rows ->
              exists d f, h !! r = Some d /\ h' !! r = Some f
                          /\ extends_by final_keys d f)).
Proof.
  split.
  - intros rows window h out h'. apply smooth_sequence_frame.
  - intros raw_map. apply reinject_go_short_frame.
Qed.

End Reinjector.

(** ** Runs *)

Section RunLemmas.
Context {A : Type} (linked : A -> A -> bool).

Lemma chain_snoc (cur : list A) p r :
  chain linked cur -> last cur = Some p -> linked p r = true ->
  chain linked (cur ++ [r]).
Proof.
  induction cur as [|x [|y t] IH]; simpl; intros Hc Hl Hlk.
  - discriminate.
  - inversion Hl; subst. auto.
  - destruct Hc as [Hxy Hc]. split; [exact Hxy|].
    apply IH; assumption.
Qed.

Lemma group_runs_spec : forall rest cur,
  cur <> [] -> chain linked cur ->
  segmentation linked (group_runs linked cur rest) (cur ++ rest)
  /\ exists tl rs, group_runs linked cur rest = (cur ++ tl) :: rs.
Proof.
  induction rest as [|r rest IH]; intros cur Hne Hch.
  - simpl. split.
    + split; [simpl; rewrite !app_nil_r; reflexivity|].
      split; [constructor; [exact Hne | constructor]|].
      split; [constructor; [exact Hch | constructor] | exact I].
    + exists [], []. rewrite app_nil_r. reflexivity.
  - simpl. destruct (last cur) as [p|] eqn:Hlast.
    2:{ apply last_None in Hlast. contradiction. }
    destruct (linked p r) eqn:Hlk.
    + destruct (IH (cur ++ [r])) as [Hseg (tl & rs & E)].
      { intros H. apply app_eq_nil in H as [_ H]. discriminate. }
      { eapply chain_snoc; eassumption. }
      rewrite <- app_assoc in Hseg. simpl in Hseg. split; [exact Hseg|].
      exists (r :: tl), rs. rewrite E, <- app_assoc. reflexivity.
    + destruct (IH [r]) as [(Hcat & Hnn & Hchs & Hmax) (tl & rs & E)];
        [discriminate | exact I |].
      split.
      * split; [simpl; rewrite Hcat; reflexivity|].
        split; [constructor; assumption|].
        split; [constructor; assumption|].
        rewrite E in *. simpl. split; [|exact Hmax].
        intros x y Hx Hy. inversion Hy; subst. congruence.
      * exists [], (group_runs linked [r] rest). rewrite app_nil_r. reflexivity.
Qed.

Lemma runs_of_segmentation l : segmentation linked (runs_of linked l) l.
Proof.
  destruct l as [|x t]; simpl.
  - repeat split; constructor.
  - apply (group_runs_spec t [x]); [discriminate | exact I].
Qed.
Lemma chain_lookup (r : list A) i x y :
  chain linked r -> r !! i = Some x -> r !! S i = Some y -> linked x y = true.
Proof.
  revert i. induction r as [|a [|b t] IH]; intros i Hc Hx Hy.
  - discriminate.
  - destruct i; discriminate.
  - destruct Hc as [Hab Hc]. destruct i as [|i].
    + simpl in Hx, Hy. congruence.
    + apply (IH i Hc Hx Hy).
Qed.

Lemma segmentation_tail r rs l :
  segmentation linked (r :: rs) l -> segmentation linked rs (concat rs).
Proof.
  intros (_ & Hnn & Hch & Hmax). split; [reflexivity|].
  inversion Hnn; subst. inversion Hch; subst.
  split; [assumption|]. split; [assumption|].
  destruct rs; [exact I | apply Hmax].
Qed.

(** Two neighbours of the sequence are in the same run exactly when they
    are linked. *)
Lemma segmentation_neighbours : forall runs l,
  segmentation linked runs l ->
  forall i x y, l !! i = Some x -> l !! S i = Some y ->
    (run_index runs i = run_index runs (S i) <-> linked x y = true).
Proof.
  induction runs as [|r rs IH]; intros l Hseg i x y Hx Hy.
  - destruct Hseg as (<- & _). discriminate.
  - pose proof (segmentation_tail _ _ _ Hseg) as Htail.
    destruct Hseg as (<- & Hnn & Hch & Hmax).
    inversion Hnn as [|? ? Hr _]; subst. inversion Hch as [|? ? Hcr _]; subst.
    simpl in Hx, Hy. simpl run_index.
    destruct (Nat.ltb_spec (S i) (length r)) as [H1|H1].
    + (* both in the first run *)
      rewrite (proj2 (Nat.ltb_lt i (length r))) by lia.
      rewrite lookup_app_l in Hx, Hy by lia.
      split; [intros _|reflexivity]. eapply chain_lookup; eassumption.
    + destruct (Nat.ltb_spec i (length r)) as [H2|H2].
      * (* the boundary after the first run *)
        assert (Hi : S i = length r) by lia.
        rewrite lookup_app_l in Hx by lia.
        rewrite lookup_app_r in Hy by lia.
        replace (S i - length r)%nat with 0%nat in Hy by lia.
        destruct rs as [|r2 rs']; [discriminate|].
        inversion Htail as (_ & Hnn2 & _). inversion Hnn2 as [|? ? Hr2 _]; subst.
        destruct r2 as [|y' r2']; [congruence|]. simpl in Hy. inversion Hy; subst y'.
        destruct Hmax as [Hb _].
        assert (Hlast : last r = Some x).
        { rewrite last_lookup. rewrite <- Hx. f_equal. lia. }
        rewrite (Hb x y Hlast eq_refl). split; discriminate.
      * (* both after the first run *)
        rewrite lookup_app_r in Hx, Hy by lia.
        replace (S i - length r)%nat with (S (i - length r)) in * by lia.
        rewrite <- (IH _ Htail _ _ _ Hx Hy). split; [intros H; congruence | intros ->; reflexivity].
Qed.
End RunLemmas.

(** ** Segmenter, phase view *)

Lemma phase_frame_key d : phase_frame d -> phase_key d = Ok (smoothed_triple d).
Proof.
  intros (Ha & Hy & Hl & _). unfold phase_key.
  rewrite (getitem_has_key _ _ Ha), (getitem_has_key _ _ Hy), (getitem_has_key _ _ Hl).
  reflexivity.
Qed.

Lemma phase_frame_index d :
  phase_frame d ->
  getitem d (lit "frame_index") = Ok (VInt (frame_index_of d))
  /\ attr "frame_index" d = VInt (frame_index_of d).
Proof.
  intros (_ & _ & _ & z & Hz).
  unfold getitem, frame_index_of, attr, get_or. rewrite Hz. auto.
Qed.

Lemma last_snoc_some {A} (l : list A) x : last (l ++ [x]) = Some x.
Proof. apply last_snoc. Qed.

Lemma head_app_some {A} (l k : list A) x : head l = Some x -> head (l ++ k) = Some x.
Proof. destruct l; simpl; [discriminate | auto]. Qed.

Lemma segment_clip_loop_spec : forall rest cur segs c0 p,
  head cur = Some c0 -> last cur = Some p ->
  Forall phase_frame (cur ++ rest) ->
  smoothed_triple p = smoothed_triple c0 ->
  segment_clip_loop rest (attr "frame_index" c0) (attr "frame_index" p)
    (smoothed_triple c0) segs
  = Ok (segs ++ map phase_segment_of (group_runs phase_linked cur rest)).
Proof.
  induction rest as [|r rest IH]; intros cur segs c0 p Hhead Hlast Hok Hkey.
  - simpl. unfold phase_segment_of. rewrite Hhead, Hlast. reflexivity.
  - assert (Hr : phase_frame r).
    { rewrite Forall_app in Hok. destruct Hok as [_ Hok]. inversion Hok; assumption. }
    assert (Hp : phase_frame p).
    { rewrite Forall_app in Hok. destruct Hok as [Hok _].
      rewrite Forall_forall in Hok. apply Hok.
      apply last_Some in Hlast as [l' ->]. apply list_elem_of_In, in_or_app. right. simpl. auto. }
    cbn [segment_clip_loop group_runs]. rewrite Hlast.
    rewrite (phase_frame_key r Hr). cbn [mbind result_bind].
    destruct (phase_frame_index r Hr) as [Hgr Har].
    destruct (phase_frame_index p Hp) as [_ Hap].
    rewrite Hgr. cbn [mbind result_bind].
    rewrite Hap. cbn [py_succ].
    match goal with
    | |- ?m ≫= _ = _ => assert (Hsame : m = Ok (phase_linked p r))
    end.
    { unfold phase_linked. rewrite Hkey.
      match goal with
      | |- (if ?b then _ else _) = _ => destruct b eqn:E
      end; [apply bool_decide_eq_true in E | apply bool_decide_eq_false in E].
      - rewrite (bool_decide_eq_true_2 (smoothed_triple c0 = smoothed_triple r)) by congruence.
        cbn [mbind result_bind mret result_ret andb]. f_equal.
        apply bool_decide_ext. split; congruence.
      - rewrite (bool_decide_eq_false_2 (smoothed_triple c0 = smoothed_triple r)) by congruence.
        reflexivity. }
    rewrite Hsame. cbn [mbind result_bind].
    destruct (phase_linked p r) eqn:Hlk.
    + rewrite <- Har.
      apply (IH (cur ++ [r]) segs c0 r).
      * apply head_app_some, Hhead.
      * apply last_snoc_some.
      * rewrite <- app_assoc. exact Hok.
      * unfold phase_linked in Hlk. apply andb_true_iff in Hlk as [Hk _].
        apply bool_decide_eq_true in Hk. congruence.
    + rewrite <- Har.
      rewrite (IH [r] (segs ++ [phase_segment (attr "frame_index" c0) (VInt (frame_index_of p))
                                  (smoothed_triple c0)]) r r eq_refl eq_refl).
      * rewrite <- app_assoc. simpl. unfold phase_segment_of at 2.
        rewrite Hhead, Hlast, Hap. reflexivity.
      * rewrite Forall_app in Hok. apply Hok.
      * reflexivity.
Qed.

Lemma segment_clip_runs rows :
  Forall phase_frame rows ->
  segment_clip rows = Ok (map phase_segment_of (runs_of phase_linked rows)).
Proof.
  intros Hok. destruct rows as [|r0 rest]; [reflexivity|].
  assert (H0 : phase_frame r0) by (inversion Hok; assumption).
  unfold segment_clip, runs_of.
  destruct (phase_frame_index r0 H0) as [Hg Ha].
  rewrite Hg. cbn [mbind result_bind]. rewrite (phase_frame_key r0 H0).
  cbn [mbind result_bind]. rewrite <- Ha.
  apply (segment_clip_loop_spec rest [r0] [] r0 r0 eq_refl eq_refl Hok eq_refl).
Qed.

(** ** Segmenter, state view *)

Section StateSegmenter.

Variable int_of_str : pystr -> option Z.

Lemma final_frame_reads d :
  final_frame d ->
  getitem d (lit "frame_index") ≫= py_int int_of_str = Ok (frame_index_of d)
  /\ getitem d (lit "affordance_final") = Ok (attr "affordance_final" d)
  /\ getitem d (lit "yield_to_final") = Ok (attr "yield_to_final" d)
  /\ getitem d (lit "lead_state_final") = Ok (attr "lead_state_final" d)
  /\ call_map_world_to_state (attr "affordance_final" d) (attr "yield_to_final" d)
       (attr "lead_state_final" d) = Ok (state_of d).
Proof.
  intros ((a & Ha) & (y & Hy) & (l & Hl) & (z & Hz)).
  unfold getitem, frame_index_of, state_of, attr, get_or.
  rewrite Ha, Hy, Hl, Hz. simpl. auto.
Qed.

Lemma segment_states_loop_spec clip : forall rest cur segs seg_id c0 p,
  head cur = Some c0 -> last cur = Some p ->
  Forall final_frame (cur ++ rest) ->
  state_of p = state_of c0 ->
  segment_states_loop int_of_str clip rest
    (Some {| current_state := state_of c0;
             current_start := frame_index_of c0;
             current_end := frame_index_of p;
             current_aff := attr "affordance_final" c0;
             current_y := attr "yield_to_final" c0;
             current_l := attr "lead_state_final" c0 |})
    seg_id segs
  = Ok (segs ++ imap (fun i => state_segment_of clip (seg_id + Z.of_nat i))
                  (group_runs state_linked cur rest)).
Proof.
  induction rest as [|r rest IH]; intros cur segs seg_id c0 p Hhead Hlast Hok Hkey.
  - simpl. unfold state_segment_of, close_run. rewrite Hhead, Hlast, Z.add_0_r. reflexivity.
  - assert (Hr : final_frame r).
    { rewrite Forall_app in Hok. destruct Hok as [_ Hok]. inversion Hok; assumption. }
    cbn [segment_states_loop group_runs]. rewrite Hlast.
    destruct (final_frame_reads r Hr) as (Hfi & Ha & Hy & Hl & Hs).
    rewrite Hfi. cbn [mbind result_bind].
    rewrite Ha, Hy, Hl. cbn [mbind result_bind].
    rewrite Hs. cbn [mbind result_bind current_state current_end].
    assert (Hlk : (state_of r == state_of c0)
                  && (frame_index_of r =? frame_index_of p + 1)%Z = state_linked p r).
    { unfold state_linked. rewrite Hkey. f_equal.
      - unfold str_eqb. apply bool_decide_ext. split; congruence.
      - destruct (Z.eqb_spec (frame_index_of r) (frame_index_of p + 1)) as [E|E].
        + rewrite bool_decide_eq_true_2 by exact E. reflexivity.
        + rewrite bool_decide_eq_false_2 by exact E. reflexivity. }
    rewrite Hlk. destruct (state_linked p r) eqn:E.
    + cbn [current_start current_aff current_y current_l].
      apply (IH (cur ++ [r]) segs seg_id c0 r).
      * apply head_app_some, Hhead.
      * apply last_snoc_some.
      * rewrite <- app_assoc. exact Hok.
      * unfold state_linked in E. apply andb_true_iff in E as [Hk _].
        apply str_eqb_eq in Hk. congruence.
    + rewrite (IH [r] _ (seg_id + 1)%Z r r eq_refl eq_refl).
      * rewrite <- app_assoc. simpl. rewrite Z.add_0_r.
        unfold state_segment_of at 2, close_run. rewrite Hhead, Hlast. simpl.
        do 3 f_equal. apply imap_ext. intros i x _. simpl. f_equal. lia.
      * rewrite Forall_app in Hok. apply Hok.
      * reflexivity.
Qed.

Lemma segment_states_loop_runs clip rows :
  Forall final_frame rows ->
  segment_states_loop int_of_str clip rows None 0 []
  = Ok (imap (fun i => state_segment_of clip (Z.of_nat i)) (runs_of state_linked rows)).
Proof.
  intros Hok. destruct rows as [|r0 rest]; [reflexivity|].
  assert (H0 : final_frame r0) by (inversion Hok; assumption).
  cbn [segment_states_loop runs_of].
  destruct (final_frame_reads r0 H0) as (Hfi & Ha & Hy & Hl & Hs).
  rewrite Hfi. cbn [mbind result_bind].
  rewrite Ha, Hy, Hl. cbn [mbind result_bind].
  rewrite Hs. cbn [mbind result_bind].
  apply (segment_states_loop_spec clip rest [r0] [] 0 r0 r0 eq_refl eq_refl Hok eq_refl).
Qed.

Lemma phase_linked_iff x y :
  phase_linked x y = true
  <-> smoothed_triple x = smoothed_triple y
      /\ frame_index_of y = (frame_index_of x + 1)%Z.
Proof.
  unfold phase_linked. rewrite andb_true_iff, !bool_decide_eq_true. reflexivity.
Qed.

Lemma state_linked_iff x y :
  state_linked x y = true
  <-> state_of x = state_of y /\ frame_index_of y = (frame_index_of x + 1)%Z.
Proof.
  unfold state_linked. rewrite andb_true_iff, str_eqb_eq, bool_decide_eq_true. reflexivity.
Qed.

(** C4: both segmenters cut a clip's frame sequence into maximal runs, one
    segment per run and in order: two consecutive frames are in the same
    segment exactly when their keys are equal (the smoothed triple for the
    phase view, the classified state of the final triple for the state view)
    and their frame_index values differ by exactly 1. A key change or a gap
    closes the segment whatever came before; two rows with the same key and
    frame_index 5 and 7 give the two segments 5-5 and 7-7. *)
Theorem segmenters_cut_maximal_runs :
  (forall rows : list dict, Forall phase_frame rows ->
     exists runs,
       segment_clip rows = Ok (map phase_segment_of runs)
       /\ concat runs = rows
       /\ Forall (fun r => r <> []) runs
       /\ forall i x y, rows !! i = Some x -> rows !! S i = Some y ->
            (run_index runs i = run_index runs (S i)
             <-> smoothed_triple x = smoothed_triple y
                 /\ frame_index_of y = (frame_index_of x + 1)%Z))
  /\ (forall (clip : value) (rows : list dict), Forall final_frame rows ->
        exists runs,
          segment_states_loop int_of_str clip rows None 0 []
          = Ok (imap (fun i => state_segment_of clip (Z.of_nat i)) runs)
          /\ concat runs = rows
          /\ Forall (fun r => r <> []) runs
          /\ forall i x y, rows !! i = Some x -> rows !! S i = Some y ->
               (run_index runs i = run_index runs (S i)
                <-> state_of x = state_of y
                    /\ frame_index_of y = (frame_index_of x + 1)%Z))
  /\ (forall r5 r7 : dict,
        phase_frame r5 -> phase_frame r7 ->
        smoothed_triple r5 = smoothed_triple r7 ->
        frame_index_of r5 = 5%Z -> frame_index_of r7 = 7%Z ->
        segment_clip [r5; r7]
        = Ok [phase_segment (VInt 5) (VInt 5) (smoothed_triple r5);
              phase_segment (VInt 7) (VInt 7) (smoothed_triple r5)])
  /\ (forall (clip : value) (r5 r7 : dict),
        final_frame r5 -> final_frame r7 ->
        state_of r5 = state_of r7 ->
        frame_index_of r5 = 5%Z -> frame_index_of r7 = 7%Z ->
        exists t5 t7,
          segment_states_loop int_of_str clip [r5; r7] None 0 []
          = Ok [state_segment clip 0 5 5 (state_of r5) t5.1.1 t5.1.2 t5.2;
                state_segment clip 1 7 7 (state_of r5) t7.1.1 t7.1.2 t7.2]).
Proof.
  split; [|split; [|split]].
  - intros rows Hok. exists (runs_of phase_linked rows).
    pose proof (runs_of_segmentation phase_linked rows) as Hseg.
    split; [apply segment_clip_runs, Hok|].
    split; [apply Hseg|]. split; [apply Hseg|].
    intros i x y Hx Hy.
    rewrite (segmentation_neighbours phase_linked _ _ Hseg i x y Hx Hy).
    apply phase_linked_iff.
  - intros clip rows Hok. exists (runs_of state_linked rows).
    pose proof (runs_of_segmentation state_linked rows) as Hseg.
    split; [apply segment_states_loop_runs, Hok|].
    split; [apply Hseg|]. split; [apply Hseg|].
    intros i x y Hx Hy.
    rewrite (segmentation_neighbours state_linked _ _ Hseg i x y Hx Hy).
    apply state_linked_iff.
  - intros r5 r7 H5 H7 Hk E5 E7.
    rewrite segment_clip_runs by (apply Forall_cons_2; [assumption | apply Forall_cons_2; [assumption | apply Forall_nil_2]]).
    assert (Hl : phase_linked r5 r7 = false).
    { apply not_true_is_false. rewrite phase_linked_iff. lia. }
    simpl. rewrite Hl. simpl. unfold phase_segment_of. simpl.
    destruct (phase_frame_index r5 H5) as [_ ->].
    destruct (phase_frame_index r7 H7) as [_ ->].
    rewrite E5, E7, Hk. reflexivity.
  - intros clip r5 r7 H5 H7 Hk E5 E7.
    rewrite segment_states_loop_runs by (apply Forall_cons_2; [assumption | apply Forall_cons_2; [assumption | apply Forall_nil_2]]).
    assert (Hl : state_linked r5 r7 = false).
    { apply not_true_is_false. rewrite state_linked_iff. lia. }
    simpl. rewrite Hl. simpl. unfold state_segment_of. simpl.
    rewrite E5, E7, Hk.
    exists (final_triple r5), (final_triple r7). reflexivity.
Qed.

End StateSegmenter.

(** ** [sorted] on integer keys *)

Section SortLemmas.
Context {A : Type}.

Lemma sort_insert_int (x : value * A) : forall l,
  int_key x -> Forall int_key l -> StronglySorted key_le l ->
  exists l', sort_insert x l = Ok l'
    /\ Permutation (x :: l) l' /\ Forall int_key l' /\ StronglySorted key_le l'.
Proof.
  intros l Hx. induction l as [|y t IH]; intros Hl Hs.
  - exists [x]. simpl. repeat split; auto. constructor; [constructor | constructor].
  - inversion Hl as [|? ? Hy Ht]; subst.
    apply StronglySorted_inv in Hs as [Hst Hyt].
    destruct Hx as [zx Ex]. destruct Hy as [zy Ey].
    cbn [sort_insert]. rewrite Ex, Ey. cbn [value_lt mbind result_bind].
    destruct (Z.ltb_spec zy zx) as [Hlt|Hge].
    + destruct (IH Ht Hst) as (t' & -> & Hp & Hk & Hs').
      cbn [mbind result_bind mret result_ret].
      exists (y :: t'). split; [reflexivity|]. split; [|split].
      * rewrite perm_swap. constructor. exact Hp.
      * constructor; [exists zy; exact Ey | exact Hk].
      * constructor; [exact Hs'|].
        eapply Permutation_Forall; [exact Hp|].
        constructor; [|exact Hyt].
        unfold key_le. rewrite Ex, Ey. simpl. lia.
    + exists (x :: y :: t). split; [reflexivity|]. split; [reflexivity|]. split.
      * constructor; [exists zx; exact Ex|]. constructor; [exists zy; exact Ey | exact Ht].
      * constructor; [constructor; assumption|].
        constructor; [unfold key_le; rewrite Ex, Ey; simpl; lia|].
        eapply Forall_impl; [exact Hyt|]. cbv beta.
        unfold key_le. intros q Hq. rewrite Ex. rewrite Ey in Hq. simpl in *. lia.
Qed.

Lemma sort_keyed_int : forall l : list (value * A),
  Forall int_key l ->
  exists l', sort_keyed l = Ok l'
    /\ Permutation l l' /\ Forall int_key l' /\ StronglySorted key_le l'.
Proof.
  induction l as [|x t IH]; intros Hl.
  - exists []. repeat split; auto; constructor.
  - inversion Hl as [|? ? Hx Ht]; subst.
    destruct (IH Ht) as (t' & Et & Hp & Hk & Hs).
    destruct (sort_insert_int x t' Hx Hk Hs) as (l' & El & Hp' & Hk' & Hs').
    exists l'. cbn [sort_keyed]. rewrite Et. cbn [mbind result_bind].
    split; [exact El|]. split; [|split; assumption].
    rewrite <- Hp'. constructor. exact Hp.
Qed.
End SortLemmas.

Lemma mapM_result_ok {A B} (f : A -> result B) (g : A -> B) l :
  (forall x, In x l -> f x = Ok (g x)) -> mapM f l = Ok (map g l).
Proof.
  induction l as [|x t IH]; intros H; [reflexivity|].
  cbn [mapM]. rewrite (H x (or_introl eq_refl)). cbn [mbind result_bind].
  rewrite IH by (intros y Hy; apply H; right; exact Hy). reflexivity.
Qed.

(** Sorting rows by an integer [frame_index]: a rearrangement of the rows in
    non-decreasing frame order. *)
Lemma sorted_by_frame_index (rows : list dict) :
  (forall r, In r rows -> exists z, dict_get r (lit "frame_index") = Some (VInt z)) ->
  exists rows',
    sorted_by (fun r => getitem r (lit "frame_index")) rows = Ok rows'
    /\ Permutation rows rows'
    /\ StronglySorted (fun a b => (frame_index_of a <= frame_index_of b)%Z) rows'.
Proof.
  intros Hok. unfold sorted_by.
  rewrite (mapM_result_ok _ (fun r => VInt (frame_index_of r))).
  2:{ intros r Hr. destruct (Hok r Hr) as [z Hz].
      unfold getitem, frame_index_of, attr, get_or. rewrite Hz. reflexivity. }
  cbn [mbind result_bind].
  set (pairs := zip (map (fun r => VInt (frame_index_of r)) rows) rows).
  assert (Hpairs : pairs = map (fun r => (VInt (frame_index_of r), r)) rows).
  { unfold pairs. clear. induction rows as [|r t IH]; simpl; [reflexivity|].
    f_equal. exact IH. }
  assert (Hshape : Forall (fun p : value * dict => p.1 = VInt (frame_index_of p.2)) pairs).
  { rewrite Hpairs. apply Forall_forall. intros p Hp.
    apply list_elem_of_In, in_map_iff in Hp as (r & <- & _). reflexivity. }
  destruct (sort_keyed_int pairs) as (s & Es & Hp & Hk & Hs).
  { eapply Forall_impl; [exact Hshape|]. intros p Hp. eexists. exact Hp. }
  rewrite Es. cbn [mbind result_bind mret result_ret].
  exists (map snd s). split; [reflexivity|]. split.
  - replace rows with (map snd pairs).
    + apply Permutation_map, Hp.
    + rewrite Hpairs, map_map. simpl. apply map_id.
  - assert (Hshape' : Forall (fun p : value * dict => p.1 = VInt (frame_index_of p.2)) s)
      by (eapply Permutation_Forall; eassumption).
    clear -Hs Hshape'. induction Hs as [|p t Hst IH Hpt]; simpl; [constructor|].
    inversion Hshape' as [|? ? Hp Ht]; subst.
    constructor; [apply IH, Ht|].
    rewrite Forall_forall in Hpt, Ht. apply Forall_forall.
    intros d Hd. apply list_elem_of_In, in_map_iff in Hd as (q & <- & Hq).
    apply list_elem_of_In in Hq.
    specialize (Hpt q Hq). specialize (Ht q Hq). unfold key_le in Hpt.
    rewrite Hp, Ht in Hpt. exact Hpt.
Qed.

(** ** Spans of runs *)

Lemma zrange_single a : zrange (a, a) = [a].
Proof.
  unfold zrange. simpl. replace (a - a + 1)%Z with 1%Z by lia. simpl.
  rewrite Z.add_0_r. reflexivity.
Qed.

Lemma zrange_cons a b : (a <= b)%Z -> zrange (a, b) = a :: zrange ((a + 1)%Z, b).
Proof.
  intros H. unfold zrange. simpl.
  replace (Z.to_nat (b - a + 1)) with (S (Z.to_nat (b - (a + 1) + 1))) by lia.
  simpl. rewrite Z.add_0_r. f_equal.
  rewrite <- seq_shift, map_map. apply map_ext. intros i. lia.
Qed.

Section ChainSpans.
Variable linked : dict -> dict -> bool.
Hypothesis linked_next :
  forall x y, linked x y = true -> frame_index_of y = (frame_index_of x + 1)%Z.

(** A run covers exactly the frame indices of its span. *)
Lemma chain_span (run : list dict) :
  run <> [] -> chain linked run ->
  map frame_index_of run = zrange (span_of_run run)
  /\ ((span_of_run run).1 <= (span_of_run run).2)%Z.
Proof.
  induction run as [|a [|y t] IH]; intros Hne Hch.
  - congruence.
  - unfold span_of_run. simpl. rewrite zrange_single. split; [reflexivity | lia].
  - destruct Hch as [Hay Hch].
    destruct IH as [IH1 IH2]; [discriminate | exact Hch |].
    apply linked_next in Hay.
    unfold span_of_run in *. cbn [head] in *.
    change (last (a :: y :: t)) with (last (y :: t)).
    destruct (last (y :: t)) as [b|] eqn:Hl.
    2:{ apply last_None in Hl. discriminate. }
    cbn [fst snd] in *. split; [|lia].
    rewrite zrange_cons by lia. rewrite <- Hay.
    change (map frame_index_of (a :: y :: t))
      with (frame_index_of a :: map frame_index_of (y :: t)).
    rewrite IH1. reflexivity.
Qed.

Lemma runs_cover (runs : list (list dict)) rows :
  segmentation linked runs rows ->
  concat (map zrange (map span_of_run runs)) = map frame_index_of rows
  /\ Forall (fun p : Z * Z => (p.1 <= p.2)%Z) (map span_of_run runs).
Proof.
  intros (<- & Hnn & Hch & _). clear -Hnn Hch linked_next.
  induction runs as [|r rs IH]; simpl; [split; [reflexivity | constructor]|].
  inversion Hnn as [|? ? Hr Hrs]; subst. inversion Hch as [|? ? Hcr Hcrs]; subst.
  destruct (IH Hrs Hcrs) as [IH1 IH2].
  destruct (chain_span r Hr Hcr) as [Hcov Hle].
  split.
  - rewrite map_app, IH1, Hcov. reflexivity.
  - constructor; assumption.
Qed.
End ChainSpans.

Lemma phase_linked_next x y :
  phase_linked x y = true -> frame_index_of y = (frame_index_of x + 1)%Z.
Proof. intros H. apply phase_linked_iff in H. tauto. Qed.

Lemma state_linked_next x y :
  state_linked x y = true -> frame_index_of y = (frame_index_of x + 1)%Z.
Proof. intros H. apply state_linked_iff in H. tauto. Qed.

(** In a strictly increasing sequence cut into non-empty runs, the runs
    start at strictly increasing indices. *)
Lemma run_starts_increasing (runs : list (list dict)) :
  Forall (fun r => r <> []) runs ->
  StronglySorted Z.lt (map frame_index_of (concat runs)) ->
  StronglySorted Z.lt (map fst (map span_of_run runs)).
Proof.
  induction runs as [|r rs IH]; intros Hnn Hs; simpl; [constructor|].
  inversion Hnn as [|? ? Hr Hrs]; subst.
  simpl in Hs. rewrite map_app in Hs.
  destruct r as [|a t]; [congruence|].
  assert (Htail : StronglySorted Z.lt (map frame_index_of (concat rs))).
  { clear -Hs. induction (map frame_index_of (a :: t)) as [|z l IHl]; [exact Hs|].
    apply IHl. simpl in Hs. apply StronglySorted_inv in Hs. tauto. }
  constructor; [apply IH; assumption|].
  simpl in Hs. apply StronglySorted_inv in Hs as [_ Ha].
  rewrite Forall_app in Ha. destruct Ha as [_ Ha].
  assert (Hfst : (span_of_run (a :: t)).1 = frame_index_of a).
  { unfold span_of_run. simpl head. destruct (last (a :: t)) eqn:E; [reflexivity|].
    apply last_None in E. discriminate. }
  rewrite Hfst. clear -Ha Hrs.
  induction rs as [|r2 rs IH2]; simpl; [constructor|].
  inversion Hrs as [|? ? Hr2 Hrs']; subst.
  simpl in Ha. rewrite map_app, Forall_app in Ha. destruct Ha as [Ha2 Ha3].
  constructor; [|apply IH2; assumption].
  destruct r2 as [|b t2]; [congruence|].
  assert (Hfst : (span_of_run (b :: t2)).1 = frame_index_of b).
  { unfold span_of_run. simpl head. destruct (last (b :: t2)) eqn:E; [reflexivity|].
    apply last_None in E. discriminate. }
  rewrite Hfst. inversion Ha2; assumption.
Qed.

Lemma sorted_nodup_strict (l : list Z) :
  StronglySorted Z.le l -> NoDup l -> StronglySorted Z.lt l.
Proof.
  induction 1 as [|z l Hs IH Hz]; intros Hnd; [constructor|].
  apply NoDup_cons in Hnd as [Hnot Hnd].
  constructor; [apply IH, Hnd|].
  rewrite Forall_forall in Hz. apply Forall_forall. intros y Hy.
  specialize (Hz y Hy). assert (y <> z) by (intros ->; contradiction). lia.
Qed.

Lemma StronglySorted_map {A B} (f : A -> B) (R : B -> B -> Prop) (l : list A) :
  StronglySorted (fun a b => R (f a) (f b)) l -> StronglySorted R (map f l).
Proof.
  induction 1 as [|a l Hs IH Ha]; simpl; constructor; [exact IH|].
  rewrite Forall_forall in Ha. apply Forall_forall. intros y Hy.
  apply list_elem_of_In, in_map_iff in Hy as (x & <- & Hx).
  apply Ha, list_elem_of_In, Hx.
Qed.

(** ** Segment ids and spans of the emitted segments *)

Lemma span_of_run_cells (run : list dict) :
  run <> [] ->
  exists x y, head run = Some x /\ last run = Some y
              /\ span_of_run run = (frame_index_of x, frame_index_of y).
Proof.
  intros Hne. destruct run as [|x t]; [congruence|].
  destruct (last (x :: t)) as [y|] eqn:E.
  - exists x, y. unfold span_of_run. rewrite E. auto.
  - apply last_None in E. discriminate.
Qed.

Lemma state_segments_cells clip : forall (runs : list (list dict)) (k : Z),
  Forall (fun r => r <> []) runs ->
  let segs := imap (fun i => state_segment_of clip (k + Z.of_nat i)) runs in
  map (attr "segment_id") segs
  = map (fun i => VInt (k + Z.of_nat i)) (seq 0 (length runs))
  /\ spans_of "start_frame" "end_frame" segs (map span_of_run runs).
Proof.
  unfold spans_of.
  induction runs as [|r rs IH]; intros k Hnn; [split; reflexivity|].
  inversion Hnn as [|? ? Hr Hrs]; subst.
  destruct (span_of_run_cells r Hr) as (x & y & Hx & Hy & Hspan).
  cbn zeta. rewrite imap_cons. cbn [map length seq].
  rewrite <- seq_shift, map_map.
  destruct (IH (k + 1)%Z Hrs) as [IH1 IH2]. cbn zeta in IH1, IH2.
  rewrite (imap_ext _ (fun i => state_segment_of clip (k + 1 + Z.of_nat i)) rs)
    by (intros i r' _; simpl; f_equal; lia).
  rewrite IH1, IH2. split.
  - f_equal.
    + unfold state_segment_of. rewrite Hx, Hy. reflexivity.
    + apply map_ext. intros i. f_equal. lia.
  - f_equal. unfold state_segment_of. rewrite Hx, Hy, Hspan. reflexivity.
Qed.

Lemma infer_phase_total s e (k : value * value * value) :
  exists ph, infer_phase (phase_segment s e k) = Ok ph.
Proof.
  unfold infer_phase.
  change (getitem (phase_segment s e k) (lit "affordance")) with (Ok (A:=value) k.1.1).
  change (getitem (phase_segment s e k) (lit "yield_to")) with (Ok (A:=value) k.1.2).
  change (getitem (phase_segment s e k) (lit "lead_state")) with (Ok (A:=value) k.2).
  cbn [mbind result_bind].
  repeat match goal with
         | |- context [ bool_decide ?P ] => destruct (bool_decide P)
         end; cbn [andb]; eauto.
Qed.

Lemma phase_row_cells clip i s e (k : value * value * value) :
  exists row,
    phase_row clip i (phase_segment s e k) = Ok row
    /\ attr "segment_id" row = VInt i
    /\ attr "start" row = s /\ attr "end" row = e.
Proof.
  destruct (infer_phase_total s e k) as [ph Hph].
  unfold phase_row. rewrite Hph. cbn [mbind result_bind].
  change (getitem (phase_segment s e k) (lit "start")) with (Ok (A:=value) s).
  change (getitem (phase_segment s e k) (lit "end")) with (Ok (A:=value) e).
  change (getitem (phase_segment s e k) (lit "affordance")) with (Ok (A:=value) k.1.1).
  change (getitem (phase_segment s e k) (lit "yield_to")) with (Ok (A:=value) k.1.2).
  change (getitem (phase_segment s e k) (lit "lead_state")) with (Ok (A:=value) k.2).
  cbn [mbind result_bind mret result_ret].
  eexists. split; [reflexivity|]. repeat split; reflexivity.
Qed.

Lemma phase_rows_cells clip : forall (runs : list (list dict)) (k : nat),
  Forall (fun r => r <> []) runs ->
  Forall (Forall phase_frame) runs ->
  exists out,
    mapM (fun p => phase_row clip p.1 p.2)
      (zip (map Z.of_nat (seq k (length runs))) (map phase_segment_of runs)) = Ok out
    /\ length out = length runs
    /\ map (attr "segment_id") out = map VInt (map Z.of_nat (seq k (length runs)))
    /\ spans_of "start" "end" out (map span_of_run runs).
Proof.
  unfold spans_of.
  induction runs as [|r rs IH]; intros k Hnn Hok.
  - exists []. repeat split; reflexivity.
  - inversion Hnn as [|? ? Hr Hrs]; subst. inversion Hok as [|? ? Hfr Hfrs]; subst.
    destruct (span_of_run_cells r Hr) as (x & y & Hx & Hy & Hspan).
    assert (Hfx : phase_frame x).
    { rewrite Forall_forall in Hfr. apply Hfr. destruct r; inversion Hx; subst. left. }
    assert (Hfy : phase_frame y).
    { rewrite Forall_forall in Hfr. apply Hfr.
      apply last_Some in Hy as [l' ->]. apply list_elem_of_In, in_or_app. right. simpl. auto. }
    destruct (phase_frame_index x Hfx) as [_ Hax].
    destruct (phase_frame_index y Hfy) as [_ Hay].
    destruct (IH (S k) Hrs Hfrs) as (out & Hout & Hlen & Hids & Hsp).
    assert (Hseg : phase_segment_of r
                   = phase_segment (VInt (frame_index_of x)) (VInt (frame_index_of y))
                       (smoothed_triple x)).
    { unfold phase_segment_of. rewrite Hx, Hy, Hax, Hay. reflexivity. }
    cbn [length seq map zip zip_with mapM]. rewrite Hseg.
    destruct (phase_row_cells clip (Z.of_nat k) (VInt (frame_index_of x))
                (VInt (frame_index_of y)) (smoothed_triple x))
      as (row & Hrow & Hid & Hs & He).
    cbn [fst snd]. rewrite Hrow. cbn [mbind result_bind].
    fold (zip (map Z.of_nat (seq (S k) (length rs))) (map phase_segment_of rs)).
    rewrite Hout. cbn [mbind result_bind mret result_ret].
    exists (row :: out). split; [reflexivity|].
    split; [simpl; rewrite Hlen; reflexivity|]. split.
    + simpl. rewrite Hid, Hids. reflexivity.
    + simpl. rewrite Hs, He, Hsp, Hspan. reflexivity.
Qed.

Section SegmentIds.

Variable int_of_str : pystr -> option Z.

Lemma sorted_clip_rows (rows : list dict) :
  (forall r, In r rows -> exists z, dict_get r (lit "frame_index") = Some (VInt z)) ->
  NoDup (map frame_index_of rows) ->
  exists rows',
    sorted_by (fun r => getitem r (lit "frame_index")) rows = Ok rows'
    /\ Permutation rows rows'
    /\ StronglySorted Z.lt (map frame_index_of rows').
Proof.
  intros Hok Hnd.
  destruct (sorted_by_frame_index rows Hok) as (rows' & Hs & Hp & Hsorted).
  exists rows'. split; [exact Hs|]. split; [exact Hp|].
  apply sorted_nodup_strict.
  - apply StronglySorted_map. exact Hsorted.
  - eapply NoDup_Permutation_proper; [|exact Hnd].
    symmetry. apply Permutation_map, Hp.
Qed.

(** C7: for a clip whose rows have pairwise distinct frame_index values,
    the segments emitted (state view and phase view alike) carry the
    segment ids 0, 1, ..., n-1 in emission order; their start frames increase
    strictly in that order; every segment has start <= end; and the
    inclusive frame ranges of the segments, put together, are exactly the
    frame_index values of the clip's rows, each once. *)
Theorem segment_ids_and_frame_cover :
  (forall (clip : value) (rows : list dict),
      Forall final_frame rows -> NoDup (map frame_index_of rows) ->
      exists segs spans,
        segment_states_clip int_of_str clip rows = Ok segs
        /\ map (attr "segment_id") segs = map VInt (range (length segs))
        /\ spans_of "start_frame" "end_frame" segs spans
        /\ Forall (fun p : Z * Z => (p.1 <= p.2)%Z) spans
        /\ StronglySorted Z.lt (map fst spans)
        /\ Permutation (concat (map zrange spans)) (map frame_index_of rows))
  /\ (forall (clip : value) (rows : list dict),
        Forall phase_frame rows -> NoDup (map frame_index_of rows) ->
        exists segs spans,
          phase_rows_of_clip clip rows = Ok segs
          /\ map (attr "segment_id") segs = map VInt (range (length segs))
          /\ spans_of "start" "end" segs spans
          /\ Forall (fun p : Z * Z => (p.1 <= p.2)%Z) spans
          /\ StronglySorted Z.lt (map fst spans)
          /\ Permutation (concat (map zrange spans)) (map frame_index_of rows)).
Proof.
  split.
  - intros clip rows Hok Hnd.
    destruct (sorted_clip_rows rows) as (rows' & Hs & Hp & Hsorted); [|exact Hnd|].
    { intros r Hr. rewrite Forall_forall in Hok.
      destruct (Hok r (proj2 (list_elem_of_In _ _) Hr)) as (_ & _ & _ & Hz). exact Hz. }
    assert (Hok' : Forall final_frame rows') by (eapply Permutation_Forall; eassumption).
    pose proof (runs_of_segmentation state_linked rows') as Hseg.
    destruct (runs_cover state_linked state_linked_next _ _ Hseg) as [Hcov Hle].
    destruct Hseg as (Hcat & Hnn & Hch & Hmax).
    destruct (state_segments_cells clip (runs_of state_linked rows') 0 Hnn) as [Hids Hsp].
    cbn zeta in Hids, Hsp.
    exists (imap (fun i => state_segment_of clip (Z.of_nat i)) (runs_of state_linked rows')),
           (map span_of_run (runs_of state_linked rows')).
    split.
    { unfold segment_states_clip. rewrite Hs. cbn [mbind result_bind].
      apply segment_states_loop_runs, Hok'. }
    split; [rewrite length_imap; unfold range; rewrite map_map; exact Hids|].
    split; [exact Hsp|]. split; [exact Hle|]. split.
    + apply run_starts_increasing; [exact Hnn | rewrite Hcat; exact Hsorted].
    + rewrite Hcov. symmetry. apply Permutation_map, Hp.
  - intros clip rows Hok Hnd.
    destruct (sorted_clip_rows rows) as (rows' & Hs & Hp & Hsorted); [|exact Hnd|].
    { intros r Hr. rewrite Forall_forall in Hok.
      destruct (Hok r (proj2 (list_elem_of_In _ _) Hr)) as (_ & _ & _ & Hz). exact Hz. }
    assert (Hok' : Forall phase_frame rows') by (eapply Permutation_Forall; eassumption).
    pose proof (runs_of_segmentation phase_linked rows') as Hseg.
    destruct (runs_cover phase_linked phase_linked_next _ _ Hseg) as [Hcov Hle].
    destruct Hseg as (Hcat & Hnn & Hch & Hmax).
    destruct (phase_rows_cells clip (runs_of phase_linked rows') 0 Hnn)
      as (out & Hout & Hlen & Hids & Hsp).
    { apply Forall_forall. intros run Hrun. apply Forall_forall. intros d Hd.
      rewrite Forall_forall in Hok'. apply Hok'. rewrite <- Hcat.
      apply list_elem_of_In, in_concat. exists run.
      split; apply list_elem_of_In; assumption. }
    exists out, (map span_of_run (runs_of phase_linked rows')).
    split.
    { unfold phase_rows_of_clip. rewrite Hs. cbn [mbind result_bind].
      rewrite (segment_clip_runs rows' Hok'). cbn [mbind result_bind].
      unfold enumerate, range. rewrite length_map. exact Hout. }
    split; [rewrite Hlen; exact Hids|].
    split; [exact Hsp|]. split; [exact Hle|]. split.
    + apply run_starts_increasing; [exact Hnn | rewrite Hcat; exact Hsorted].
    + rewrite Hcov. symmetry. apply Permutation_map, Hp.
Qed.

End SegmentIds.

(** ** Grouping by clip *)

Section Grouping.
Context {A : Type}.

Lemma group_add_new (k : value) (x : A) g :
  ~ In k (map fst g) -> group_add k x g = g ++ [(k, [x])].
Proof.
  induction g as [|[k' xs] t IH]; simpl; intros H; [reflexivity|].
  rewrite bool_decide_eq_false_2 by tauto. rewrite IH by tauto. reflexivity.
Qed.

Lemma group_add_old (k : value) (x : A) g1 xs g2 :
  ~ In k (map fst g1) ->
  group_add k x (g1 ++ (k, xs) :: g2) = g1 ++ (k, xs ++ [x]) :: g2.
Proof.
  induction g1 as [|[k' ys] t IH]; simpl; intros H.
  - rewrite bool_decide_eq_true_2 by reflexivity. reflexivity.
  - rewrite bool_decide_eq_false_2 by tauto. rewrite IH by tauto. reflexivity.
Qed.

Lemma first_group_split (k : value) (g : list (value * list A)) :
  In k (map fst g) ->
  exists g1 xs g2, g = g1 ++ (k, xs) :: g2 /\ ~ In k (map fst g1).
Proof.
  induction g as [|[k' ys] t IH]; simpl; [tauto|].
  intros H. destruct (value_eq_dec k' k) as [->|Hne].
  - exists [], ys, t. split; [reflexivity | simpl; tauto].
  - destruct IH as (g1 & xs & g2 & -> & Hn); [tauto|].
    exists ((k', ys) :: g1), xs, g2. split; [reflexivity|]. simpl. tauto.
Qed.

Variable kf : A -> value.

Lemma members_nil k l : (forall y, In y l -> kf y <> k) -> members kf k l = [].
Proof.
  induction l as [|y t IH]; intros H; [reflexivity|]. unfold members in *. simpl.
  rewrite bool_decide_eq_false_2 by (apply H; left; reflexivity).
  apply IH. intros z Hz. apply H. right. exact Hz.
Qed.

Lemma members_snoc_eq x seen : members kf (kf x) (seen ++ [x]) = members kf (kf x) seen ++ [x].
Proof.
  unfold members. rewrite List.filter_app. simpl.
  rewrite bool_decide_eq_true_2 by reflexivity. reflexivity.
Qed.

Lemma members_snoc_ne k x seen : kf x <> k -> members kf k (seen ++ [x]) = members kf k seen.
Proof.
  intros H. unfold members. rewrite List.filter_app. simpl.
  rewrite bool_decide_eq_false_2 by exact H. apply app_nil_r.
Qed.

Lemma group_add_inv x g seen :
  groups_inv kf g seen -> groups_inv kf (group_add (kf x) x g) (seen ++ [x]).
Proof.
  intros [Hnd Hmem Hkeys].
  destruct (in_dec value_eq_dec (kf x) (map fst g)) as [Hin|Hnin].
  - destruct (first_group_split _ _ Hin) as (g1 & xs & g2 & -> & Hn1).
    rewrite group_add_old by exact Hn1.
    assert (Hfst : map fst (g1 ++ (kf x, xs ++ [x]) :: g2)
                   = map fst (g1 ++ (kf x, xs) :: g2))
      by (rewrite !map_app; reflexivity).
    split.
    + rewrite Hfst. exact Hnd.
    + intros k ys Hy. apply in_app_or in Hy as [Hy | [Hy | Hy]].
      * assert (kf x <> k).
        { intros E. apply Hn1. rewrite E. apply (in_map fst) in Hy. exact Hy. }
        rewrite members_snoc_ne by assumption.
        apply Hmem. apply in_or_app. auto.
      * inversion Hy; subst. rewrite members_snoc_eq.
        destruct (Hmem (kf x) xs) as [_ <-]; [apply in_or_app; simpl; auto|].
        split; [|reflexivity]. intros E. apply app_eq_nil in E as [_ E]. discriminate.
      * assert (kf x <> k).
        { intros E. rewrite map_app in Hnd. apply NoDup_app in Hnd as (_ & _ & Hnd).
          simpl in Hnd. apply NoDup_cons in Hnd as [Hnd _].
          apply Hnd, list_elem_of_In. rewrite E. apply (in_map fst) in Hy. exact Hy. }
        rewrite members_snoc_ne by assumption.
        apply Hmem. apply in_or_app. simpl. auto.
    + intros y Hy. rewrite Hfst. apply in_app_or in Hy as [Hy | [<- | []]].
      * apply Hkeys, Hy.
      * exact Hin.
  - rewrite group_add_new by exact Hnin.
    assert (Hempty : members kf (kf x) seen = []).
    { apply members_nil. intros y Hy E. apply Hnin. rewrite <- E. apply Hkeys, Hy. }
    split.
    + rewrite map_app. simpl. apply NoDup_app. split; [exact Hnd|]. split.
      * intros k Hk Hk'. apply list_elem_of_In in Hk, Hk'. simpl in Hk'.
        destruct Hk' as [<-|[]]. apply Hnin, Hk.
      * apply NoDup_singleton.
    + intros k ys Hy. apply in_app_or in Hy as [Hy | [Hy | []]].
      * assert (kf x <> k).
        { intros E. apply Hnin. rewrite E. apply (in_map fst) in Hy. exact Hy. }
        rewrite members_snoc_ne by assumption. apply Hmem, Hy.
      * inversion Hy; subst. rewrite members_snoc_eq, Hempty.
        split; [discriminate | reflexivity].
    + intros y Hy. rewrite map_app. apply in_or_app.
      apply in_app_or in Hy as [Hy | [<- | []]]; [left; apply Hkeys, Hy | right; simpl; auto].
Qed.
End Grouping.

Lemma group_loop_spec {A} (key : A -> result value) (kf : A -> value) :
  forall l g seen,
    (forall x, In x l -> key x = Ok (kf x)) ->
    groups_inv kf g seen ->
    exists g', group_loop key l g = Ok g' /\ groups_inv kf g' (seen ++ l).
Proof.
  induction l as [|x t IH]; intros g seen Hkey Hinv.
  - exists g. rewrite app_nil_r. auto.
  - cbn [group_loop]. rewrite (Hkey x (or_introl eq_refl)). cbn [mbind result_bind].
    destruct (IH (group_add (kf x) x g) (seen ++ [x])) as (g' & Hg & Hinv').
    + intros y Hy. apply Hkey. right. exact Hy.
    + apply group_add_inv, Hinv.
    + exists g'. rewrite <- app_assoc in Hinv'. auto.
Qed.

(** [group_by]: one group per key, in first-occurrence order of the keys,
    each holding the elements of its key in input order. *)
Lemma group_by_spec {A} (key : A -> result value) (kf : A -> value) l :
  (forall x, In x l -> key x = Ok (kf x)) ->
  exists g, group_by key l = Ok g /\ groups_inv kf g l.
Proof.
  intros Hkey. apply (group_loop_spec key kf l [] [] Hkey).
  split; simpl; [apply NoDup_nil_2 | intros ? ? [] | intros ? []].
Qed.

Section WholeSegmenter.

Variable int_of_str : pystr -> option Z.

Lemma segment_states_clip_total clip rows :
  Forall final_frame rows ->
  exists segs, segment_states_clip int_of_str clip rows = Ok segs.
Proof.
  intros Hok.
  destruct (sorted_by_frame_index rows) as (rows' & Hs & Hp & _).
  { intros r Hr. rewrite Forall_forall in Hok.
    destruct (Hok r (proj2 (list_elem_of_In _ _) Hr)) as (_ & _ & _ & Hz). exact Hz. }
  unfold segment_states_clip. rewrite Hs. cbn [mbind result_bind].
  rewrite segment_states_loop_runs by (eapply Permutation_Forall; eassumption).
  eauto.
Qed.

(** [segment_states] on the rows of several clips: the rows are grouped by
    clip, each clip once and with its rows in input order, and the result is
    the segments of the clips one clip after the other. *)
Lemma segment_states_by_clip (rows : list dict) :
  Forall final_frame rows ->
  Forall (fun r => has_key r (lit "clip")) rows ->
  exists by_clip per_clip,
    segment_states int_of_str rows = Ok (concat per_clip)
    /\ groups_inv (attr "clip") by_clip rows
    /\ Forall2 (fun g segs => segment_states_clip int_of_str g.1 g.2 = Ok segs)
         by_clip per_clip.
Proof.
  intros Hok Hclip.
  destruct (group_by_spec (fun r => getitem r (lit "clip")) (attr "clip") rows)
    as (by_clip & Hg & Hinv).
  { intros r Hr. apply getitem_has_key.
    rewrite Forall_forall in Hclip. apply Hclip, list_elem_of_In, Hr. }
  assert (Hgroups : Forall (fun g : value * list dict => Forall final_frame g.2) by_clip).
  { apply Forall_forall. intros [k xs] Hk. apply list_elem_of_In in Hk.
    destruct (gi_members _ _ _ Hinv k xs Hk) as [_ ->]. simpl.
    apply Forall_forall. intros d Hd. apply list_elem_of_In, filter_In in Hd as [Hd _].
    rewrite Forall_forall in Hok. apply Hok, list_elem_of_In, Hd. }
  assert (Hper : exists per_clip,
             mapM (fun g => segment_states_clip int_of_str g.1 g.2) by_clip = Ok per_clip
             /\ Forall2 (fun g segs => segment_states_clip int_of_str g.1 g.2 = Ok segs)
                  by_clip per_clip).
  { clear -Hgroups. induction by_clip as [|g gs IH].
    - exists []. split; [reflexivity | constructor].
    - inversion Hgroups as [|? ? Hg1 Hgs]; subst.
      destruct (segment_states_clip_total g.1 g.2 Hg1) as (segs & Hsegs).
      destruct (IH Hgs) as (per & Hper & Hall).
      exists (segs :: per). split.
      + cbn [mapM]. rewrite Hsegs. cbn [mbind result_bind]. rewrite Hper. reflexivity.
      + constructor; assumption. }
  destruct Hper as (per_clip & Hper & Hall).
  exists by_clip, per_clip. split; [|split; assumption].
  unfold segment_states. rewrite Hg. cbn [mbind result_bind].
  rewrite Hper. reflexivity.
Qed.

End WholeSegmenter.

(** ** The stage drivers on an empty input table *)

Section Drivers.

Variable int_of_str : pystr -> option Z.

Lemma io_bind_ok {A B} (m : IO A) (f : A -> IO B) (s s' : fs) a :
  m s = (Ok a, s') -> (m ≫= f) s = f a s'.
Proof. intros H. unfold mbind, IO_bind. rewrite H. reflexivity. Qed.

Lemma path_exists_some (s : fs) path t :
  s !! path = Some t -> path_exists path s = (Ok true, s).
Proof.
  intros H. unfold path_exists. rewrite bool_decide_eq_true_2; [reflexivity|].
  rewrite H. eauto.
Qed.

Lemma read_rows_some (s : fs) path t :
  s !! path = Some t -> read_rows path s = (Ok (records t), s).
Proof. intros H. unfold read_rows. rewrite H. reflexivity. Qed.

(** [temporal_smoothing.main]: no rows, no output, [RuntimeError]. *)
Lemma smoothing_main_empty (s : fs) t :
  s !! INPUT_FILENAME = Some t -> records t = [] ->
  smoothing_main int_of_str s = (Raise RuntimeError, s).
Proof.
  intros Hin Hrows. unfold smoothing_main.
  rewrite (io_bind_ok _ _ _ _ _ (path_exists_some _ _ _ Hin)). cbn [negb].
  rewrite (io_bind_ok _ _ _ _ _ (read_rows_some _ _ _ Hin)).
  rewrite Hrows. reflexivity.
Qed.

(** [build_state_and_planner.main]: with no smoothed rows every guarded
    write is skipped and the run ends normally. *)
Lemma build_main_empty (s : fs) traw tsm raw_map :
  s !! INPUT_FILENAME = Some traw ->
  s !! OUTPUT_FILENAME = Some tsm ->
  records tsm = [] ->
  load_raw_loop int_of_str (records traw) ∅ = Ok raw_map ->
  build_main int_of_str s = (Ok tt, s).
Proof.
  intros Hraw Hsm Hrows Hload. unfold build_main.
  rewrite (io_bind_ok _ _ _ _ _ (path_exists_some _ _ _ Hraw)). cbn [negb].
  rewrite (io_bind_ok _ _ _ _ _ (path_exists_some _ _ _ Hsm)). cbn [negb].
  assert (H1 : load_raw_world int_of_str INPUT_FILENAME s = (Ok raw_map, s)).
  { unfold load_raw_world.
    rewrite (io_bind_ok _ _ _ _ _ (read_rows_some _ _ _ Hraw)).
    unfold liftIO. rewrite Hload. reflexivity. }
  rewrite (io_bind_ok _ _ _ _ _ H1).
  assert (H2 : load_smoothed_world int_of_str OUTPUT_FILENAME s = (Ok [], s)).
  { unfold load_smoothed_world.
    rewrite (io_bind_ok _ _ _ _ _ (read_rows_some _ _ _ Hsm)).
    rewrite Hrows. reflexivity. }
  rewrite (io_bind_ok _ _ _ _ _ H2).
  reflexivity.
Qed.

(** [segment_world_state.main]: with no smoothed rows the output file is
    opened, gets its header, and stays without rows; nothing is raised. *)
Lemma segment_main_empty (s : fs) tsm :
  s !! OUTPUT_FILENAME = Some tsm ->
  records tsm = [] ->
  segment_main int_of_str s
  = (Ok tt, <[SEGMENTS_FILENAME := {| fieldnames := segment_fieldnames; records := [] |}]> s).
Proof.
  intros Hsm Hrows. unfold segment_main.
  rewrite (io_bind_ok _ _ _ _ _ (path_exists_some _ _ _ Hsm)). cbn [negb].
  assert (H1 : load_smoothed_rows int_of_str OUTPUT_FILENAME s = (Ok [], s)).
  { unfold load_smoothed_rows.
    rewrite (io_bind_ok _ _ _ _ _ (read_rows_some _ _ _ Hsm)).
    rewrite Hrows. reflexivity. }
  rewrite (io_bind_ok _ _ _ _ _ H1).
  reflexivity.
Qed.

(** C8 (amended): a zero-row input is fatal for the smoothing stage, which
    raises RuntimeError before it opens its output, so that no file is
    written or changed. The state/planner build stage raises nothing on a
    zero-row smoothed table: it ends normally and writes none of its
    artifacts. *)
Theorem empty_input_fatal_for_smoothing_only :
  (forall (s : fs) (t : table),
      s !! INPUT_FILENAME = Some t -> records t = [] ->
      smoothing_main int_of_str s = (Raise RuntimeError, s))
  /\ (forall (s : fs) (traw tsm : table) (raw_map : gmap (pystr * Z) dict),
        s !! INPUT_FILENAME = Some traw ->
        s !! OUTPUT_FILENAME = Some tsm ->
        records tsm = [] ->
        load_raw_loop int_of_str (records traw) ∅ = Ok raw_map ->
        build_main int_of_str s = (Ok tt, s)).
Proof.
  split.
  - apply smoothing_main_empty.
  - apply build_main_empty.
Qed.

End Drivers.

(* ================================================================== *)
(** * Part III: the statements on the sample clip                      *)
(* ================================================================== *)

Lemma sample_raw_map_ok : raw_map_ok sample_raw_map.
Proof.
  intros k raw H. unfold sample_raw_map in H.
  apply lookup_singleton_Some in H as [_ <-].
  repeat split; vm_compute; discriminate.
Qed.

Lemma sample_smoothed_frames : Forall smoothed_frame sample_smoothed_rows.
Proof.
  repeat apply Forall_cons_2; [| | | apply Forall_nil_2];
    (split; [eexists; split; [vm_compute; reflexivity | vm_compute; reflexivity]|]);
    (split; [eexists; vm_compute; reflexivity|]);
    (split; [eexists; split; [vm_compute; reflexivity | vm_compute; reflexivity]|]);
    (split; eexists; split; vm_compute; reflexivity).
Qed.

(** C3 on the sample clip: frame 11, smoothed to "wait", gets its raw "go"
    triple back; frames 10 and 12, without raw record, keep the smoothed
    triple. *)
Lemma reinject_go_short_spec_witness :
  rows_at sample_smoothed_rows [0; 1; 2]%nat sample_smoothed_rows
  /\ Forall smoothed_frame sample_smoothed_rows
  /\ raw_map_ok sample_raw_map
  /\ exists h' fs,
       reinject_go_short no_int sample_raw_map [0; 1; 2]%nat sample_smoothed_rows
       = Ok ([0; 1; 2]%nat, h')
       /\ rows_at h' [0; 1; 2]%nat fs
       /\ length fs = 3%nat.
Proof.
  assert (H1 : rows_at sample_smoothed_rows [0; 1; 2]%nat sample_smoothed_rows).
  { repeat constructor. }
  split; [exact H1|]. split; [exact sample_smoothed_frames|].
  split; [exact sample_raw_map_ok|].
  destruct (reinject_go_short_spec no_int sample_raw_map [0; 1; 2]%nat
              sample_smoothed_rows sample_smoothed_rows H1 sample_smoothed_frames
              sample_raw_map_ok) as (h' & fs & Hrun & Hrows & Hlen & _).
  exists h', fs. split; [exact Hrun|]. split; [exact Hrows | exact Hlen].
Defined.

Lemma sample_raw_rows_ok : Forall raw_row sample_raw_rows.
Proof.
  repeat apply Forall_cons_2; [| | | apply Forall_nil_2];
    repeat split; vm_compute; discriminate.
Qed.

(** C5 on the sample clip: three rows in, three new rows out. *)
Lemma smooth_sequence_window3_spec_witness :
  rows_at sample_raw_rows [0; 1; 2]%nat sample_raw_rows
  /\ Forall raw_row sample_raw_rows
  /\ exists out h' os,
       smooth_sequence [0; 1; 2]%nat 3 sample_raw_rows = Ok (out, h')
       /\ rows_at h' out os
       /\ length os = 3%nat.
Proof.
  assert (H1 : rows_at sample_raw_rows [0; 1; 2]%nat sample_raw_rows).
  { repeat constructor. }
  split; [exact H1|]. split; [exact sample_raw_rows_ok|].
  destruct (smooth_sequence_window3_spec [0; 1; 2]%nat sample_raw_rows sample_raw_rows
              H1 sample_raw_rows_ok) as (out & h' & os & Hrun & Hrows & Hlen & _).
  exists out, h', os. split; [exact Hrun|]. split; [exact Hrows | exact Hlen].
Defined.

(** C6 on a window where "wait" and "go" both occur twice: "wait", seen
    first, wins. *)
Lemma majority_vote_ties_first_occurrence_witness :
  let wait := VStr (lit "wait") in
  let go := VStr (lit "go") in
  let values := [wait; go; go; wait] in
  majority_vote values = Ok wait
  /\ In go values
  /\ truthy go = true
  /\ (forall w, truthy w = true -> (count w values <= count go values)%nat)
  /\ count wait values = count go values
  /\ occurs_before wait go values.
Proof.
  intros wait go values.
  assert (H1 : majority_vote values = Ok wait) by (vm_compute; reflexivity).
  assert (H2 : In go values) by (simpl; auto).
  assert (H3 : truthy go = true) by reflexivity.
  assert (H4 : forall w, truthy w = true -> (count w values <= count go values)%nat).
  { intros w _.
    assert (Hgo : count go values = 2%nat) by (vm_compute; reflexivity).
    rewrite Hgo. unfold values. rewrite !count_cons.
    change (count w []) with 0%nat.
    destruct (value_eq_dec wait w) as [Ew|Ew]; destruct (value_eq_dec go w) as [Eg|Eg];
      try (rewrite <- Ew in Eg; discriminate Eg); lia. }
  destruct (majority_vote_ties_first_occurrence values wait go H1 H2 H3 H4)
    as (_ & _ & Hc & Hb).
  repeat split; try assumption.
  apply Hb. discriminate.
Defined.

Lemma sample_phase_frames : Forall phase_frame sample_smoothed_rows.
Proof.
  repeat apply Forall_cons_2; [| | | apply Forall_nil_2];
    (split; [vm_compute; discriminate|]);
    (split; [vm_compute; discriminate|]);
    (split; [vm_compute; discriminate|]);
    eexists; vm_compute; reflexivity.
Qed.

Lemma sample_final_frames : Forall final_frame sample_final_rows.
Proof.
  repeat apply Forall_cons_2; [| | | apply Forall_nil_2];
    (split; [eexists; vm_compute; reflexivity|]);
    (split; [eexists; vm_compute; reflexivity|]);
    (split; [eexists; vm_compute; reflexivity|]);
    eexists; vm_compute; reflexivity.
Qed.

(** C4 on the sample clip, both views. *)
Lemma segmenters_cut_maximal_runs_witness :
  Forall phase_frame sample_smoothed_rows
  /\ Forall final_frame sample_final_rows
  /\ (exists runs,
        segment_clip sample_smoothed_rows = Ok (map phase_segment_of runs)
        /\ concat runs = sample_smoothed_rows)
  /\ (exists runs,
        segment_states_loop no_int (VStr (lit "clip1")) sample_final_rows None 0 []
        = Ok (imap (fun i => state_segment_of (VStr (lit "clip1")) (Z.of_nat i)) runs)
        /\ concat runs = sample_final_rows).
Proof.
  split; [exact sample_phase_frames|]. split; [exact sample_final_frames|].
  destruct (segmenters_cut_maximal_runs no_int) as (Hphase & Hstate & _).
  split.
  - destruct (Hphase sample_smoothed_rows sample_phase_frames) as (runs & H1 & H2 & _).
    exists runs. split; assumption.
  - destruct (Hstate (VStr (lit "clip1")) sample_final_rows sample_final_frames)
      as (runs & H1 & H2 & _).
    exists runs. split; assumption.
Defined.

Lemma sample_final_nodup : NoDup (map frame_index_of sample_final_rows).
Proof. apply (bool_decide_unpack _). vm_compute. exact I. Qed.

Lemma sample_smoothed_nodup : NoDup (map frame_index_of sample_smoothed_rows).
Proof. apply (bool_decide_unpack _). vm_compute. exact I. Qed.

(** C7 on the sample clip, both views. *)
Lemma segment_ids_and_frame_cover_witness :
  Forall final_frame sample_final_rows
  /\ NoDup (map frame_index_of sample_final_rows)
  /\ Forall phase_frame sample_smoothed_rows
  /\ NoDup (map frame_index_of sample_smoothed_rows)
  /\ (exists segs spans,
        segment_states_clip no_int (VStr (lit "clip1")) sample_final_rows = Ok segs
        /\ map (attr "segment_id") segs = map VInt (range (length segs))
        /\ spans_of "start_frame" "end_frame" segs spans
        /\ Permutation (concat (map zrange spans)) (map frame_index_of sample_final_rows))
  /\ (exists segs spans,
        phase_rows_of_clip (VStr (lit "clip1")) sample_smoothed_rows = Ok segs
        /\ map (attr "segment_id") segs = map VInt (range (length segs))
        /\ spans_of "start" "end" segs spans
        /\ Permutation (concat (map zrange spans))
             (map frame_index_of sample_smoothed_rows)).
Proof.
  split; [exact sample_final_frames|]. split; [exact sample_final_nodup|].
  split; [exact sample_phase_frames|]. split; [exact sample_smoothed_nodup|].
  destruct (segment_ids_and_frame_cover no_int) as (Hstate & Hphase).
  split.
  - destruct (Hstate (VStr (lit "clip1")) sample_final_rows sample_final_frames
                sample_final_nodup) as (segs & spans & H1 & H2 & H3 & _ & _ & H6).
    exists segs, spans. repeat split; assumption.
  - destruct (Hphase (VStr (lit "clip1")) sample_smoothed_rows sample_phase_frames
                sample_smoothed_nodup) as (segs & spans & H1 & H2 & H3 & _ & _ & H6).
    exists segs, spans. repeat split; assumption.
Defined.

(** C8, as stated, fails: on a smoothed table with a header and no rows the
    state/planner build stage raises nothing. *)
Lemma build_main_empty_counterexample :
  (exists t, empty_tables !! OUTPUT_FILENAME = Some t /\ records t = [])
  /\ build_main no_int empty_tables = (Ok tt, empty_tables)
  /\ build_main no_int empty_tables <> (Raise RuntimeError, empty_tables).
Proof.
  assert (H : build_main no_int empty_tables = (Ok tt, empty_tables)).
  { apply (build_main_empty no_int empty_tables
             {| fieldnames := []; records := [] |} {| fieldnames := []; records := [] |} ∅);
      reflexivity. }
  split; [eexists; split; reflexivity|]. split; [exact H|].
  rewrite H. discriminate.
Qed.

(** C8 (amended) on the empty tables. *)
Lemma empty_input_fatal_for_smoothing_only_witness :
  empty_tables !! INPUT_FILENAME = Some {| fieldnames := []; records := [] |}
  /\ empty_tables !! OUTPUT_FILENAME = Some {| fieldnames := []; records := [] |}
  /\ load_raw_loop no_int [] ∅ = Ok ∅
  /\ smoothing_main no_int empty_tables = (Raise RuntimeError, empty_tables)
  /\ build_main no_int empty_tables = (Ok tt, empty_tables).
Proof.
  assert (H1 : empty_tables !! INPUT_FILENAME = Some {| fieldnames := []; records := [] |})
    by reflexivity.
  assert (H2 : empty_tables !! OUTPUT_FILENAME = Some {| fieldnames := []; records := [] |})
    by reflexivity.
  assert (H3 : load_raw_loop no_int [] ∅ = Ok ∅) by reflexivity.
  destruct (empty_input_fatal_for_smoothing_only no_int) as [Hs Hb].
  split; [exact H1|]. split; [exact H2|]. split; [exact H3|]. split.
  - exact (Hs empty_tables _ H1 eq_refl).
  - exact (Hb empty_tables _ _ ∅ H1 H2 eq_refl H3).
Defined.

(** C9, as stated, fails for the re-injector: after it returns, the input
    row object of frame 11 is no longer what it was; it has acquired the
    final fields. *)
Lemma reinject_mutates_input_counterexample :
  exists h',
    reinject_go_short no_int sample_raw_map [0; 1; 2]%nat sample_smoothed_rows
    = Ok ([0; 1; 2]%nat, h')
    /\ h' !! 1%nat <> sample_smoothed_rows !! 1%nat
    /\ (forall d, sample_smoothed_rows !! 1%nat = Some d ->
          dict_get d (lit "affordance_final") = None)
    /\ (forall f, h' !! 1%nat = Some f ->
          dict_get f (lit "affordance_final") = Some (VStr (lit "go"))).
Proof.
  eexists. split; [vm_compute; reflexivity|].
  split; [vm_compute; congruence|]. split.
  - intros d H. vm_compute in H. inversion H. reflexivity.
  - intros f H. vm_compute in H. inversion H. reflexivity.
Qed.

Lemma sample_rows_valid : forall r, In r [0; 1; 2]%nat -> is_Some (sample_raw_rows !! r).
Proof. intros r [<-|[<-|[<-|[]]]]; eexists; reflexivity. Qed.

Lemma sample_smooth_run :
  smooth_sequence [0; 1; 2]%nat 3 sample_raw_rows
  = Ok ([3; 4; 5]%nat, sample_raw_rows ++ sample_smoothed_rows).
Proof.
  apply (smooth_sequence_ok [0; 1; 2]%nat sample_raw_rows sample_raw_rows).
  - repeat constructor.
  - exact sample_raw_rows_ok.
Qed.

Lemma sample_reinject_run :
  exists h',
    reinject_go_short no_int sample_raw_map [0; 1; 2]%nat sample_smoothed_rows
    = Ok ([0; 1; 2]%nat, h').
Proof.
  destruct (reinject_loop no_int sample_raw_map sample_raw_map_ok [0; 1; 2]%nat
              sample_smoothed_rows) as (h' & Hrun & _).
  - intros r Hr.
    assert (Hrows : rows_at sample_smoothed_rows [0; 1; 2]%nat sample_smoothed_rows)
      by (repeat constructor).
    destruct (rows_at_in _ _ _ _ Hrows Hr) as (d & Hd & Hin).
    exists d. split; [exact Hd|]. apply smoothed_frame_readable.
    pose proof sample_smoothed_frames as Hall. rewrite Forall_forall in Hall.
    apply Hall, list_elem_of_In, Hin.
  - exists h'. exact Hrun.
Qed.

(** C9 (amended) on the sample clip. *)
Lemma accretion_on_copies_and_in_place_witness :
  (forall r, In r [0; 1; 2]%nat -> is_Some (sample_raw_rows !! r))
  /\ (exists os,
        smooth_sequence [0; 1; 2]%nat 3 sample_raw_rows
        = Ok ([3; 4; 5]%nat, sample_raw_rows ++ os))
  /\ (exists h',
        reinject_go_short no_int sample_raw_map [0; 1; 2]%nat sample_smoothed_rows
        = Ok ([0; 1; 2]%nat, h')
        /\ length h' = 3%nat).
Proof.
  destruct (accretion_on_copies_and_in_place no_int) as [Hsmooth Hreinject].
  split; [exact sample_rows_valid|]. split.
  - destruct (Hsmooth [0; 1; 2]%nat 3%Z sample_raw_rows _ _ sample_rows_valid
                sample_smooth_run) as (os & Hh & _).
    exists os. rewrite <- Hh. exact sample_smooth_run.
  - destruct sample_reinject_run as (h' & Hrun).
    destruct (Hreinject sample_raw_map [0; 1; 2]%nat sample_smoothed_rows _ h' Hrun)
      as (_ & Hlen & _).
    exists h'. split; [exact Hrun | exact Hlen].
Defined.

(** ** The examples of the specification, run on the embedding *)

(** [(stop, ped, none)] is STOP_PED, planned as STOP / pedestrian_blocking. *)
Example stop_ped_example :
  map_world_to_state (lit "stop") (lit "ped") (lit "none") = lit "STOP_PED"
  /\ map_state_to_planner (lit "STOP_PED")
     = planner_record "STOP" "pedestrian_blocking" "ped" "ped_clears".
Proof. split; vm_compute; reflexivity. Qed.

(** Smoothing erases the lone "go" of frame 11; at frame 12, where the
    window holds "go" and "wait" once each, "go", seen first, wins. *)
Example sample_smoothing_erases_go :
  map (attr "affordance_smoothed") sample_smoothed_rows
  = [VStr (lit "wait"); VStr (lit "wait"); VStr (lit "go")].
Proof. vm_compute. reflexivity. Qed.

(** Re-injection restores the "go" of frame 11. *)
Example sample_reinjection_restores_go :
  map final_triple sample_final_rows
  = [ (VStr (lit "wait"), VStr (lit "none"), VStr (lit "none"));
      (VStr (lit "go"), VStr (lit "none"), VStr (lit "none"));
      (VStr (lit "go"), VStr (lit "none"), VStr (lit "none")) ].
Proof. vm_compute. reflexivity. Qed.

(** The final rows of the sample clip give two state segments. *)
Example sample_state_segments :
  exists segs,
    segment_states no_int sample_final_rows = Ok segs
    /\ map (fun s => (attr "segment_id" s, attr "start_frame" s, attr "end_frame" s,
                      attr "state" s)) segs
       = [ (VInt 0, VInt 10, VInt 10, VStr (lit "NEGOTIATE"));
           (VInt 1, VInt 11, VInt 12, VStr (lit "GO_FREE")) ].
Proof. eexists. split; vm_compute; reflexivity. Qed.

(** Frames 5 and 7 with the same labels: two segments, in both views. *)
Example gap_rows_two_segments :
  (exists segs,
     segment_clip gap_rows = Ok segs
     /\ map (fun s => (attr "start" s, attr "end" s)) segs
        = [(VInt 5, VInt 5); (VInt 7, VInt 7)])
  /\ (exists segs,
        segment_states no_int gap_rows = Ok segs
        /\ map (fun s => (attr "start_frame" s, attr "end_frame" s)) segs
           = [(VInt 5, VInt 5); (VInt 7, VInt 7)]).
Proof. split; eexists; split; vm_compute; reflexivity. Qed.

(** On a smoothed table without rows the segmentation stage leaves a
    header-only table and raises nothing. *)
Example segment_main_on_empty_tables :
  exists s',
    segment_main no_int empty_tables = (Ok tt, s')
    /\ s' !! SEGMENTS_FILENAME
       = Some {| fieldnames := segment_fieldnames; records := [] |}.
Proof.
  eexists. split.
  - apply (segment_main_empty no_int empty_tables {| fieldnames := []; records := [] |});
      reflexivity.
  - apply lookup_insert_eq.
Qed.

(* ================================================================== *)
(** * Part IV: further properties of the code                          *)
(* ================================================================== *)

(** ** The classifier and the planner table, case by case *)

(** Every way [map_world_to_state] can return, with what it tells about the
    stripped inputs. *)
Lemma map_world_to_state_cases a y l :
  let A := strip a in
  let Y := strip y in
  let L := strip l in
  let r := map_world_to_state a y l in
  (Y = lit "ped" /\ A = lit "stop" /\ r = lit "STOP_PED")
  \/ (Y = lit "ped" /\ A <> lit "stop" /\ r = lit "YIELD_PED")
  \/ (Y = lit "lead" /\ L = lit "stopped" /\ A = lit "stop" /\ r = lit "STOP_LEAD")
  \/ (Y = lit "lead" /\ L = lit "stopped" /\ A <> lit "stop" /\ r = lit "FOLLOW_QUEUE")
  \/ (Y = lit "lead" /\ L <> lit "stopped" /\ A = lit "go" /\ r = lit "GO_FOLLOW")
  \/ (Y = lit "lead" /\ L <> lit "stopped" /\ A <> lit "go" /\ r = lit "FOLLOW_QUEUE")
  \/ (Y = lit "none" /\ A = lit "go" /\ (L = lit "none" \/ L = lit "") /\ r = lit "GO_FREE")
  \/ (Y = lit "none" /\ A = lit "go" /\ L <> lit "none" /\ L <> lit "" /\ r = lit "GO")
  \/ (Y = lit "none" /\ A = lit "wait" /\ r = lit "NEGOTIATE")
  \/ (Y <> lit "ped" /\ Y <> lit "lead"
      /\ ~ (Y = lit "none" /\ (A = lit "go" \/ A = lit "wait"))
      /\ r = lit "UNKNOWN").
Proof.
  cbv zeta. unfold map_world_to_state.
  repeat match goal with
         | |- context [ ?x == ?y ] =>
             let E := fresh "E" in
             destruct (x == y) eqn:E;
             [apply str_eqb_eq in E | apply str_eqb_neq in E]
         end;
    cbv beta iota; cbn [andb orb]; cbv beta iota;
    try (rewrite E in *; try discriminate);
    tauto.
Qed.

(** Closing a case whose equations between literals cannot hold, or whose
    conclusion they decide. *)
Ltac literal_case :=
  repeat match goal with
         | H : ?x = lit _ |- _ => rewrite H in *; clear H
         end;
  try solve [ vm_compute in *; intuition (try discriminate; try congruence) ].

(** X1: the planner command of a classified triple is GO exactly when the
    stripped affordance is "go" and the stripped yield_to is "none", or is
    "lead" with a lead_state other than "stopped"; never with a pedestrian. *)
Theorem planner_go_iff :
  forall a y l : pystr,
    attr "planner_cmd" (map_state_to_planner (map_world_to_state a y l)) = VStr (lit "GO")
    <-> strip a = lit "go"
        /\ (strip y = lit "none"
            \/ (strip y = lit "lead" /\ strip l <> lit "stopped")).
Proof.
  intros a y l.
  pose proof (map_world_to_state_cases a y l) as H. cbv zeta in H.
  destruct H as [H|[H|[H|[H|[H|[H|[H|[H|[H|H]]]]]]]]];
    repeat match type of H with _ /\ _ => let H' := fresh "H" in destruct H as [H' H] end;
    rewrite H; clear H.
  all: split; [intros Hcmd; vm_compute in Hcmd | intros (Ha & Hy)].
  all: try discriminate Hcmd.
  all: try solve [repeat split; auto].
  all: try (exfalso; destruct Hy as [Hy | [Hy Hl]]).
  all: try solve [literal_case].
  all: try solve [vm_compute; reflexivity].
  all: try solve [exfalso; destruct Hy as [Hy | [Hy Hl]]; literal_case; tauto].
Qed.

(** X2: pedestrians dominate. When the stripped yield_to is "ped", whatever
    the lead_state, the planner record is STOP / pedestrian_blocking for a
    stripped affordance "stop" and WAIT / pedestrian_in_path otherwise, in
    both cases with target "ped" until "ped_clears". *)
Theorem pedestrian_dominates_planner :
  forall a y l : pystr,
    strip y = lit "ped" ->
    map_state_to_planner (map_world_to_state a y l)
    = if strip a == lit "stop"
      then planner_record "STOP" "pedestrian_blocking" "ped" "ped_clears"
      else planner_record "WAIT" "pedestrian_in_path" "ped" "ped_clears".
Proof.
  intros a y l Hy. unfold map_world_to_state. rewrite Hy.
  change (lit "ped" == lit "ped") with true. cbv beta iota.
  destruct (strip a == lit "stop"); vm_compute; reflexivity.
Qed.

Lemma pedestrian_dominates_planner_witness :
  strip (lit " ped") = lit "ped"
  /\ map_state_to_planner (map_world_to_state (lit "go") (lit " ped") (lit "moving"))
     = planner_record "WAIT" "pedestrian_in_path" "ped" "ped_clears".
Proof.
  assert (H : strip (lit " ped") = lit "ped") by (vm_compute; reflexivity).
  split; [exact H|].
  rewrite (pedestrian_dominates_planner (lit "go") (lit " ped") (lit "moving") H).
  vm_compute. reflexivity.
Defined.

(** X3: a triple is unclassifiable (UNKNOWN, planned as WAIT / unknown_state)
    exactly when its stripped yield_to is neither "ped" nor "lead" and it is
    not the case that the yield_to is "none" with affordance "go" or "wait".
    So "stop" with yield_to "none" is UNKNOWN, and so is every triple with an
    empty yield_to. *)
Theorem unknown_iff :
  forall a y l : pystr,
    (map_world_to_state a y l = lit "UNKNOWN"
     <-> strip y <> lit "ped" /\ strip y <> lit "lead"
         /\ ~ (strip y = lit "none" /\ (strip a = lit "go" \/ strip a = lit "wait")))
    /\ map_state_to_planner (lit "UNKNOWN")
       = planner_record "WAIT" "unknown_state" "" "state_resolved".
Proof.
  intros a y l. split.
  - pose proof (map_world_to_state_cases a y l) as H. cbv zeta in H.
    destruct H as [H|[H|[H|[H|[H|[H|[H|[H|[H|H]]]]]]]]];
      repeat match type of H with _ /\ _ => let H' := fresh "H" in destruct H as [H' H] end;
      rewrite H; clear H.
    all: split; [intros Hr; try (vm_compute in Hr; discriminate Hr) | intros (Hp & Hl & Hn)].
    all: try solve [repeat split; auto].
    all: try reflexivity.
    all: try solve [exfalso; tauto].
    all: try solve [exfalso; literal_case; tauto].
  - vm_compute. reflexivity.
Qed.

(** ** The phase label against the state *)

(** Every way [infer_phase] can return on a segment that carries three
    string labels. *)
Lemma infer_phase_cases seg a y l :
  dict_get seg (lit "affordance") = Some (VStr a) ->
  dict_get seg (lit "yield_to") = Some (VStr y) ->
  dict_get seg (lit "lead_state") = Some (VStr l) ->
  exists p, infer_phase seg = Ok p
    /\ ((a = lit "stop" /\ y = lit "ped" /\ p = lit "STOP for pedestrian")
        \/ (a = lit "stop" /\ y <> lit "ped" /\ y = lit "lead" /\ p = lit "STOP behind vehicle")
        \/ (a = lit "stop" /\ y <> lit "ped" /\ y <> lit "lead" /\ p = lit "STOP")
        \/ (a = lit "wait" /\ y = lit "ped" /\ p = lit "YIELD to pedestrian")
        \/ (a = lit "wait" /\ y <> lit "ped" /\ y = lit "lead" /\ p = lit "FOLLOW / queue")
        \/ (a = lit "wait" /\ y <> lit "ped" /\ y <> lit "lead" /\ p = lit "WAIT")
        \/ (a = lit "go" /\ y = lit "lead" /\ l = lit "moving" /\ p = lit "FOLLOW moving lead")
        \/ (a = lit "go" /\ ~ (y = lit "lead" /\ l = lit "moving") /\ p = lit "GO")
        \/ (a <> lit "stop" /\ a <> lit "wait" /\ a <> lit "go" /\ p = lit "UNKNOWN")).
Proof.
  intros Ha Hy Hl. unfold infer_phase, getitem. rewrite Ha, Hy, Hl.
  cbn [mbind result_bind].
  repeat match goal with
         | |- context [ bool_decide (VStr ?x = VStr ?z) ] =>
             let E := fresh "E" in
             destruct (bool_decide_reflect (VStr x = VStr z)) as [E|E];
             [assert (x = z) by congruence; clear E
             |assert (x <> z) by congruence; clear E]
         end;
    cbv beta iota; cbn [andb]; cbv beta iota;
    eexists; (split; [reflexivity|]); tauto.
Qed.

(** X4: on a segment with string labels without surrounding white space the
    narration label and the symbolic state agree on pedestrians stops, on
    yields and on following a moving lead, and the planner says GO only
    under the labels "GO" and "FOLLOW moving lead". They part on a "go" with
    yield_to "ped": the label is "GO" while the state is YIELD_PED, because
    [infer_phase] lets the affordance decide first and [map_world_to_state]
    the pedestrian. *)
Theorem phase_and_state_agreement :
  forall (seg : dict) (a y l : pystr),
    dict_get seg (lit "affordance") = Some (VStr a) ->
    dict_get seg (lit "yield_to") = Some (VStr y) ->
    dict_get seg (lit "lead_state") = Some (VStr l) ->
    trimmed a -> trimmed y -> trimmed l ->
    exists p, infer_phase seg = Ok p
      /\ (p = lit "STOP for pedestrian" <-> map_world_to_state a y l = lit "STOP_PED")
      /\ (p = lit "YIELD to pedestrian" -> map_world_to_state a y l = lit "YIELD_PED")
      /\ (p = lit "FOLLOW moving lead" -> map_world_to_state a y l = lit "GO_FOLLOW")
      /\ (attr "planner_cmd" (map_state_to_planner (map_world_to_state a y l))
          = VStr (lit "GO") ->
          p = lit "GO" \/ p = lit "FOLLOW moving lead")
      /\ (a = lit "go" -> y = lit "ped" ->
          p = lit "GO" /\ map_world_to_state a y l = lit "YIELD_PED").
Proof.
  intros seg a y l Ha Hy Hl Ta Ty Tl.
  destruct (infer_phase_cases seg a y l Ha Hy Hl) as (p & Hp & Hcases).
  exists p. split; [exact Hp|]. clear Hp Ha Hy Hl seg.
  pose proof (map_world_to_state_cases a y l) as H. cbv zeta in H.
  unfold trimmed in Ta, Ty, Tl. rewrite Ta, Ty, Tl in H. clear Ta Ty Tl.
  destruct H as [H|[H|[H|[H|[H|[H|[H|[H|[H|H]]]]]]]]];
    repeat match type of H with _ /\ _ => let H' := fresh "H" in destruct H as [H' H] end;
    rewrite H; clear H;
    destruct Hcases as [C|[C|[C|[C|[C|[C|[C|[C|C]]]]]]]];
    repeat match type of C with _ /\ _ => let C' := fresh "C" in destruct C as [C' C] end;
    subst p;
    try solve [exfalso; literal_case; tauto].
  all: repeat split; intros;
    try solve [exfalso; literal_case; tauto];
    try solve [vm_compute in *; intuition (try discriminate; try congruence)];
    try solve [literal_case; tauto].
Qed.

(** ** The re-injector, further *)

Section ReinjectorMore.

Variable int_of_str : pystr -> option Z.

(** What a successful run on smoothed frames leaves at each listed object. *)
Lemma reinject_run_lookup raw_map rows (h : heap) ds h' :
  rows_at h rows ds -> Forall smoothed_frame ds -> raw_map_ok raw_map ->
  reinject_go_short int_of_str raw_map rows h = Ok (rows, h') ->
  forall i r d, rows !! i = Some r -> ds !! i = Some d ->
    h' !! r = Some (reinjected int_of_str raw_map d).
Proof.
  intros Hrows Hds Hraw Hrun i r d Hr Hd.
  destruct (reinject_loop int_of_str raw_map Hraw rows h) as (h2 & Hrun2 & _ & Hin & _).
  { intros x Hx. destruct (rows_at_in _ _ _ _ Hrows Hx) as (dx & Hdx & Hdin).
    exists dx. split; [exact Hdx|]. apply smoothed_frame_readable.
    rewrite Forall_forall in Hds. apply Hds, list_elem_of_In, Hdin. }
  unfold reinject_go_short in Hrun. rewrite Hrun2 in Hrun. inversion Hrun; subst h2.
  rewrite (Hin r) by (apply list_elem_of_In; eapply list_elem_of_lookup_2, Hr).
  rewrite (Forall2_lookup_lr _ _ _ _ _ _ Hrows Hr Hd). reflexivity.
Qed.

(** The final triple of a smoothed frame, as strings. *)
Lemma smoothed_frame_final raw_map d :
  smoothed_frame d ->
  exists c z a y l,
    attr "clip" d = VStr c /\ attr "frame_index" d = VInt z
    /\ smoothed_triple d = (VStr a, VStr y, VStr l)
    /\ trimmed a /\ trimmed y /\ trimmed l
    /\ final_triple (reinjected int_of_str raw_map d) = final_of (raw_map !! (c, z)) a y l.
Proof.
  intros ((c & Hc & Tc) & (z & Hz) & (a & Ha & Ta) & (y & Hy & Ty) & (l & Hl & Tl)).
  destruct (reinjected_final int_of_str raw_map d c z a y l Hc Tc Hz Ha Ta Hy Ty Hl Tl)
    as [Hsm Hfin].
  exists c, z, a, y, l. unfold attr, get_or. rewrite Hc, Hz. auto 10.
Qed.

(** X5: a raw "go" is never lost. If the raw record of a smoothed frame has
    affordance "go" and neither the raw nor the smoothed yield_to is "ped",
    the final affordance of the frame is "go", whatever smoothing made of
    it. *)
Theorem raw_go_is_kept :
  forall (raw_map : gmap (pystr * Z) dict) (rows : list loc) (h : heap) (ds : list dict) h',
    rows_at h rows ds -> Forall smoothed_frame ds -> raw_map_ok raw_map ->
    reinject_go_short int_of_str raw_map rows h = Ok (rows, h') ->
    forall i r d c z raw,
      rows !! i = Some r -> ds !! i = Some d ->
      attr "clip" d = VStr c -> attr "frame_index" d = VInt z ->
      raw_map !! (c, z) = Some raw ->
      attr "affordance" raw = VStr (lit "go") ->
      attr "yield_to" raw <> VStr (lit "ped") ->
      attr "yield_to_smoothed" d <> VStr (lit "ped") ->
      exists f, h' !! r = Some f /\ attr "affordance_final" f = VStr (lit "go").
Proof.
  intros raw_map rows h ds h' Hrows Hds Hraw Hrun i r d c z raw Hr Hd Hc Hz Hlook Hgo Hyr Hys.
  exists (reinjected int_of_str raw_map d).
  split; [eapply reinject_run_lookup; eassumption|].
  assert (Hsf : smoothed_frame d).
  { rewrite Forall_forall in Hds. eapply Hds, list_elem_of_lookup_2, Hd. }
  destruct (smoothed_frame_final raw_map d Hsf)
    as (c' & z' & a & y & l & Hc' & Hz' & Hsm & _ & _ & _ & Hfin).
  assert (c' = c) as -> by congruence. assert (z' = z) as -> by congruence.
  assert (Hy : attr "yield_to_smoothed" d = VStr y).
  { unfold smoothed_triple in Hsm. congruence. }
  assert (Ha : attr "affordance_final" (reinjected int_of_str raw_map d)
               = (final_of (raw_map !! (c, z)) a y l).1.1).
  { rewrite <- Hfin. reflexivity. }
  rewrite Ha, Hlook. unfold final_of.
  destruct (go_reinjects raw a y) eqn:G.
  - simpl. exact Hgo.
  - simpl. unfold go_reinjects in G.
    rewrite (bool_decide_eq_true_2 _ Hgo) in G.
    rewrite (bool_decide_eq_false_2 _ Hyr) in G.
    assert (Hyne : (y == lit "ped") = false).
    { apply str_eqb_neq. intros ->. apply Hys. exact Hy. }
    rewrite Hyne in G. simpl in G.
    rewrite !andb_true_r in G. apply negb_false_iff, str_eqb_eq in G.
    rewrite G. reflexivity.
Qed.

(** X6: a pedestrian seen by the smoother survives re-injection and decides
    the state. If the smoothed yield_to of a frame is "ped", the final triple
    is the smoothed one, the state of the frame is STOP_PED or YIELD_PED, and
    its planner command is not GO. *)
Theorem smoothed_pedestrian_decides_state :
  forall (raw_map : gmap (pystr * Z) dict) (rows : list loc) (h : heap) (ds : list dict) h',
    rows_at h rows ds -> Forall smoothed_frame ds -> raw_map_ok raw_map ->
    reinject_go_short int_of_str raw_map rows h = Ok (rows, h') ->
    forall i r d,
      rows !! i = Some r -> ds !! i = Some d ->
      attr "yield_to_smoothed" d = VStr (lit "ped") ->
      exists f, h' !! r = Some f
        /\ final_triple f = smoothed_triple d
        /\ (state_of f = lit "STOP_PED" \/ state_of f = lit "YIELD_PED")
        /\ attr "planner_cmd" (map_state_to_planner (state_of f)) <> VStr (lit "GO").
Proof.
  intros raw_map rows h ds h' Hrows Hds Hraw Hrun i r d Hr Hd Hped.
  exists (reinjected int_of_str raw_map d).
  split; [eapply reinject_run_lookup; eassumption|].
  assert (Hsf : smoothed_frame d).
  { rewrite Forall_forall in Hds. eapply Hds, list_elem_of_lookup_2, Hd. }
  destruct (smoothed_frame_final raw_map d Hsf)
    as (c & z & a & y & l & Hc & Hz & Hsm & Ta & Ty & Tl & Hfin).
  assert (Hy : y = lit "ped").
  { unfold smoothed_triple in Hsm. rewrite Hped in Hsm. congruence. }
  subst y.
  assert (Hfinal : final_of (raw_map !! (c, z)) a (lit "ped") l
                   = (VStr a, VStr (lit "ped"), VStr l)).
  { unfold final_of. destruct (raw_map !! (c, z)) as [raw|]; [|reflexivity].
    unfold go_reinjects. change (lit "ped" == lit "ped") with true.
    rewrite !andb_false_r. reflexivity. }
  rewrite Hfinal in Hfin.
  split; [congruence|].
  assert (Hstate : state_of (reinjected int_of_str raw_map d)
                   = map_world_to_state a (lit "ped") l).
  { unfold state_of. unfold final_triple in Hfin.
    inversion Hfin as [[H1 H2 H3]]. rewrite H1, H2, H3. reflexivity. }
  rewrite Hstate. unfold map_world_to_state.
  change (strip (lit "ped") == lit "ped") with true. cbv beta iota.
  destruct (strip a == lit "stop").
  - split; [left; reflexivity | vm_compute; discriminate].
  - split; [right; reflexivity | vm_compute; discriminate].
Qed.

(** X7: re-injection is idempotent: run again on the rows it has just
    rewritten, [reinject_go_short] leaves every object as it is. *)
Theorem reinject_go_short_idempotent :
  forall (raw_map : gmap (pystr * Z) dict) (rows : list loc) (h : heap) h',
    raw_map_ok raw_map ->
    (forall r, In r rows -> exists d, h !! r = Some d /\ readable int_of_str d) ->
    reinject_go_short int_of_str raw_map rows h = Ok (rows, h') ->
    reinject_go_short int_of_str raw_map rows h' = Ok (rows, h').
Proof.
  intros raw_map rows h h' Hraw Hrows Hrun.
  destruct (reinject_loop int_of_str raw_map Hraw rows h Hrows)
    as (h1 & Hrun1 & Hlen1 & Hin1 & Hout1).
  unfold reinject_go_short in Hrun. rewrite Hrun1 in Hrun. inversion Hrun; subst h1.
  destruct (reinject_loop int_of_str raw_map Hraw rows h')
    as (h2 & Hrun2 & Hlen2 & Hin2 & Hout2).
  { intros r Hr. destruct (Hrows r Hr) as (d & Hd & Hread).
    exists (reinjected int_of_str raw_map d). split.
    - rewrite (Hin1 r Hr), Hd. reflexivity.
    - apply reinjected_readable, Hread. }
  unfold reinject_go_short. rewrite Hrun2. do 2 f_equal.
  apply list_eq. intros r.
  destruct (in_dec Nat.eq_dec r rows) as [Hr|Hr].
  - rewrite (Hin2 r Hr), (Hin1 r Hr).
    destruct (Hrows r Hr) as (d & Hd & _). rewrite Hd. simpl.
    rewrite reinjected_idem. reflexivity.
  - apply Hout2, Hr.
Qed.

End ReinjectorMore.

(** ** The loaders *)

Section Loaders.

Variable int_of_str : pystr -> option Z.

(** One turn of the loop of [load_raw_world]. *)
Lemma load_raw_loop_cons row rest raw :
  load_raw_loop int_of_str (row :: rest) raw
  = e ← raw_entry int_of_str row;
    load_raw_loop int_of_str rest (<[e.1 := e.2]> raw).
Proof.
  cbn [load_raw_loop]. unfold raw_entry.
  destruct (getitem row (lit "clip") ≫= py_strip) as [c|]; [|reflexivity].
  cbn [mbind result_bind].
  destruct (getitem row (lit "frame_index") ≫= py_int int_of_str) as [z|]; [|reflexivity].
  cbn [mbind result_bind].
  destruct (getitem row (lit "affordance") ≫= py_strip) as [a|]; [|reflexivity].
  cbn [mbind result_bind].
  destruct (getitem row (lit "yield_to") ≫= py_strip) as [y|]; [|reflexivity].
  cbn [mbind result_bind].
  destruct (getitem row (lit "lead_state") ≫= py_strip) as [l|]; reflexivity.
Qed.

Lemma load_raw_loop_app rows1 : forall rows2 raw,
  load_raw_loop int_of_str (rows1 ++ rows2) raw
  = m ← load_raw_loop int_of_str rows1 raw; load_raw_loop int_of_str rows2 m.
Proof.
  induction rows1 as [|row rest IH]; intros rows2 raw; [reflexivity|].
  rewrite <- app_comm_cons, !load_raw_loop_cons.
  destruct (raw_entry int_of_str row) as [e|]; [|reflexivity].
  cbn [mbind result_bind]. apply IH.
Qed.

Lemma getitem_strip_trimmed row k s :
  getitem row k ≫= py_strip = Ok s -> trimmed s.
Proof.
  destruct (getitem row k) as [v|]; [|discriminate].
  cbn [mbind result_bind]. destruct v; try discriminate.
  intros H. inversion H. apply strip_trimmed.
Qed.

Lemma raw_entry_stored row e :
  raw_entry int_of_str row = Ok e -> trimmed e.1.1 /\ stored_raw e.2.
Proof.
  unfold raw_entry.
  destruct (getitem row (lit "clip") ≫= py_strip) as [c|] eqn:Ec; [|discriminate].
  cbn [mbind result_bind].
  destruct (getitem row (lit "frame_index") ≫= py_int int_of_str) as [z|]; [|discriminate].
  cbn [mbind result_bind].
  destruct (getitem row (lit "affordance") ≫= py_strip) as [a|] eqn:Ea; [|discriminate].
  cbn [mbind result_bind].
  destruct (getitem row (lit "yield_to") ≫= py_strip) as [y|] eqn:Ey; [|discriminate].
  cbn [mbind result_bind].
  destruct (getitem row (lit "lead_state") ≫= py_strip) as [l|] eqn:El; [|discriminate].
  cbn [mbind result_bind mret result_ret]. intros H. inversion H; subst e. simpl.
  split; [eapply getitem_strip_trimmed, Ec|].
  exists a, y, l. split; [reflexivity|].
  split; [eapply getitem_strip_trimmed, Ea|].
  split; eapply getitem_strip_trimmed; eassumption.
Qed.

Lemma stored_raw_row raw : stored_raw raw -> raw_row raw.
Proof.
  intros (a & y & l & -> & _). repeat split; vm_compute; discriminate.
Qed.

Lemma load_raw_loop_stored rows : forall raw m,
  (forall k r, raw !! k = Some r -> trimmed k.1 /\ stored_raw r) ->
  load_raw_loop int_of_str rows raw = Ok m ->
  forall k r, m !! k = Some r -> trimmed k.1 /\ stored_raw r.
Proof.
  induction rows as [|row rest IH]; intros raw m Hraw Hload.
  - inversion Hload; subst. exact Hraw.
  - rewrite load_raw_loop_cons in Hload.
    destruct (raw_entry int_of_str row) as [e|] eqn:Ee; [|discriminate].
    cbn [mbind result_bind] in Hload.
    apply (IH (<[e.1 := e.2]> raw) m); [|exact Hload].
    intros k r H.
    destruct (decide (e.1 = k)) as [<-|Hne].
    + rewrite lookup_insert_eq in H. inversion H; subst r.
      apply (raw_entry_stored row e Ee).
    + rewrite lookup_insert_ne in H by exact Hne. apply (Hraw k r H).
Qed.

(** X8: every record of a map loaded by [load_raw_world] carries exactly
    the three labels, as strings without surrounding white space, under a
    clip name without surrounding white space; so the re-injector's reads of
    a raw record never raise. *)
Theorem load_raw_world_records :
  forall (rows : list dict) (m : gmap (pystr * Z) dict),
    load_raw_loop int_of_str rows ∅ = Ok m ->
    raw_map_ok m
    /\ forall k raw, m !! k = Some raw -> trimmed k.1 /\ stored_raw raw.
Proof.
  intros rows m Hload.
  assert (H : forall k r, m !! k = Some r -> trimmed k.1 /\ stored_raw r).
  { apply (load_raw_loop_stored rows ∅ m); [|exact Hload].
    intros k r Hk. rewrite lookup_empty in Hk. discriminate. }
  split; [|exact H].
  intros k raw Hk. apply stored_raw_row, (H k raw Hk).
Qed.

(** Rows whose key is not [k] leave the record under [k] alone. *)
Lemma load_raw_loop_other rows k : forall raw m,
  (forall row e, In row rows -> raw_entry int_of_str row = Ok e -> e.1 <> k) ->
  load_raw_loop int_of_str rows raw = Ok m ->
  m !! k = raw !! k.
Proof.
  induction rows as [|row rest IH]; intros raw m Hne Hload.
  - inversion Hload. reflexivity.
  - rewrite load_raw_loop_cons in Hload.
    destruct (raw_entry int_of_str row) as [e|] eqn:Ee; [|discriminate].
    cbn [mbind result_bind] in Hload.
    rewrite (IH _ _ (fun r e' Hr => Hne r e' (or_intror Hr)) Hload).
    apply lookup_insert_ne. apply (Hne row e); [left; reflexivity | exact Ee].
Qed.

(** X9: when the raw table has several rows for one (clip, frame_index),
    the last one wins: the record stored under a key is the one derived from
    the last row with that key. *)
Theorem load_raw_world_last_wins :
  forall (pre post : list dict) (row : dict) (e : (pystr * Z) * dict)
         (m : gmap (pystr * Z) dict),
    raw_entry int_of_str row = Ok e ->
    (forall r e', In r post -> raw_entry int_of_str r = Ok e' -> e'.1 <> e.1) ->
    load_raw_loop int_of_str (pre ++ row :: post) ∅ = Ok m ->
    m !! e.1 = Some e.2.
Proof.
  intros pre post row e m He Hpost Hload.
  rewrite load_raw_loop_app in Hload.
  destruct (load_raw_loop int_of_str pre ∅) as [m1|]; [|discriminate].
  cbn [mbind result_bind] in Hload.
  rewrite load_raw_loop_cons, He in Hload. cbn [mbind result_bind] in Hload.
  rewrite (load_raw_loop_other post e.1 _ m Hpost Hload).
  apply lookup_insert_eq.
Qed.

(** X10: a row of the raw table without its "clip" column stops the load
    with [KeyError], whatever the rows after it hold; no map is returned. *)
Theorem load_raw_world_missing_clip :
  forall (pre post : list dict) (row : dict) (m1 : gmap (pystr * Z) dict),
    load_raw_loop int_of_str pre ∅ = Ok m1 ->
    dict_get row (lit "clip") = None ->
    load_raw_loop int_of_str (pre ++ row :: post) ∅ = Raise KeyError.
Proof.
  intros pre post row m1 Hpre Hclip.
  rewrite load_raw_loop_app, Hpre. cbn [mbind result_bind].
  cbn [load_raw_loop]. unfold getitem. rewrite Hclip. reflexivity.
Qed.

End Loaders.

(** ** The segment linker *)

(** [sorted] leaves a list alone whose integer keys are already in
    non-decreasing order. *)
Lemma sort_keyed_sorted {A} : forall l : list (value * A),
  Forall int_key l -> StronglySorted key_le l -> sort_keyed l = Ok l.
Proof.
  induction l as [|x t IH]; intros Hk Hs; [reflexivity|].
  inversion Hk as [|? ? Hx Ht]; subst.
  apply StronglySorted_inv in Hs as [Hst Hxt].
  cbn [sort_keyed]. rewrite (IH Ht Hst). cbn [mbind result_bind].
  destruct t as [|y t']; [reflexivity|].
  inversion Ht as [|? ? Hy _]; subst. inversion Hxt as [|? ? Hxy _]; subst.
  destruct Hx as [zx Ex]. destruct Hy as [zy Ey].
  unfold key_le in Hxy. rewrite Ex, Ey in Hxy. simpl in Hxy.
  cbn [sort_insert]. rewrite Ex, Ey. cbn [value_lt mbind result_bind].
  destruct (Z.ltb_spec zy zx); [lia | reflexivity].
Qed.

Lemma zip_map_pair {A B} (f : A -> B) (l : list A) :
  zip (map f l) l = map (fun x => (f x, x)) l.
Proof. induction l as [|x t IH]; simpl; [reflexivity | f_equal; exact IH]. Qed.

(** Sorting by an integer field a list already in non-decreasing order of
    that field. *)
Lemma sorted_by_sorted (k : string) (segs : list dict) :
  (forall s, In s segs -> exists z, dict_get s (lit k) = Some (VInt z)) ->
  StronglySorted (fun a b => (int_of (attr k a) <= int_of (attr k b))%Z) segs ->
  sorted_by (fun s => getitem s (lit k)) segs = Ok segs.
Proof.
  intros Hid Hs. unfold sorted_by.
  rewrite (mapM_result_ok _ (attr k)).
  2:{ intros s Hin. destruct (Hid s Hin) as [z Hz].
      unfold getitem, attr, get_or. rewrite Hz. reflexivity. }
  cbn [mbind result_bind]. rewrite zip_map_pair.
  rewrite sort_keyed_sorted.
  - cbn [mbind result_bind mret result_ret]. rewrite map_map. simpl.
    rewrite map_id. reflexivity.
  - apply Forall_forall. intros p Hp.
    apply list_elem_of_In, in_map_iff in Hp as (s & <- & Hin).
    destruct (Hid s Hin) as [z Hz]. exists z. unfold attr, get_or. simpl. rewrite Hz.
    reflexivity.
  - clear Hid. induction Hs as [|s t Hst IH Hall]; simpl; constructor.
    + exact IH.
    + apply Forall_forall. intros p Hp.
      apply list_elem_of_In, in_map_iff in Hp as (s' & <- & Hin).
      rewrite Forall_forall in Hall. apply (Hall s'), list_elem_of_In, Hin.
Qed.

Lemma sorted_by_segment_id (segs : list dict) :
  (forall s, In s segs -> exists z, dict_get s (lit "segment_id") = Some (VInt z)) ->
  ids_sorted segs ->
  sorted_by (fun s => getitem s (lit "segment_id")) segs = Ok segs.
Proof. apply (sorted_by_sorted "segment_id"). Qed.

(** One clip's run of the grouping loop: its segments all go to the group
    opened last. *)
Lemma group_loop_run {A} (key : A -> result value) (c : value) :
  forall (xs ys : list A) rest acc,
    ~ In c (map fst acc) ->
    (forall x, In x xs -> key x = Ok c) ->
    group_loop key (xs ++ rest) (acc ++ [(c, ys)])
    = group_loop key rest (acc ++ [(c, ys ++ xs)]).
Proof.
  induction xs as [|x t IH]; intros ys rest acc Hc Hk.
  - rewrite app_nil_r. reflexivity.
  - cbn [app group_loop]. rewrite (Hk x (or_introl eq_refl)). cbn [mbind result_bind].
    rewrite group_add_old by exact Hc.
    rewrite (IH (ys ++ [x]) rest acc Hc) by (intros y Hy; apply Hk; right; exact Hy).
    rewrite <- app_assoc. reflexivity.
Qed.

Lemma group_loop_clips {A} (key : A -> result value) :
  forall (clips acc : list (value * list A)),
    NoDup (map fst (acc ++ clips)) ->
    Forall (fun g => g.2 <> [] /\ forall x, In x g.2 -> key x = Ok g.1) clips ->
    group_loop key (concat (map snd clips)) acc = Ok (acc ++ clips).
Proof.
  induction clips as [|[c xs] rest IH]; intros acc Hnd Hall.
  - rewrite app_nil_r. reflexivity.
  - inversion Hall as [|? ? [Hne Hk] Hrest]; subst. simpl in Hne, Hk.
    destruct xs as [|x t]; [congruence|].
    assert (Hc : ~ In c (map fst acc)).
    { rewrite map_app in Hnd. apply NoDup_app in Hnd as (_ & Hd & _).
      intros Hin. apply (Hd c); [apply list_elem_of_In, Hin | simpl; left]. }
    cbn [map concat snd app group_loop].
    rewrite (Hk x (or_introl eq_refl)). cbn [mbind result_bind].
    rewrite group_add_new by exact Hc.
    rewrite (group_loop_run key c t [x] _ acc Hc)
      by (intros y Hy; apply Hk; right; exact Hy).
    replace (acc ++ [(c, [x] ++ t)]) with (acc ++ [(c, x :: t)]) by reflexivity.
    rewrite (IH (acc ++ [(c, x :: t)])).
    + rewrite <- app_assoc. reflexivity.
    + rewrite <- app_assoc. exact Hnd.
    + exact Hrest.
Qed.

Lemma enumerate_lookup {A} (l : list A) i x :
  l !! i = Some x -> enumerate l !! i = Some (Z.of_nat i, x).
Proof.
  intros H. unfold enumerate, range.
  apply lookup_zip_with_Some. exists (Z.of_nat i), x. split; [reflexivity|].
  split; [|exact H].
  rewrite list_lookup_fmap, lookup_seq_lt by (apply lookup_lt_Some in H; exact H).
  reflexivity.
Qed.

Lemma mapM_imap {A B} (f : Z * A -> result B) (g : nat -> A -> B) (l : list A) :
  (forall i x, l !! i = Some x -> f (Z.of_nat i, x) = Ok (g i x)) ->
  mapM f (enumerate l) = Ok (imap g l).
Proof.
  unfold enumerate, range.
  assert (H : forall k (l : list A),
     (forall i x, l !! i = Some x -> f (Z.of_nat (k + i), x) = Ok (g (k + i)%nat x)) ->
     mapM f (zip (map Z.of_nat (seq k (length l))) l) = Ok (imap (fun i => g (k + i)%nat) l)).
  { clear l. intros k l. revert k. induction l as [|x t IH]; intros k Hf; [reflexivity|].
    cbn [length seq map zip zip_with mapM]. rewrite imap_cons.
    specialize (Hf 0%nat x eq_refl) as Hx. rewrite Nat.add_0_r in Hx. rewrite Hx.
    cbn [mbind result_bind].
    fold (zip (map Z.of_nat (seq (S k) (length t))) t).
    rewrite (IH (S k)).
    - cbn [mbind result_bind mret result_ret]. rewrite Nat.add_0_r. do 2 f_equal.
      apply imap_ext. intros i y _. simpl. f_equal. lia.
    - intros i y Hy. replace (S k + i)%nat with (k + S i)%nat by lia.
      apply Hf. exact Hy. }
  intros Hf. apply (H 0%nat l). exact Hf.
Qed.

Lemma link_segment_ok (clip_segs : list dict) i seg :
  Forall (fun s => has_key s (lit "state")) clip_segs ->
  clip_segs !! i = Some seg ->
  link_segment clip_segs (Z.of_nat (length clip_segs)) (Z.of_nat i) seg
  = Ok (linked_segment clip_segs i seg).
Proof.
  intros Hst Hi. unfold link_segment, linked_segment, state_at.
  assert (Hlen : (i < length clip_segs)%nat) by (apply lookup_lt_Some in Hi; exact Hi).
  assert (Hread : forall j s, clip_segs !! j = Some s ->
            getitem s (lit "state") = Ok (attr "state" s)).
  { intros j s Hj. apply getitem_has_key.
    rewrite Forall_forall in Hst. apply Hst. eapply list_elem_of_lookup_2, Hj. }
  destruct i as [|j].
  - replace (0 <? Z.of_nat 0)%Z with false by reflexivity. cbn [mbind result_bind mret result_ret].
    destruct (Z.ltb_spec (Z.of_nat 0) (Z.of_nat (length clip_segs) - 1)) as [Hlt|Hge].
    + unfold py_index. replace (Z.to_nat (Z.of_nat 0 + 1)) with 1%nat by lia.
      destruct (clip_segs !! 1%nat) as [s|] eqn:E.
      * cbn [mbind result_bind]. rewrite (Hread _ _ E). reflexivity.
      * apply lookup_ge_None in E. lia.
    + rewrite (proj2 (lookup_ge_None clip_segs 1)) by lia. reflexivity.
  - replace (0 <? Z.of_nat (S j))%Z with true by (symmetry; apply Z.ltb_lt; lia).
    unfold py_index. replace (Z.to_nat (Z.of_nat (S j) - 1)) with j by lia.
    destruct (clip_segs !! j) as [p|] eqn:Ep.
    2:{ apply lookup_ge_None in Ep. lia. }
    cbn [mbind result_bind]. rewrite (Hread _ _ Ep). cbn [mbind result_bind].
    destruct (Z.ltb_spec (Z.of_nat (S j)) (Z.of_nat (length clip_segs) - 1)) as [Hlt|Hge].
    + replace (Z.to_nat (Z.of_nat (S j) + 1)) with (S (S j)) by lia.
      destruct (clip_segs !! S (S j)) as [s|] eqn:E.
      * cbn [mbind result_bind]. rewrite (Hread _ _ E). reflexivity.
      * apply lookup_ge_None in E. lia.
    + rewrite (proj2 (lookup_ge_None clip_segs (S (S j)))) by lia. reflexivity.
Qed.

Lemma link_clip_ok (c : value) (clip_segs : list dict) :
  Forall (clip_segment c) clip_segs -> ids_sorted clip_segs ->
  (clip_segs ← sorted_by (fun s => getitem s (lit "segment_id")) clip_segs;
   let n := Z.of_nat (length clip_segs) in
   mapM (fun p => link_segment clip_segs n p.1 p.2) (enumerate clip_segs))
  = Ok (linked_clip clip_segs).
Proof.
  intros Hall Hs. rewrite Forall_forall in Hall.
  rewrite sorted_by_segment_id; [|intros s Hin; apply (Hall s), list_elem_of_In, Hin|exact Hs].
  cbn [mbind result_bind]. cbv zeta.
  apply mapM_imap. intros i x Hi. cbn [fst snd].
  apply link_segment_ok; [|exact Hi].
  apply Forall_forall. intros s Hin. apply (Hall s Hin).
Qed.

(** [add_prev_next] on segments that arrive clip after clip. *)
Lemma add_prev_next_clips (clips : list (value * list dict)) :
  NoDup (map fst clips) ->
  Forall (fun g => g.2 <> [] /\ Forall (clip_segment g.1) g.2 /\ ids_sorted g.2) clips ->
  add_prev_next (concat (map snd clips))
  = Ok (concat (map (fun g => linked_clip g.2) clips)).
Proof.
  intros Hnd Hall. unfold add_prev_next, group_by.
  rewrite (group_loop_clips _ clips [] Hnd).
  2:{ eapply Forall_impl; [exact Hall|]. intros g (Hne & Hseg & _). split; [exact Hne|].
      intros x Hx. rewrite Forall_forall in Hseg.
      destruct (Hseg x (proj2 (list_elem_of_In _ _) Hx)) as (Hc & _).
      unfold getitem. rewrite Hc. reflexivity. }
  cbn [app mbind result_bind].
  rewrite (mapM_result_ok _ (fun g => linked_clip g.2)).
  - reflexivity.
  - intros g Hg. rewrite Forall_forall in Hall.
    destruct (Hall g (proj2 (list_elem_of_In _ _) Hg)) as (_ & Hseg & Hs).
    apply (link_clip_ok g.1 g.2 Hseg Hs).
Qed.

(** The fields of a segment other than the two links are as before. *)
Lemma linked_segment_keeps clip_segs i seg k :
  k <> lit "prev_state" -> k <> lit "next_state" ->
  dict_get (linked_segment clip_segs i seg) k = dict_get seg k.
Proof.
  intros H1 H2. unfold linked_segment.
  rewrite !dict_get_set_ne by congruence. reflexivity.
Qed.

Lemma linked_segment_prev clip_segs i seg :
  attr "prev_state" (linked_segment clip_segs i seg)
  = state_at clip_segs (match i with O => None | S j => Some j end).
Proof.
  unfold linked_segment, attr, get_or.
  rewrite dict_get_set_ne by (vm_compute; congruence).
  rewrite dict_get_set_eq. reflexivity.
Qed.

Lemma linked_segment_next clip_segs i seg :
  attr "next_state" (linked_segment clip_segs i seg) = state_at clip_segs (Some (S i)).
Proof. unfold linked_segment, attr, get_or. rewrite dict_get_set_eq. reflexivity. Qed.

(** X11: [add_prev_next] on segments that arrive clip after clip, each
    clip's with non-decreasing ids (as [segment_states] emits them), raises
    nothing and returns the segments in the order they came in; segment
    number [i] of a clip receives as prev_state the state of segment [i-1]
    of that clip and as next_state the state of segment [i+1] of that clip,
    the empty string at the two ends of the clip, so that neighbours are
    never taken from another clip; its other fields are unchanged. *)
Theorem add_prev_next_links :
  forall clips : list (value * list dict),
    NoDup (map fst clips) ->
    Forall (fun g => g.2 <> [] /\ Forall (clip_segment g.1) g.2 /\ ids_sorted g.2) clips ->
    exists out : list (list dict),
      add_prev_next (concat (map snd clips)) = Ok (concat out)
      /\ Forall2 (fun g o =>
            length o = length g.2
            /\ forall i seg, g.2 !! i = Some seg ->
                 exists seg', o !! i = Some seg'
                   /\ attr "prev_state" seg'
                      = state_at g.2 (match i with O => None | S j => Some j end)
                   /\ attr "next_state" seg' = state_at g.2 (Some (S i))
                   /\ forall k, k <> lit "prev_state" -> k <> lit "next_state" ->
                        dict_get seg' k = dict_get seg k)
           clips out.
Proof.
  intros clips Hnd Hall.
  exists (map (fun g => linked_clip g.2) clips).
  split; [apply add_prev_next_clips; assumption|].
  apply Forall2_fmap_r, Forall_Forall2_diag, Forall_forall.
  intros g _. unfold linked_clip. split; [apply length_imap|].
  intros i seg Hi. exists (linked_segment g.2 i seg).
  split; [rewrite list_lookup_imap, Hi; reflexivity|].
  split; [apply linked_segment_prev|].
  split; [apply linked_segment_next|].
  intros k H1 H2. apply linked_segment_keeps; assumption.
Qed.

(** ** The stages of the builder, one after the other *)

Lemma StronglySorted_unmap {A B} (f : A -> B) (R : B -> B -> Prop) (l : list A) :
  StronglySorted R (map f l) -> StronglySorted (fun a b => R (f a) (f b)) l.
Proof.
  induction l as [|x t IH]; simpl; intros H; [constructor|].
  apply StronglySorted_inv in H as [Ht Hx].
  constructor; [apply IH, Ht|].
  apply Forall_forall. intros y Hy. rewrite Forall_forall in Hx.
  apply Hx, list_elem_of_In, in_map, list_elem_of_In, Hy.
Qed.

Lemma seq_offsets_sorted (k : Z) (n : nat) :
  StronglySorted Z.le (map (fun i => (k + Z.of_nat i)%Z) (seq 0 n)).
Proof.
  generalize 0%nat. induction n as [|n IH]; intros a; simpl; constructor.
  - apply IH.
  - apply Forall_forall. intros z Hz.
    apply list_elem_of_In, in_map_iff in Hz as (i & <- & Hi). apply in_seq in Hi. lia.
Qed.

Section BuilderStages.

Variable int_of_str : pystr -> option Z.

(** Reading the rows back after the re-injector ran on the loaded rows. *)
Lemma read_back (h' : heap) (f : dict -> dict) : forall (l : list dict) (k : nat),
  (forall i x, l !! i = Some x -> h' !! (k + i)%nat = Some (f x)) ->
  mapM (fun r => match h' !! r with Some d => Ok d | None => Raise InvalidRef end)
       (seq k (length l))
  = Ok (map f l).
Proof.
  induction l as [|x t IH]; intros k H; [reflexivity|].
  cbn [length seq mapM map].
  specialize (H 0%nat x eq_refl) as Hx. rewrite Nat.add_0_r in Hx. rewrite Hx.
  cbn [mbind result_bind]. rewrite (IH (S k)); [reflexivity|].
  intros i y Hy. replace (S k + i)%nat with (k + S i)%nat by lia. apply H. exact Hy.
Qed.

Lemma run_reinject_ok raw_map (rows : list dict) :
  raw_map_ok raw_map -> Forall (readable int_of_str) rows ->
  run_reinject int_of_str raw_map rows = Ok (map (reinjected int_of_str raw_map) rows).
Proof.
  intros Hraw Hread. unfold run_reinject, reinject_go_short.
  destruct (reinject_loop int_of_str raw_map Hraw (seq 0 (length rows)) rows)
    as (h' & Hrun & _ & Hin & _).
  { intros r Hr. apply in_seq in Hr.
    destruct (lookup_lt_is_Some_2 rows r) as [d Hd]; [lia|].
    exists d. split; [exact Hd|]. rewrite Forall_forall in Hread.
    eapply Hread, list_elem_of_lookup_2, Hd. }
  rewrite Hrun. cbn [mbind result_bind].
  apply read_back. intros i x Hx. simpl.
  rewrite (Hin i), Hx; [reflexivity|].
  apply in_seq. apply lookup_lt_Some in Hx. lia.
Qed.

Lemma stored_raw_triple raw :
  stored_raw raw -> exists a y l, raw_triple raw = (VStr a, VStr y, VStr l).
Proof. intros (a & y & l & -> & _). exists a, y, l. reflexivity. Qed.

(** A smoothed frame leaves the re-injector as a frame the state segmenter
    can read. *)
Lemma reinjected_final_frame raw_map d :
  raw_map_stored raw_map -> smoothed_frame d ->
  final_frame (reinjected int_of_str raw_map d)
  /\ has_key (reinjected int_of_str raw_map d) (lit "clip").
Proof.
  intros Hraw Hd.
  destruct (smoothed_frame_final int_of_str raw_map d Hd)
    as (c & z & a & y & l & Hc & Hz & _ & _ & _ & _ & Hfin).
  assert (Ht : exists a' y' l',
             final_triple (reinjected int_of_str raw_map d) = (VStr a', VStr y', VStr l')).
  { rewrite Hfin. unfold final_of. destruct (raw_map !! (c, z)) as [raw|] eqn:E; [|eauto].
    destruct (go_reinjects raw a y); [|eauto].
    apply stored_raw_triple, (Hraw _ _ E). }
  destruct Ht as (a' & y' & l' & Ht).
  assert (Hkeep : forall k, ~ In k final_keys ->
            dict_get (reinjected int_of_str raw_map d) k = dict_get d k).
  { intros k Hk. unfold reinjected. apply (dict_get_set_final int_of_str). exact Hk. }
  assert (Hset : forall k, In k final_keys ->
            dict_get (reinjected int_of_str raw_map d) k <> None).
  { intros k Hk. unfold reinjected.
    apply (extends_by_set_final d _). exact Hk. }
  unfold final_triple, attr, get_or in Ht.
  destruct (dict_get (reinjected int_of_str raw_map d) (lit "affordance_final")) as [va|] eqn:Ea.
  2:{ exfalso. apply (Hset (lit "affordance_final")); [vm_compute; tauto | exact Ea]. }
  destruct (dict_get (reinjected int_of_str raw_map d) (lit "yield_to_final")) as [vy|] eqn:Ey.
  2:{ exfalso. apply (Hset (lit "yield_to_final")); [vm_compute; tauto | exact Ey]. }
  destruct (dict_get (reinjected int_of_str raw_map d) (lit "lead_state_final")) as [vl|] eqn:El.
  2:{ exfalso. apply (Hset (lit "lead_state_final")); [vm_compute; tauto | exact El]. }
  inversion Ht; subst va vy vl.
  destruct Hd as ((c0 & Hc0 & _) & (z0 & Hz0) & _).
  split.
  - unfold final_frame. rewrite Ea, Ey, El.
    rewrite (Hkeep (lit "frame_index")) by (vm_compute; intuition discriminate).
    rewrite Hz0. eauto 10.
  - unfold has_key. rewrite (Hkeep (lit "clip")) by (vm_compute; intuition discriminate).
    rewrite Hc0. discriminate.
Qed.


(** The segments of one clip: not empty, of that clip, with ids in
    non-decreasing order and a state each. *)
Lemma segment_states_clip_shape clip rows segs :
  Forall final_frame rows -> rows <> [] ->
  segment_states_clip int_of_str clip rows = Ok segs ->
  segs <> [] /\ Forall (clip_segment clip) segs /\ ids_sorted segs /\ Forall state_str segs.
Proof.
  intros Hok Hne Hrun.
  destruct (sorted_by_frame_index rows) as (rows' & Hs & Hp & _).
  { intros r Hr. rewrite Forall_forall in Hok.
    destruct (Hok r (proj2 (list_elem_of_In _ _) Hr)) as (_ & _ & _ & Hz). exact Hz. }
  unfold segment_states_clip in Hrun. rewrite Hs in Hrun. cbn [mbind result_bind] in Hrun.
  rewrite segment_states_loop_runs in Hrun by (eapply Permutation_Forall; eassumption).
  inversion Hrun as [Hsegs]. clear Hrun.
  destruct (runs_of_segmentation state_linked rows') as (Hcat & Hnn & _ & _).
  set (runs := runs_of state_linked rows') in *.
  destruct (state_segments_cells clip runs 0 Hnn) as [Hids _].
  cbn zeta in Hids.
  change (imap (fun i => state_segment_of clip (0 + Z.of_nat i)) runs)
    with (imap (fun i => state_segment_of clip (Z.of_nat i)) runs) in Hids.
  assert (Hshape : forall i s, imap (fun i => state_segment_of clip (Z.of_nat i)) runs !! i = Some s ->
            exists a b st va vy vl, s = state_segment clip (Z.of_nat i) a b st va vy vl).
  { intros i s Hi. rewrite list_lookup_imap in Hi.
    destruct (runs !! i) as [run|] eqn:Er; [|discriminate]. simpl in Hi. inversion Hi.
    assert (Hr : run <> []).
    { rewrite Forall_forall in Hnn. eapply Hnn, list_elem_of_lookup_2, Er. }
    destruct (span_of_run_cells run Hr) as (x & y & Hx & Hy & _).
    unfold state_segment_of. rewrite Hx, Hy. eauto 10. }
  split; [|split; [|split]].
  - intros Hnil. apply Hne. apply Permutation_nil. rewrite Hp, <- Hcat.
    destruct runs; [reflexivity | discriminate].
  - apply Forall_forall. intros s Hin. apply list_elem_of_lookup_1 in Hin as [i Hi].
    destruct (Hshape i s Hi) as (a & b & st & va & vy & vl & ->).
    split; [reflexivity|]. split; [eexists; reflexivity | vm_compute; discriminate].
  - unfold ids_sorted.
    apply (StronglySorted_unmap (fun s => int_of (attr "segment_id" s)) Z.le).
    rewrite <- (map_map (attr "segment_id") int_of), Hids, map_map. simpl.
    apply (seq_offsets_sorted 0).
  - apply Forall_forall. intros s Hin. apply list_elem_of_lookup_1 in Hin as [i Hi].
    destruct (Hshape i s Hi) as (a & b & st & va & vy & vl & ->).
    exists st. reflexivity.
Qed.

(** [segment_states] on readable rows: the segments come clip after clip,
    in the shape [add_prev_next] expects. *)
Lemma segment_states_clips (rows : list dict) :
  Forall final_frame rows ->
  Forall (fun r => has_key r (lit "clip")) rows ->
  exists clips : list (value * list dict),
    segment_states int_of_str rows = Ok (concat (map snd clips))
    /\ NoDup (map fst clips)
    /\ Forall (fun g => g.2 <> [] /\ Forall (clip_segment g.1) g.2 /\ ids_sorted g.2
                        /\ Forall state_str g.2) clips
    /\ (rows <> [] -> clips <> []).
Proof.
  intros Hok Hclip.
  destruct (segment_states_by_clip int_of_str rows Hok Hclip)
    as (by_clip & per_clip & Hrun & Hinv & Hall).
  exists (zip (map fst by_clip) per_clip).
  assert (Hlen : length (map fst by_clip) = length per_clip).
  { rewrite length_map. eapply Forall2_length, Hall. }
  rewrite snd_zip by lia. rewrite fst_zip by lia.
  split; [exact Hrun|]. split; [exact (gi_nodup _ _ _ Hinv)|]. split.
  - apply Forall_forall. intros [c segs] Hin.
    apply list_elem_of_lookup_1 in Hin as [i Hi].
    apply lookup_zip_with_Some in Hi as (c' & segs' & Heq & Hc & Hsegs).
    inversion Heq; subst c' segs'. clear Heq.
    rewrite list_lookup_fmap in Hc.
    destruct (by_clip !! i) as [[k xs]|] eqn:Eg; [|discriminate].
    simpl in Hc. inversion Hc; subst k. clear Hc.
    pose proof (Forall2_lookup_lr _ _ _ _ _ _ Hall Eg Hsegs) as Hseg. simpl in Hseg.
    destruct (gi_members _ _ _ Hinv c xs) as [Hxs Hmem].
    { apply list_elem_of_In. eapply list_elem_of_lookup_2, Eg. }
    simpl. apply (segment_states_clip_shape c xs segs); [|exact Hxs|exact Hseg].
    rewrite Hmem. apply Forall_forall. intros d Hd.
    apply list_elem_of_In, filter_In in Hd as [Hd _].
    rewrite Forall_forall in Hok. apply Hok, list_elem_of_In, Hd.
  - intros Hne Hnil. destruct rows as [|r t]; [congruence|].
    pose proof (gi_keys _ _ _ Hinv r (or_introl eq_refl)) as Hk.
    destruct by_clip as [|g gs]; [destruct Hk|].
    destruct per_clip; discriminate.
Qed.


Lemma linked_clip_states (clip_segs : list dict) :
  Forall state_str clip_segs -> Forall state_str (linked_clip clip_segs).
Proof.
  intros H. apply Forall_forall. intros o Ho.
  apply list_elem_of_lookup_1 in Ho as [i Hi]. unfold linked_clip in Hi.
  rewrite list_lookup_imap in Hi.
  destruct (clip_segs !! i) as [seg|] eqn:E; [|discriminate]. inversion Hi.
  rewrite Forall_forall in H.
  destruct (H seg (list_elem_of_lookup_2 _ _ _ E)) as [st Hst].
  exists st. rewrite linked_segment_keeps by (vm_compute; congruence). exact Hst.
Qed.

Lemma planner_rows_ok (segs : list dict) :
  Forall state_str segs ->
  mapM planner_row segs
  = Ok (map (fun s => dict_update s (map_state_to_planner (str_of (attr "state" s)))) segs).
Proof.
  intros H. apply mapM_result_ok. intros s Hs. rewrite Forall_forall in H.
  destruct (H s (proj2 (list_elem_of_In _ _) Hs)) as [st Hst].
  unfold planner_row, getitem, attr, get_or. rewrite Hst. reflexivity.
Qed.

(** The three stages after loading, on well-formed inputs. *)
Lemma builder_stages_ok raw_map (rows : list dict) :
  raw_map_stored raw_map -> Forall smoothed_frame rows ->
  exists final_rows segs linked planner_rows,
    run_reinject int_of_str raw_map rows = Ok final_rows
    /\ segment_states int_of_str final_rows = Ok segs
    /\ add_prev_next segs = Ok linked
    /\ mapM planner_row linked = Ok planner_rows
    /\ length final_rows = length rows
    /\ length planner_rows = length linked
    /\ (rows <> [] -> linked <> []).
Proof.
  intros Hraw Hrows.
  assert (Hok : raw_map_ok raw_map).
  { intros k raw Hk. apply stored_raw_row, (Hraw k raw Hk). }
  set (finals := map (reinjected int_of_str raw_map) rows).
  assert (Hfin : Forall final_frame finals
                 /\ Forall (fun r => has_key r (lit "clip")) finals).
  { split; apply Forall_forall; intros f Hf;
      apply list_elem_of_In, in_map_iff in Hf as (d & <- & Hd);
      apply (reinjected_final_frame raw_map d Hraw);
      rewrite Forall_forall in Hrows; apply Hrows, list_elem_of_In, Hd. }
  destruct Hfin as [Hff Hfc].
  destruct (segment_states_clips finals Hff Hfc) as (clips & Hseg & Hnd & Hall & Hne).
  set (linked := concat (map (fun g : value * list dict => linked_clip g.2) clips)).
  assert (Hst : Forall state_str linked).
  { apply Forall_forall. intros o Ho.
    apply list_elem_of_In, in_concat in Ho as (l & Hl & Ho).
    apply in_map_iff in Hl as (g & <- & Hg).
    rewrite Forall_forall in Hall.
    destruct (Hall g (proj2 (list_elem_of_In _ _) Hg)) as (_ & _ & _ & Hs).
    pose proof (linked_clip_states g.2 Hs) as Hl. rewrite Forall_forall in Hl.
    apply Hl, list_elem_of_In, Ho. }
  exists finals, (concat (map snd clips)), linked,
    (map (fun s => dict_update s (map_state_to_planner (str_of (attr "state" s)))) linked).
  split; [apply run_reinject_ok; [exact Hok|]|].
  { eapply Forall_impl; [exact Hrows|]. apply smoothed_frame_readable. }
  split; [exact Hseg|]. split.
  { apply add_prev_next_clips; [exact Hnd|].
    eapply Forall_impl; [exact Hall|]. intros g (H1 & H2 & H3 & _). auto. }
  split; [apply planner_rows_ok, Hst|].
  split; [apply length_map|]. split; [rewrite length_map; reflexivity|].
  intros Hrne Hnil.
  destruct clips as [|g gs].
  - apply Hne; [|reflexivity]. unfold finals. destruct rows; [congruence | discriminate].
  - inversion Hall as [|? ? (Hg & _) _]; subst.
    unfold linked, linked_clip in Hnil. cbn [map concat] in Hnil.
    apply app_eq_nil in Hnil as [Hnil _].
    destruct g.2; [congruence | discriminate].
Qed.

(** X12: [build_state_and_planner.main] on a raw table that loads and a
    smoothed table that is not empty and holds well-formed frames (a clip
    name, an integer frame index and the three smoothed labels, without
    surrounding white space): nothing is raised and the three tables are
    written, with one final row per smoothed row, at least one segment under
    the header of the state machine, and one planner row per segment; no
    other file changes. *)
Theorem build_main_writes_tables :
  forall (s : fs) (traw tsm : table) (raw_map : gmap (pystr * Z) dict) (rows : list dict),
    s !! INPUT_FILENAME = Some traw ->
    s !! OUTPUT_FILENAME = Some tsm ->
    load_raw_loop int_of_str (records traw) ∅ = Ok raw_map ->
    mapM (normalize_frame_index int_of_str) (records tsm) = Ok rows ->
    Forall smoothed_frame rows ->
    rows <> [] ->
    exists (s' : fs) (tfin tmach tplan : table),
      build_main int_of_str s = (Ok tt, s')
      /\ s' !! FINAL_FILENAME = Some tfin
      /\ s' !! MACHINE_FILENAME = Some tmach
      /\ s' !! PLANNER_FILENAME = Some tplan
      /\ length (records tfin) = length rows
      /\ fieldnames tmach = machine_fields
      /\ fieldnames tplan = planner_fields
      /\ records tmach <> []
      /\ length (records tplan) = length (records tmach)
      /\ forall path, ~ In path build_outputs -> s' !! path = s !! path.
Proof.
  intros s traw tsm raw_map rows Hraw Hsm Hload Hnorm Hrows Hne.
  assert (Hstored : raw_map_stored raw_map).
  { intros k raw Hk.
    apply (load_raw_loop_stored int_of_str (records traw) ∅ raw_map) in Hk as [_ Hk];
      [exact Hk | | exact Hload].
    intros k' r Hk'. rewrite lookup_empty in Hk'. discriminate. }
  destruct (builder_stages_ok raw_map rows Hstored Hrows)
    as (finals & segs & linked & prows & Hre & Hseg & Hlink & Hplan & Hlf & Hlp & Hln).
  specialize (Hln Hne).
  unfold build_main.
  rewrite (io_bind_ok _ _ _ _ _ (path_exists_some _ _ _ Hraw)). cbn [negb].
  rewrite (io_bind_ok _ _ _ _ _ (path_exists_some _ _ _ Hsm)). cbn [negb].
  assert (H1 : load_raw_world int_of_str INPUT_FILENAME s = (Ok raw_map, s)).
  { unfold load_raw_world.
    rewrite (io_bind_ok _ _ _ _ _ (read_rows_some _ _ _ Hraw)).
    unfold liftIO. rewrite Hload. reflexivity. }
  rewrite (io_bind_ok _ _ _ _ _ H1).
  assert (H2 : load_smoothed_world int_of_str OUTPUT_FILENAME s = (Ok rows, s)).
  { unfold load_smoothed_world.
    rewrite (io_bind_ok _ _ _ _ _ (read_rows_some _ _ _ Hsm)).
    unfold liftIO. rewrite Hnorm. reflexivity. }
  rewrite (io_bind_ok _ _ _ _ _ H2).
  rewrite (io_bind_ok _ _ s s finals) by (unfold liftIO; rewrite Hre; reflexivity).
  destruct finals as [|f0 ft].
  { destruct rows; [congruence | discriminate]. }
  set (s1 := (write_csv FINAL_FILENAME (dict_keys f0) (f0 :: ft) s).2).
  rewrite (io_bind_ok _ _ s s1 tt) by reflexivity.
  rewrite (io_bind_ok _ _ s1 s1 segs) by (unfold liftIO; rewrite Hseg; reflexivity).
  rewrite (io_bind_ok _ _ s1 s1 linked) by (unfold liftIO; rewrite Hlink; reflexivity).
  destruct linked as [|l0 lt]; [congruence|].
  set (s2 := (write_csv MACHINE_FILENAME machine_fields (l0 :: lt) s1).2).
  rewrite (io_bind_ok _ _ s1 s2 tt) by reflexivity.
  rewrite (io_bind_ok _ _ s2 s2 prows) by (unfold liftIO; rewrite Hplan; reflexivity).
  destruct prows as [|p0 pt]; [discriminate|].
  unfold write_csv in *. cbn [snd] in s1, s2.
  eexists _, _, _, _. split; [reflexivity|].
  split.
  { rewrite lookup_insert_ne by discriminate. unfold s2.
    rewrite lookup_insert_ne by discriminate. unfold s1.
    apply lookup_insert_eq. }
  split.
  { rewrite lookup_insert_ne by discriminate. unfold s2. apply lookup_insert_eq. }
  split; [apply lookup_insert_eq|].
  cbn [records fieldnames].
  split; [rewrite length_map; exact Hlf|].
  split; [reflexivity|]. split; [reflexivity|]. split; [discriminate|].
  split; [rewrite !length_map; exact Hlp|].
  intros path Hp. unfold build_outputs in Hp. simpl in Hp.
  rewrite lookup_insert_ne by (intros E; apply Hp; auto).
  unfold s2. rewrite lookup_insert_ne by (intros E; apply Hp; auto).
  unfold s1. rewrite lookup_insert_ne by (intros E; apply Hp; auto).
  reflexivity.
Qed.

End BuilderStages.

(** ** Smoothing at the clip's end and around a lone label *)

Ltac vote_cases :=
  unfold majority_vote, most_common_1, max_by_count, Counter;
  repeat (cbn [List.filter fold_left counter_incr fst snd Nat.ltb Nat.leb];
          try match goal with
              | H : truthy ?v = _ |- context [truthy ?v] => rewrite H
              | |- context [truthy ?v] => destruct (truthy v) eqn:?
              | |- context [bool_decide (?a = ?b)] =>
                  destruct (decide (a = b));
                  [rewrite bool_decide_eq_true_2 by assumption
                  |rewrite bool_decide_eq_false_2 by assumption]
              end);
  subst; try congruence; try reflexivity.

Lemma majority_vote_pair (vp vd : value) :
  truthy vp = true -> majority_vote [vp; vd] = Ok vp.
Proof. intros Hp. vote_cases. Qed.

Lemma majority_vote_triple (vp vd vq : value) :
  truthy vp = true -> vq <> vd -> majority_vote [vp; vd; vq] = Ok vp.
Proof. intros Hp Hne. vote_cases. Qed.

(** The window of a position that has a predecessor. *)
Lemma window3_after (ds : list dict) i p d :
  ds !! i = Some p -> ds !! S i = Some d ->
  window3 ds (S i)
  = match ds !! S (S i) with
    | Some q => [p; d; q]
    | None => [p; d]
    end.
Proof.
  intros Hp Hd.
  assert (Hsplit : ds = take i ds ++ p :: d :: drop (S (S i)) ds).
  { rewrite <- (take_drop_middle ds (S i) d Hd) at 1.
    rewrite (take_S_r ds i p Hp), <- app_assoc. reflexivity. }
  assert (Hi : length (take i ds) = i).
  { apply length_take_le. apply lookup_lt_Some in Hp. lia. }
  set (pre := take i ds) in *. set (rest := drop (S (S i)) ds) in *.
  clearbody pre rest. subst ds. clear Hp Hd.
  assert (Hnext : (pre ++ p :: d :: rest) !! S (S i) = rest !! 0%nat).
  { rewrite lookup_app_r by lia. replace (S (S i) - length pre)%nat with 2%nat by lia.
    reflexivity. }
  rewrite Hnext. unfold window3. cbv zeta.
  replace (S i - 1)%nat with i by lia.
  replace (drop i (pre ++ p :: d :: rest)) with (p :: d :: rest)
    by (subst i; symmetry; apply drop_app_length).
  rewrite length_app. cbn [length].
  destruct rest as [|q rest']; cbn [lookup list_lookup length].
  - replace (Nat.min (length pre + 2 - 1) (S i + 1) + 1 - i)%nat with 2%nat by lia.
    reflexivity.
  - replace (Nat.min (length pre + S (S (S (length rest'))) - 1) (S i + 1) + 1 - i)%nat
      with 3%nat by lia.
    reflexivity.
Qed.

Lemma smooth_dict_attr ds i d k ks :
  In (k, ks) smoothed_attrs ->
  attr ks (smooth_dict ds i d) = smoothed_value k (window3 ds i) d.
Proof.
  unfold smoothed_attrs, smooth_dict, attr, get_or. cbv zeta.
  intros [H|[H|[H|[]]]]; inversion H; subst k ks.
  - rewrite !(dict_get_set_ne _ _ (lit "affordance_smoothed")) by (vm_compute; congruence).
    rewrite dict_get_set_eq. reflexivity.
  - rewrite (dict_get_set_ne _ _ (lit "yield_to_smoothed")) by (vm_compute; congruence).
    rewrite dict_get_set_eq. reflexivity.
  - rewrite dict_get_set_eq. reflexivity.
Qed.

Lemma smoothed_value_after ds i p d k :
  ds !! i = Some p -> ds !! S i = Some d ->
  truthy (attr k p) = true ->
  (forall q, ds !! S (S i) = Some q -> attr k q <> attr k d) ->
  smoothed_value k (window3 ds (S i)) d = attr k p.
Proof.
  intros Hp Hd Ht Hq. rewrite (window3_after ds i p d Hp Hd). unfold smoothed_value.
  destruct (ds !! S (S i)) as [q|]; cbn [map].
  - rewrite majority_vote_triple by (auto || exact Ht). rewrite Ht. reflexivity.
  - rewrite majority_vote_pair by exact Ht. rewrite Ht. reflexivity.
Qed.

(** X13: with [window=3], a row whose label differs from the label of the
    row after it, or which is the last row of its clip, does not keep its
    label: its smoothed label is the label of the row before it, whenever
    that one is not empty. So a lone label between two others is removed,
    and the last row of a clip always takes the label of its predecessor. *)
Theorem smoothing_prefers_previous_label :
  forall (rows : list loc) (h : heap) (ds : list dict) (i : nat) (p d : dict)
         (k ks : string),
    rows_at h rows ds -> Forall raw_row ds ->
    In (k, ks) smoothed_attrs ->
    ds !! i = Some p -> ds !! S i = Some d ->
    truthy (attr k p) = true ->
    (forall q, ds !! S (S i) = Some q -> attr k q <> attr k d) ->
    exists out h' r o,
      smooth_sequence rows 3 h = Ok (out, h')
      /\ out !! S i = Some r /\ h' !! r = Some o
      /\ attr ks o = attr k p.
Proof.
  intros rows h ds i p d k ks Hrows Hraw Hk Hp Hd Ht Hq.
  assert (Hlen : length rows = length ds) by (eapply Forall2_length, Hrows).
  assert (Hlt : (S i < length ds)%nat) by (eapply lookup_lt_Some, Hd).
  exists (seq (length h) (length rows)), (h ++ smooth_all ds),
         (length h + S i)%nat, (smooth_dict ds (S i) d).
  split; [apply smooth_sequence_ok; assumption|].
  split; [apply lookup_seq; lia|]. split.
  - rewrite lookup_app_r by lia.
    replace (length h + S i - length h)%nat with (S i) by lia.
    apply smooth_all_lookup, Hd.
  - rewrite (smooth_dict_attr ds (S i) d k ks Hk).
    apply (smoothed_value_after ds i p d k Hp Hd Ht Hq).
Qed.

(** ** Overlay: looking a frame up in the segment table *)

Lemma overlay_segment_reads e z :
  overlay_segment e ->
  exists s t,
    getitem e (lit "start") = Ok (VInt s) /\ getitem e (lit "end") = Ok (VInt t)
    /\ getitem e (lit "segment_id") = Ok (attr "segment_id" e)
    /\ getitem e (lit "phase") = Ok (attr "phase" e)
    /\ (covers e z <-> (s <= z <= t)%Z).
Proof.
  intros ((s & Hs) & (t & Ht) & Hid & Hph). exists s, t.
  unfold covers, attr, get_or. unfold getitem at 1 2. rewrite Hs, Ht.
  rewrite !getitem_has_key by assumption. unfold attr, get_or. simpl. tauto.
Qed.

(** One turn of the loop of [find_segment] on a well-formed entry. *)
Lemma find_segment_loop_cons e rest z :
  overlay_segment e ->
  (covers e z /\ find_segment_loop (e :: rest) z = Ok (attr "segment_id" e, attr "phase" e))
  \/ (~ covers e z /\ find_segment_loop (e :: rest) z = find_segment_loop rest z).
Proof.
  intros He. destruct (overlay_segment_reads e z He) as (s & t & Hs & Ht & Hid & Hph & Hc).
  cbn [find_segment_loop]. rewrite Hs. cbn [mbind result_bind value_le].
  destruct (Z.leb_spec s z) as [Hsz|Hsz].
  - rewrite Ht. cbn [mbind result_bind value_le].
    destruct (Z.leb_spec z t) as [Hzt|Hzt].
    + left. rewrite Hid, Hph. split; [apply Hc; lia | reflexivity].
    + right. split; [rewrite Hc; lia | reflexivity].
  - right. cbn [mbind result_bind mret result_ret]. split; [rewrite Hc; lia | reflexivity].
Qed.

Lemma find_segment_loop_spec (segs : list dict) (z : Z) :
  Forall overlay_segment segs ->
  ((forall e, In e segs -> ~ covers e z)
   /\ find_segment_loop segs z = Ok (VInt (-1), VStr (lit "UNKNOWN")))
  \/ (exists i e,
        segs !! i = Some e /\ covers e z
        /\ (forall j e', (j < i)%nat -> segs !! j = Some e' -> ~ covers e' z)
        /\ find_segment_loop segs z = Ok (attr "segment_id" e, attr "phase" e)).
Proof.
  induction segs as [|e rest IH]; intros Hall.
  - left. split; [intros e []| reflexivity].
  - inversion Hall as [|? ? He Hrest]; subst.
    destruct (find_segment_loop_cons e rest z He) as [[Hc Hr]|[Hc Hr]].
    + right. exists 0%nat, e. split; [reflexivity|]. split; [exact Hc|].
      split; [intros j e' Hj; lia | exact Hr].
    + rewrite Hr. destruct (IH Hrest) as [[Hno Hres]|(i & e1 & Hi & Hcov & Hfirst & Hres)].
      * left. split; [|exact Hres]. intros e' [<-|Hin]; [exact Hc | apply Hno, Hin].
      * right. exists (S i), e1. split; [exact Hi|]. split; [exact Hcov|].
        split; [|exact Hres].
        intros [|j] e' Hj Hj'; [inversion Hj'; subst; exact Hc|].
        apply (Hfirst j e'); [lia | exact Hj'].
Qed.

Lemma segments_get_In segments clip segs :
  In (clip, segs) segments -> NoDup (map fst segments) ->
  segments_get segments clip = segs.
Proof.
  induction segments as [|[k xs] rest IH]; intros Hin Hnd; [destruct Hin|].
  cbn [segments_get]. simpl in Hnd. apply NoDup_cons in Hnd as [Hk Hnd].
  destruct Hin as [Heq|Hin].
  - inversion Heq; subst. rewrite bool_decide_eq_true_2 by reflexivity. reflexivity.
  - rewrite bool_decide_eq_false_2; [apply IH; assumption|].
    intros ->. apply Hk, list_elem_of_In, in_map_iff. exists (clip, segs). auto.
Qed.

Lemma segments_get_miss segments clip :
  ~ In clip (map fst segments) -> segments_get segments clip = [].
Proof.
  induction segments as [|[k xs] rest IH]; intros Hk; [reflexivity|].
  cbn [segments_get]. simpl in Hk.
  rewrite bool_decide_eq_false_2 by tauto. apply IH. tauto.
Qed.

(** X14: [find_segment] on a table of well-formed entries raises nothing.
    For a clip the table does not hold, and for a frame index that no entry
    of the clip covers, it returns (-1, "UNKNOWN"); otherwise it returns the
    id and phase of the first entry of the clip whose inclusive span
    [start, end] holds the frame index. *)
Theorem find_segment_first_cover :
  forall (segments : list (value * list dict)) (clip : pystr) (z : Z),
    NoDup (map fst segments) ->
    Forall (fun g => Forall overlay_segment g.2) segments ->
    (~ In (VStr clip) (map fst segments) ->
       find_segment clip z segments = Ok (VInt (-1), VStr (lit "UNKNOWN")))
    /\ (forall segs, In (VStr clip, segs) segments ->
          ((forall e, In e segs -> ~ covers e z)
           /\ find_segment clip z segments = Ok (VInt (-1), VStr (lit "UNKNOWN")))
          \/ (exists i e,
                segs !! i = Some e /\ covers e z
                /\ (forall j e', (j < i)%nat -> segs !! j = Some e' -> ~ covers e' z)
                /\ find_segment clip z segments
                   = Ok (attr "segment_id" e, attr "phase" e))).
Proof.
  intros segments clip z Hnd Hall. unfold find_segment. split.
  - intros Hmiss. rewrite (segments_get_miss _ _ Hmiss). reflexivity.
  - intros segs Hin. rewrite (segments_get_In _ _ _ Hin Hnd).
    apply find_segment_loop_spec.
    rewrite Forall_forall in Hall. apply (Hall (VStr clip, segs)), list_elem_of_In, Hin.
Qed.

(** ** From the segment table to the overlay *)

(** Reading back the decimal text of an integer. *)
Lemma unlit_lit (s : string) : string_of_list_ascii (map ascii_of_N (lit s)) = s.
Proof.
  unfold lit. rewrite map_map.
  rewrite (map_ext _ (fun a => a)) by (intros a; apply ascii_N_embedding).
  rewrite map_id. apply string_of_list_ascii_of_string.
Qed.

Lemma decimal_int_str_of_int (z : Z) : decimal_int (str_of_int z) = Some z.
Proof.
  unfold decimal_int, str_of_int. rewrite unlit_lit.
  rewrite DecimalString.NilZero.isi.
  - rewrite DecimalZ.of_to. reflexivity.
  - destruct z as [|p|p]; simpl; try discriminate.
    intros H. inversion H as [H1]. apply DecimalPos.Unsigned.to_uint_nonnil in H1. exact H1.
  - destruct z as [|p|p]; simpl; try discriminate.
    intros H. inversion H as [H1]. apply DecimalPos.Unsigned.to_uint_nonnil in H1. exact H1.
Qed.

Lemma phase_row_explicit clip i s e (k : value * value * value) :
  exists ph,
    phase_row clip i (phase_segment s e k)
    = Ok [ (lit "clip", clip); (lit "segment_id", VInt i);
           (lit "start", s); (lit "end", e);
           (lit "affordance", k.1.1); (lit "yield_to", k.1.2); (lit "lead_state", k.2);
           (lit "phase", VStr ph) ].
Proof.
  destruct (infer_phase_total s e k) as [ph Hph]. exists ph.
  unfold phase_row. rewrite Hph. reflexivity.
Qed.

Lemma phase_rows_shape clip : forall (runs : list (list dict)) (k : nat),
  Forall (fun r => r <> []) runs ->
  Forall (Forall phase_frame) runs ->
  exists out,
    mapM (fun p => phase_row clip p.1 p.2)
      (zip (map Z.of_nat (seq k (length runs))) (map phase_segment_of runs)) = Ok out
    /\ length out = length runs
    /\ forall i run, runs !! i = Some run ->
         exists row, out !! i = Some row /\ phase_row_of clip (Z.of_nat (k + i)) run row.
Proof.
  induction runs as [|r rs IH]; intros k Hnn Hok.
  - exists []. split; [reflexivity|]. split; [reflexivity|]. intros i run Hi. discriminate.
  - inversion Hnn as [|? ? Hr Hrs]; subst. inversion Hok as [|? ? Hfr Hfrs]; subst.
    destruct (span_of_run_cells r Hr) as (x & y & Hx & Hy & Hspan).
    assert (Hfx : phase_frame x).
    { rewrite Forall_forall in Hfr. apply Hfr. destruct r; inversion Hx; subst. left. }
    assert (Hfy : phase_frame y).
    { rewrite Forall_forall in Hfr. apply Hfr.
      apply last_Some in Hy as [l' ->]. apply list_elem_of_In, in_or_app. right. simpl. auto. }
    destruct (phase_frame_index x Hfx) as [_ Hax].
    destruct (phase_frame_index y Hfy) as [_ Hay].
    destruct (IH (S k) Hrs Hfrs) as (out & Hout & Hlen & Hrows).
    assert (Hseg : phase_segment_of r
                   = phase_segment (VInt (frame_index_of x)) (VInt (frame_index_of y))
                       (smoothed_triple x)).
    { unfold phase_segment_of. rewrite Hx, Hy, Hax, Hay. reflexivity. }
    cbn [length seq map zip zip_with mapM]. rewrite Hseg.
    destruct (phase_row_explicit clip (Z.of_nat k) (VInt (frame_index_of x))
                (VInt (frame_index_of y)) (smoothed_triple x)) as (ph & Hrow).
    cbn [fst snd]. rewrite Hrow. cbn [mbind result_bind].
    fold (zip (map Z.of_nat (seq (S k) (length rs))) (map phase_segment_of rs)).
    rewrite Hout. cbn [mbind result_bind mret result_ret].
    eexists. split; [reflexivity|]. split; [simpl; rewrite Hlen; reflexivity|].
    intros [|i] run Hi.
    + inversion Hi; subst run. eexists. split; [reflexivity|].
      rewrite Nat.add_0_r. unfold phase_row_of. rewrite Hspan. eauto 10.
    + destruct (Hrows i run Hi) as (row & Hrow' & Hshape).
      exists row. split; [exact Hrow'|].
      replace (k + S i)%nat with (S k + i)%nat by lia. exact Hshape.
Qed.

Section OverlayLookup.

Variable int_of_str : pystr -> option Z.
Hypothesis int_of_str_of_int : forall z, int_of_str (str_of_int z) = Some z.

(** A row of the segment table, written and read back by [load_segments]. *)
Lemma written_entry (c : pystr) (i : Z) (run : list dict) (row : dict) :
  phase_row_of (VStr c) i run row ->
  exists rec,
    writer_row segment_fieldnames row = Ok rec
    /\ segment_entry int_of_str rec
       = Ok (VStr c, overlay_entry i (span_of_run run).1 (span_of_run run).2 (attr "phase" row)).
Proof.
  intros (a & y & l & ph & ->).
  generalize (span_of_run run).1 (span_of_run run).2. intros s e.
  set (rec := [ (lit "clip", VStr c); (lit "segment_id", VStr (str_of_int i));
                (lit "start", VStr (str_of_int s)); (lit "end", VStr (str_of_int e));
                (lit "affordance", render a); (lit "yield_to", render y);
                (lit "lead_state", render l); (lit "phase", VStr ph) ]).
  exists rec. split; [reflexivity|].
  assert (H1 : getitem rec (lit "clip") = Ok (VStr c)) by reflexivity.
  assert (H2 : getitem rec (lit "segment_id") = Ok (VStr (str_of_int i))) by reflexivity.
  assert (H3 : getitem rec (lit "start") = Ok (VStr (str_of_int s))) by reflexivity.
  assert (H4 : getitem rec (lit "end") = Ok (VStr (str_of_int e))) by reflexivity.
  assert (H5 : getitem rec (lit "phase") = Ok (VStr ph)) by reflexivity.
  unfold segment_entry. rewrite H1, H2, H3, H4, H5.
  cbn [mbind result_bind py_int]. rewrite !int_of_str_of_int.
  reflexivity.
Qed.

Lemma load_segments_loop_clip (c : value) : forall (recs : list dict) (es acc : list dict),
  Forall2 (fun rec e => segment_entry int_of_str rec = Ok (c, e)) recs es ->
  load_segments_loop int_of_str recs [(c, acc)] = Ok [(c, acc ++ es)].
Proof.
  induction recs as [|rec rest IH]; intros es acc Hall.
  - inversion Hall; subst. rewrite app_nil_r. reflexivity.
  - inversion Hall as [|? e ? es' He Hrest]; subst.
    cbn [load_segments_loop]. rewrite He. cbn [mbind result_bind fst snd group_add].
    rewrite bool_decide_eq_true_2 by reflexivity.
    rewrite (IH es' (acc ++ [e]) Hrest), <- app_assoc. reflexivity.
Qed.

Lemma load_segments_rows_clip (c : value) (recs es : list dict) :
  recs <> [] ->
  Forall2 (fun rec e => segment_entry int_of_str rec = Ok (c, e)) recs es ->
  (forall e, In e es -> exists z, dict_get e (lit "start") = Some (VInt z)) ->
  StronglySorted (fun a b => (int_of (attr "start" a) <= int_of (attr "start" b))%Z) es ->
  load_segments_rows int_of_str recs = Ok [(c, es)].
Proof.
  intros Hne Hall Hst Hs. unfold load_segments_rows.
  destruct Hall as [|rec e rest es' He Hrest]; [congruence|].
  cbn [load_segments_loop]. rewrite He. cbn [mbind result_bind fst snd group_add].
  rewrite (load_segments_loop_clip c rest es' [e] Hrest).
  cbn [mbind result_bind mapM app fst snd].
  rewrite (sorted_by_sorted "start" (e :: es') Hst Hs). reflexivity.
Qed.


Lemma written_rows (c : pystr) : forall (out : list dict) (k : nat),
  (forall i row, out !! i = Some row ->
     exists run, phase_row_of (VStr c) (Z.of_nat (k + i)) run row) ->
  exists recs,
    mapM (writer_row segment_fieldnames) out = Ok recs
    /\ Forall2 (fun rec e => segment_entry int_of_str rec = Ok (VStr c, e)) recs
         (imap (fun i row => entry_of_row (Z.of_nat (k + i)) row) out).
Proof.
  induction out as [|row rest IH]; intros k Hshape.
  - exists []. split; [reflexivity | constructor].
  - destruct (Hshape 0%nat row eq_refl) as (run & Hrow).
    destruct (written_entry c _ run row Hrow) as (rec & Hw & He).
    destruct (IH (S k)) as (recs & Hrecs & Hall).
    { intros i r Hi. replace (S k + i)%nat with (k + S i)%nat by lia.
      apply (Hshape (S i) r Hi). }
    exists (rec :: recs). split.
    + cbn [mapM]. rewrite Hw. cbn [mbind result_bind]. rewrite Hrecs. reflexivity.
    + rewrite imap_cons. constructor.
      * rewrite He. unfold entry_of_row. destruct Hrow as (a & y & l & ph & ->). reflexivity.
      * erewrite imap_ext; [exact Hall|].
        intros i r _. simpl. f_equal. lia.
Qed.

End OverlayLookup.

Lemma StronglySorted_lookups {A} (R : A -> A -> Prop) (l : list A) :
  StronglySorted R l <->
  (forall i j x y, (i < j)%nat -> l !! i = Some x -> l !! j = Some y -> R x y).
Proof.
  split.
  - induction 1 as [|a t Hs IH Ha]; intros i j x y Hij Hi Hj; [discriminate|].
    destruct j as [|j]; [lia|]. destruct i as [|i].
    + inversion Hi; subst. rewrite Forall_forall in Ha.
      apply Ha. eapply list_elem_of_lookup_2, Hj.
    + apply (IH i j); [lia | exact Hi | exact Hj].
  - induction l as [|a t IH]; intros H; constructor.
    + apply IH. intros i j x y Hij Hi Hj. apply (H (S i) (S j)); [lia | exact Hi | exact Hj].
    + apply Forall_forall. intros y Hy. apply list_elem_of_lookup_1 in Hy as [j Hj].
      apply (H 0%nat (S j)); [lia | reflexivity | exact Hj].
Qed.

Lemma zrange_In (a b z : Z) : In z (zrange (a, b)) <-> (a <= z <= b)%Z.
Proof.
  unfold zrange. cbn [fst snd]. rewrite in_map_iff. split.
  - intros (i & <- & Hi). apply in_seq in Hi. lia.
  - intros H. exists (Z.to_nat (z - a)). split; [lia|]. apply in_seq. lia.
Qed.

(** ** Every frame of a clip finds its segment *)

Section OverlayOfClip.

Variable int_of_str : pystr -> option Z.
Hypothesis int_of_str_of_int : forall z, int_of_str (str_of_int z) = Some z.

(** The rows written for a clip, and what the overlay loads from them. *)
Lemma clip_segments_loaded (c : pystr) (rows : list dict) :
  Forall phase_frame rows -> NoDup (map frame_index_of rows) ->
  exists (runs : list (list dict)) (segs recs : list dict),
    phase_rows_of_clip (VStr c) rows = Ok segs
    /\ mapM (writer_row segment_fieldnames) segs = Ok recs
    /\ load_segments_rows int_of_str recs
       = Ok (match segs with
             | [] => []
             | _ :: _ => [(VStr c, imap (fun i row => entry_of_row (Z.of_nat i) row) segs)]
             end)
    /\ length segs = length runs
    /\ (forall i run, runs !! i = Some run ->
          exists row, segs !! i = Some row /\ phase_row_of (VStr c) (Z.of_nat i) run row)
    /\ Forall (fun p : Z * Z => (p.1 <= p.2)%Z) (map span_of_run runs)
    /\ StronglySorted Z.lt (map fst (map span_of_run runs))
    /\ Permutation (concat (map zrange (map span_of_run runs))) (map frame_index_of rows).
Proof.
  intros Hok Hnd.
  destruct (sorted_clip_rows rows) as (rows' & Hs & Hp & Hsorted); [|exact Hnd|].
  { intros r Hr. rewrite Forall_forall in Hok.
    destruct (Hok r (proj2 (list_elem_of_In _ _) Hr)) as (_ & _ & _ & Hz). exact Hz. }
  assert (Hok' : Forall phase_frame rows') by (eapply Permutation_Forall; eassumption).
  pose proof (runs_of_segmentation phase_linked rows') as Hseg.
  destruct (runs_cover phase_linked phase_linked_next _ _ Hseg) as [Hcov Hle].
  destruct Hseg as (Hcat & Hnn & Hch & Hmax).
  set (runs := runs_of phase_linked rows') in *.
  destruct (phase_rows_shape (VStr c) runs 0 Hnn) as (segs & Hsegs & Hlen & Hshape).
  { apply Forall_forall. intros run Hrun. apply Forall_forall. intros d Hd.
    rewrite Forall_forall in Hok'. apply Hok'. rewrite <- Hcat.
    apply list_elem_of_In, in_concat. exists run.
    split; apply list_elem_of_In; assumption. }
  assert (Hshape' : forall i row, segs !! i = Some row ->
            exists run, runs !! i = Some run /\ phase_row_of (VStr c) (Z.of_nat i) run row).
  { intros i row Hi.
    destruct (lookup_lt_is_Some_2 runs i) as [run Hrun].
    { rewrite <- Hlen. eapply lookup_lt_Some, Hi. }
    destruct (Hshape i run Hrun) as (row' & Hrow' & Hsh).
    rewrite Hi in Hrow'. inversion Hrow'; subst row'. exists run. auto. }
  destruct (written_rows int_of_str int_of_str_of_int c segs 0) as (recs & Hrecs & Hall).
  { intros i row Hi. destruct (Hshape' i row Hi) as (run & _ & Hsh). exists run. exact Hsh. }
  exists runs, segs, recs.
  split.
  { unfold phase_rows_of_clip. rewrite Hs. cbn [mbind result_bind].
    rewrite (segment_clip_runs rows' Hok'). cbn [mbind result_bind].
    unfold enumerate, range. rewrite length_map. exact Hsegs. }
  split; [exact Hrecs|]. split.
  { destruct segs as [|s0 st] eqn:Esegs.
    - apply Forall2_nil_inv_r in Hall. rewrite Hall. reflexivity.
    - rewrite <- Esegs in *.
      apply (load_segments_rows_clip int_of_str (VStr c) recs _).
      + intros Hnil. rewrite Hnil, Esegs in Hall. inversion Hall.
      + exact Hall.
      + intros e He. apply list_elem_of_In, list_elem_of_lookup_1 in He as [i Hi].
        rewrite list_lookup_imap in Hi.
        destruct (segs !! i) as [row|]; [|discriminate]. inversion Hi.
        eexists. reflexivity.
      + apply StronglySorted_lookups. intros i j x y Hij Hi Hj.
        rewrite list_lookup_imap in Hi, Hj.
        destruct (segs !! i) as [ri|] eqn:Ei; [|discriminate].
        destruct (segs !! j) as [rj|] eqn:Ej; [|discriminate].
        inversion Hi; subst x. inversion Hj; subst y. clear Hi Hj.
        destruct (Hshape' i ri Ei) as (runi & Hri & (ai & yi & li & phi & ->)).
        destruct (Hshape' j rj Ej) as (runj & Hrj & (aj & yj & lj & phj & ->)).
        change (((span_of_run runi).1 <= (span_of_run runj).1)%Z).
        apply Z.lt_le_incl.
        pose proof (run_starts_increasing runs Hnn) as Hinc.
        rewrite Hcat in Hinc. specialize (Hinc Hsorted).
        rewrite StronglySorted_lookups in Hinc.
        apply (Hinc i j); [exact Hij| |];
          rewrite !list_lookup_fmap; [rewrite Hri | rewrite Hrj]; reflexivity. }
  split; [exact Hlen|]. split.
  { intros i run Hrun. replace i with (0 + i)%nat by lia. apply (Hshape i run Hrun). }
  split; [exact Hle|]. split.
  - apply run_starts_increasing; [exact Hnn | rewrite Hcat; exact Hsorted].
  - rewrite Hcov. symmetry. apply Permutation_map, Hp.
Qed.


(** What the entry loaded for a written row says. *)
Lemma entry_of_row_cells (c : pystr) (i : Z) (run : list dict) (row : dict) (z : Z) :
  phase_row_of (VStr c) i run row ->
  overlay_segment (entry_of_row i row)
  /\ attr "segment_id" (entry_of_row i row) = VInt i
  /\ attr "phase" (entry_of_row i row) = attr "phase" row
  /\ attr "segment_id" row = VInt i
  /\ int_of (attr "start" row) = (span_of_run run).1
  /\ int_of (attr "end" row) = (span_of_run run).2
  /\ (covers (entry_of_row i row) z <-> ((span_of_run run).1 <= z <= (span_of_run run).2)%Z).
Proof.
  intros (a & y & l & ph & ->).
  split.
  { split; [eexists; reflexivity|]. split; [eexists; reflexivity|].
    split; vm_compute; discriminate. }
  do 5 (split; [reflexivity|]).
  unfold covers. split; intros H; exact H.
Qed.

(** X15: the segment table and the overlay fit together. From the rows the
    segmenter writes for a clip with pairwise distinct frame indices,
    written as text and loaded again by [load_segments] (for an [int] that
    reads back what [str] prints), [find_segment] returns for every frame
    of the clip the id and the phase of a written segment whose span holds
    the frame, and (-1, "UNKNOWN") for every index that is no frame of the
    clip. *)
Theorem overlay_finds_segment_of_frame :
  forall (c : pystr) (rows : list dict),
    Forall phase_frame rows -> NoDup (map frame_index_of rows) ->
    exists (segs recs : list dict) (segments : list (value * list dict)),
      phase_rows_of_clip (VStr c) rows = Ok segs
      /\ mapM (writer_row segment_fieldnames) segs = Ok recs
      /\ load_segments_rows int_of_str recs = Ok segments
      /\ (forall r, In r rows ->
            exists i seg,
              segs !! i = Some seg
              /\ attr "segment_id" seg = VInt (Z.of_nat i)
              /\ (int_of (attr "start" seg) <= frame_index_of r
                  <= int_of (attr "end" seg))%Z
              /\ find_segment c (frame_index_of r) segments
                 = Ok (VInt (Z.of_nat i), attr "phase" seg))
      /\ (forall z, ~ In z (map frame_index_of rows) ->
            find_segment c z segments = Ok (VInt (-1), VStr (lit "UNKNOWN"))).
Proof.
  intros c rows Hok Hnd.
  destruct (clip_segments_loaded c rows Hok Hnd)
    as (runs & segs & recs & Hsegs & Hrecs & Hload & Hlen & Hshape & _ & _ & Hcov).
  set (es := imap (fun i row => entry_of_row (Z.of_nat i) row) segs) in *.
  exists segs, recs, (match segs with [] => [] | _ :: _ => [(VStr c, es)] end).
  split; [exact Hsegs|]. split; [exact Hrecs|].
  split; [exact Hload|].
  assert (Hfind : forall z,
            find_segment c z
              (match segs with [] => [] | _ :: _ => [(VStr c, es)] end)
            = find_segment_loop es z).
  { intros z. unfold find_segment. destruct segs; [reflexivity|].
    cbn [segments_get]. rewrite bool_decide_eq_true_2 by reflexivity. reflexivity. }
  assert (Hentry : forall i e, es !! i = Some e ->
            exists run row, runs !! i = Some run /\ segs !! i = Some row
              /\ e = entry_of_row (Z.of_nat i) row
              /\ phase_row_of (VStr c) (Z.of_nat i) run row).
  { intros i e Hi. unfold es in Hi. rewrite list_lookup_imap in Hi.
    destruct (segs !! i) as [row|] eqn:Erow; [|discriminate]. inversion Hi.
    destruct (lookup_lt_is_Some_2 runs i) as [run Hrun].
    { rewrite <- Hlen. eapply lookup_lt_Some, Erow. }
    destruct (Hshape i run Hrun) as (row' & Hrow' & Hsh).
    rewrite Erow in Hrow'. inversion Hrow'; subst row'.
    exists run, row. auto. }
  assert (Hes : Forall overlay_segment es).
  { apply Forall_forall. intros e He. apply list_elem_of_lookup_1 in He as [i Hi].
    destruct (Hentry i e Hi) as (run & row & _ & _ & -> & Hsh).
    apply (entry_of_row_cells c _ run row 0 Hsh). }
  assert (Hin : forall z, In z (map frame_index_of rows) <->
            exists run, In run runs /\ ((span_of_run run).1 <= z <= (span_of_run run).2)%Z).
  { intros z. rewrite <- (Permutation_in' (eq_refl z) Hcov).
    rewrite in_concat. split.
    - intros (l & Hl & Hz). apply in_map_iff in Hl as (sp & <- & Hsp).
      apply in_map_iff in Hsp as (run & <- & Hrun).
      exists run. split; [exact Hrun|].
      destruct (span_of_run run) as [a b]. apply zrange_In in Hz. exact Hz.
    - intros (run & Hrun & Hz). exists (zrange (span_of_run run)). split.
      + apply in_map, in_map, Hrun.
      + destruct (span_of_run run) as [a b]. apply zrange_In. exact Hz. }
  split.
  - intros r Hr. rewrite Hfind.
    assert (Hz : In (frame_index_of r) (map frame_index_of rows)) by (apply in_map, Hr).
    apply Hin in Hz as (run & Hrun & Hz).
    destruct (find_segment_loop_spec es (frame_index_of r) Hes)
      as [[Hno _]|(i & e & Hi & Hc & _ & Hres)].
    + exfalso. apply list_elem_of_In, list_elem_of_lookup_1 in Hrun as [j Hj].
      destruct (Hshape j run Hj) as (row & Hrow & Hsh).
      apply (Hno (entry_of_row (Z.of_nat j) row)).
      * apply list_elem_of_In. apply (list_elem_of_lookup_2 _ j). unfold es.
        rewrite list_lookup_imap, Hrow. reflexivity.
      * apply (entry_of_row_cells c _ run row _ Hsh). exact Hz.
    + destruct (Hentry i e Hi) as (run' & row & _ & Hrow & -> & Hsh).
      destruct (entry_of_row_cells c _ run' row (frame_index_of r) Hsh)
        as (_ & Hid & Hph & Hrid & Hst & Hen & Hcv).
      exists i, row. split; [exact Hrow|]. split; [exact Hrid|].
      split; [rewrite Hst, Hen; apply Hcv, Hc|].
      rewrite Hres, Hid, Hph. reflexivity.
  - intros z Hz. rewrite Hfind.
    destruct (find_segment_loop_spec es z Hes) as [[_ Hres]|(i & e & Hi & Hc & _)];
      [exact Hres|].
    exfalso. apply Hz, Hin.
    destruct (Hentry i e Hi) as (run & row & Hrun & _ & -> & Hsh).
    exists run. split; [apply list_elem_of_In; eapply list_elem_of_lookup_2, Hrun|].
    apply (entry_of_row_cells c _ run row z Hsh). exact Hc.
Qed.

End OverlayOfClip.

(** ** The further properties on sample data *)

(** X4 on a "go" segment with a pedestrian to yield to: the label is "GO",
    the state YIELD_PED. *)
Lemma phase_and_state_agreement_witness :
  exists p, infer_phase go_ped_segment = Ok p
    /\ p = lit "GO"
    /\ map_world_to_state (lit "go") (lit "ped") (lit "none") = lit "YIELD_PED".
Proof.
  destruct (phase_and_state_agreement go_ped_segment (lit "go") (lit "ped") (lit "none"))
    as (p & Hp & _ & _ & _ & _ & Hpart);
    [reflexivity | reflexivity | reflexivity
    | vm_compute; reflexivity | vm_compute; reflexivity | vm_compute; reflexivity |].
  exists p. split; [exact Hp|]. apply Hpart; reflexivity.
Defined.

Lemma sample_rows_at : rows_at sample_smoothed_rows [0; 1; 2]%nat sample_smoothed_rows.
Proof. repeat constructor. Qed.

Lemma sample_reinject_final :
  reinject_go_short no_int sample_raw_map [0; 1; 2]%nat sample_smoothed_rows
  = Ok ([0; 1; 2]%nat, sample_final_rows).
Proof. vm_compute. reflexivity. Qed.

(** X5 on the sample clip: frame 11, raw "go", smoothed to "wait", ends as
    "go". *)
Lemma raw_go_is_kept_witness :
  exists f, sample_final_rows !! 1%nat = Some f
    /\ attr "affordance_final" f = VStr (lit "go").
Proof.
  apply (raw_go_is_kept no_int sample_raw_map [0; 1; 2]%nat sample_smoothed_rows
           sample_smoothed_rows sample_final_rows
           sample_rows_at sample_smoothed_frames sample_raw_map_ok sample_reinject_final
           1%nat 1%nat (smooth_dict sample_raw_rows 1 (label_row "clip1" 11 "go" "none" "none"))
           (lit "clip1") 11%Z
           [ (lit "affordance", VStr (lit "go")); (lit "yield_to", VStr (lit "none"));
             (lit "lead_state", VStr (lit "none")) ]);
    try reflexivity; vm_compute; discriminate.
Defined.

Lemma ped_smoothed_frames : Forall smoothed_frame ped_smoothed_rows.
Proof.
  apply Forall_cons_2; [|apply Forall_nil_2].
  (split; [eexists; split; [vm_compute; reflexivity | vm_compute; reflexivity]|]);
    (split; [eexists; vm_compute; reflexivity|]);
    (split; [eexists; split; [vm_compute; reflexivity | vm_compute; reflexivity]|]);
    (split; eexists; split; vm_compute; reflexivity).
Qed.

Lemma ped_reinject_final :
  reinject_go_short no_int sample_raw_map [0%nat] ped_smoothed_rows
  = Ok ([0%nat], map (reinjected no_int sample_raw_map) ped_smoothed_rows).
Proof. vm_compute. reflexivity. Qed.

(** X6 on a frame with a pedestrian: the state is YIELD_PED and the planner
    does not say GO. *)
Lemma smoothed_pedestrian_decides_state_witness :
  exists f, map (reinjected no_int sample_raw_map) ped_smoothed_rows !! 0%nat = Some f
    /\ final_triple f = (VStr (lit "go"), VStr (lit "ped"), VStr (lit "none"))
    /\ (state_of f = lit "STOP_PED" \/ state_of f = lit "YIELD_PED")
    /\ attr "planner_cmd" (map_state_to_planner (state_of f)) <> VStr (lit "GO").
Proof.
  apply (smoothed_pedestrian_decides_state no_int sample_raw_map [0%nat] ped_smoothed_rows
           ped_smoothed_rows (map (reinjected no_int sample_raw_map) ped_smoothed_rows)
           ltac:(repeat constructor) ped_smoothed_frames sample_raw_map_ok ped_reinject_final
           0%nat 0%nat
           (smooth_dict [label_row "clip1" 20 "go" "ped" "none"] 0
              (label_row "clip1" 20 "go" "ped" "none")));
    reflexivity.
Defined.

Lemma sample_rows_readable :
  forall r, In r [0; 1; 2]%nat ->
    exists d, sample_smoothed_rows !! r = Some d /\ readable no_int d.
Proof.
  intros r Hr.
  destruct (rows_at_in _ _ _ _ sample_rows_at Hr) as (d & Hd & Hin).
  exists d. split; [exact Hd|]. apply smoothed_frame_readable.
  pose proof sample_smoothed_frames as Hall. rewrite Forall_forall in Hall.
  apply Hall, list_elem_of_In, Hin.
Qed.

(** X7 on the sample clip: a second run changes nothing. *)
Lemma reinject_go_short_idempotent_witness :
  reinject_go_short no_int sample_raw_map [0; 1; 2]%nat sample_final_rows
  = Ok ([0; 1; 2]%nat, sample_final_rows).
Proof.
  exact (reinject_go_short_idempotent no_int sample_raw_map [0; 1; 2]%nat
           sample_smoothed_rows sample_final_rows
           sample_raw_map_ok sample_rows_readable sample_reinject_final).
Defined.

Lemma csv_raw_rows_load :
  exists m, load_raw_loop decimal_int csv_raw_rows ∅ = Ok m.
Proof. eexists. vm_compute. reflexivity. Qed.

(** X8 on a raw table with padded cells. *)
Lemma load_raw_world_records_witness :
  exists m,
    load_raw_loop decimal_int csv_raw_rows ∅ = Ok m
    /\ raw_map_ok m
    /\ forall k raw, m !! k = Some raw -> trimmed k.1 /\ stored_raw raw.
Proof.
  destruct csv_raw_rows_load as [m H]. exists m. split; [exact H|].
  exact (load_raw_world_records decimal_int csv_raw_rows m H).
Defined.

(** X9 on a raw table with two rows for frame 11: the later "go" row is the
    one kept, with its cells stripped. *)
Lemma load_raw_world_last_wins_witness :
  exists m,
    load_raw_loop decimal_int csv_raw_rows ∅ = Ok m
    /\ m !! (lit "clip1", 11%Z)
       = Some [ (lit "affordance", VStr (lit "go")); (lit "yield_to", VStr (lit "none"));
                (lit "lead_state", VStr (lit "none")) ].
Proof.
  destruct csv_raw_rows_load as [m H]. exists m. split; [exact H|].
  apply (load_raw_world_last_wins decimal_int
           [ csv_row "clip1" "10" " wait" "none" "none";
             csv_row "clip1" "11" "stop" "none" "none" ]
           [] (csv_row "clip1" "11" "go" "none " "none")
           ((lit "clip1", 11%Z),
            [ (lit "affordance", VStr (lit "go")); (lit "yield_to", VStr (lit "none"));
              (lit "lead_state", VStr (lit "none")) ]) m).
  - vm_compute. reflexivity.
  - intros r e' [].
  - exact H.
Defined.

(** X10 on the same table followed by a row without "clip". *)
Lemma load_raw_world_missing_clip_witness :
  load_raw_loop decimal_int
    (csv_raw_rows ++ clipless_row :: [csv_row "clip1" "13" "go" "none" "none"]) ∅
  = Raise KeyError.
Proof.
  destruct csv_raw_rows_load as [m H].
  apply (load_raw_world_missing_clip decimal_int csv_raw_rows
           [csv_row "clip1" "13" "go" "none" "none"] clipless_row m H).
  reflexivity.
Defined.

Lemma two_clips_ok :
  Forall (fun g : value * list dict =>
            g.2 <> [] /\ Forall (clip_segment g.1) g.2 /\ ids_sorted g.2) two_clips.
Proof.
  unfold two_clips.
  repeat apply Forall_cons_2; [| |apply Forall_nil_2]; cbn [fst snd].
  - split; [discriminate|]. split.
    + repeat apply Forall_cons_2; [| |apply Forall_nil_2];
        (split; [reflexivity|]; split; [eexists; reflexivity | vm_compute; discriminate]).
    + unfold ids_sorted. repeat constructor. vm_compute. discriminate.
  - split; [discriminate|]. split.
    + repeat apply Forall_cons_2; [|apply Forall_nil_2];
        (split; [reflexivity|]; split; [eexists; reflexivity | vm_compute; discriminate]).
    + unfold ids_sorted. repeat constructor.
Qed.

Lemma two_clips_nodup : NoDup (map fst two_clips).
Proof.
  unfold two_clips. cbn [map fst].
  apply NoDup_cons. split; [|apply NoDup_singleton].
  intros H. apply list_elem_of_singleton in H. vm_compute in H. discriminate.
Qed.

(** X11 on the segments of two clips: the last segment of clip1 and the
    first of clip2 are not linked to each other. *)
Lemma add_prev_next_links_witness :
  exists out : list (list dict),
    add_prev_next (concat (map snd two_clips)) = Ok (concat out)
    /\ Forall2 (fun (g : value * list dict) o =>
          length o = length g.2
          /\ forall i seg, g.2 !! i = Some seg ->
               exists seg', o !! i = Some seg'
                 /\ attr "prev_state" seg'
                    = state_at g.2 (match i with O => None | S j => Some j end)
                 /\ attr "next_state" seg' = state_at g.2 (Some (S i))
                 /\ forall k, k <> lit "prev_state" -> k <> lit "next_state" ->
                      dict_get seg' k = dict_get seg k)
         two_clips out.
Proof. exact (add_prev_next_links two_clips two_clips_nodup two_clips_ok). Defined.

(** X13 on the sample clip: the lone "go" of frame 11 is smoothed to the
    "wait" of frame 10. *)
Lemma smoothing_prefers_previous_label_witness :
  exists out h' r o,
    smooth_sequence [0; 1; 2]%nat 3 sample_raw_rows = Ok (out, h')
    /\ out !! 1%nat = Some r /\ h' !! r = Some o
    /\ attr "affordance_smoothed" o = VStr (lit "wait").
Proof.
  apply (smoothing_prefers_previous_label [0; 1; 2]%nat sample_raw_rows sample_raw_rows
           0%nat (label_row "clip1" 10 "wait" "none" "none")
           (label_row "clip1" 11 "go" "none" "none") "affordance" "affordance_smoothed").
  - repeat constructor.
  - exact sample_raw_rows_ok.
  - left. reflexivity.
  - reflexivity.
  - reflexivity.
  - reflexivity.
  - intros q Hq. inversion Hq. vm_compute. discriminate.
Defined.

Lemma sample_segments_ok :
  Forall (fun g : value * list dict => Forall overlay_segment g.2) sample_segments.
Proof.
  unfold sample_segments. apply Forall_cons_2; [|apply Forall_nil_2]. cbn [snd].
  repeat apply Forall_cons_2; [| |apply Forall_nil_2];
    (split; [eexists; reflexivity|]; split; [eexists; reflexivity|];
     split; vm_compute; discriminate).
Qed.

(** X14 on a table with the spans 0-3 and 4-9: no clip2, and frame 5 of
    clip1 either finds nothing or the first entry that covers it. *)
Lemma find_segment_first_cover_witness :
  find_segment (lit "clip2") 5 sample_segments = Ok (VInt (-1), VStr (lit "UNKNOWN"))
  /\ find_segment (lit "clip1") 5 sample_segments = Ok (VInt 1, VStr (lit "GO")).
Proof.
  destruct (find_segment_first_cover sample_segments (lit "clip2") 5) as [Hmiss _].
  { unfold sample_segments. cbn [map fst]. apply NoDup_singleton. }
  { exact sample_segments_ok. }
  split.
  - apply Hmiss. unfold sample_segments. cbn [map fst]. intros [H|[]].
    vm_compute in H. discriminate.
  - reflexivity.
Defined.

Lemma sample_tables_rows :
  exists rows,
    mapM (normalize_frame_index decimal_int)
      [ csv_smoothed_row "clip1" "10" "wait" "none" "none";
        csv_smoothed_row "clip1" "11" "wait" "none" "none";
        csv_smoothed_row "clip1" "12" "go" "none" "none" ] = Ok rows
    /\ Forall smoothed_frame rows /\ rows <> [] /\ length rows = 3%nat.
Proof.
  eexists. split; [vm_compute; reflexivity|].
  split; [|split; [discriminate | reflexivity]].
  repeat apply Forall_cons_2; [| | | apply Forall_nil_2];
    (split; [eexists; split; [vm_compute; reflexivity | vm_compute; reflexivity]|]);
    (split; [eexists; vm_compute; reflexivity|]);
    (split; [eexists; split; [vm_compute; reflexivity | vm_compute; reflexivity]|]);
    (split; eexists; split; vm_compute; reflexivity).
Qed.

(** X12 on the tables of the sample clip. *)
Lemma build_main_writes_tables_witness :
  exists (s' : fs) (tfin tmach tplan : table),
    build_main decimal_int sample_tables = (Ok tt, s')
    /\ s' !! FINAL_FILENAME = Some tfin
    /\ s' !! MACHINE_FILENAME = Some tmach
    /\ s' !! PLANNER_FILENAME = Some tplan
    /\ length (records tfin) = 3%nat
    /\ fieldnames tmach = machine_fields
    /\ fieldnames tplan = planner_fields
    /\ records tmach <> []
    /\ length (records tplan) = length (records tmach)
    /\ forall path, ~ In path build_outputs -> s' !! path = sample_tables !! path.
Proof.
  destruct csv_raw_rows_load as [m Hm].
  destruct sample_tables_rows as (rows & Hrows & Hok & Hne & Hlen).
  rewrite <- Hlen.
  exact (build_main_writes_tables decimal_int sample_tables _ _ m rows
           eq_refl eq_refl Hm Hrows Hok Hne).
Defined.

(** X15 on the sample clip, with the decimal reading of integers. *)
Lemma overlay_finds_segment_of_frame_witness :
  exists (segs recs : list dict) (segments : list (value * list dict)),
    phase_rows_of_clip (VStr (lit "clip1")) sample_smoothed_rows = Ok segs
    /\ mapM (writer_row segment_fieldnames) segs = Ok recs
    /\ load_segments_rows decimal_int recs = Ok segments
    /\ (forall r, In r sample_smoothed_rows ->
          exists i seg,
            segs !! i = Some seg
            /\ attr "segment_id" seg = VInt (Z.of_nat i)
            /\ (int_of (attr "start" seg) <= frame_index_of r
                <= int_of (attr "end" seg))%Z
            /\ find_segment (lit "clip1") (frame_index_of r) segments
               = Ok (VInt (Z.of_nat i), attr "phase" seg))
    /\ (forall z, ~ In z (map frame_index_of sample_smoothed_rows) ->
          find_segment (lit "clip1") z segments = Ok (VInt (-1), VStr (lit "UNKNOWN"))).
Proof.
  exact (overlay_finds_segment_of_frame decimal_int decimal_int_str_of_int (lit "clip1")
           sample_smoothed_rows sample_phase_frames sample_smoothed_nodup).
Defined.

(** ** The segment table as [segment_world_state.main] leaves it *)

Lemma append_record_ok (s : fs) path t row :
  s !! path = Some t ->
  append_record path row s
  = (Ok tt, <[path := {| fieldnames := fieldnames t; records := records t ++ [row] |}]> s).
Proof. intros H. unfold append_record. rewrite H. reflexivity. Qed.

Lemma writerows_ok path fields : forall (rows recs : list dict) (s : fs) (t : table),
  s !! path = Some t ->
  mapM (writer_row fields) rows = Ok recs ->
  writerows path fields rows s
  = (Ok tt, <[path := {| fieldnames := fieldnames t; records := records t ++ recs |}]> s).
Proof.
  induction rows as [|r rest IH]; intros recs s t Hs Hrecs.
  - inversion Hrecs; subst. rewrite app_nil_r. cbn [writerows].
    unfold mret, IO_ret. f_equal. symmetry. destruct t. apply insert_id. exact Hs.
  - cbn [mapM] in Hrecs.
    destruct (writer_row fields r) as [rec|] eqn:Er; [|discriminate].
    cbn [mbind result_bind] in Hrecs.
    destruct (mapM (writer_row fields) rest) as [recs'|] eqn:Erest; [|discriminate].
    inversion Hrecs; subst recs. clear Hrecs.
    cbn [writerows]. unfold writerow.
    assert (H1 : (liftIO (writer_row fields r) ≫= append_record path) s
                 = (Ok tt, <[path := {| fieldnames := fieldnames t;
                                        records := records t ++ [rec] |}]> s)).
    { rewrite (io_bind_ok _ _ s s rec) by (unfold liftIO; rewrite Er; reflexivity).
      apply append_record_ok, Hs. }
    rewrite (io_bind_ok _ _ _ _ _ H1).
    rewrite (IH recs' _ {| fieldnames := fieldnames t; records := records t ++ [rec] |})
      by (apply lookup_insert_eq || reflexivity).
    cbn [fieldnames records]. rewrite insert_insert_eq, <- app_assoc. reflexivity.
Qed.

Lemma phase_row_written clip i run row :
  phase_row_of clip i run row ->
  exists rec, writer_row segment_fieldnames row = Ok rec.
Proof. intros (a & y & l & ph & ->). eexists. reflexivity. Qed.

Lemma mapM_total {A B} (f : A -> result B) (l : list A) :
  (forall x, In x l -> exists y, f x = Ok y) ->
  exists l', mapM f l = Ok l' /\ length l' = length l.
Proof.
  induction l as [|x t IH]; intros H.
  - exists []. split; reflexivity.
  - destruct (H x (or_introl eq_refl)) as [y Hy].
    destruct IH as (t' & Ht & Hlen); [intros z Hz; apply H; right; exact Hz|].
    exists (y :: t'). cbn [mapM]. rewrite Hy. cbn [mbind result_bind]. rewrite Ht.
    split; [reflexivity | simpl; rewrite Hlen; reflexivity].
Qed.

(** The segment rows of a clip whose frames can be read are produced and
    accepted by the writer, one record per run. *)
Lemma clip_records_total (clip : value) (rows : list dict) :
  Forall phase_frame rows ->
  exists recs, clip_records (clip, rows) recs.
Proof.
  intros Hok.
  destruct (sorted_by_frame_index rows) as (rows' & Hs & Hp & _).
  { intros r Hr. rewrite Forall_forall in Hok.
    destruct (Hok r (proj2 (list_elem_of_In _ _) Hr)) as (_ & _ & _ & Hz). exact Hz. }
  assert (Hok' : Forall phase_frame rows') by (eapply Permutation_Forall; eassumption).
  destruct (runs_of_segmentation phase_linked rows') as (Hcat & Hnn & _ & _).
  destruct (phase_rows_shape clip (runs_of phase_linked rows') 0 Hnn)
    as (out & Hout & Hlen & Hshape).
  { apply Forall_forall. intros run Hrun. apply Forall_forall. intros d Hd.
    rewrite Forall_forall in Hok'. apply Hok'. rewrite <- Hcat.
    apply list_elem_of_In, in_concat. exists run.
    split; apply list_elem_of_In; assumption. }
  destruct (mapM_total (writer_row segment_fieldnames) out) as (recs & Hrecs & _).
  { intros row Hrow. apply list_elem_of_In, list_elem_of_lookup_1 in Hrow as [i Hi].
    destruct (lookup_lt_is_Some_2 (runs_of phase_linked rows') i) as [run Hrun].
    { rewrite <- Hlen. eapply lookup_lt_Some, Hi. }
    destruct (Hshape i run Hrun) as (row' & Hrow' & Hsh).
    rewrite Hi in Hrow'. inversion Hrow'; subst row'.
    apply (phase_row_written clip _ run row Hsh). }
  exists recs, out. split; [|exact Hrecs]. cbn [fst snd].
  unfold phase_rows_of_clip. rewrite Hs. cbn [mbind result_bind].
  rewrite (segment_clip_runs rows' Hok'). cbn [mbind result_bind].
  unfold enumerate, range. rewrite length_map. exact Hout.
Qed.

Section SegmentTable.

Variable int_of_str : pystr -> option Z.

(** The loop over the clips, as far as it gets. *)
Lemma write_clip_segments_ok : forall (by_clip : list (value * list dict))
    (per_clip : list (list dict)) (s : fs) (t : table),
  s !! SEGMENTS_FILENAME = Some t ->
  Forall2 clip_records by_clip per_clip ->
  write_clip_segments by_clip s
  = (Ok tt, <[SEGMENTS_FILENAME := {| fieldnames := fieldnames t;
                                     records := records t ++ concat per_clip |}]> s).
Proof.
  induction by_clip as [|[clip rows] rest IH]; intros per_clip s t Hs Hall.
  - inversion Hall; subst. cbn [write_clip_segments concat]. rewrite app_nil_r.
    unfold mret, IO_ret. f_equal. symmetry. destruct t. apply insert_id. exact Hs.
  - inversion Hall as [|? recs ? per' (out & Hout & Hrecs) Hrest]; subst.
    cbn [fst snd] in Hout. cbn [write_clip_segments].
    rewrite (io_bind_ok _ _ s s out) by (unfold liftIO; rewrite Hout; reflexivity).
    rewrite (io_bind_ok _ _ _ _ _ (writerows_ok _ _ out recs s t Hs Hrecs)).
    rewrite (IH per' _ {| fieldnames := fieldnames t; records := records t ++ recs |});
      [|apply lookup_insert_eq | exact Hrest].
    cbn [fieldnames records concat]. rewrite insert_insert_eq, <- app_assoc. reflexivity.
Qed.

Lemma write_clip_segments_raise : forall (pre : list (value * list dict))
    (per_clip : list (list dict)) (clip : value) (rows : list dict) post e (s : fs) (t : table),
  s !! SEGMENTS_FILENAME = Some t ->
  Forall2 clip_records pre per_clip ->
  phase_rows_of_clip clip rows = Raise e ->
  write_clip_segments (pre ++ (clip, rows) :: post) s
  = (Raise e, <[SEGMENTS_FILENAME := {| fieldnames := fieldnames t;
                                        records := records t ++ concat per_clip |}]> s).
Proof.
  induction pre as [|[c0 rows0] rest IH]; intros per_clip clip rows post e s t Hs Hall Hfail.
  - inversion Hall; subst. cbn [app write_clip_segments concat]. rewrite app_nil_r.
    unfold mbind, IO_bind, liftIO. rewrite Hfail.
    f_equal. symmetry. destruct t. apply insert_id. exact Hs.
  - inversion Hall as [|? recs ? per' (out & Hout & Hrecs) Hrest]; subst.
    cbn [fst snd] in Hout. rewrite <- app_comm_cons. cbn [write_clip_segments].
    rewrite (io_bind_ok _ _ s s out) by (unfold liftIO; rewrite Hout; reflexivity).
    rewrite (io_bind_ok _ _ _ _ _ (writerows_ok _ _ out recs s t Hs Hrecs)).
    rewrite (IH per' clip rows post e _
               {| fieldnames := fieldnames t; records := records t ++ recs |});
      [|apply lookup_insert_eq | exact Hrest | exact Hfail].
    cbn [fieldnames records concat]. rewrite insert_insert_eq, <- app_assoc. reflexivity.
Qed.

(** Up to the loop over the clips. *)
Lemma segment_main_loop (s : fs) tsm rows by_clip :
  s !! OUTPUT_FILENAME = Some tsm ->
  mapM (normalize_frame_index int_of_str) (records tsm) = Ok rows ->
  group_by (fun r => getitem r (lit "clip")) rows = Ok by_clip ->
  segment_main int_of_str s
  = write_clip_segments by_clip (<[SEGMENTS_FILENAME := segments_table []]> s).
Proof.
  intros Hsm Hrows Hg. unfold segment_main.
  rewrite (io_bind_ok _ _ _ _ _ (path_exists_some _ _ _ Hsm)). cbn [negb].
  assert (H1 : load_smoothed_rows int_of_str OUTPUT_FILENAME s = (Ok rows, s)).
  { unfold load_smoothed_rows.
    rewrite (io_bind_ok _ _ _ _ _ (read_rows_some _ _ _ Hsm)).
    unfold liftIO. rewrite Hrows. reflexivity. }
  rewrite (io_bind_ok _ _ _ _ _ H1).
  rewrite (io_bind_ok _ _ s s by_clip) by (unfold liftIO; rewrite Hg; reflexivity).
  rewrite (io_bind_ok _ _ s (<[SEGMENTS_FILENAME := segments_table []]> s) tt)
    by reflexivity.
  reflexivity.
Qed.

(** X16: [segment_world_state.main] on a smoothed table whose rows have a
    clip, a frame index [int] accepts and the three smoothed labels raises
    nothing, and leaves a segment table with the header of the writer and,
    clip after clip in the order the clips first occur, the rendered rows of
    each clip's segments; nothing else of the store changes, and what the
    segment table held before is gone. *)
Theorem segment_main_writes_segments :
  forall (s : fs) (tsm : table) (rows : list dict),
    s !! OUTPUT_FILENAME = Some tsm ->
    mapM (normalize_frame_index int_of_str) (records tsm) = Ok rows ->
    Forall phase_frame rows ->
    Forall (fun r => has_key r (lit "clip")) rows ->
    exists (by_clip : list (value * list dict)) (per_clip : list (list dict)),
      segment_main int_of_str s
      = (Ok tt, <[SEGMENTS_FILENAME := segments_table (concat per_clip)]> s)
      /\ groups_inv (attr "clip") by_clip rows
      /\ Forall2 clip_records by_clip per_clip.
Proof.
  intros s tsm rows Hsm Hrows Hok Hclip.
  destruct (group_by_spec (fun r => getitem r (lit "clip")) (attr "clip") rows)
    as (by_clip & Hg & Hinv).
  { intros r Hr. apply getitem_has_key.
    rewrite Forall_forall in Hclip. apply Hclip, list_elem_of_In, Hr. }
  assert (Hper : exists per_clip, Forall2 clip_records by_clip per_clip).
  { assert (Hgroups : Forall (fun g : value * list dict => Forall phase_frame g.2) by_clip).
    { apply Forall_forall. intros [k xs] Hk. apply list_elem_of_In in Hk.
      destruct (gi_members _ _ _ Hinv k xs Hk) as [_ ->]. simpl.
      apply Forall_forall. intros d Hd. apply list_elem_of_In, filter_In in Hd as [Hd _].
      rewrite Forall_forall in Hok. apply Hok, list_elem_of_In, Hd. }
    clear -Hgroups. induction by_clip as [|[c xs] gs IH].
    - exists []. constructor.
    - inversion Hgroups as [|? ? Hg1 Hgs]; subst.
      destruct (clip_records_total c xs Hg1) as (recs & Hrecs).
      destruct (IH Hgs) as (per & Hper).
      exists (recs :: per). constructor; assumption. }
  destruct Hper as (per_clip & Hper).
  exists by_clip, per_clip. split; [|split; assumption].
  rewrite (segment_main_loop s tsm rows by_clip Hsm Hrows Hg).
  rewrite (write_clip_segments_ok by_clip per_clip _ (segments_table []));
    [|apply lookup_insert_eq | exact Hper].
  cbn [fieldnames records segments_table app]. rewrite insert_insert_eq. reflexivity.
Qed.

(** X17: the segment table is opened before the clips are processed. If
    the rows of some clip cannot be segmented, the exception leaves
    [segment_world_state.main] with the segment table already replaced by
    a partial one: the header and the rows of the clips before the failing
    one. *)
Theorem segment_main_partial_table :
  forall (s : fs) (tsm : table) (rows : list dict)
         (pre post : list (value * list dict)) (per_clip : list (list dict))
         (clip : value) (clip_rows : list dict) (e : exn),
    s !! OUTPUT_FILENAME = Some tsm ->
    mapM (normalize_frame_index int_of_str) (records tsm) = Ok rows ->
    group_by (fun r => getitem r (lit "clip")) rows = Ok (pre ++ (clip, clip_rows) :: post) ->
    Forall2 clip_records pre per_clip ->
    phase_rows_of_clip clip clip_rows = Raise e ->
    segment_main int_of_str s
    = (Raise e, <[SEGMENTS_FILENAME := segments_table (concat per_clip)]> s).
Proof.
  intros s tsm rows pre post per_clip clip clip_rows e Hsm Hrows Hg Hpre Hfail.
  rewrite (segment_main_loop s tsm rows _ Hsm Hrows Hg).
  rewrite (write_clip_segments_raise pre per_clip clip clip_rows post e _ (segments_table []));
    [|apply lookup_insert_eq | exact Hpre | exact Hfail].
  cbn [fieldnames records segments_table app]. rewrite insert_insert_eq. reflexivity.
Qed.

End SegmentTable.

(** ** Loading the smoothed table *)

Lemma dict_keys_set d k v v' :
  dict_get d k = Some v -> dict_keys (dict_set d k v') = dict_keys d.
Proof.
  unfold dict_keys. induction d as [|[k0 v0] t IH]; simpl; [discriminate|].
  destruct (k0 == k) eqn:E; simpl.
  - reflexivity.
  - intros H. rewrite IH by exact H. reflexivity.
Qed.

Section SmoothedLoader.

Variable int_of_str : pystr -> option Z.

Lemma normalize_frame_index_converted r r' :
  normalize_frame_index int_of_str r = Ok r' ->
  frame_index_converted int_of_str r r'
  /\ normalize_frame_index int_of_str r' = Ok r'.
Proof.
  unfold normalize_frame_index, frame_index_converted.
  destruct (getitem r (lit "frame_index")) as [v|] eqn:Ev; [|discriminate].
  cbn [mbind result_bind].
  destruct (py_int int_of_str v) as [z|] eqn:Ez; [|discriminate].
  cbn [mbind result_bind mret result_ret]. intros H. inversion H; subst r'. clear H.
  unfold getitem in Ev. destruct (dict_get r (lit "frame_index")) as [v0|] eqn:Eg; [|discriminate].
  inversion Ev; subst v0.
  split; [split; [|split]|].
  - apply (dict_keys_set _ _ v). exact Eg.
  - exists z. split; [reflexivity | apply dict_get_set_eq].
  - intros k Hk. apply dict_get_set_ne. congruence.
  - unfold getitem. rewrite dict_get_set_eq. cbn [mbind result_bind py_int mret result_ret].
    f_equal. apply dict_set_same; first [apply dict_get_set_eq | exact int_of_str].
Qed.

Lemma normalize_rows_converted : forall rows rows',
  mapM (normalize_frame_index int_of_str) rows = Ok rows' ->
  Forall2 (frame_index_converted int_of_str) rows rows'
  /\ mapM (normalize_frame_index int_of_str) rows' = Ok rows'.
Proof.
  induction rows as [|r t IH]; intros rows' H.
  - inversion H; subst. split; [constructor | reflexivity].
  - cbn [mapM] in H.
    destruct (normalize_frame_index int_of_str r) as [r'|] eqn:Er; [|discriminate].
    cbn [mbind result_bind] in H.
    destruct (mapM (normalize_frame_index int_of_str) t) as [t'|] eqn:Et; [|discriminate].
    inversion H; subst rows'. clear H.
    destruct (normalize_frame_index_converted r r' Er) as [Hc Hi].
    destruct (IH t' eq_refl) as [Hall Hidem].
    split; [constructor; assumption|].
    cbn [mapM]. rewrite Hi. cbn [mbind result_bind]. rewrite Hidem. reflexivity.
Qed.

(** X18: [load_smoothed_world] returns one row per row of the table, in
    order, with the same columns in the same order: the frame index is the
    integer [int] reads from the cell and every other cell is untouched; the
    table itself is not changed, and converting the loaded rows once more
    changes nothing. *)
Theorem load_smoothed_world_converts :
  forall (s s' : fs) (path : string) (t : table) (rows : list dict),
    s !! path = Some t ->
    load_smoothed_world int_of_str path s = (Ok rows, s') ->
    s' = s
    /\ Forall2 (frame_index_converted int_of_str) (records t) rows
    /\ mapM (normalize_frame_index int_of_str) rows = Ok rows.
Proof.
  intros s s' path t rows Ht Hload. unfold load_smoothed_world in Hload.
  rewrite (io_bind_ok _ _ _ _ _ (read_rows_some _ _ _ Ht)) in Hload.
  unfold liftIO in Hload.
  assert (Hrows : mapM (normalize_frame_index int_of_str) (records t) = Ok rows)
    by congruence.
  split; [congruence|]. apply normalize_rows_converted. exact Hrows.
Qed.

(** X19: one cell that [int] refuses stops [load_smoothed_world] with
    ValueError and a row without the "frame_index" column with KeyError,
    whatever the rows after it hold; no rows are returned. *)
Theorem load_smoothed_world_bad_frame_index :
  forall (s : fs) (path : string) (t : table) (pre post before : list dict) (row : dict),
    s !! path = Some t ->
    records t = pre ++ row :: post ->
    mapM (normalize_frame_index int_of_str) pre = Ok before ->
    (dict_get row (lit "frame_index") = None ->
       load_smoothed_world int_of_str path s = (Raise KeyError, s))
    /\ (forall c, dict_get row (lit "frame_index") = Some (VStr c) ->
          int_of_str c = None ->
          load_smoothed_world int_of_str path s = (Raise ValueError, s)).
Proof.
  intros s path t pre post before row Ht Hrec Hpre.
  assert (Hfail : forall e, normalize_frame_index int_of_str row = Raise e ->
            load_smoothed_world int_of_str path s = (Raise e, s)).
  { intros e He. unfold load_smoothed_world.
    rewrite (io_bind_ok _ _ _ _ _ (read_rows_some _ _ _ Ht)).
    unfold liftIO. f_equal. rewrite Hrec. clear Hrec.
    revert before Hpre. induction pre as [|r pre' IH]; intros before Hpre.
    - cbn [app mapM]. rewrite He. reflexivity.
    - cbn [app mapM] in *.
      destruct (normalize_frame_index int_of_str r) as [r'|]; [|discriminate].
      cbn [mbind result_bind] in *.
      destruct (mapM (normalize_frame_index int_of_str) pre') as [b'|]; [|discriminate].
      rewrite (IH b' eq_refl). reflexivity. }
  split.
  - intros Hnone. apply Hfail. unfold normalize_frame_index, getitem. rewrite Hnone.
    reflexivity.
  - intros c Hc Hint. apply Hfail. unfold normalize_frame_index, getitem. rewrite Hc.
    cbn [mbind result_bind py_int]. rewrite Hint. reflexivity.
Qed.

End SmoothedLoader.

(** ** The table properties on sample data *)

Lemma smoothed_frame_phase d :
  smoothed_frame d -> phase_frame d /\ has_key d (lit "clip").
Proof.
  intros ((c & Hc & _) & Hz & (a & Ha & _) & (y & Hy & _) & (l & Hl & _)).
  unfold phase_frame, has_key. rewrite Hc, Ha, Hy, Hl.
  repeat split; try discriminate. exact Hz.
Qed.

(** X16 on the smoothed table of the sample clip. *)
Lemma segment_main_writes_segments_witness :
  exists (rows : list dict) (by_clip : list (value * list dict)) (per_clip : list (list dict)),
    segment_main decimal_int sample_tables
    = (Ok tt, <[SEGMENTS_FILENAME := segments_table (concat per_clip)]> sample_tables)
    /\ groups_inv (attr "clip") by_clip rows
    /\ Forall2 clip_records by_clip per_clip.
Proof.
  destruct sample_tables_rows as (rows & Hrows & Hok & _ & _).
  exists rows.
  apply (segment_main_writes_segments decimal_int sample_tables _ rows eq_refl Hrows).
  - eapply Forall_impl; [exact Hok|]. intros d Hd. apply (smoothed_frame_phase d Hd).
  - eapply Forall_impl; [exact Hok|]. intros d Hd. apply (smoothed_frame_phase d Hd).
Defined.

Lemma broken_first_clip :
  exists recs, clip_records (VStr (lit "clip1"), [broken_row_a]) recs.
Proof.
  apply clip_records_total. apply Forall_cons_2; [|apply Forall_nil_2].
  repeat split; try (vm_compute; discriminate). eexists. reflexivity.
Qed.

(** X17 on a table whose second clip cannot be segmented: the run ends in
    KeyError and the segment table holds the rows of the first clip only. *)
Lemma segment_main_partial_table_witness :
  exists recs,
    clip_records (VStr (lit "clip1"), [broken_row_a]) recs
    /\ segment_main decimal_int broken_tables
       = (Raise KeyError, <[SEGMENTS_FILENAME := segments_table (concat [recs])]> broken_tables).
Proof.
  destruct broken_first_clip as [recs Hrecs]. exists recs. split; [exact Hrecs|].
  apply (segment_main_partial_table decimal_int broken_tables
           {| fieldnames := dict_keys (csv_smoothed_row "" "" "" "" "");
              records := broken_csv_rows |}
           [broken_row_a; broken_row_b]
           [(VStr (lit "clip1"), [broken_row_a])] [] [recs]
           (VStr (lit "clip2")) [broken_row_b] KeyError).
  - reflexivity.
  - vm_compute. reflexivity.
  - vm_compute. reflexivity.
  - constructor; [exact Hrecs | constructor].
  - vm_compute. reflexivity.
Defined.

(** X18 on the smoothed table of the sample clip. *)
Lemma load_smoothed_world_converts_witness :
  exists rows,
    load_smoothed_world decimal_int OUTPUT_FILENAME sample_tables = (Ok rows, sample_tables)
    /\ mapM (normalize_frame_index decimal_int) rows = Ok rows
    /\ length rows = 3%nat.
Proof.
  destruct sample_tables_rows as (rows & Hrows & _ & _ & Hlen).
  exists rows.
  assert (Hload : load_smoothed_world decimal_int OUTPUT_FILENAME sample_tables
                  = (Ok rows, sample_tables)).
  { unfold load_smoothed_world.
    rewrite (io_bind_ok _ _ _ _ _ (read_rows_some _ _ _
               (eq_refl : sample_tables !! OUTPUT_FILENAME = Some _))).
    unfold liftIO. cbn [records]. rewrite Hrows. reflexivity. }
  split; [exact Hload|]. split; [|exact Hlen].
  apply (load_smoothed_world_converts decimal_int sample_tables sample_tables
           OUTPUT_FILENAME _ rows eq_refl Hload).
Defined.

(** X19 on a table whose second frame index is the word "one". *)
Lemma load_smoothed_world_bad_frame_index_witness :
  load_smoothed_world decimal_int OUTPUT_FILENAME bad_index_tables
  = (Raise ValueError, bad_index_tables).
Proof.
  destruct (load_smoothed_world_bad_frame_index decimal_int bad_index_tables OUTPUT_FILENAME
              {| fieldnames := dict_keys (csv_smoothed_row "" "" "" "" "");
                 records := [ csv_smoothed_row "clip1" "0" "go" "none" "none";
                              csv_smoothed_row "clip1" "one" "go" "none" "none" ] |}
              [csv_smoothed_row "clip1" "0" "go" "none" "none"] []
              (map (fun r => dict_set r (lit "frame_index") (VInt 0))
                 [csv_smoothed_row "clip1" "0" "go" "none" "none"])
              (csv_smoothed_row "clip1" "one" "go" "none" "none")
              eq_refl eq_refl) as [_ H].
  - vm_compute. reflexivity.
  - apply (H (lit "one")); [reflexivity | vm_compute; reflexivity].
Defined.

(** ** The smoothing driver *)

(** Sorting by a key that is an integer on every element. *)
Lemma sorted_by_int {A} (key : A -> result value) (kz : A -> Z) (l : list A) :
  (forall x, In x l -> key x = Ok (VInt (kz x))) ->
  exists l',
    sorted_by key l = Ok l'
    /\ Permutation l l'
    /\ StronglySorted (fun a b => (kz a <= kz b)%Z) l'.
Proof.
  intros Hok. unfold sorted_by.
  rewrite (mapM_result_ok _ (fun x => VInt (kz x))) by exact Hok.
  cbn [mbind result_bind]. rewrite zip_map_pair.
  set (pairs := map (fun x => (VInt (kz x), x)) l).
  assert (Hshape : Forall (fun p : value * A => p.1 = VInt (kz p.2)) pairs).
  { apply Forall_forall. intros p Hp.
    apply list_elem_of_In, in_map_iff in Hp as (r & <- & _). reflexivity. }
  destruct (sort_keyed_int pairs) as (s & Es & Hp & Hk & Hs).
  { eapply Forall_impl; [exact Hshape|]. intros p Hp. eexists. exact Hp. }
  rewrite Es. cbn [mbind result_bind mret result_ret].
  exists (map snd s). split; [reflexivity|]. split.
  - replace l with (map snd pairs).
    + apply Permutation_map, Hp.
    + unfold pairs. rewrite map_map. simpl. apply map_id.
  - assert (Hshape' : Forall (fun p : value * A => p.1 = VInt (kz p.2)) s)
      by (eapply Permutation_Forall; eassumption).
    clear -Hs Hshape'. induction Hs as [|p t Hst IH Hpt]; simpl; [constructor|].
    inversion Hshape' as [|? ? Hp Ht]; subst.
    constructor; [apply IH, Ht|].
    rewrite Forall_forall in Hpt, Ht. apply Forall_forall.
    intros d Hd. apply list_elem_of_In, in_map_iff in Hd as (q & <- & Hq).
    apply list_elem_of_In in Hq.
    specialize (Hpt q Hq). specialize (Ht q Hq). unfold key_le in Hpt.
    rewrite Hp, Ht in Hpt. exact Hpt.
Qed.

(** Grouping loses and repeats nothing. *)
Lemma group_add_perm {A} (k : value) (x : A) g :
  Permutation (concat (map snd (group_add k x g))) (x :: concat (map snd g)).
Proof.
  induction g as [|[k' xs] t IH]; simpl; [reflexivity|].
  destruct (bool_decide (k' = k)); simpl.
  - rewrite <- app_assoc. simpl. symmetry. apply Permutation_middle.
  - rewrite IH. symmetry. apply Permutation_middle.
Qed.

Lemma group_loop_perm {A} (key : A -> result value) : forall l g g',
  group_loop key l g = Ok g' ->
  Permutation (concat (map snd g')) (concat (map snd g) ++ l).
Proof.
  induction l as [|x t IH]; intros g g' H.
  - inversion H; subst. rewrite app_nil_r. reflexivity.
  - cbn [group_loop] in H. destruct (key x) as [k|]; [|discriminate].
    cbn [mbind result_bind] in H. rewrite (IH _ _ H), group_add_perm.
    simpl. apply Permutation_middle.
Qed.

(** The frame index behind a reference of the loaded rows. *)
Lemma field_at_frame_index (h0 ext : heap) r d :
  h0 !! r = Some d -> raw_frame d ->
  field_at (lit "frame_index") (h0 ++ ext) r = Ok (VInt (frame_index_of d)).
Proof.
  intros Hr (_ & (z & Hz) & _). unfold field_at.
  rewrite (lookup_app_l_Some _ _ _ _ Hr). unfold getitem, frame_index_of, attr, get_or.
  rewrite Hz. reflexivity.
Qed.

(** The loop over the clips of [temporal_smoothing.main]: every clip is
    sorted by frame index and smoothed; the copies are appended to the
    store clip after clip. *)
Lemma smooth_clips_ok (h0 : heap) : forall (by_clip : list (value * list loc))
    (acc : list loc) (ext : heap),
  Forall (fun g : value * list loc =>
            Forall (fun r => exists d, h0 !! r = Some d /\ raw_frame d) g.2) by_clip ->
  exists clips : list (list dict),
    smooth_clips by_clip acc (h0 ++ ext)
    = Ok (acc ++ seq (length (h0 ++ ext)) (length (concat (map smooth_all clips))),
          (h0 ++ ext) ++ concat (map smooth_all clips))
    /\ Forall2 (fun (g : value * list loc) c =>
         exists refs', Permutation g.2 refs' /\ rows_at h0 refs' c /\ frames_sorted c)
       by_clip clips.
Proof.
  induction by_clip as [|[clip clip_rows] rest IH]; intros acc ext Hall.
  - exists []. split; [|constructor]. cbn [smooth_clips map concat length seq].
    rewrite !app_nil_r. reflexivity.
  - inversion Hall as [|? ? Hg Hrest]; subst. cbn [snd] in Hg.
    rewrite Forall_forall in Hg.
    set (kz := fun r : loc => match h0 !! r with Some d => frame_index_of d | None => 0%Z end).
    destruct (sorted_by_int (field_at (lit "frame_index") (h0 ++ ext)) kz clip_rows)
      as (refs' & Hsort & Hperm & Hsorted).
    { intros r Hr. destruct (Hg r (proj2 (list_elem_of_In _ _) Hr)) as (d & Hd & Hf).
      unfold kz. rewrite Hd. apply field_at_frame_index; assumption. }
    assert (Hrefs : forall r, In r refs' -> exists d, h0 !! r = Some d /\ raw_frame d).
    { intros r Hr. apply Hg, list_elem_of_In. eapply Permutation_in; [symmetry; exact Hperm|].
      exact Hr. }
    set (c := map (fun r => match h0 !! r with Some d => d | None => [] end) refs').
    assert (Hat : rows_at h0 refs' c).
    { unfold rows_at, c. apply Forall2_fmap_r, Forall_Forall2_diag, Forall_forall.
      intros r Hr. destruct (Hrefs r (proj1 (list_elem_of_In _ _) Hr)) as (d & Hd & _).
      unfold compose. cbv beta. rewrite Hd. reflexivity. }
    assert (Hraw : Forall raw_row c).
    { unfold c. apply Forall_forall. intros d Hd.
      apply list_elem_of_In, in_map_iff in Hd as (r & <- & Hr).
      destruct (Hrefs r Hr) as (d & Hd & (_ & _ & Hraw)). rewrite Hd. exact Hraw. }
    assert (Hfs : frames_sorted c).
    { unfold frames_sorted, c. apply StronglySorted_map.
      eapply StronglySorted_lookups. intros i j x y Hij Hi Hj.
      rewrite StronglySorted_lookups in Hsorted.
      pose proof (Hsorted i j x y Hij Hi Hj) as H. unfold kz in H.
      destruct (h0 !! x), (h0 !! y); exact H. }
    assert (Hlen : length (smooth_all c) = length refs').
    { rewrite smooth_all_length. unfold c. apply length_map. }
    destruct (IH (acc ++ seq (length (h0 ++ ext)) (length refs')) (ext ++ smooth_all c) Hrest)
      as (clips & Hrun & Hclips).
    exists (c :: clips). split; [|constructor; [exists refs'; auto | exact Hclips]].
    cbn [smooth_clips].
    assert (H1 : reading (fun h => sorted_by (field_at (lit "frame_index") h) clip_rows)
                   (h0 ++ ext) = Ok (refs', h0 ++ ext)).
    { unfold reading. rewrite Hsort. reflexivity. }
    rewrite (bind_ok _ _ _ _ _ H1).
    rewrite (bind_ok _ _ _ _ _
               (smooth_sequence_ok refs' c (h0 ++ ext) (rows_at_extend _ _ _ _ Hat) Hraw)).
    rewrite <- app_assoc, Hrun. cbn [map concat].
    rewrite !length_app, Hlen, <- !app_assoc. f_equal. f_equal.
    rewrite (seq_app (length refs')). f_equal. f_equal. f_equal. lia.
Qed.

Lemma dict_keys_set_incl d k v k' :
  In k' (dict_keys (dict_set d k v)) -> In k' (dict_keys d) \/ k' = k.
Proof.
  unfold dict_keys. induction d as [|[k0 v0] t IH]; simpl.
  - intros [<-|[]]. right. reflexivity.
  - destruct (k0 == k); simpl; intros [<-|H]; auto.
    destruct (IH H); auto.
Qed.

Lemma smooth_dict_keys ds i d k :
  In k (dict_keys (smooth_dict ds i d)) -> In k (dict_keys d) \/ In k extra_fields.
Proof.
  unfold smooth_dict, extra_fields. cbv zeta. intros H.
  apply dict_keys_set_incl in H as [H|H]; [|subst k; simpl; auto].
  apply dict_keys_set_incl in H as [H|H]; [|subst k; simpl; auto].
  apply dict_keys_set_incl in H as [H|H]; [|subst k; simpl; auto].
  left. exact H.
Qed.

(** The writer takes every row whose columns are in the header. *)
Lemma writer_rows_accepts (fields : list pystr) (rows : list dict) :
  (forall d k, In d rows -> In k (dict_keys d) -> In k fields) ->
  mapM (writer_row fields) rows = Ok (map (rendered fields) rows).
Proof.
  intros H. apply mapM_result_ok. intros d Hd. unfold writer_row.
  replace (forallb _ (dict_keys d)) with true; [reflexivity|].
  symmetry. apply forallb_forall. intros k Hk. apply existsb_exists.
  exists k. split; [apply (H d k Hd Hk) | apply str_eqb_refl].
Qed.

Lemma seq_lookups {A} (l : list A) (dflt : A) :
  map (fun r => match l !! r with Some d => d | None => dflt end) (seq 0 (length l)) = l.
Proof.
  apply list_eq. intros i. rewrite list_lookup_fmap.
  destruct (l !! i) as [x|] eqn:E.
  - rewrite lookup_seq_lt by (eapply lookup_lt_Some, E). simpl. rewrite E. reflexivity.
  - rewrite lookup_seq_ge by (apply lookup_ge_None, E). reflexivity.
Qed.

Lemma filter_map_comm {A B} (f : A -> B) (p : B -> bool) (l : list A) :
  map f (List.filter (fun x => p (f x)) l) = List.filter p (map f l).
Proof.
  induction l as [|x t IH]; simpl; [reflexivity|].
  destruct (p (f x)); simpl; rewrite IH; reflexivity.
Qed.

Lemma rows_at_map_lookup (h : heap) refs c :
  rows_at h refs c ->
  c = map (fun r => match h !! r with Some d => d | None => [] end) refs.
Proof.
  induction 1 as [|r d refs' c' Hr _ IH]; simpl; [reflexivity|].
  rewrite Hr, <- IH. reflexivity.
Qed.

Lemma concat_perm_groups {A B} (f : A -> B) :
  forall (gs : list (value * list A)) (cs : list (list B)),
    Forall2 (fun g c => Permutation (map f g.2) c) gs cs ->
    Permutation (map f (concat (map snd gs))) (concat cs).
Proof.
  induction 1 as [|g c gs cs Hg _ IH]; simpl; [reflexivity|].
  rewrite map_app, Hg, IH. reflexivity.
Qed.

Section SmoothingDriver.

Variable int_of_str : pystr -> option Z.

(** Everything [temporal_smoothing.main] does between reading its input and
    opening its output. *)
Lemma smoothing_rows_ok (rows0 : list dict) (r0 : dict) (rest : list dict) :
  mapM (normalize_frame_index int_of_str) rows0 = Ok (r0 :: rest) ->
  Forall raw_frame (r0 :: rest) ->
  exists (keys : list value) (clips : list (list dict)),
    smoothing_rows int_of_str rows0
    = Ok (dict_keys r0 ++ extra_fields, concat (map smooth_all clips))
    /\ NoDup keys
    /\ (forall d, In d (r0 :: rest) -> In (attr "clip" d) keys)
    /\ Forall2 (fun k c =>
          c <> [] /\ Permutation (members (attr "clip") k (r0 :: rest)) c /\ frames_sorted c)
         keys clips
    /\ Permutation (concat clips) (r0 :: rest).
Proof.
  intros Hnorm Hraw. set (rows := r0 :: rest) in *.
  set (dr := fun r : loc => match rows !! r with Some d => d | None => [] end).
  set (refs := seq 0 (length rows)).
  assert (Hrefs : forall r, In r refs -> exists d, rows !! r = Some d /\ raw_frame d).
  { intros r Hr. apply in_seq in Hr.
    destruct (lookup_lt_is_Some_2 rows r) as [d Hd]; [lia|].
    exists d. split; [exact Hd|]. rewrite Forall_forall in Hraw.
    eapply Hraw, list_elem_of_lookup_2, Hd. }
  destruct (group_by_spec (field_at (lit "clip") rows) (fun r => attr "clip" (dr r)) refs)
    as (by_clip & Hg & Hinv).
  { intros r Hr. destruct (Hrefs r Hr) as (d & Hd & (Hc & _)).
    unfold field_at, dr. rewrite Hd. apply getitem_has_key, Hc. }
  assert (Hmem : forall k xs, In (k, xs) by_clip ->
            xs <> [] /\ (forall r, In r xs -> In r refs)
            /\ map dr xs = members (attr "clip") k rows).
  { intros k xs Hin. destruct (gi_members _ _ _ Hinv k xs Hin) as [Hne Hxs].
    split; [exact Hne|]. split.
    - intros r Hr. rewrite Hxs in Hr. apply filter_In in Hr. tauto.
    - rewrite Hxs. unfold members.
      etransitivity;
        [exact (filter_map_comm dr (fun d => bool_decide (attr "clip" d = k)) refs)|].
      unfold dr, refs. rewrite seq_lookups. reflexivity. }
  destruct (smooth_clips_ok rows by_clip [] []) as (clips & Hrun & Hclips).
  { apply Forall_forall. intros [k xs] Hin. apply list_elem_of_In in Hin.
    destruct (Hmem k xs Hin) as (_ & Hsub & _).
    apply Forall_forall. intros r Hr. apply Hrefs, Hsub, list_elem_of_In, Hr. }
  rewrite !app_nil_r in Hrun. cbn [app] in Hrun.
  assert (Hgroup : Forall2 (fun (g : value * list loc) c =>
             c <> [] /\ Permutation (members (attr "clip") g.1 rows) c /\ frames_sorted c
             /\ Permutation (map dr g.2) c) by_clip clips).
  { apply Forall2_same_length_lookup. split; [eapply Forall2_length, Hclips|].
    intros i [k xs] c Hi Hc.
    destruct (Forall2_lookup_lr _ _ _ _ _ _ Hclips Hi Hc) as (refs' & Hp & Hat & Hs).
    cbn [fst snd] in *.
    destruct (Hmem k xs) as (Hne & _ & Hxs).
    { apply list_elem_of_In. eapply list_elem_of_lookup_2, Hi. }
    assert (Hpc : Permutation (map dr xs) c).
    { rewrite (rows_at_map_lookup rows refs' c Hat). apply Permutation_map, Hp. }
    split; [|split; [rewrite <- Hxs; exact Hpc | split; [exact Hs | exact Hpc]]].
    intros ->. symmetry in Hpc. apply Permutation_nil in Hpc.
    destruct xs; [congruence | discriminate]. }
  exists (map fst by_clip), clips. split; [|split; [|split; [|split]]].
  - unfold smoothing_rows. rewrite Hnorm. cbn [mbind result_bind]. cbv zeta.
    fold rows. fold refs. rewrite Hg. cbn [mbind result_bind]. rewrite Hrun.
    cbn [mbind result_bind].
    rewrite (read_back _ (fun d => d) (concat (map smooth_all clips)) (length rows)).
    + cbn [mbind result_bind]. rewrite map_id. reflexivity.
    + intros i x Hx. rewrite lookup_app_r by lia.
      replace (length rows + i - length rows)%nat with i by lia. exact Hx.
  - exact (gi_nodup _ _ _ Hinv).
  - intros d Hd. apply list_elem_of_In, list_elem_of_lookup_1 in Hd as [r Hr].
    assert (Hin : In r refs).
    { apply in_seq. apply lookup_lt_Some in Hr. lia. }
    pose proof (gi_keys _ _ _ Hinv r Hin) as Hk. cbv beta in Hk.
    unfold dr in Hk. rewrite Hr in Hk. exact Hk.
  - apply Forall2_fmap_l. eapply Forall2_impl; [exact Hgroup|].
    intros g c (H1 & H2 & H3 & _). auto.
  - transitivity (map dr (concat (map snd by_clip))).
    + symmetry. apply concat_perm_groups.
      eapply Forall2_impl; [exact Hgroup|]. intros g c (_ & _ & _ & H). exact H.
    + pose proof (group_loop_perm _ _ _ _ Hg) as Hp. cbn [map concat app] in Hp.
      rewrite Hp. unfold dr, refs. rewrite seq_lookups. reflexivity.
Qed.

End SmoothingDriver.

Section SmoothingMain.

Variable int_of_str : pystr -> option Z.

(** X20: [temporal_smoothing.main] on a raw table whose rows, once the
    frame index is converted, carry a clip, an integer frame index and the
    three labels, and no column the first row lacks: nothing is raised; the
    smoothed table gets the columns of the first row followed by the three
    smoothed columns, and holds one record per input row, clip after clip
    (each clip once, its rows in non-decreasing frame order), every record
    the rendering of the clip's smoothed row; no other file changes. *)
Theorem smoothing_main_writes_table :
  forall (s : fs) (t : table) (r0 : dict) (rest : list dict),
    s !! INPUT_FILENAME = Some t ->
    mapM (normalize_frame_index int_of_str) (records t) = Ok (r0 :: rest) ->
    Forall raw_frame (r0 :: rest) ->
    Forall (fun d => forall k, In k (dict_keys d) -> In k (dict_keys r0)) rest ->
    exists (keys : list value) (clips : list (list dict)),
      smoothing_main int_of_str s
      = (Ok tt,
         <[OUTPUT_FILENAME :=
             {| fieldnames := dict_keys r0 ++ extra_fields;
                records := map (rendered (dict_keys r0 ++ extra_fields))
                             (concat (map smooth_all clips)) |}]> s)
      /\ NoDup keys
      /\ (forall d, In d (r0 :: rest) -> In (attr "clip" d) keys)
      /\ Forall2 (fun k c =>
            c <> [] /\ Permutation (members (attr "clip") k (r0 :: rest)) c
            /\ frames_sorted c)
           keys clips
      /\ Permutation (concat clips) (r0 :: rest)
      /\ length (concat (map smooth_all clips)) = length (records t).
Proof.
  intros s t r0 rest Hin Hnorm Hraw Hcols.
  destruct (smoothing_rows_ok int_of_str (records t) r0 rest Hnorm Hraw)
    as (keys & clips & Hrows & Hnd & Hkeys & Hclips & Hperm).
  assert (Hlen : length (concat (map smooth_all clips)) = length (records t)).
  { transitivity (length (concat clips)).
    - clear. induction clips as [|c cs IH]; simpl; [reflexivity|].
      rewrite !length_app, smooth_all_length, IH. reflexivity.
    - rewrite (Permutation_length Hperm).
      destruct (normalize_rows_converted int_of_str _ _ Hnorm) as [Hall _].
      symmetry. eapply Forall2_length, Hall. }
  exists keys, clips. split; [|repeat split; assumption].
  unfold smoothing_main.
  rewrite (io_bind_ok _ _ _ _ _ (path_exists_some _ _ _ Hin)). cbn [negb].
  rewrite (io_bind_ok _ _ _ _ _ (read_rows_some _ _ _ Hin)).
  destruct (records t) as [|x xs] eqn:Erec; [discriminate|].
  rewrite (io_bind_ok _ _ s s (dict_keys r0 ++ extra_fields, concat (map smooth_all clips)))
    by (unfold liftIO; rewrite Hrows; reflexivity).
  set (fields := dict_keys r0 ++ extra_fields).
  rewrite (io_bind_ok _ _ s
             (<[OUTPUT_FILENAME := {| fieldnames := fields; records := [] |}]> s) tt)
    by reflexivity.
  rewrite (writerows_ok OUTPUT_FILENAME fields (concat (map smooth_all clips))
             (map (rendered fields) (concat (map smooth_all clips))) _
             {| fieldnames := fields; records := [] |}).
  - cbn [fieldnames records app]. rewrite insert_insert_eq. reflexivity.
  - apply lookup_insert_eq.
  - apply writer_rows_accepts. intros o k Ho Hk.
    apply in_concat in Ho as (l & Hl & Ho).
    apply in_map_iff in Hl as (c & <- & Hc).
    apply list_elem_of_In, list_elem_of_lookup_1 in Ho as [i Hi].
    unfold smooth_all in Hi. rewrite list_lookup_imap in Hi.
    destruct (c !! i) as [d|] eqn:Ed; [|discriminate]. inversion Hi; subst o.
    unfold fields. apply in_or_app.
    destruct (smooth_dict_keys c i d k Hk) as [Hd|Hx]; [left | right; exact Hx].
    assert (Hdin : In d (r0 :: rest)).
    { eapply Permutation_in; [exact Hperm|]. apply in_concat. exists c.
      split; [exact Hc|]. apply list_elem_of_In. eapply list_elem_of_lookup_2, Ed. }
    destruct Hdin as [<-|Hdin]; [exact Hd|].
    rewrite Forall_forall in Hcols. apply (Hcols d); [apply list_elem_of_In, Hdin | exact Hd].
Qed.

End SmoothingMain.

Lemma csv_raw_rows_normalised :
  exists r0 rest,
    mapM (normalize_frame_index decimal_int) csv_raw_rows = Ok (r0 :: rest)
    /\ Forall raw_frame (r0 :: rest)
    /\ Forall (fun d => forall k, In k (dict_keys d) -> In k (dict_keys r0)) rest.
Proof.
  eexists _, _. split; [vm_compute; reflexivity|]. split.
  - repeat apply Forall_cons_2; [| | |apply Forall_nil_2];
      (split; [vm_compute; discriminate|]; split; [eexists; vm_compute; reflexivity|];
       repeat split; vm_compute; discriminate).
  - repeat apply Forall_cons_2; [| |apply Forall_nil_2]; intros k Hk; exact Hk.
Qed.

(** X20 on the raw table of the sample store. *)
Lemma smoothing_main_writes_table_witness :
  exists (fields : list pystr) (recs : list dict),
    smoothing_main decimal_int sample_tables
    = (Ok tt, <[OUTPUT_FILENAME := {| fieldnames := fields; records := recs |}]> sample_tables)
    /\ length recs = 3%nat.
Proof.
  destruct csv_raw_rows_normalised as (r0 & rest & Hnorm & Hraw & Hcols).
  destruct (smoothing_main_writes_table decimal_int sample_tables
              {| fieldnames := dict_keys (csv_row "" "" "" "" ""); records := csv_raw_rows |}
              r0 rest eq_refl Hnorm Hraw Hcols)
    as (keys & clips & Hrun & _ & _ & _ & _ & Hlen).
  eexists _, _. split; [exact Hrun|]. rewrite length_map. exact Hlen.
Defined.

(** ** Where a smoothed label comes from *)

Lemma smoothed_value_source (ds : list dict) (i : nat) (d : dict) (k : string) :
  ds !! i = Some d ->
  exists j d',
    (i - 1 <= j <= i + 1)%nat /\ ds !! j = Some d'
    /\ smoothed_value k (window3 ds i) d = attr k d'.
Proof.
  intros Hd.
  assert (Hi : (i < length ds)%nat) by (eapply lookup_lt_Some, Hd).
  destruct (smoothed_value_ok k (window3 ds i) d) as [Hsome Hnone].
  destruct (existsb truthy (map (attr k) (window3 ds i))) eqn:E.
  - apply existsb_exists in E as (x & Hx & Ht).
    destruct Hsome as (_ & Hin & _); [exists x; auto|].
    apply in_map_iff in Hin as (d' & Hv & Hd').
    apply list_elem_of_In, list_elem_of_lookup_1 in Hd' as [j' Hj'].
    rewrite (window3_lookup ds i j' Hi) in Hj'.
    destruct (decide (i - 1 + j' <= Nat.min (length ds - 1) (i + 1))%nat) as [Hle|];
      [|discriminate].
    exists (i - 1 + j')%nat, d'. split; [lia|]. split; [exact Hj' | symmetry; exact Hv].
  - exists i, d. split; [lia|]. split; [exact Hd|]. apply Hnone.
    intros x Hx. destruct (truthy x) eqn:Ht; [|reflexivity].
    assert (Hex : existsb truthy (map (attr k) (window3 ds i)) = true)
      by (apply existsb_exists; exists x; auto).
    congruence.
Qed.

(** X21: [smooth_sequence] with [window=3] never invents a label: the
    smoothed label of row [i] is the label of row [i-1], [i] or [i+1] of the
    clip. In particular a clip whose rows all carry the same label keeps
    it. *)
Theorem smoothing_takes_label_from_window :
  forall (rows : list loc) (h : heap) (ds : list dict) (i : nat) (d : dict) (k ks : string),
    rows_at h rows ds -> Forall raw_row ds ->
    In (k, ks) smoothed_attrs ->
    ds !! i = Some d ->
    exists out h' r o,
      smooth_sequence rows 3 h = Ok (out, h')
      /\ out !! i = Some r /\ h' !! r = Some o
      /\ (exists j d', (i - 1 <= j <= i + 1)%nat /\ ds !! j = Some d'
                       /\ attr ks o = attr k d')
      /\ (forall v, (forall d', In d' ds -> attr k d' = v) -> attr ks o = v).
Proof.
  intros rows h ds i d k ks Hrows Hraw Hk Hd.
  assert (Hlen : length rows = length ds) by (eapply Forall2_length, Hrows).
  assert (Hlt : (i < length ds)%nat) by (eapply lookup_lt_Some, Hd).
  exists (seq (length h) (length rows)), (h ++ smooth_all ds),
         (length h + i)%nat, (smooth_dict ds i d).
  split; [apply smooth_sequence_ok; assumption|].
  split; [apply lookup_seq; lia|]. split.
  { rewrite lookup_app_r by lia.
    replace (length h + i - length h)%nat with i by lia.
    apply smooth_all_lookup, Hd. }
  rewrite (smooth_dict_attr ds i d k ks Hk).
  destruct (smoothed_value_source ds i d k Hd) as (j & d' & Hj & Hd' & Hv).
  split; [exists j, d'; auto|].
  intros v Hall. rewrite Hv. apply Hall, list_elem_of_In.
  eapply list_elem_of_lookup_2, Hd'.
Qed.

(** X21 on the sample clip. *)
Lemma smoothing_takes_label_from_window_witness :
  exists out h' r o,
    smooth_sequence [0; 1; 2]%nat 3 sample_raw_rows = Ok (out, h')
    /\ out !! 2%nat = Some r /\ h' !! r = Some o
    /\ (exists j d', (2 - 1 <= j <= 2 + 1)%nat /\ sample_raw_rows !! j = Some d'
                     /\ attr "yield_to_smoothed" o = attr "yield_to" d')
    /\ (forall v, (forall d', In d' sample_raw_rows -> attr "yield_to" d' = v) ->
          attr "yield_to_smoothed" o = v).
Proof.
  apply (smoothing_takes_label_from_window [0; 1; 2]%nat sample_raw_rows sample_raw_rows
           2%nat (label_row "clip1" 12 "wait" "none" "none") "yield_to" "yield_to_smoothed").
  - repeat constructor.
  - exact sample_raw_rows_ok.
  - right. left. reflexivity.
  - reflexivity.
Defined.

(** ** The segments of a table of several clips *)

Section SegmentsOfClips.

Variable int_of_str : pystr -> option Z.

(** The segments of one clip are dictionary displays numbered from 0. *)
Lemma segment_states_clip_displays clip rows segs :
  Forall final_frame rows ->
  segment_states_clip int_of_str clip rows = Ok segs ->
  map (attr "segment_id") segs = map VInt (range (length segs))
  /\ Forall is_state_segment segs.
Proof.
  intros Hok Hrun.
  destruct (sorted_by_frame_index rows) as (rows' & Hs & Hp & _).
  { intros r Hr. rewrite Forall_forall in Hok.
    destruct (Hok r (proj2 (list_elem_of_In _ _) Hr)) as (_ & _ & _ & Hz). exact Hz. }
  unfold segment_states_clip in Hrun. rewrite Hs in Hrun. cbn [mbind result_bind] in Hrun.
  rewrite segment_states_loop_runs in Hrun by (eapply Permutation_Forall; eassumption).
  inversion Hrun as [Hsegs]. clear Hrun.
  destruct (runs_of_segmentation state_linked rows') as (_ & Hnn & _ & _).
  set (runs := runs_of state_linked rows') in *.
  destruct (state_segments_cells clip runs 0 Hnn) as [Hids _].
  cbn zeta in Hids.
  change (imap (fun i => state_segment_of clip (0 + Z.of_nat i)) runs)
    with (imap (fun i => state_segment_of clip (Z.of_nat i)) runs) in Hids.
  split.
  - rewrite Hids, length_imap. unfold range. rewrite map_map. reflexivity.
  - apply Forall_forall. intros s Hin. apply list_elem_of_lookup_1 in Hin as [i Hi].
    rewrite list_lookup_imap in Hi.
    destruct (runs !! i) as [run|] eqn:Er; [|discriminate]. simpl in Hi. inversion Hi.
    assert (Hr : run <> []).
    { rewrite Forall_forall in Hnn. eapply Hnn, list_elem_of_lookup_2, Er. }
    destruct (span_of_run_cells run Hr) as (x & y & Hx & Hy & _).
    unfold state_segment_of. rewrite Hx, Hy. unfold is_state_segment. eauto 10.
Qed.


End SegmentsOfClips.

(** ** The columns of the state machine and planner tables *)

Lemma planner_record_cases (st : pystr) :
  exists c r t u, map_state_to_planner st = planner_record c r t u.
Proof.
  unfold map_state_to_planner.
  repeat match goal with
         | |- context [ ?x == ?y ] => destruct (x == y)
         end; cbn [orb]; cbv iota; eauto.
Qed.

Lemma linked_segment_columns clip_segs i seg :
  is_state_segment seg ->
  dict_keys (linked_segment clip_segs i seg) = linked_keys
  /\ exists st p,
       planner_row (linked_segment clip_segs i seg) = Ok p
       /\ dict_keys p = planner_keys
       /\ p = dict_update (linked_segment clip_segs i seg) (map_state_to_planner st)
       /\ attr "state" seg = VStr st.
Proof.
  intros (clip & id & a & b & st & va & vy & vl & ->).
  split; [reflexivity|].
  exists st, (dict_update (linked_segment clip_segs i
                             (state_segment clip id a b st va vy vl))
                (map_state_to_planner st)).
  split; [reflexivity|]. split; [|split; reflexivity].
  destruct (planner_record_cases st) as (c & r & t & u & ->). reflexivity.
Qed.

Section TableColumns.

Variable int_of_str : pystr -> option Z.

Lemma segment_states_clips_displays (rows : list dict) :
  Forall final_frame rows ->
  Forall (fun r => has_key r (lit "clip")) rows ->
  exists clips : list (value * list dict),
    segment_states int_of_str rows = Ok (concat (map snd clips))
    /\ NoDup (map fst clips)
    /\ Forall (fun g => g.2 <> [] /\ Forall (clip_segment g.1) g.2 /\ ids_sorted g.2) clips
    /\ Forall (fun g => Forall is_state_segment g.2) clips.
Proof.
  intros Hok Hclip.
  destruct (segment_states_by_clip int_of_str rows Hok Hclip)
    as (by_clip & per_clip & Hrun & Hinv & Hall).
  exists (zip (map fst by_clip) per_clip).
  assert (Hlen : length (map fst by_clip) = length per_clip).
  { rewrite length_map. eapply Forall2_length, Hall. }
  rewrite snd_zip by lia. rewrite fst_zip by lia.
  split; [exact Hrun|]. split; [exact (gi_nodup _ _ _ Hinv)|].
  assert (Hboth : Forall (fun g : value * list dict =>
             (g.2 <> [] /\ Forall (clip_segment g.1) g.2 /\ ids_sorted g.2)
             /\ Forall is_state_segment g.2) (zip (map fst by_clip) per_clip)).
  { apply Forall_forall. intros [c segs] Hin.
    apply list_elem_of_lookup_1 in Hin as [i Hi].
    apply lookup_zip_with_Some in Hi as (c' & segs' & Heq & Hc & Hsegs).
    inversion Heq; subst c' segs'. clear Heq.
    rewrite list_lookup_fmap in Hc.
    destruct (by_clip !! i) as [[k xs]|] eqn:Eg; [|discriminate].
    simpl in Hc. inversion Hc; subst k. clear Hc.
    pose proof (Forall2_lookup_lr _ _ _ _ _ _ Hall Eg Hsegs) as Hseg. simpl in Hseg.
    destruct (gi_members _ _ _ Hinv c xs) as [Hxs Hmem].
    { apply list_elem_of_In. eapply list_elem_of_lookup_2, Eg. }
    assert (Hff : Forall final_frame xs).
    { rewrite Hmem. apply Forall_forall. intros d Hd.
      apply list_elem_of_In, filter_In in Hd as [Hd _].
      rewrite Forall_forall in Hok. apply Hok, list_elem_of_In, Hd. }
    cbn [fst snd].
    destruct (segment_states_clip_shape int_of_str c xs segs Hff Hxs Hseg)
      as (H1 & H2 & H3 & _).
    destruct (segment_states_clip_displays int_of_str c xs segs Hff Hseg) as [_ H4].
    auto. }
  split; (eapply Forall_impl; [exact Hboth|]); intros g [H1 H2]; assumption.
Qed.

(** X23: the rows handed to [write_csv] for the state machine and the
    planner tables have every column of their header. Each linked segment
    has exactly the ten columns of the machine header (set by
    [segment_states] and [add_prev_next]), and each planner row those ten
    and the four planner fields, which include every column of the planner
    header; so no cell of the two tables comes from the default of
    [write_csv], and the planner table only drops the three label
    columns. *)
Theorem machine_and_planner_rows_are_complete :
  forall rows : list dict,
    Forall final_frame rows ->
    Forall (fun r => has_key r (lit "clip")) rows ->
    exists segs linked planner_rows,
      segment_states int_of_str rows = Ok segs
      /\ add_prev_next segs = Ok linked
      /\ mapM planner_row linked = Ok planner_rows
      /\ Forall (fun o => dict_keys o = linked_keys) linked
      /\ Forall (fun p => dict_keys p = planner_keys) planner_rows
      /\ (forall k, In k machine_fields <-> In k linked_keys)
      /\ (forall k, In k planner_fields -> In k planner_keys).
Proof.
  intros rows Hok Hclip.
  destruct (segment_states_clips_displays rows Hok Hclip)
    as (clips & Hseg & Hnd & Hall & Hdisp).
  set (linked := concat (map (fun g : value * list dict => linked_clip g.2) clips)).
  assert (Hcols : forall o, In o linked ->
            dict_keys o = linked_keys
            /\ exists p, planner_row o = Ok p /\ dict_keys p = planner_keys).
  { intros o Ho. apply in_concat in Ho as (l & Hl & Ho).
    apply in_map_iff in Hl as (g & <- & Hg).
    apply list_elem_of_In, list_elem_of_lookup_1 in Ho as [i Hi].
    unfold linked_clip in Hi. rewrite list_lookup_imap in Hi.
    destruct (g.2 !! i) as [seg|] eqn:Es; [|discriminate]. inversion Hi; subst o.
    rewrite Forall_forall in Hdisp.
    pose proof (Hdisp g (proj2 (list_elem_of_In _ _) Hg)) as Hd.
    rewrite Forall_forall in Hd.
    destruct (linked_segment_columns g.2 i seg (Hd seg (list_elem_of_lookup_2 _ _ _ Es)))
      as (Hk & st & p & Hp & Hpk & _).
    split; [exact Hk|]. exists p. auto. }
  destruct (mapM_total planner_row linked) as (prows & Hprows & _).
  { intros o Ho. destruct (Hcols o Ho) as (_ & p & Hp & _). exists p. exact Hp. }
  exists (concat (map snd clips)), linked, prows.
  split; [exact Hseg|]. split; [apply add_prev_next_clips; assumption|].
  split; [exact Hprows|]. split; [|split; [|split]].
  - apply Forall_forall. intros o Ho. apply (Hcols o), list_elem_of_In, Ho.
  - clear -Hprows Hcols. revert prows Hprows.
    induction linked as [|o t IH]; intros prows Hprows.
    + inversion Hprows. constructor.
    + cbn [mapM] in Hprows.
      destruct (Hcols o (or_introl eq_refl)) as (_ & p & Hp & Hpk).
      rewrite Hp in Hprows. cbn [mbind result_bind] in Hprows.
      destruct (mapM planner_row t) as [ps|] eqn:Et; [|discriminate].
      inversion Hprows; subst prows. constructor; [exact Hpk|].
      apply IH; [|reflexivity]. intros o' Ho'. apply Hcols. right. exact Ho'.
  - intros k. unfold machine_fields, linked_keys. simpl. tauto.
  - intros k. unfold planner_fields, planner_keys, linked_keys. simpl. tauto.
Qed.

End TableColumns.

Lemma sample_final_clips : Forall (fun r => has_key r (lit "clip")) sample_final_rows.
Proof.
  repeat apply Forall_cons_2; [| | |apply Forall_nil_2]; vm_compute; discriminate.
Qed.


(** X23 on the final rows of the sample clip. *)
Lemma machine_and_planner_rows_are_complete_witness :
  exists segs linked planner_rows,
    segment_states no_int sample_final_rows = Ok segs
    /\ add_prev_next segs = Ok linked
    /\ mapM planner_row linked = Ok planner_rows
    /\ Forall (fun o => dict_keys o = linked_keys) linked
    /\ Forall (fun p => dict_keys p = planner_keys) planner_rows
    /\ (forall k, In k machine_fields <-> In k linked_keys)
    /\ (forall k, In k planner_fields -> In k planner_keys).
Proof.
  exact (machine_and_planner_rows_are_complete no_int sample_final_rows
           sample_final_frames sample_final_clips).
Defined.

(** ** The parser of the model's answers *)

Lemma split_once_In (sep : N) (s : pystr) :
  In sep s -> exists rest, (split_once sep s).2 = Some rest.
Proof.
  induction s as [|c t IH]; simpl; [tauto|].
  destruct (N.eqb_spec c sep) as [->|Hne]; simpl; [eauto|].
  intros [H|H]; [congruence | exact (IH H)].
Qed.

Lemma assign_part_strings out part :
  labels_are_strings out -> labels_are_strings (assign_part out part).
Proof.
  intros H k Hk. unfold assign_part.
  destruct (existsb (N.eqb 61) part); [|exact (H k Hk)].
  destruct (decide (strip (split_once 61 part).1 = lit k)) as [->|Hne].
  - rewrite dict_get_set_eq. eauto.
  - rewrite dict_get_set_ne by exact Hne. exact (H k Hk).
Qed.

Lemma assign_parts_strings parts : forall out,
  labels_are_strings out -> labels_are_strings (fold_left assign_part parts out).
Proof.
  induction parts as [|p t IH]; intros out H; [exact H|].
  simpl. apply IH, assign_part_strings, H.
Qed.

Lemma clamp_spec (valid : list string) (k : string) (out : dict) :
  In k ["affordance"; "yield_to"; "lead_state"] ->
  labels_are_strings out ->
  exists out',
    clamp valid k out = Ok out'
    /\ labels_are_strings out'
    /\ label_in valid (attr k out')
    /\ (forall k', lit k' <> lit k -> dict_get out' (lit k') = dict_get out (lit k'))
    /\ (label_in valid (attr k out) -> out' = out).
Proof.
  intros Hk Hs. destruct (Hs k Hk) as [s Hv].
  unfold clamp, getitem. rewrite Hv. cbn [mbind result_bind].
  destruct (existsb (fun s0 => bool_decide (VStr s = VStr (lit s0))) valid) eqn:E.
  - exists out. split; [reflexivity|]. split; [exact Hs|]. split; [|auto].
    apply existsb_exists in E as (s0 & Hin & Heq). apply bool_decide_eq_true in Heq.
    right. exists s0. unfold attr, get_or. rewrite Hv. auto.
  - exists (dict_set out (lit k) (VStr (lit ""))). split; [reflexivity|].
    split; [|split; [|split]].
    + intros k' Hk'. destruct (decide (lit k = lit k')) as [Heq|Hne].
      * rewrite Heq, dict_get_set_eq. eauto.
      * rewrite dict_get_set_ne by exact Hne. exact (Hs k' Hk').
    + left. unfold attr, get_or. rewrite dict_get_set_eq. reflexivity.
    + intros k' Hne. apply dict_get_set_ne. congruence.
    + intros [Hempty|(s0 & Hin & Heq)]; unfold attr, get_or in *; rewrite Hv in *.
      * apply dict_set_same. rewrite Hv. congruence.
      * exfalso. assert (Hex : existsb (fun s1 => bool_decide (VStr s = VStr (lit s1))) valid
                               = true).
        { apply existsb_exists. exists s0. split; [exact Hin|].
          apply bool_decide_eq_true. exact Heq. }
        congruence.
Qed.

Lemma label_in_trimmed valid v :
  Forall (fun s => trimmed (lit s)) valid ->
  label_in valid v -> exists s, v = VStr s /\ trimmed s.
Proof.
  intros Hall [->|(s & Hin & ->)].
  - exists (lit ""). split; reflexivity.
  - exists (lit s). split; [reflexivity|]. rewrite Forall_forall in Hall.
    apply Hall, list_elem_of_In, Hin.
Qed.

(** The three clamps at the end of [parse_world_state]. *)
Lemma clamps_spec (out : dict) :
  labels_are_strings out ->
  exists o3,
    (o1 ← clamp valid_aff "affordance" out;
     o2 ← clamp valid_yield "yield_to" o1;
     clamp valid_lead "lead_state" o2) = Ok o3
    /\ label_in valid_aff (attr "affordance" o3)
    /\ label_in valid_yield (attr "yield_to" o3)
    /\ label_in valid_lead (attr "lead_state" o3)
    /\ (label_in valid_aff (attr "affordance" out) ->
        attr "affordance" o3 = attr "affordance" out)
    /\ (label_in valid_yield (attr "yield_to" out) ->
        attr "yield_to" o3 = attr "yield_to" out)
    /\ (label_in valid_lead (attr "lead_state" out) ->
        attr "lead_state" o3 = attr "lead_state" out).
Proof.
  intros H0.
  destruct (clamp_spec valid_aff "affordance" out) as (o1 & E1 & H1 & L1 & K1 & S1);
    [simpl; auto | exact H0 |].
  destruct (clamp_spec valid_yield "yield_to" o1) as (o2 & E2 & H2 & L2 & K2 & S2);
    [simpl; auto | exact H1 |].
  destruct (clamp_spec valid_lead "lead_state" o2) as (o3 & E3 & H3 & L3 & K3 & S3);
    [simpl; auto | exact H2 |].
  exists o3. rewrite E1. cbn [mbind result_bind]. rewrite E2. cbn [mbind result_bind].
  split; [exact E3|].
  assert (A3 : attr "affordance" o3 = attr "affordance" o1).
  { unfold attr, get_or.
    rewrite (K3 "affordance"), (K2 "affordance") by (vm_compute; discriminate).
    reflexivity. }
  assert (Y3 : attr "yield_to" o3 = attr "yield_to" o2).
  { unfold attr, get_or. rewrite (K3 "yield_to") by (vm_compute; discriminate).
    reflexivity. }
  assert (Y1 : attr "yield_to" o1 = attr "yield_to" out).
  { unfold attr, get_or. rewrite (K1 "yield_to") by (vm_compute; discriminate).
    reflexivity. }
  assert (L2' : attr "lead_state" o2 = attr "lead_state" out).
  { unfold attr, get_or.
    rewrite (K2 "lead_state"), (K1 "lead_state") by (vm_compute; discriminate).
    reflexivity. }
  split; [rewrite A3; exact L1|]. split; [rewrite Y3; exact L2|]. split; [exact L3|].
  split; [|split].
  - intros Hin. rewrite A3, (S1 Hin). reflexivity.
  - intros Hin. rewrite Y3. rewrite <- Y1 in Hin. rewrite (S2 Hin). exact Y1.
  - intros Hin. rewrite <- L2' in Hin. rewrite (S3 Hin). exact L2'.
Qed.

Section ParserProps.

Variable lower : pystr -> pystr.
Hypothesis lower_keeps_colon :
  forall s, startswith (lower s) (lit "explanation:") = true -> In 58%N s.

(** Up to the clamps: the dictionary after the explanation and the
    assignments of the first line. *)
Lemma parse_world_state_steps (text : pystr) :
  (stripped_nonblank (splitlines (strip text)) = []
   /\ exists out, parse_world_state lower text = Ok out
        /\ attr "affordance" out = VStr (lit "")
        /\ attr "yield_to" out = VStr (lit "")
        /\ attr "lead_state" out = VStr (lit ""))
  \/ (exists first more e,
        stripped_nonblank (splitlines (strip text)) = first :: more
        /\ parse_world_state lower text
           = (o1 ← clamp valid_aff "affordance"
                     (fold_left assign_part (stripped_nonblank (split 59 first))
                        [ (lit "affordance", VStr (lit "")); (lit "yield_to", VStr (lit ""));
                          (lit "lead_state", VStr (lit "")); (lit "explanation", VStr e);
                          (lit "raw", VStr (strip text)) ]);
              o2 ← clamp valid_yield "yield_to" o1;
              clamp valid_lead "lead_state" o2)).
Proof.
  unfold parse_world_state. cbv zeta.
  destruct (stripped_nonblank (splitlines (strip text))) as [|first more] eqn:E.
  - left. split; [reflexivity|]. eexists. split; [reflexivity|]. repeat split.
  - right. destruct more as [|l1 more'].
    + exists first, [], (lit ""). split; reflexivity.
    + destruct (startswith (lower l1) (lit "explanation:")) eqn:Es.
      * destruct (split_once_In 58 l1 (lower_keeps_colon l1 Es)) as [rest Hrest].
        exists first, (l1 :: more'), (strip rest). split; [reflexivity|].
        rewrite Hrest. reflexivity.
      * exists first, (l1 :: more'), l1. split; reflexivity.
Qed.

(** X24: [parse_world_state] returns a dictionary for every answer the
    model gives, and its three labels are always words of the vocabulary or
    the empty string: affordance one of go, wait, stop, yield_to one of
    none, lead, ped, lead_state one of none, moving, stopped. So a label
    that reaches the raw table has no surrounding white space. *)
Theorem parse_world_state_labels :
  forall text : pystr,
    exists out,
      parse_world_state lower text = Ok out
      /\ label_in valid_aff (attr "affordance" out)
      /\ label_in valid_yield (attr "yield_to" out)
      /\ label_in valid_lead (attr "lead_state" out)
      /\ (forall k, In k ["affordance"; "yield_to"; "lead_state"] ->
            exists s, attr k out = VStr s /\ trimmed s).
Proof.
  intros text.
  assert (Hgoal : exists out,
             parse_world_state lower text = Ok out
             /\ label_in valid_aff (attr "affordance" out)
             /\ label_in valid_yield (attr "yield_to" out)
             /\ label_in valid_lead (attr "lead_state" out)).
  { destruct (parse_world_state_steps text)
      as [(_ & out & Hrun & Ha & Hy & Hl)|(first & more & e & _ & Hrun)].
    - exists out. split; [exact Hrun|]. rewrite Ha, Hy, Hl.
      repeat split; left; reflexivity.
    - rewrite Hrun.
      destruct (clamps_spec
                  (fold_left assign_part (stripped_nonblank (split 59 first))
                     [ (lit "affordance", VStr (lit "")); (lit "yield_to", VStr (lit ""));
                       (lit "lead_state", VStr (lit "")); (lit "explanation", VStr e);
                       (lit "raw", VStr (strip text)) ]))
        as (o3 & Hrun3 & H1 & H2 & H3 & _).
      + apply assign_parts_strings. intros k [<-|[<-|[<-|[]]]]; eexists; reflexivity.
      + exists o3. auto. }
  destruct Hgoal as (out & Hrun & Ha & Hy & Hl).
  exists out. split; [exact Hrun|]. split; [exact Ha|]. split; [exact Hy|].
  split; [exact Hl|].
  intros k [<-|[<-|[<-|[]]]].
  - apply (label_in_trimmed valid_aff); [|exact Ha].
    repeat constructor; vm_compute; reflexivity.
  - apply (label_in_trimmed valid_yield); [|exact Hy].
    repeat constructor; vm_compute; reflexivity.
  - apply (label_in_trimmed valid_lead); [|exact Hl].
    repeat constructor; vm_compute; reflexivity.
Qed.

End ParserProps.

(** ** Answers in the format of the prompt *)

Lemma lstrip_app_no_lead (p q : pystr) :
  no_lead q -> lstrip (p ++ q) = lstrip p ++ q.
Proof.
  intros Hq. induction p as [|c t IH]; simpl.
  - apply lstrip_fix, Hq.
  - destruct (isspace c); [exact IH | reflexivity].
Qed.

Lemma rstrip_app_no_trail (a b : pystr) :
  no_lead (rev a) -> rstrip (a ++ b) = a ++ rstrip b.
Proof.
  intros Ha. unfold rstrip. rewrite rev_app_distr, (lstrip_app_no_lead _ _ Ha).
  rewrite rev_app_distr, rev_involutive. reflexivity.
Qed.

Lemma whole_line_facts (s : pystr) :
  whole_line s = true ->
  s <> [] /\ no_lead s /\ no_lead (rev s)
  /\ forallb (fun x => negb (is_linebreak x)) s = true.
Proof.
  unfold whole_line. destruct s as [|c t]; [discriminate|].
  destruct (rev (c :: t)) as [|d u] eqn:E; [discriminate|].
  intros H. apply andb_true_iff in H as [H H3]. apply andb_true_iff in H as [H1 H2].
  apply negb_true_iff in H1, H2.
  split; [discriminate|]. split; [exact H1|]. split; [exact H2 | exact H3].
Qed.

Lemma whole_line_strip (s tail : pystr) :
  whole_line s = true ->
  strip s = s /\ strip (s ++ tail) = s ++ rstrip tail.
Proof.
  intros H. destruct (whole_line_facts s H) as (Hne & H1 & H2 & _).
  assert (Hs : forall t, strip (s ++ t) = s ++ rstrip t).
  { intros t. unfold strip. rewrite lstrip_fix.
    - apply rstrip_app_no_trail, H2.
    - destruct s; [congruence | exact H1]. }
  split; [|apply Hs].
  rewrite <- (app_nil_r s) at 1. rewrite Hs. unfold rstrip. simpl. apply app_nil_r.
Qed.

Lemma splitlines_from_whole (s : pystr) : forall (x cur : pystr),
  forallb (fun c => negb (is_linebreak c)) s = true ->
  splitlines_from (s ++ x) cur = splitlines_from x (rev s ++ cur).
Proof.
  induction s as [|c t IH]; intros x cur H; [reflexivity|].
  simpl in H. apply andb_true_iff in H as [Hc Ht]. apply negb_true_iff in Hc.
  cbn [app splitlines_from]. rewrite Hc, (IH x (c :: cur) Ht).
  simpl. rewrite <- app_assoc. reflexivity.
Qed.

(** The first line of an answer that begins with a whole line. *)
Lemma first_line_whole (s tail : pystr) :
  whole_line s = true ->
  tail = [] \/ (exists rest, tail = 10%N :: rest) ->
  exists more, stripped_nonblank (splitlines (strip (s ++ tail))) = s :: more.
Proof.
  intros H Htail. destruct (whole_line_strip s tail H) as [Hs Hst].
  destruct (whole_line_facts s H) as (Hne & _ & _ & Hnb).
  rewrite Hst. unfold splitlines. rewrite (splitlines_from_whole s _ [] Hnb), app_nil_r.
  assert (Hx : rstrip tail = [] \/ exists w, rstrip tail = 10%N :: w).
  { destruct Htail as [->|(rest & ->)]; [left; reflexivity|].
    destruct (rstrip_prefix (10%N :: rest)) as [w Hw].
    destruct (rstrip (10%N :: rest)) as [|c u]; [left; reflexivity|].
    right. inversion Hw. eauto. }
  assert (Hhead : forall ls, stripped_nonblank (s :: ls) = s :: stripped_nonblank ls).
  { intros ls. unfold stripped_nonblank. cbn [map List.filter]. rewrite Hs.
    destruct s; [congruence | reflexivity]. }
  destruct Hx as [->|(w & ->)].
  - exists []. cbn [splitlines_from].
    destruct (rev s) as [|d u] eqn:E.
    + apply (f_equal (@rev N)) in E. rewrite rev_involutive in E. simpl in E. congruence.
    + rewrite <- E, rev_involutive. apply Hhead.
  - cbn [splitlines_from]. change (is_linebreak 10) with true. cbv iota.
    rewrite rev_involutive.
    change ((10 =? 13)%N) with false. cbn [andb].
    exists (stripped_nonblank (splitlines_from w [])).
    destruct w as [|d w']; apply Hhead.
Qed.

Lemma label_line_whole (a y l : string) :
  In a valid_aff -> In y valid_yield -> In l valid_lead ->
  whole_line (label_line a y l) = true.
Proof.
  unfold valid_aff, valid_yield, valid_lead.
  intros [<-|[<-|[<-|[]]]] [<-|[<-|[<-|[]]]] [<-|[<-|[<-|[]]]]; vm_compute; reflexivity.
Qed.

(** The labels assigned by a line in the format of the prompt survive the
    clamps. *)
Lemma label_line_assigned (a y l : string) (e t : pystr) :
  In a valid_aff -> In y valid_yield -> In l valid_lead ->
  exists out,
    (o1 ← clamp valid_aff "affordance"
            (fold_left assign_part (stripped_nonblank (split 59 (label_line a y l)))
               [ (lit "affordance", VStr (lit "")); (lit "yield_to", VStr (lit ""));
                 (lit "lead_state", VStr (lit "")); (lit "explanation", VStr e);
                 (lit "raw", VStr t) ]);
     o2 ← clamp valid_yield "yield_to" o1;
     clamp valid_lead "lead_state" o2) = Ok out
    /\ attr "affordance" out = VStr (lit a)
    /\ attr "yield_to" out = VStr (lit y)
    /\ attr "lead_state" out = VStr (lit l)
    /\ attr "explanation" out = VStr e.
Proof.
  unfold valid_aff, valid_yield, valid_lead.
  intros [<-|[<-|[<-|[]]]] [<-|[<-|[<-|[]]]] [<-|[<-|[<-|[]]]];
    (eexists; split; [vm_compute; reflexivity | repeat split]).
Qed.

Section ParserFormat.

Variable lower : pystr -> pystr.
Hypothesis lower_keeps_colon :
  forall s, startswith (lower s) (lit "explanation:") = true -> In 58%N s.

(** X25: an answer in the format the prompt asks for is read back.
    When the text starts with the line
    "affordance=a; yield_to=y; lead_state=l;" for labels of the vocabulary,
    and either ends there or goes on after a newline with anything at all,
    [parse_world_state] returns exactly the labels a, y and l. *)
Theorem parse_world_state_reads_format :
  forall (a y l : string) (tail : pystr),
    In a valid_aff -> In y valid_yield -> In l valid_lead ->
    tail = [] \/ (exists rest, tail = 10%N :: rest) ->
    exists out,
      parse_world_state lower (label_line a y l ++ tail) = Ok out
      /\ attr "affordance" out = VStr (lit a)
      /\ attr "yield_to" out = VStr (lit y)
      /\ attr "lead_state" out = VStr (lit l).
Proof.
  intros a y l tail Ha Hy Hl Htail.
  destruct (first_line_whole (label_line a y l) tail (label_line_whole a y l Ha Hy Hl) Htail)
    as (more0 & Hlines).
  destruct (parse_world_state_steps lower lower_keeps_colon (label_line a y l ++ tail))
    as [(Hnil & _)|(first & more & e & Hl' & Hrun)].
  - rewrite Hlines in Hnil. discriminate.
  - rewrite Hlines in Hl'. inversion Hl'; subst first more.
    destruct (label_line_assigned a y l e (strip (label_line a y l ++ tail)) Ha Hy Hl)
      as (out & Hout & H1 & H2 & H3 & _).
    exists out. rewrite Hrun. auto.
Qed.

End ParserFormat.

(** Lower case of the letters A-Z keeps every colon where it is. *)
Lemma ascii_lower_keeps_colon (s : pystr) :
  startswith (ascii_lower s) (lit "explanation:") = true -> In 58%N s.
Proof.
  unfold ascii_lower.
  change (lit "explanation:")
    with [101; 120; 112; 108; 97; 110; 97; 116; 105; 111; 110; 58]%N.
  do 12 (destruct s as [|?c s]; [cbn [map startswith]; try discriminate;
                                 intros H; repeat (apply andb_true_iff in H as [_ H]);
                                 discriminate|]).
  cbn [map startswith].
  intros H. do 11 (apply andb_true_iff in H as [_ H]).
  apply andb_true_iff in H as [H _].
  do 11 right. left.
  apply N.eqb_eq in H. revert H.
  match goal with
  | |- (if ?b then _ else _) = _ -> _ => destruct b eqn:E
  end; intros Hc; [|exact Hc].
  apply andb_true_iff in E as [E1 E2]. apply N.leb_le in E1, E2. lia.
Qed.

(** X24 on an answer with a label outside the vocabulary. *)
Lemma parse_world_state_labels_witness :
  exists out,
    parse_world_state ascii_lower (lit " affordance=go; yield_to=PED; lead_state = none") = Ok out
    /\ label_in valid_aff (attr "affordance" out)
    /\ label_in valid_yield (attr "yield_to" out)
    /\ label_in valid_lead (attr "lead_state" out)
    /\ (forall k, In k ["affordance"; "yield_to"; "lead_state"] ->
          exists s, attr k out = VStr s /\ trimmed s).
Proof.
  exact (parse_world_state_labels ascii_lower ascii_lower_keeps_colon
           (lit " affordance=go; yield_to=PED; lead_state = none")).
Defined.

(** X25 on the first example of the prompt. *)
Lemma parse_world_state_reads_format_witness :
  exists out,
    parse_world_state ascii_lower
      (label_line "stop" "lead" "stopped"
       ++ 10%N :: lit "explanation: The ego car is stopped behind another vehicle.") = Ok out
    /\ attr "affordance" out = VStr (lit "stop")
    /\ attr "yield_to" out = VStr (lit "lead")
    /\ attr "lead_state" out = VStr (lit "stopped").
Proof.
  apply (parse_world_state_reads_format ascii_lower ascii_lower_keeps_colon
           "stop" "lead" "stopped").
  - right. right. left. reflexivity.
  - right. left. reflexivity.
  - right. right. left. reflexivity.
  - right. eexists. reflexivity.
Defined.

(** ** The three stages, one after the other *)

Lemma producer_row_raw_frame d : producer_row d -> raw_frame d.
Proof.
  intros ((c & Hc & _) & Hz & Hl). split; [unfold has_key; rewrite Hc; discriminate|].
  split; [exact Hz|].
  repeat split; unfold has_key.
  - destruct (Hl "affordance") as (v & -> & _); [simpl; auto | discriminate].
  - destruct (Hl "yield_to") as (v & -> & _); [simpl; auto | discriminate].
  - destruct (Hl "lead_state") as (v & -> & _); [simpl; auto | discriminate].
Qed.

(** A cell of a rendered row. *)
Lemma rendered_get (fields : list pystr) (o : dict) (k : pystr) :
  In k fields ->
  dict_get (rendered fields o) k = Some (render (get_or o k (VStr (lit "")))).
Proof.
  unfold rendered. induction fields as [|k0 t IH]; intros Hin; [destruct Hin|].
  cbn [map dict_get]. destruct (k0 == k) eqn:E.
  - apply str_eqb_eq in E. subst k0. reflexivity.
  - apply str_eqb_neq in E. apply IH. destruct Hin; [congruence | assumption].
Qed.

Lemma smooth_dict_get_smoothed ds i d k ks :
  In (k, ks) smoothed_attrs ->
  dict_get (smooth_dict ds i d) (lit ks) = Some (smoothed_value k (window3 ds i) d).
Proof.
  unfold smoothed_attrs, smooth_dict. cbv zeta.
  intros [H|[H|[H|[]]]]; inversion H; subst k ks.
  - rewrite !(dict_get_set_ne _ _ (lit "affordance_smoothed")) by (vm_compute; congruence).
    apply dict_get_set_eq.
  - rewrite (dict_get_set_ne _ _ (lit "yield_to_smoothed")) by (vm_compute; congruence).
    apply dict_get_set_eq.
  - apply dict_get_set_eq.
Qed.

Lemma smooth_dict_get_other ds i d k :
  ~ In k extra_fields -> dict_get (smooth_dict ds i d) k = dict_get d k.
Proof.
  unfold extra_fields, smooth_dict. cbv zeta. simpl. intros H.
  rewrite !dict_get_set_ne by tauto. reflexivity.
Qed.

(** The smoothed labels of producer rows are labels of producer rows. *)
Lemma smoothed_value_trimmed (c : list dict) i d k :
  Forall producer_row c -> c !! i = Some d ->
  In k ["affordance"; "yield_to"; "lead_state"] ->
  exists v, smoothed_value k (window3 c i) d = VStr v /\ trimmed v.
Proof.
  intros Hc Hd Hk.
  destruct (smoothed_value_source c i d k Hd) as (j & d' & _ & Hd' & ->).
  rewrite Forall_forall in Hc.
  destruct (Hc d' (list_elem_of_lookup_2 _ _ _ Hd')) as (_ & _ & Hl).
  destruct (Hl k Hk) as (v & Hv & Ht). exists v. unfold attr, get_or. rewrite Hv. auto.
Qed.

Section Pipeline.

Variable int_of_str : pystr -> option Z.
Hypothesis int_of_str_of_int : forall z, int_of_str (str_of_int z) = Some z.

(** A record of the smoothed table, read back by the next stage, is a
    smoothed frame. *)
Lemma smoothed_record_frame (fields : list pystr) (c : list dict) i d :
  In (lit "clip") fields -> In (lit "frame_index") fields ->
  (forall k, In k extra_fields -> In k fields) ->
  Forall producer_row c -> c !! i = Some d ->
  exists o',
    normalize_frame_index int_of_str (rendered fields (smooth_dict c i d)) = Ok o'
    /\ smoothed_frame o'.
Proof.
  intros Fc Ff Fe Hc Hd.
  assert (Hp : producer_row d).
  { rewrite Forall_forall in Hc. eapply Hc, list_elem_of_lookup_2, Hd. }
  destruct Hp as ((cl & Hcl & Tcl) & (z & Hz) & _).
  set (o := smooth_dict c i d). set (R := rendered fields o).
  assert (Rfi : dict_get R (lit "frame_index") = Some (VStr (str_of_int z))).
  { unfold R. rewrite rendered_get by exact Ff. unfold get_or, o.
    rewrite smooth_dict_get_other by (vm_compute; intuition discriminate).
    rewrite Hz. reflexivity. }
  assert (Rcl : dict_get R (lit "clip") = Some (VStr cl)).
  { unfold R. rewrite rendered_get by exact Fc. unfold get_or, o.
    rewrite smooth_dict_get_other by (vm_compute; intuition discriminate).
    rewrite Hcl. reflexivity. }
  assert (Rsm : forall k ks, In (k, ks) smoothed_attrs ->
            exists v, dict_get R (lit ks) = Some (VStr v) /\ trimmed v).
  { intros k ks Hk.
    assert (Hkk : In k ["affordance"; "yield_to"; "lead_state"]).
    { destruct Hk as [H|[H|[H|[]]]]; inversion H; simpl; auto. }
    assert (Hks : In (lit ks) extra_fields).
    { destruct Hk as [H|[H|[H|[]]]]; inversion H; simpl; auto. }
    destruct (smoothed_value_trimmed c i d k Hc Hd Hkk) as (v & Hv & Tv).
    exists v. split; [|exact Tv]. unfold R. rewrite rendered_get by (apply Fe, Hks).
    unfold get_or, o. rewrite (smooth_dict_get_smoothed c i d k ks Hk), Hv. reflexivity. }
  exists (dict_set R (lit "frame_index") (VInt z)). split.
  - unfold normalize_frame_index, getitem. rewrite Rfi.
    cbn [mbind result_bind py_int]. rewrite int_of_str_of_int. reflexivity.
  - split; [exists cl; split; [|exact Tcl]|].
    { rewrite dict_get_set_ne by (vm_compute; congruence). exact Rcl. }
    split; [exists z; apply dict_get_set_eq|].
    destruct (Rsm "affordance" "affordance_smoothed") as (a & Ha & Ta); [simpl; auto|].
    destruct (Rsm "yield_to" "yield_to_smoothed") as (y & Hy & Ty); [simpl; auto|].
    destruct (Rsm "lead_state" "lead_state_smoothed") as (l & Hl & Tl); [simpl; auto|].
    split; [exists a|split; [exists y|exists l]];
      (split; [rewrite dict_get_set_ne by (vm_compute; congruence); assumption | assumption]).
Qed.

(** All the records of the smoothed table. *)
Lemma smoothed_records_frames (fields : list pystr) (clips : list (list dict)) :
  In (lit "clip") fields -> In (lit "frame_index") fields ->
  (forall k, In k extra_fields -> In k fields) ->
  Forall (Forall producer_row) clips ->
  exists rows1,
    mapM (normalize_frame_index int_of_str)
      (map (rendered fields) (concat (map smooth_all clips))) = Ok rows1
    /\ Forall smoothed_frame rows1
    /\ length rows1 = length (concat (map smooth_all clips)).
Proof.
  intros Fc Ff Fe Hall.
  assert (Hrec : forall o, In o (concat (map smooth_all clips)) ->
            exists o', normalize_frame_index int_of_str (rendered fields o) = Ok o'
                       /\ smoothed_frame o').
  { intros o Ho. apply in_concat in Ho as (l & Hl & Ho).
    apply in_map_iff in Hl as (c & <- & Hc).
    apply list_elem_of_In, list_elem_of_lookup_1 in Ho as [i Hi].
    unfold smooth_all in Hi. rewrite list_lookup_imap in Hi.
    destruct (c !! i) as [d|] eqn:Ed; [|discriminate]. inversion Hi; subst o.
    rewrite Forall_forall in Hall.
    apply (smoothed_record_frame fields c i d Fc Ff Fe
             (Hall c (proj2 (list_elem_of_In _ _) Hc)) Ed). }
  induction (concat (map smooth_all clips)) as [|o t IH].
  - exists []. split; [reflexivity|]. split; [constructor | reflexivity].
  - destruct (Hrec o (or_introl eq_refl)) as (o' & Ho' & Hf).
    destruct IH as (t' & Ht' & Hft & Hlen); [intros x Hx; apply Hrec; right; exact Hx|].
    exists (o' :: t'). cbn [map mapM]. rewrite Ho'. cbn [mbind result_bind]. rewrite Ht'.
    split; [reflexivity|]. split; [constructor; assumption | simpl; rewrite Hlen; reflexivity].
Qed.


Lemma dict_get_In_keys d k v : dict_get d k = Some v -> In k (dict_keys d).
Proof.
  unfold dict_keys. induction d as [|[k0 v0] t IH]; simpl; [discriminate|].
  destruct (k0 == k) eqn:E.
  - apply str_eqb_eq in E. auto.
  - intros H. right. exact (IH H).
Qed.

(** The raw table of the producer loads. *)
Lemma producer_rows_load : forall (rows rows' : list dict) (m : gmap (pystr * Z) dict),
  Forall2 (frame_index_converted int_of_str) rows rows' ->
  Forall producer_row rows' ->
  exists m', load_raw_loop int_of_str rows m = Ok m'.
Proof.
  induction rows as [|r t IH]; intros rows' m Hconv Hprod.
  - exists m. reflexivity.
  - inversion Hconv as [|? r' ? t' Hr Ht]; subst.
    inversion Hprod as [|? ? Hp Hpt]; subst.
    destruct Hr as (_ & (z & Hz & _) & Hsame).
    destruct Hp as ((c & Hc & _) & _ & Hl).
    assert (Hget : forall k v, lit k <> lit "frame_index" ->
              dict_get r' (lit k) = Some (VStr v) ->
              getitem r (lit k) ≫= py_strip = Ok (strip v)).
    { intros k v Hk Hv. unfold getitem. rewrite <- (Hsame (lit k) Hk), Hv. reflexivity. }
    destruct (Hl "affordance") as (a & Ha & _); [simpl; auto|].
    destruct (Hl "yield_to") as (y & Hy & _); [simpl; auto|].
    destruct (Hl "lead_state") as (l & Hll & _); [simpl; auto|].
    cbn [load_raw_loop].
    rewrite (Hget "clip" c) by (vm_compute; congruence || exact Hc).
    cbn [mbind result_bind]. rewrite Hz. cbn [mbind result_bind].
    rewrite (Hget "affordance" a) by (vm_compute; congruence || exact Ha).
    cbn [mbind result_bind].
    rewrite (Hget "yield_to" y) by (vm_compute; congruence || exact Hy).
    cbn [mbind result_bind].
    rewrite (Hget "lead_state" l) by (vm_compute; congruence || exact Hll).
    cbn [mbind result_bind].
    apply (IH t' _ Ht Hpt).
Qed.

(** X26: the three stages fit together. On a raw table as the inference
    stage writes it (clip, frame index and labels without surrounding
    white space, every row with the columns of the first), for an [int]
    that reads back what [str] prints, [temporal_smoothing.main],
    [segment_world_state.main] and [build_state_and_planner.main] run one
    after the other without raising: each stage accepts the table the
    stage before it wrote. In the end the five tables exist and no other
    file has changed. *)
Theorem pipeline_runs_through :
  forall (s : fs) (t : table) (r0 : dict) (rest : list dict),
    s !! INPUT_FILENAME = Some t ->
    mapM (normalize_frame_index int_of_str) (records t) = Ok (r0 :: rest) ->
    Forall producer_row (r0 :: rest) ->
    Forall (fun d => forall k, In k (dict_keys d) -> In k (dict_keys r0)) rest ->
    exists s1 s2 s3 : fs,
      smoothing_main int_of_str s = (Ok tt, s1)
      /\ segment_main int_of_str s1 = (Ok tt, s2)
      /\ build_main int_of_str s2 = (Ok tt, s3)
      /\ (forall path, In path pipeline_outputs -> is_Some (s3 !! path))
      /\ (forall path, ~ In path pipeline_outputs -> s3 !! path = s !! path).
Proof.
  intros s t r0 rest Hin Hnorm Hprod Hcols.
  set (fields := dict_keys r0 ++ extra_fields).
  destruct (smoothing_main_writes_table int_of_str s t r0 rest Hin Hnorm)
    as (keys & clips & Hrun1 & _ & _ & _ & Hperm & Hlen); [|exact Hcols|].
  { eapply Forall_impl; [exact Hprod|]. apply producer_row_raw_frame. }
  fold fields in Hrun1.
  assert (Hclips : Forall (Forall producer_row) clips).
  { apply Forall_forall. intros c Hc. apply Forall_forall. intros d Hd.
    rewrite Forall_forall in Hprod. apply Hprod, list_elem_of_In.
    eapply Permutation_in; [exact Hperm|]. apply in_concat. exists c.
    split; apply list_elem_of_In; assumption. }
  assert (H0 : producer_row r0) by (inversion Hprod; assumption).
  destruct H0 as ((c0 & Hc0 & _) & (z0 & Hz0) & _).
  destruct (smoothed_records_frames fields clips) as (rows1 & Hrows1 & Hfr & Hlen1).
  { apply in_or_app. left. eapply dict_get_In_keys, Hc0. }
  { apply in_or_app. left. eapply dict_get_In_keys, Hz0. }
  { intros k Hk. apply in_or_app. right. exact Hk. }
  { exact Hclips. }
  set (T1 := {| fieldnames := fields;
                records := map (rendered fields) (concat (map smooth_all clips)) |}) in *.
  set (s1 := <[OUTPUT_FILENAME := T1]> s) in *.
  assert (Hs1 : s1 !! OUTPUT_FILENAME = Some T1) by apply lookup_insert_eq.
  destruct (segment_main_writes_segments int_of_str s1 T1 rows1 Hs1 Hrows1)
    as (by_clip & per_clip & Hrun2 & _ & _).
  { eapply Forall_impl; [exact Hfr|]. intros d Hd. apply (smoothed_frame_phase d Hd). }
  { eapply Forall_impl; [exact Hfr|]. intros d Hd. apply (smoothed_frame_phase d Hd). }
  set (s2 := <[SEGMENTS_FILENAME := segments_table (concat per_clip)]> s1) in *.
  destruct (normalize_rows_converted int_of_str _ _ Hnorm) as [Hconv _].
  destruct (producer_rows_load (records t) (r0 :: rest) ∅ Hconv Hprod) as (raw_map & Hload).
  assert (Hne1 : rows1 <> []).
  { intros ->. simpl in Hlen1. rewrite <- Hlen1 in Hlen.
    apply Forall2_length in Hconv. simpl in Hconv. lia. }
  destruct (build_main_writes_tables int_of_str s2 t T1 raw_map rows1)
    as (s3 & tfin & tmach & tplan & Hrun3 & Hf & Hm & Hp & _ & _ & _ & _ & _ & Hother);
    [| |exact Hload|exact Hrows1|exact Hfr|exact Hne1|].
  { unfold s2, s1. rewrite !lookup_insert_ne by discriminate. exact Hin. }
  { unfold s2. rewrite lookup_insert_ne by discriminate. exact Hs1. }
  exists s1, s2, s3. split; [exact Hrun1|]. split; [exact Hrun2|]. split; [exact Hrun3|].
  split.
  - intros path [<-|[<-|[<-|[<-|[<-|[]]]]]].
    + rewrite Hother by (vm_compute; intuition discriminate).
      unfold s2. rewrite lookup_insert_ne by discriminate. rewrite Hs1. eauto.
    + rewrite Hother by (vm_compute; intuition discriminate).
      unfold s2. rewrite lookup_insert_eq. eauto.
    + rewrite Hf. eauto.
    + rewrite Hm. eauto.
    + rewrite Hp. eauto.
  - intros path Hpath. unfold pipeline_outputs in Hpath. simpl in Hpath.
    rewrite Hother by (unfold build_outputs; simpl; tauto).
    unfold s2, s1. rewrite !lookup_insert_ne by (intros E; apply Hpath; auto).
    reflexivity.
Qed.

End Pipeline.

Lemma producer_rows_normalised :
  exists r0 rest,
    mapM (normalize_frame_index decimal_int)
      [ csv_row "clip1" "0" "wait" "none" "none";
        csv_row "clip1" "1" "go" "none" "none";
        csv_row "clip1" "2" "wait" "none" "none" ] = Ok (r0 :: rest)
    /\ Forall producer_row (r0 :: rest)
    /\ Forall (fun d => forall k, In k (dict_keys d) -> In k (dict_keys r0)) rest.
Proof.
  eexists _, _. split; [vm_compute; reflexivity|]. split.
  - repeat apply Forall_cons_2; [| | |apply Forall_nil_2];
      (split; [eexists; split; vm_compute; reflexivity|];
       split; [eexists; vm_compute; reflexivity|];
       intros k [<-|[<-|[<-|[]]]]; eexists; split; vm_compute; reflexivity).
  - repeat apply Forall_cons_2; [| |apply Forall_nil_2]; intros k Hk; exact Hk.
Qed.

(** X26 on a raw table of three frames. *)
Lemma pipeline_runs_through_witness :
  exists s1 s2 s3 : fs,
    smoothing_main decimal_int producer_tables = (Ok tt, s1)
    /\ segment_main decimal_int s1 = (Ok tt, s2)
    /\ build_main decimal_int s2 = (Ok tt, s3)
    /\ (forall path, In path pipeline_outputs -> is_Some (s3 !! path))
    /\ (forall path, ~ In path pipeline_outputs -> s3 !! path = producer_tables !! path).
Proof.
  destruct producer_rows_normalised as (r0 & rest & Hnorm & Hprod & Hcols).
  exact (pipeline_runs_through decimal_int decimal_int_str_of_int producer_tables
           {| fieldnames := dict_keys (csv_row "" "" "" "" "");
              records := [ csv_row "clip1" "0" "wait" "none" "none";
                           csv_row "clip1" "1" "go" "none" "none";
                           csv_row "clip1" "2" "wait" "none" "none" ] |}
           r0 rest eq_refl Hnorm Hprod Hcols).
Defined.
